(** * Blackbox flight-log parser: a shallow embedding of [src/parser.c]

    The development follows the C source function by function.  Machine
    integers are integers of [Z] with the wrap-around written out, the
    mapped log file is a list of bytes, the decoder's mutable structures
    are records that are passed along explicitly, and the ways a call can
    fail to return ([exit(-1)], undefined behaviour such as a division by
    zero or a store outside a frame buffer, a loop that never leaves) are
    the alternatives of the [result] type.

    The header phase of [flightLogParse] (text lines introduced by ['H'])
    produces the frame definitions and calibration values and is not
    modelled; its outcome is the [flightLog] record the data phase reads.
    Declarations of [parser.h], [blackbox_fielddefs.h] and [tools.h] that
    the source uses are collected in the record [Headers]. *)

From Stdlib Require Import ZArith List Bool Lia.
From Stdlib Require Import Strings.Byte.
Import ListNotations.
Local Open Scope Z_scope.

(** ** Machine integers *)

Definition to_uint8 (z : Z) : Z := z mod 2 ^ 8.
Definition to_uint16 (z : Z) : Z := z mod 2 ^ 16.
Definition to_uint32 (z : Z) : Z := z mod 2 ^ 32.
Definition to_int8 (z : Z) : Z := (z + 2 ^ 7) mod 2 ^ 8 - 2 ^ 7.
Definition to_int16 (z : Z) : Z := (z + 2 ^ 15) mod 2 ^ 16 - 2 ^ 15.
Definition to_int32 (z : Z) : Z := (z + 2 ^ 31) mod 2 ^ 32 - 2 ^ 31.

Definition INT_MIN : Z := - 2 ^ 31.
Definition INT_MAX : Z := 2 ^ 31 - 1.

(** [EOF] of <stdio.h>. *)
Definition EOF : Z := -1.

(** ** Ways of not returning *)

Inductive result (A : Type) : Type :=
| Ok (a : A)
| Exit          (* the program called exit(-1) *)
| Undefined     (* undefined behaviour: division by zero, NULL dereference *)
| OutOfBounds   (* undefined behaviour: a field of a frame stored outside
                   the frame buffer *)
| OutOfFuel.    (* the loop bound of the model was reached *)

Arguments Ok {A} a.
Arguments Exit {A}.
Arguments Undefined {A}.
Arguments OutOfBounds {A}.
Arguments OutOfFuel {A}.

Definition bind {A B : Type} (r : result A) (k : A -> result B) : result B :=
  match r with
  | Ok a => k a
  | Exit => Exit
  | Undefined => Undefined
  | OutOfBounds => OutOfBounds
  | OutOfFuel => OutOfFuel
  end.

Notation "'let*' x ':=' r 'in' k" := (bind r (fun x => k))
  (at level 61, x pattern, r at next level, right associativity).

(** ** Bytes and arrays *)

Definition Z_of_byte (b : byte) : Z := Z.of_N (Byte.to_N b).

Definition byte_of_Z (z : Z) : byte :=
  match Byte.of_N (Z.to_N z) with
  | Some b => b
  | None => "000"%byte
  end.

(** A C array of integers is a list.  A list shorter than the array stands
    for an array whose other entries are 0, so a read past the end of the
    list is 0.  [aset] is used at an index inside the list; the stores into
    the frame buffers, whose index the code does not check, go through
    [store], which tests the index first. *)
Definition aget (a : list Z) (i : Z) : Z :=
  if i <? 0 then 0 else nth (Z.to_nat i) a 0.

Fixpoint aset_nat (a : list Z) (i : nat) (v : Z) : list Z :=
  match a, i with
  | [], _ => []
  | _ :: t, O => v :: t
  | x :: t, S j => x :: aset_nat t j v
  end.

Definition aset (a : list Z) (i : Z) (v : Z) : list Z :=
  if i <? 0 then a else aset_nat a (Z.to_nat i) v.

(** ** Declarations of the missing header files *)

(** Modelled from the spec: the sign-extension helpers of [tools.h] are not
    among the sources; the spec has them treat the top bit of the N-bit
    field as a sign bit and extend it. *)
Definition signExtend (bits v : Z) : Z :=
  let field := Z.land v (2 ^ bits - 1) in
  if Z.testbit field (bits - 1) then field - 2 ^ bits else field.

Definition signExtend2Bit : Z -> Z := signExtend 2.
Definition signExtend4Bit : Z -> Z := signExtend 4.
Definition signExtend6Bit : Z -> Z := signExtend 6.
Definition signExtend14Bit : Z -> Z := signExtend 14.
Definition signExtend24Bit : Z -> Z := signExtend 24.

(** [parser.h], [blackbox_fielddefs.h]: the numeric values of the
    enumerators and limits, and whether the frame-interval members of
    [flightLog_t] are declared [unsigned int] or [int].  None of this is in
    [src/]; the embedding takes it as a parameter. *)
Record Headers : Type := {
  FLIGHT_LOG_MAX_FRAME_LENGTH : Z;
  FLIGHT_LOG_FIELD_PREDICTOR_0 : Z;
  FLIGHT_LOG_FIELD_PREDICTOR_PREVIOUS : Z;
  FLIGHT_LOG_FIELD_PREDICTOR_STRAIGHT_LINE : Z;
  FLIGHT_LOG_FIELD_PREDICTOR_AVERAGE_2 : Z;
  FLIGHT_LOG_FIELD_PREDICTOR_MINTHROTTLE : Z;
  FLIGHT_LOG_FIELD_PREDICTOR_MOTOR_0 : Z;
  FLIGHT_LOG_FIELD_PREDICTOR_INC : Z;
  FLIGHT_LOG_FIELD_PREDICTOR_HOME_COORD : Z;
  FLIGHT_LOG_FIELD_PREDICTOR_1500 : Z;
  FLIGHT_LOG_FIELD_PREDICTOR_VBATREF : Z;
  FLIGHT_LOG_FIELD_PREDICTOR_HOME_COORD_1 : Z;
  FLIGHT_LOG_FIELD_ENCODING_SIGNED_VB : Z;
  FLIGHT_LOG_FIELD_ENCODING_UNSIGNED_VB : Z;
  FLIGHT_LOG_FIELD_ENCODING_NEG_14BIT : Z;
  FLIGHT_LOG_FIELD_ENCODING_TAG8_8SVB : Z;
  FLIGHT_LOG_FIELD_ENCODING_TAG2_3S32 : Z;
  FLIGHT_LOG_FIELD_ENCODING_TAG8_4S16 : Z;
  FLIGHT_LOG_FIELD_ENCODING_NULL : Z;
  FLIGHT_LOG_EVENT_SYNC_BEEP : Z;
  FLIGHT_LOG_EVENT_AUTOTUNE_CYCLE_START : Z;
  FLIGHT_LOG_EVENT_AUTOTUNE_CYCLE_RESULT : Z;
  frameIntervalUnsigned : bool
}.

(** The case labels of a C [switch] are pairwise different. *)
Definition predictorTags (h : Headers) : list Z :=
  [ FLIGHT_LOG_FIELD_PREDICTOR_0 h; FLIGHT_LOG_FIELD_PREDICTOR_MINTHROTTLE h;
    FLIGHT_LOG_FIELD_PREDICTOR_1500 h; FLIGHT_LOG_FIELD_PREDICTOR_MOTOR_0 h;
    FLIGHT_LOG_FIELD_PREDICTOR_VBATREF h; FLIGHT_LOG_FIELD_PREDICTOR_PREVIOUS h;
    FLIGHT_LOG_FIELD_PREDICTOR_STRAIGHT_LINE h;
    FLIGHT_LOG_FIELD_PREDICTOR_AVERAGE_2 h;
    FLIGHT_LOG_FIELD_PREDICTOR_HOME_COORD h;
    FLIGHT_LOG_FIELD_PREDICTOR_HOME_COORD_1 h ].

Definition eventTags (h : Headers) : list Z :=
  [ FLIGHT_LOG_EVENT_SYNC_BEEP h; FLIGHT_LOG_EVENT_AUTOTUNE_CYCLE_START h;
    FLIGHT_LOG_EVENT_AUTOTUNE_CYCLE_RESULT h ].

(** Modelled from the spec: [FLIGHT_LOG_FIELD_INDEX_ITERATION] and
    [FLIGHT_LOG_FIELD_INDEX_TIME] of [parser.h]; field position 0 is the
    iteration counter and position 1 the timestamp. *)
Definition FLIGHT_LOG_FIELD_INDEX_ITERATION : Z := 0.
Definition FLIGHT_LOG_FIELD_INDEX_TIME : Z := 1.

(** ** Data model *)

(** [flightLogFrameDefs_t] *)
Record flightLogFrameDefs_t : Type := {
  predictor : list Z;
  encoding : list Z
}.

(** The members of [flightLog_t] and [flightLogPrivate_t] that the header
    phase fills in and the data phase only reads, together with the mapped
    file and the bounds of the log being parsed.  [onFrameReady] and
    [onEvent] tell whether the caller supplied the handler. *)
Record flightLog : Type := {
  logData : list byte;
  logStart : Z;
  logEnd : Z;
  mainFieldCount : Z;
  gpsFieldCount : Z;
  gpsHomeFieldCount : Z;
  mainFieldSigned : list Z;
  frameDefs : Z -> flightLogFrameDefs_t;
  dataVersion : Z;
  motor0Index : Z;
  home0Index : Z;
  home1Index : Z;
  minthrottle : Z;
  maxthrottle : Z;
  vbatref : Z;
  vbatscale : Z;
  vbatmincellvoltage : Z;
  vbatwarningcellvoltage : Z;
  vbatmaxcellvoltage : Z;
  frameIntervalI : Z;
  frameIntervalPNum : Z;
  frameIntervalPDenom : Z;
  onFrameReady : bool;
  onEvent : bool
}.

(** The frame buffers of [flightLogPrivate_t]. *)
Record memory : Type := {
  blackboxHistoryRing : list (list Z);
  gpsHomeHistory : list (list Z);
  lastGPS : list Z
}.

(** A pointer to one of the frame buffers. *)
Inductive framePtr : Type :=
| RingRow (k : nat)        (* blackboxHistoryRing[k] *)
| GpsHomeRow (k : nat)     (* gpsHomeHistory[k] *)
| LastGPS.                 (* lastGPS *)

Fixpoint setRow (rows : list (list Z)) (k : nat) (r : list Z) : list (list Z) :=
  match rows, k with
  | [], _ => []
  | _ :: t, O => r :: t
  | x :: t, S j => x :: setRow t j r
  end.

Definition frameAt (m : memory) (p : framePtr) : list Z :=
  match p with
  | RingRow k => nth k (blackboxHistoryRing m) []
  | GpsHomeRow k => nth k (gpsHomeHistory m) []
  | LastGPS => lastGPS m
  end.

Definition setFrame (m : memory) (p : framePtr) (r : list Z) : memory :=
  match p with
  | RingRow k =>
      {| blackboxHistoryRing := setRow (blackboxHistoryRing m) k r;
         gpsHomeHistory := gpsHomeHistory m; lastGPS := lastGPS m |}
  | GpsHomeRow k =>
      {| blackboxHistoryRing := blackboxHistoryRing m;
         gpsHomeHistory := setRow (gpsHomeHistory m) k r; lastGPS := lastGPS m |}
  | LastGPS =>
      {| blackboxHistoryRing := blackboxHistoryRing m;
         gpsHomeHistory := gpsHomeHistory m; lastGPS := r |}
  end.

(** [p[i]].  The code reads a frame buffer at the index of the field that it
    stores next, at the indices of the iteration and the time, and at the
    index of a field that the header names. *)
Definition load (m : memory) (p : framePtr) (i : Z) : Z := aget (frameAt m p) i.

(** [p[i] = v].  The buffers are adjacent members of [flightLogPrivate_t]: a
    store at an index outside the buffer [p] points to would land in the next
    row or member, and is undefined behaviour. *)
Definition store (m : memory) (p : framePtr) (i v : Z) : result memory :=
  if (0 <=? i) && (i <? Z.of_nat (length (frameAt m p)))
  then Ok (setFrame m p (aset (frameAt m p) i v))
  else OutOfBounds.

(** [flightLogEvent_t]: the enumerator as the integer it is stored as, and
    the member of the union written last. *)
Inductive flightLogEventData_t : Type :=
| syncBeep (time : Z)
| autotuneCycleStart (phase cycle p i d : Z)
| autotuneCycleResult (overshot p i d : Z).

Record flightLogEvent_t : Type := {
  event : Z;
  data : flightLogEventData_t
}.

(** [flightLogFrameStatistics_t], [flightLogFieldStatistics_t] and
    [flightLogStatistics_t].  The counters are [uint32_t]. *)
Record flightLogFrameStatistics_t : Type := {
  bytes : Z;
  validCount : Z;
  desyncCount : Z;
  corruptCount : Z;
  sizeCount : Z -> Z
}.

(** Modelled from the spec: the declaration of the per-field statistics is in
    [parser.h]; the spec has a minimum and a maximum per field that hold the
    field as a signed or as an unsigned 32-bit quantity, so both are
    integers wide enough for either. *)
Record flightLogFieldStatistics_t : Type := {
  min : Z;
  max : Z
}.

Record flightLogStatistics_t : Type := {
  totalBytes : Z;
  totalCorruptFrames : Z;
  intentionallyAbsentIterations : Z;
  field : Z -> flightLogFieldStatistics_t;
  frame : Z -> flightLogFrameStatistics_t
}.

(** The marker table [frameTypes]: a frame type is its row of the table. *)
Inductive flightLogFrameType_t : Type :=
| IntraFrame | InterFrame | GPSFrame | GPSHomeFrame | EventFrame.

(** One call of a handler the caller supplied.  A frame is handed over as a
    pointer and a field count; the call records the fields so designated,
    [None] for the NULL pointer. *)
Inductive callback : Type :=
| FrameReady (frameValid : bool) (fields : option (list Z))
             (frameType fieldCount frameOffset frameSize : Z)
| EventReady (ev : flightLogEvent_t).

(** The read position [logPos] and the [eof] flag. *)
Record cursor : Type := {
  logPos : Z;
  eof : bool
}.

(** What the data phase changes: the cursor, the frame buffers and the
    [mainHistory] pointers into the ring, the validity flags, the event
    slot, the statistics, the locals of [flightLogParse] that live across
    iterations, and the handler calls made so far (oldest first). *)
Record parser : Type := {
  cur : cursor;
  mem : memory;
  mainHistory0 : framePtr;
  mainHistory1 : option framePtr;
  mainHistory2 : option framePtr;
  mainStreamIsValid : bool;
  gpsHomeIsValid : bool;
  lastEvent : flightLogEvent_t;
  stats : flightLogStatistics_t;
  prematureEof : bool;
  frameStart : Z;
  lastFrameType : option flightLogFrameType_t;
  calls : list callback
}.

Definition set_cur (s : parser) (c : cursor) : parser :=
  {| cur := c; mem := mem s; mainHistory0 := mainHistory0 s;
     mainHistory1 := mainHistory1 s; mainHistory2 := mainHistory2 s;
     mainStreamIsValid := mainStreamIsValid s; gpsHomeIsValid := gpsHomeIsValid s;
     lastEvent := lastEvent s; stats := stats s; prematureEof := prematureEof s;
     frameStart := frameStart s; lastFrameType := lastFrameType s;
     calls := calls s |}.

Definition set_mem (s : parser) (m : memory) : parser :=
  {| cur := cur s; mem := m; mainHistory0 := mainHistory0 s;
     mainHistory1 := mainHistory1 s; mainHistory2 := mainHistory2 s;
     mainStreamIsValid := mainStreamIsValid s; gpsHomeIsValid := gpsHomeIsValid s;
     lastEvent := lastEvent s; stats := stats s; prematureEof := prematureEof s;
     frameStart := frameStart s; lastFrameType := lastFrameType s;
     calls := calls s |}.

Definition set_mainHistory (s : parser) (h0 : framePtr) (h1 h2 : option framePtr)
  : parser :=
  {| cur := cur s; mem := mem s; mainHistory0 := h0;
     mainHistory1 := h1; mainHistory2 := h2;
     mainStreamIsValid := mainStreamIsValid s; gpsHomeIsValid := gpsHomeIsValid s;
     lastEvent := lastEvent s; stats := stats s; prematureEof := prematureEof s;
     frameStart := frameStart s; lastFrameType := lastFrameType s;
     calls := calls s |}.

Definition set_mainStreamIsValid (s : parser) (b : bool) : parser :=
  {| cur := cur s; mem := mem s; mainHistory0 := mainHistory0 s;
     mainHistory1 := mainHistory1 s; mainHistory2 := mainHistory2 s;
     mainStreamIsValid := b; gpsHomeIsValid := gpsHomeIsValid s;
     lastEvent := lastEvent s; stats := stats s; prematureEof := prematureEof s;
     frameStart := frameStart s; lastFrameType := lastFrameType s;
     calls := calls s |}.

Definition set_gpsHomeIsValid (s : parser) (b : bool) : parser :=
  {| cur := cur s; mem := mem s; mainHistory0 := mainHistory0 s;
     mainHistory1 := mainHistory1 s; mainHistory2 := mainHistory2 s;
     mainStreamIsValid := mainStreamIsValid s; gpsHomeIsValid := b;
     lastEvent := lastEvent s; stats := stats s; prematureEof := prematureEof s;
     frameStart := frameStart s; lastFrameType := lastFrameType s;
     calls := calls s |}.

Definition set_lastEvent (s : parser) (e : flightLogEvent_t) : parser :=
  {| cur := cur s; mem := mem s; mainHistory0 := mainHistory0 s;
     mainHistory1 := mainHistory1 s; mainHistory2 := mainHistory2 s;
     mainStreamIsValid := mainStreamIsValid s; gpsHomeIsValid := gpsHomeIsValid s;
     lastEvent := e; stats := stats s; prematureEof := prematureEof s;
     frameStart := frameStart s; lastFrameType := lastFrameType s;
     calls := calls s |}.

Definition set_stats (s : parser) (st : flightLogStatistics_t) : parser :=
  {| cur := cur s; mem := mem s; mainHistory0 := mainHistory0 s;
     mainHistory1 := mainHistory1 s; mainHistory2 := mainHistory2 s;
     mainStreamIsValid := mainStreamIsValid s; gpsHomeIsValid := gpsHomeIsValid s;
     lastEvent := lastEvent s; stats := st; prematureEof := prematureEof s;
     frameStart := frameStart s; lastFrameType := lastFrameType s;
     calls := calls s |}.

Definition set_locals (s : parser) (pe : bool) (fs : Z)
  (lft : option flightLogFrameType_t) : parser :=
  {| cur := cur s; mem := mem s; mainHistory0 := mainHistory0 s;
     mainHistory1 := mainHistory1 s; mainHistory2 := mainHistory2 s;
     mainStreamIsValid := mainStreamIsValid s; gpsHomeIsValid := gpsHomeIsValid s;
     lastEvent := lastEvent s; stats := stats s; prematureEof := pe;
     frameStart := fs; lastFrameType := lft; calls := calls s |}.

(** A handler call is appended to the record of calls. *)
Definition call (s : parser) (c : callback) : parser :=
  {| cur := cur s; mem := mem s; mainHistory0 := mainHistory0 s;
     mainHistory1 := mainHistory1 s; mainHistory2 := mainHistory2 s;
     mainStreamIsValid := mainStreamIsValid s; gpsHomeIsValid := gpsHomeIsValid s;
     lastEvent := lastEvent s; stats := stats s; prematureEof := prematureEof s;
     frameStart := frameStart s; lastFrameType := lastFrameType s;
     calls := calls s ++ [c] |}.

(** ** The byte cursor *)

Definition byteAt (log : flightLog) (pos : Z) : Z :=
  Z_of_byte (nth (Z.to_nat pos) (logData log) "000"%byte).

Definition readChar (log : flightLog) (c : cursor) : Z * cursor :=
  if logPos c <? logEnd log then
    (byteAt log (logPos c), {| logPos := logPos c + 1; eof := eof c |})
  else
    (EOF, {| logPos := logPos c; eof := true |}).

Definition unreadChar (c : cursor) : cursor :=
  {| logPos := logPos c - 1; eof := eof c |}.

(** [(uint8_t) readChar(log)] *)
Definition readByte (log : flightLog) (c : cursor) : Z * cursor :=
  let (ch, c1) := readChar log c in (to_uint8 ch, c1).

(** ** Integer codecs *)

(** [readUnsignedVB]: the loop runs [n] more times with the current [shift]
    and [result]; [c & ~0x80] is an [int] shifted as a 32-bit quantity. *)
Fixpoint readUnsignedVB_loop (log : flightLog) (n : nat) (shift result : Z)
  (c : cursor) : Z * cursor :=
  match n with
  | O => (0, c)
  | S n' =>
      let (ch, c1) := readChar log c in
      if ch =? EOF then (0, c1)
      else
        let result' :=
          Z.lor result (to_uint32 (Z.shiftl (Z.land ch (Z.lnot 128)) shift)) in
        if ch <? 128 then (result', c1)
        else readUnsignedVB_loop log n' (shift + 7) result' c1
  end.

Definition readUnsignedVB (log : flightLog) (c : cursor) : Z * cursor :=
  readUnsignedVB_loop log 5 0 0 c.

(** [readSignedVB]: ZigZag decoding, [(i >> 1) ^ -(int32_t) (i & 1)]. *)
Definition zigzagDecode (i : Z) : Z :=
  to_int32 (Z.lxor (Z.shiftr i 1) (to_uint32 (- Z.land i 1))).

Definition readSignedVB (log : flightLog) (c : cursor) : Z * cursor :=
  let (i, c1) := readUnsignedVB log c in (zigzagDecode i, c1).

(** [readTag2_3S32], selector 3: one field per turn of the loop, its width
    chosen by the low two bits of [leadByte]. *)
Fixpoint readTag2_3S32_wide (log : flightLog) (n : nat) (leadByte : Z)
  (c : cursor) : list Z * cursor :=
  match n with
  | O => ([], c)
  | S n' =>
      let '(v, c') :=
        match Z.land leadByte 3 with
        | 0 =>
            let (byte1, c1) := readByte log c in
            (to_int8 byte1, c1)
        | 1 =>
            let (byte1, c1) := readByte log c in
            let (byte2, c2) := readByte log c1 in
            (to_int16 (Z.lor byte1 (Z.shiftl byte2 8)), c2)
        | 2 =>
            let (byte1, c1) := readByte log c in
            let (byte2, c2) := readByte log c1 in
            let (byte3, c3) := readByte log c2 in
            (signExtend24Bit
               (Z.lor (Z.lor byte1 (Z.shiftl byte2 8)) (Z.shiftl byte3 16)), c3)
        | _ =>
            let (byte1, c1) := readByte log c in
            let (byte2, c2) := readByte log c1 in
            let (byte3, c3) := readByte log c2 in
            let (byte4, c4) := readByte log c3 in
            (to_int32
               (Z.lor (Z.lor (Z.lor byte1 (Z.shiftl byte2 8)) (Z.shiftl byte3 16))
                  (Z.shiftl byte4 24)), c4)
        end in
      let (vs, c'') := readTag2_3S32_wide log n' (Z.shiftr leadByte 2) c' in
      (v :: vs, c'')
  end.

Definition readTag2_3S32 (log : flightLog) (c : cursor) : list Z * cursor :=
  let (leadByte, c0) := readByte log c in
  match Z.shiftr leadByte 6 with
  | 0 =>
      ([ signExtend2Bit (Z.land (Z.shiftr leadByte 4) 3);
         signExtend2Bit (Z.land (Z.shiftr leadByte 2) 3);
         signExtend2Bit (Z.land leadByte 3) ], c0)
  | 1 =>
      let v0 := signExtend4Bit (Z.land leadByte 15) in
      let (leadByte1, c1) := readByte log c0 in
      ([ v0; signExtend4Bit (Z.shiftr leadByte1 4);
         signExtend4Bit (Z.land leadByte1 15) ], c1)
  | 2 =>
      let v0 := signExtend6Bit (Z.land leadByte 63) in
      let (leadByte1, c1) := readByte log c0 in
      let v1 := signExtend6Bit (Z.land leadByte1 63) in
      let (leadByte2, c2) := readByte log c1 in
      ([ v0; v1; signExtend6Bit (Z.land leadByte2 63) ], c2)
  | _ => readTag2_3S32_wide log 3 leadByte c0
  end.

(** [readTag8_4S16_v1]: the loop over [i] with the local array [values]; a
    4-bit selector fills two entries from one byte and steps [i] and
    [selector] twice. *)
Fixpoint readTag8_4S16_v1_loop (log : flightLog) (fuel : nat) (i selector : Z)
  (values : list Z) (c : cursor) : list Z * cursor :=
  match fuel with
  | O => (values, c)
  | S fuel' =>
      if i <? 4 then
        match Z.land selector 3 with
        | 0 =>
            readTag8_4S16_v1_loop log fuel' (i + 1) (Z.shiftr selector 2)
              (aset values i 0) c
        | 1 =>
            let (combinedChar, c1) := readByte log c in
            let values1 := aset values i (signExtend4Bit (Z.land combinedChar 15)) in
            let i1 := i + 1 in
            let selector1 := Z.shiftr selector 2 in
            let values2 := aset values1 i1 (signExtend4Bit (Z.shiftr combinedChar 4)) in
            readTag8_4S16_v1_loop log fuel' (i1 + 1) (Z.shiftr selector1 2) values2 c1
        | 2 =>
            let (ch, c1) := readChar log c in
            readTag8_4S16_v1_loop log fuel' (i + 1) (Z.shiftr selector 2)
              (aset values i (to_int8 ch)) c1
        | _ =>
            let (char1, c1) := readByte log c in
            let (char2, c2) := readByte log c1 in
            readTag8_4S16_v1_loop log fuel' (i + 1) (Z.shiftr selector 2)
              (aset values i (to_int16 (Z.lor char1 (Z.shiftl char2 8)))) c2
        end
      else (values, c)
  end.

Definition readTag8_4S16_v1 (log : flightLog) (c : cursor) : list Z * cursor :=
  let (selector, c0) := readByte log c in
  readTag8_4S16_v1_loop log 4 0 selector (repeat 0 8) c0.

(** [readTag8_4S16_v2]: fields are packed on nibble boundaries; [buffer]
    holds the byte whose low nibble is still unused when [nibbleIndex] is 1. *)
Fixpoint readTag8_4S16_v2_loop (log : flightLog) (n : nat)
  (selector buffer nibbleIndex : Z) (c : cursor) : list Z * cursor :=
  match n with
  | O => ([], c)
  | S n' =>
      let '(v, buffer', nibbleIndex', c') :=
        match Z.land selector 3 with
        | 0 => (0, buffer, nibbleIndex, c)
        | 1 =>
            if nibbleIndex =? 0 then
              let (b, c1) := readByte log c in
              (signExtend4Bit (Z.shiftr b 4), b, 1, c1)
            else
              (signExtend4Bit (Z.land buffer 15), buffer, 0, c)
        | 2 =>
            if nibbleIndex =? 0 then
              let (ch, c1) := readChar log c in
              (to_int8 ch, buffer, nibbleIndex, c1)
            else
              let char1 := to_uint8 (Z.shiftl buffer 4) in
              let (b, c1) := readByte log c in
              let char1' := Z.lor char1 (Z.shiftr b 4) in
              (to_int8 char1', b, nibbleIndex, c1)
        | _ =>
            if nibbleIndex =? 0 then
              let (char1, c1) := readByte log c in
              let (char2, c2) := readByte log c1 in
              (to_int16 (to_uint16 (Z.lor (Z.shiftl char1 8) char2)),
               buffer, nibbleIndex, c2)
            else
              let (char1, c1) := readByte log c in
              let (char2, c2) := readByte log c1 in
              (to_int16 (to_uint16
                 (Z.lor (Z.lor (Z.shiftl buffer 12) (Z.shiftl char1 4))
                    (Z.shiftr char2 4))),
               char2, nibbleIndex, c2)
        end in
      let (vs, c'') :=
        readTag8_4S16_v2_loop log n' (Z.shiftr selector 2) buffer' nibbleIndex' c' in
      (v :: vs, c'')
  end.

Definition readTag8_4S16_v2 (log : flightLog) (c : cursor) : list Z * cursor :=
  let (selector, c0) := readByte log c in
  readTag8_4S16_v2_loop log 4 selector 0 0 c0.

(** [readTag8_8SVB] *)
Fixpoint readTag8_8SVB_loop (log : flightLog) (n : nat) (header : Z) (c : cursor)
  : list Z * cursor :=
  match n with
  | O => ([], c)
  | S n' =>
      let (v, c1) :=
        if Z.land header 1 =? 0 then (0, c) else readSignedVB log c in
      let (vs, c2) := readTag8_8SVB_loop log n' (Z.shiftr header 1) c1 in
      (v :: vs, c2)
  end.

Definition readTag8_8SVB (log : flightLog) (valueCount : Z) (c : cursor)
  : list Z * cursor :=
  if valueCount =? 1 then
    let (v, c1) := readSignedVB log c in ([v], c1)
  else
    let (header, c0) := readByte log c in
    readTag8_8SVB_loop log 8 header c0.

(** ** The iteration-rate filter *)

(** The value of an expression of the type of the frame-interval members:
    [unsigned int] or [int]. *)
Definition intervalValue (h : Headers) (z : Z) : Z :=
  if frameIntervalUnsigned h then to_uint32 z else to_int32 z.

(** [a % b] in that type; the division by zero and the overflowing signed
    division are undefined. *)
Definition intervalRem (h : Headers) (a b : Z) : result Z :=
  if b =? 0 then Undefined
  else if negb (frameIntervalUnsigned h) && (a =? INT_MIN) && (b =? -1) then Undefined
  else Ok (Z.rem a b).

(** [shouldHaveFrame]:
    [(frameIndex % I + PNum - 1) % PDenom < PNum] *)
Definition shouldHaveFrame (h : Headers) (log : flightLog) (frameIndex : Z)
  : result bool :=
  let v := intervalValue h in
  let* r1 := intervalRem h (v (to_int32 frameIndex)) (v (frameIntervalI log)) in
  let* r2 := intervalRem h (v (v (r1 + v (frameIntervalPNum log)) - 1))
                         (v (frameIntervalPDenom log)) in
  Ok (r2 <? v (frameIntervalPNum log)).

(** The loop of [parseIntraframe] and [parseInterframe] that counts the
    iterations left out on purpose:
    [for (frameIndex = ...; !shouldHaveFrame(log, frameIndex); frameIndex++)
       skippedFrames++;]
    [frameIndex] is a [uint32_t]; [skippedFrames] is an [int] in
    [parseIntraframe] and a [uint32_t] in [parseInterframe]. *)
Fixpoint countSkippedFrames (h : Headers) (log : flightLog) (fuel : nat)
  (wrap : Z -> Z) (frameIndex skippedFrames : Z) : result Z :=
  match fuel with
  | O => OutOfFuel
  | S fuel' =>
      let* present := shouldHaveFrame h log frameIndex in
      if present then Ok skippedFrames
      else countSkippedFrames h log fuel' wrap (to_uint32 (frameIndex + 1))
             (wrap (skippedFrames + 1))
  end.

(** What the header lines [I interval] and [P interval] store, from the
    numbers [atoi] read. *)
Definition headerIInterval (h : Headers) (value : Z) : Z :=
  let v := intervalValue h value in
  if v <? 1 then 1 else v.

Definition headerPInterval (h : Headers) (num denom : Z) : Z * Z :=
  (intervalValue h num, intervalValue h denom).

(** ** The predictor engine *)

(** [applyPrediction] *)
Definition applyPrediction (h : Headers) (log : flightLog) (m : memory)
  (fieldIndex predictor value : Z) (current : framePtr)
  (previous previous2 : option framePtr) : result Z :=
  let value := to_uint32 value in
  let* value' :=
    if predictor =? FLIGHT_LOG_FIELD_PREDICTOR_0 h then Ok value
    else if predictor =? FLIGHT_LOG_FIELD_PREDICTOR_MINTHROTTLE h then
      Ok (to_uint32 (value + minthrottle log))
    else if predictor =? FLIGHT_LOG_FIELD_PREDICTOR_1500 h then
      Ok (to_uint32 (value + 1500))
    else if predictor =? FLIGHT_LOG_FIELD_PREDICTOR_MOTOR_0 h then
      if motor0Index log <? 0 then Exit
      else Ok (to_uint32 (value + to_uint32 (load m current (motor0Index log))))
    else if predictor =? FLIGHT_LOG_FIELD_PREDICTOR_VBATREF h then
      Ok (to_uint32 (value + vbatref log))
    else if predictor =? FLIGHT_LOG_FIELD_PREDICTOR_PREVIOUS h then
      match previous with
      | None => Ok value
      | Some p => Ok (to_uint32 (value + to_uint32 (load m p fieldIndex)))
      end
    else if predictor =? FLIGHT_LOG_FIELD_PREDICTOR_STRAIGHT_LINE h then
      match previous, previous2 with
      | None, _ => Ok value
      | Some _, None => Undefined
      | Some p, Some p2 =>
          Ok (to_uint32 (value + (2 * to_uint32 (load m p fieldIndex)
                                  - to_uint32 (load m p2 fieldIndex))))
      end
    else if predictor =? FLIGHT_LOG_FIELD_PREDICTOR_AVERAGE_2 h then
      match previous, previous2 with
      | None, _ => Ok value
      | Some _, None => Undefined
      | Some p, Some p2 =>
          let sum := to_uint32 (to_uint32 (load m p fieldIndex)
                                + to_uint32 (load m p2 fieldIndex)) in
          if aget (mainFieldSigned log) fieldIndex =? 0 then
            Ok (to_uint32 (value + sum / 2))
          else
            Ok (to_uint32 (value + to_uint32 (Z.quot (to_int32 sum) 2)))
      end
    else if predictor =? FLIGHT_LOG_FIELD_PREDICTOR_HOME_COORD h then
      if home0Index log <? 0 then Exit
      else Ok (to_uint32 (value + load m (GpsHomeRow 1) (home0Index log)))
    else if predictor =? FLIGHT_LOG_FIELD_PREDICTOR_HOME_COORD_1 h then
      if home1Index log <? 1 then Exit
      else Ok (to_uint32 (value + load m (GpsHomeRow 1) (home1Index log)))
    else Exit in
  Ok (to_int32 value').

(** ** Frame parsing *)

(** The loops of [parseFrame] that apply the predictors to the values of a
    group: [for (j = 0; j < count; j++, i++) frame[i] = applyPrediction(...)]. *)
Fixpoint applyGroup (h : Headers) (log : flightLog) (raw : bool)
  (predictors : list Z) (values : list Z) (i : Z) (frame : framePtr)
  (previous previous2 : option framePtr) (m : memory) : result (Z * memory) :=
  match values with
  | [] => Ok (i, m)
  | value :: rest =>
      let* v := applyPrediction h log m i
                  (if raw then FLIGHT_LOG_FIELD_PREDICTOR_0 h else aget predictors i)
                  value frame previous previous2 in
      let* m' := store m frame i v in
      applyGroup h log raw predictors rest (i + 1) frame previous previous2 m'
  end.

(** The look-ahead of the [TAG8_8SVB] case:
    [for (j = i + 1; j < i + 8 && j < log->mainFieldCount; j++)
       if (encoding[j] != FLIGHT_LOG_FIELD_ENCODING_TAG8_8SVB) break;] *)
Fixpoint groupEnd (h : Headers) (log : flightLog) (encodings : list Z)
  (fuel : nat) (i j : Z) : Z :=
  match fuel with
  | O => j
  | S fuel' =>
      if (j <? i + 8) && (j <? mainFieldCount log) then
        if aget encodings j =? FLIGHT_LOG_FIELD_ENCODING_TAG8_8SVB h
        then groupEnd h log encodings fuel' i (j + 1)
        else j
      else j
  end.

(** [parseFrame]: the [while (i < fieldCount)] loop.  Every turn advances
    [i], so [fieldCount] turns are enough. *)
Fixpoint parseFrame_loop (h : Headers) (log : flightLog) (fuel : nat)
  (frameType : Z) (frame : framePtr) (previous previous2 : option framePtr)
  (fieldCount skippedFrames : Z) (raw : bool) (i : Z) (c : cursor) (m : memory)
  : result (cursor * memory) :=
  match fuel with
  | O => if i <? fieldCount then OutOfFuel else Ok (c, m)
  | S fuel' =>
      if i <? fieldCount then
        let predictors := predictor (frameDefs log frameType) in
        let encodings := encoding (frameDefs log frameType) in
        let continue i' c' m' :=
          parseFrame_loop h log fuel' frameType frame previous previous2
            fieldCount skippedFrames raw i' c' m' in
        let single value c' :=
          let* v := applyPrediction h log m i
                      (if raw then FLIGHT_LOG_FIELD_PREDICTOR_0 h
                       else aget predictors i)
                      value frame previous previous2 in
          let* m' := store m frame i v in
          continue (i + 1) c' m' in
        let group values c' :=
          let* (i', m') := applyGroup h log raw predictors values i frame
                              previous previous2 m in
          continue i' c' m' in
        if aget predictors i =? FLIGHT_LOG_FIELD_PREDICTOR_INC h then
          let* m1 := store m frame i (to_int32 (skippedFrames + 1)) in
          let* m2 :=
            match previous with
            | Some p => store m1 frame i (to_int32 (load m1 frame i + load m1 p i))
            | None => Ok m1
            end in
          continue (i + 1) c m2
        else
          let e := aget encodings i in
          if e =? FLIGHT_LOG_FIELD_ENCODING_SIGNED_VB h then
            let (v, c') := readSignedVB log c in single v c'
          else if e =? FLIGHT_LOG_FIELD_ENCODING_UNSIGNED_VB h then
            let (v, c') := readUnsignedVB log c in single v c'
          else if e =? FLIGHT_LOG_FIELD_ENCODING_NEG_14BIT h then
            let (v, c') := readUnsignedVB log c in single (- signExtend14Bit v) c'
          else if e =? FLIGHT_LOG_FIELD_ENCODING_TAG8_4S16 h then
            let (values, c') :=
              if dataVersion log <? 2 then readTag8_4S16_v1 log c
              else readTag8_4S16_v2 log c in
            group (firstn 4 values) c'
          else if e =? FLIGHT_LOG_FIELD_ENCODING_TAG2_3S32 h then
            let (values, c') := readTag2_3S32 log c in
            group (firstn 3 values) c'
          else if e =? FLIGHT_LOG_FIELD_ENCODING_TAG8_8SVB h then
            let groupCount := groupEnd h log encodings 8 i (i + 1) - i in
            let (values, c') := readTag8_8SVB log groupCount c in
            group (firstn (Z.to_nat groupCount) values) c'
          else if e =? FLIGHT_LOG_FIELD_ENCODING_NULL h then
            single 0 c
          else Exit
      else Ok (c, m)
  end.

Definition parseFrame (h : Headers) (log : flightLog) (frameType : Z)
  (frame : framePtr) (previous previous2 : option framePtr)
  (fieldCount skippedFrames : Z) (raw : bool) (c : cursor) (m : memory)
  : result (cursor * memory) :=
  parseFrame_loop h log (Z.to_nat fieldCount) frameType frame previous previous2
    fieldCount skippedFrames raw 0 c m.

(** The markers of the frame types, as character codes. *)
Definition marker (t : flightLogFrameType_t) : Z :=
  match t with
  | IntraFrame => 73      (* 'I' *)
  | InterFrame => 80      (* 'P' *)
  | GPSFrame => 71        (* 'G' *)
  | GPSHomeFrame => 72    (* 'H' *)
  | EventFrame => 69      (* 'E' *)
  end.

Definition frameTypes : list flightLogFrameType_t :=
  [IntraFrame; InterFrame; GPSFrame; GPSHomeFrame; EventFrame].

(** [getFrameType] *)
Definition getFrameType (c : Z) : option flightLogFrameType_t :=
  find (fun t => marker t =? c) frameTypes.

Definition storeParsed (s : parser) (r : cursor * memory) : parser :=
  set_mem (set_cur s (fst r)) (snd r).

Definition addAbsentIterations (s : parser) (skippedFrames : Z) : parser :=
  set_stats s
    {| totalBytes := totalBytes (stats s);
       totalCorruptFrames := totalCorruptFrames (stats s);
       intentionallyAbsentIterations :=
         to_uint32 (intentionallyAbsentIterations (stats s) + skippedFrames);
       field := field (stats s);
       frame := frame (stats s) |}.

(** [parseIntraframe] *)
Definition parseIntraframe (h : Headers) (log : flightLog) (fuel : nat)
  (raw : bool) (s : parser) : result parser :=
  let current := mainHistory0 s in
  let previous := mainHistory1 s in
  let* (skippedFrames, s1) :=
    match previous with
    | Some p =>
        let* n := countSkippedFrames h log fuel to_int32
                    (to_uint32 (to_int32
                       (load (mem s) p FLIGHT_LOG_FIELD_INDEX_ITERATION + 1)))
                    0 in
        Ok (n, addAbsentIterations s n)
    | None => Ok (0, s)
    end in
  let* r := parseFrame h log (marker IntraFrame) current previous None
              (mainFieldCount log) skippedFrames raw (cur s1) (mem s1) in
  Ok (storeParsed s1 r).

(** [parseInterframe] *)
Definition parseInterframe (h : Headers) (log : flightLog) (fuel : nat)
  (raw : bool) (s : parser) : result parser :=
  let current := mainHistory0 s in
  let previous := mainHistory1 s in
  let previous2 := mainHistory2 s in
  let* skippedFrames :=
    match previous with
    | Some p =>
        countSkippedFrames h log fuel to_uint32
          (to_uint32 (to_int32
             (load (mem s) p FLIGHT_LOG_FIELD_INDEX_ITERATION + 1)))
          0
    | None => Ok 0
    end in
  let s1 := addAbsentIterations s skippedFrames in
  let* r := parseFrame h log (marker InterFrame) current previous previous2
              (mainFieldCount log) (to_int32 skippedFrames) raw (cur s1) (mem s1) in
  Ok (storeParsed s1 r).

(** [parseGPSFrame] and [parseGPSHomeFrame] *)
Definition parseGPSFrame (h : Headers) (log : flightLog) (raw : bool) (s : parser)
  : result parser :=
  let* r := parseFrame h log (marker GPSFrame) LastGPS None None
              (gpsFieldCount log) 0 raw (cur s) (mem s) in
  Ok (storeParsed s r).

Definition parseGPSHomeFrame (h : Headers) (log : flightLog) (raw : bool)
  (s : parser) : result parser :=
  let* r := parseFrame h log (marker GPSHomeFrame) (GpsHomeRow 0) None None
              (gpsHomeFieldCount log) 0 raw (cur s) (mem s) in
  Ok (storeParsed s r).

(** [parseEventFrame].  The members of the event structures are bytes but
    for the time of the sync beep. *)
Definition parseEventFrame (h : Headers) (log : flightLog) (s : parser) : parser :=
  let (eventType, c0) := readByte log (cur s) in
  let d := data (lastEvent s) in
  if eventType =? FLIGHT_LOG_EVENT_SYNC_BEEP h then
    let (time, c1) := readUnsignedVB log c0 in
    set_lastEvent (set_cur s c1) {| event := eventType; data := syncBeep time |}
  else if eventType =? FLIGHT_LOG_EVENT_AUTOTUNE_CYCLE_START h then
    let (phase, c1) := readByte log c0 in
    let (cycle, c2) := readByte log c1 in
    let (p, c3) := readByte log c2 in
    let (i, c4) := readByte log c3 in
    let (d', c5) := readByte log c4 in
    set_lastEvent (set_cur s c5)
      {| event := eventType; data := autotuneCycleStart phase cycle p i d' |}
  else if eventType =? FLIGHT_LOG_EVENT_AUTOTUNE_CYCLE_RESULT h then
    let (overshot, c1) := readByte log c0 in
    let (p, c2) := readByte log c1 in
    let (i, c3) := readByte log c2 in
    let (d', c4) := readByte log c3 in
    set_lastEvent (set_cur s c4)
      {| event := eventType; data := autotuneCycleResult overshot p i d' |}
  else
    set_lastEvent (set_cur s c0) {| event := -1; data := d |}.

(** The [parse] member of a row of [frameTypes]. *)
Definition parse (t : flightLogFrameType_t) (h : Headers) (log : flightLog)
  (fuel : nat) (raw : bool) (s : parser) : result parser :=
  match t with
  | IntraFrame => parseIntraframe h log fuel raw s
  | InterFrame => parseInterframe h log fuel raw s
  | GPSFrame => parseGPSFrame h log raw s
  | GPSHomeFrame => parseGPSHomeFrame h log raw s
  | EventFrame => Ok (parseEventFrame h log s)
  end.

(** ** Statistics *)

Definition upd {A : Type} (f : Z -> A) (k : Z) (v : A) : Z -> A :=
  fun x => if x =? k then v else f x.

Definition set_field (st : flightLogStatistics_t)
  (f : Z -> flightLogFieldStatistics_t) : flightLogStatistics_t :=
  {| totalBytes := totalBytes st; totalCorruptFrames := totalCorruptFrames st;
     intentionallyAbsentIterations := intentionallyAbsentIterations st;
     field := f; frame := frame st |}.

Definition set_frame (st : flightLogStatistics_t)
  (f : Z -> flightLogFrameStatistics_t) : flightLogStatistics_t :=
  {| totalBytes := totalBytes st; totalCorruptFrames := totalCorruptFrames st;
     intentionallyAbsentIterations := intentionallyAbsentIterations st;
     field := field st; frame := f |}.

(** One turn of the loops of [updateFieldStatistics]. *)
Definition updateFieldStatistic (log : flightLog) (first : bool) (fields : list Z)
  (f : Z -> flightLogFieldStatistics_t) (i : Z) : Z -> flightLogFieldStatistics_t :=
  let v :=
    if aget (mainFieldSigned log) i =? 0 then to_uint32 (aget fields i)
    else aget fields i in
  if first then upd f i {| min := v; max := v |}
  else
    upd f i {| min := if v <? min (f i) then v else min (f i);
               max := if v >? max (f i) then v else max (f i) |}.

(** [updateFieldStatistics] *)
Definition updateFieldStatistics (log : flightLog) (st : flightLogStatistics_t)
  (fields : list Z) : flightLogStatistics_t :=
  let first :=
    to_uint32 (validCount (frame st (marker IntraFrame))
               + validCount (frame st (marker InterFrame))) <=? 1 in
  set_field st
    (fold_left (updateFieldStatistic log first fields)
       (map Z.of_nat (seq 0 (Z.to_nat (mainFieldCount log)))) (field st)).

(** ** Frame completion *)

(** [flightLoginvalidateStream] *)
Definition flightLoginvalidateStream (s : parser) : parser :=
  set_mainHistory (set_mainStreamIsValid s false) (mainHistory0 s) None None.

(** [mainHistory[0] += FLIGHT_LOG_MAX_FIELDS], back to the first row of the
    ring after the third. *)
Definition nextRingRow (p : framePtr) : framePtr :=
  match p with
  | RingRow k => if (3 <=? S k)%nat then RingRow 0 else RingRow (S k)
  | _ => p
  end.

Definition mainFrameReady (log : flightLog) (frameType frameStart frameEnd : Z)
  (s : parser) : parser :=
  if onFrameReady log then
    call s (FrameReady (mainStreamIsValid s)
              (Some (firstn (Z.to_nat (mainFieldCount log))
                       (frameAt (mem s) (mainHistory0 s))))
              frameType (mainFieldCount log) frameStart (frameEnd - frameStart))
  else s.

(** [completeIntraframe] *)
Definition completeIntraframe (log : flightLog) (frameType frameStart frameEnd : Z)
  (raw : bool) (s : parser) : parser :=
  let current := mainHistory0 s in
  let s1 :=
    if raw
       || ((to_uint32 (load (mem s) current FLIGHT_LOG_FIELD_INDEX_ITERATION)
              >=? max (field (stats s) FLIGHT_LOG_FIELD_INDEX_ITERATION))
           && (to_uint32 (load (mem s) current FLIGHT_LOG_FIELD_INDEX_TIME)
                 >=? max (field (stats s) FLIGHT_LOG_FIELD_INDEX_TIME)))
    then
      let s' := set_mainStreamIsValid s true in
      set_stats s' (updateFieldStatistics log (stats s') (frameAt (mem s') current))
    else flightLoginvalidateStream s in
  let s2 := mainFrameReady log frameType frameStart frameEnd s1 in
  if mainStreamIsValid s2 then
    set_mainHistory s2 (nextRingRow (mainHistory0 s2))
      (Some (mainHistory0 s2)) (Some (mainHistory0 s2))
  else s2.

Definition countDesync (s : parser) (m : Z) : parser :=
  let fs := frame (stats s) m in
  set_stats s
    (set_frame (stats s)
       (upd (frame (stats s)) m
          {| bytes := bytes fs; validCount := validCount fs;
             desyncCount := to_uint32 (desyncCount fs + 1);
             corruptCount := corruptCount fs; sizeCount := sizeCount fs |})).

(** [completeInterframe] *)
Definition completeInterframe (log : flightLog) (frameType frameStart frameEnd : Z)
  (raw : bool) (s : parser) : parser :=
  let s1 :=
    if mainStreamIsValid s then
      set_stats s (updateFieldStatistics log (stats s) (frameAt (mem s) (mainHistory0 s)))
    else countDesync s (marker InterFrame) in
  let s2 := mainFrameReady log frameType frameStart frameEnd s1 in
  if mainStreamIsValid s2 then
    set_mainHistory s2 (nextRingRow (mainHistory0 s2))
      (Some (mainHistory0 s2)) (mainHistory1 s2)
  else s2.

(** [completeEventFrame] *)
Definition completeEventFrame (log : flightLog) (s : parser) : parser :=
  if onEvent log then call s (EventReady (lastEvent s)) else s.

(** [completeGPSHomeFrame] *)
Definition completeGPSHomeFrame (log : flightLog) (frameType frameStart frameEnd : Z)
  (s : parser) : parser :=
  let s1 := set_mem s (setFrame (mem s) (GpsHomeRow 1) (frameAt (mem s) (GpsHomeRow 0))) in
  let s2 := set_gpsHomeIsValid s1 true in
  if onFrameReady log then
    call s2 (FrameReady true
               (Some (firstn (Z.to_nat (gpsHomeFieldCount log))
                        (frameAt (mem s2) (GpsHomeRow 1))))
               frameType (gpsHomeFieldCount log) frameStart (frameEnd - frameStart))
  else s2.

(** [completeGPSFrame] *)
Definition completeGPSFrame (log : flightLog) (frameType frameStart frameEnd : Z)
  (s : parser) : parser :=
  if onFrameReady log then
    call s (FrameReady (gpsHomeIsValid s)
              (Some (firstn (Z.to_nat (gpsFieldCount log)) (lastGPS (mem s))))
              frameType (gpsFieldCount log) frameStart (frameEnd - frameStart))
  else s.

(** The [complete] member of a row of [frameTypes]. *)
Definition complete (t : flightLogFrameType_t) (log : flightLog)
  (frameType frameStart frameEnd : Z) (raw : bool) (s : parser) : parser :=
  match t with
  | IntraFrame => completeIntraframe log frameType frameStart frameEnd raw s
  | InterFrame => completeInterframe log frameType frameStart frameEnd raw s
  | GPSFrame => completeGPSFrame log frameType frameStart frameEnd s
  | GPSHomeFrame => completeGPSHomeFrame log frameType frameStart frameEnd s
  | EventFrame => completeEventFrame log s
  end.

(** ** The data phase of [flightLogParse] *)

(** How a pass through the body of [while (1)] ends: the loop goes round
    again, the function returns [true], or the program does not get that
    far.  The state is the one reached at that point. *)
Inductive stop : Type :=
  StopExit | StopUndefined | StopOutOfBounds | StopOutOfFuel.

Inductive outcome : Type :=
| Continue (s : parser)
| Done (s : parser)
| Stop (why : stop) (s : parser).

Definition stateOf (o : outcome) : parser :=
  match o with
  | Continue s => s
  | Done s => s
  | Stop _ s => s
  end.

Definition isSome {A : Type} (o : option A) : bool :=
  match o with Some _ => true | None => false end.

(** The statistics of a frame that looks complete. *)
Definition countValid (s : parser) (m lastFrameSize : Z) : parser :=
  let fs := frame (stats s) m in
  set_stats s
    (set_frame (stats s)
       (upd (frame (stats s)) m
          {| bytes := to_uint32 (bytes fs + lastFrameSize);
             validCount := to_uint32 (validCount fs + 1);
             desyncCount := desyncCount fs;
             corruptCount := corruptCount fs;
             sizeCount := upd (sizeCount fs) lastFrameSize
                            (to_uint32 (sizeCount fs lastFrameSize + 1)) |})).

(** The statistics of a corrupt frame. *)
Definition countCorrupt (s : parser) (m : Z) : parser :=
  let fs := frame (stats s) m in
  let st :=
    set_frame (stats s)
      (upd (frame (stats s)) m
         {| bytes := bytes fs; validCount := validCount fs;
            desyncCount := desyncCount fs;
            corruptCount := to_uint32 (corruptCount fs + 1);
            sizeCount := sizeCount fs |}) in
  set_stats s
    {| totalBytes := totalBytes st;
       totalCorruptFrames := to_uint32 (totalCorruptFrames st + 1);
       intentionallyAbsentIterations := intentionallyAbsentIterations st;
       field := field st; frame := frame st |}.

(** The label [done]. *)
Definition finish (log : flightLog) (s : parser) : parser :=
  set_stats s
    {| totalBytes := to_uint32 (logEnd log - logStart log);
       totalCorruptFrames := totalCorruptFrames (stats s);
       intentionallyAbsentIterations := intentionallyAbsentIterations (stats s);
       field := field (stats s); frame := frame (stats s) |}.

(** The second half of [case PARSER_STATE_DATA], from [if (command == EOF)]. *)
Definition beginFrame (h : Headers) (log : flightLog) (fuel : nat) (raw : bool)
  (command : Z) (s : parser) : outcome :=
  if command =? EOF then Done (finish log s)
  else
    let frameType := getFrameType (to_uint8 command) in
    let s1 := set_locals s (prematureEof s) (logPos (cur s)) (lastFrameType s) in
    let r :=
      match frameType with
      | Some t => parse t h log fuel raw s1
      | None => Ok (set_mainStreamIsValid s1 false)
      end in
    match r with
    | Ok s2 =>
        Continue (set_locals s2 (if eof (cur s2) then true else prematureEof s2)
                    (frameStart s2) frameType)
    | Exit => Stop StopExit s1
    | Undefined => Stop StopUndefined s1
    | OutOfBounds => Stop StopOutOfBounds s1
    | OutOfFuel => Stop StopOutOfFuel s1
    end.

(** The corrupt-frame branch. *)
Definition corruptFrame (log : flightLog) (lastFrameType : flightLogFrameType_t)
  (lastFrameSize : Z) (s : parser) : parser :=
  let s1 := set_mainStreamIsValid s false in
  let s2 := countCorrupt s1 (marker lastFrameType) in
  let s3 :=
    if onFrameReady log then
      call s2 (FrameReady false None (marker lastFrameType) 0 (frameStart s)
                 lastFrameSize)
    else s2 in
  set_locals (set_cur s3 {| logPos := frameStart s; eof := false |})
    false (frameStart s) None.

(** One pass through the body of [while (1)] in [PARSER_STATE_DATA]. *)
Definition dataIteration (h : Headers) (log : flightLog) (fuel : nat) (raw : bool)
  (s : parser) : outcome :=
  let (command, c1) := readChar log (cur s) in
  let s1 := set_cur s c1 in
  match lastFrameType s1 with
  | Some lastType =>
      let lastFrameSize := to_uint32 (logPos c1 - frameStart s1) in
      let frameType :=
        if command =? EOF then None else getFrameType (to_uint8 command) in
      let looksLikeFrameCompleted :=
        isSome frameType || (negb (prematureEof s1) && (command =? EOF)) in
      if (lastFrameSize <=? FLIGHT_LOG_MAX_FRAME_LENGTH h) && looksLikeFrameCompleted
      then
        let s2 := countValid s1 (marker lastType) lastFrameSize in
        let s3 := complete lastType log (marker lastType) (frameStart s1)
                    (logPos c1) raw s2 in
        beginFrame h log fuel raw command s3
      else Continue (corruptFrame log lastType lastFrameSize s1)
  | None => beginFrame h log fuel raw command s1
  end.

(** The loop: at most [n] passes, each with the bound [fuel] on the loops
    that count skipped iterations. *)
Fixpoint dataLoop (h : Headers) (log : flightLog) (fuel : nat) (raw : bool)
  (n : nat) (s : parser) : outcome :=
  match n with
  | O => Stop StopOutOfFuel s
  | S n' =>
      match dataIteration h log fuel raw s with
      | Continue s' => dataLoop h log fuel raw n' s'
      | o => o
      end
  end.

Definition flightLogParseData (h : Headers) (log : flightLog) (raw : bool)
  (fuel : nat) (s : parser) : outcome :=
  dataLoop h log fuel raw fuel s.

(** The state in which [flightLogParse] enters [PARSER_STATE_DATA] with the
    cursor on the first frame marker at [pos]: what the resets at the top of
    the function and the header case leave behind.  The frame buffers keep
    what they held. *)
Definition zeroStatistics : flightLogStatistics_t :=
  {| totalBytes := 0; totalCorruptFrames := 0; intentionallyAbsentIterations := 0;
     field := fun _ => {| min := 0; max := 0 |};
     frame := fun _ => {| bytes := 0; validCount := 0; desyncCount := 0;
                          corruptCount := 0; sizeCount := fun _ => 0 |} |}.

Definition dataPhaseEntry (pos : Z) (m : memory) (d : flightLogEventData_t) : parser :=
  {| cur := {| logPos := pos; eof := false |};
     mem := m;
     mainHistory0 := RingRow 0; mainHistory1 := None; mainHistory2 := None;
     mainStreamIsValid := false; gpsHomeIsValid := false;
     lastEvent := {| event := -1; data := d |};
     stats := zeroStatistics;
     prematureEof := false; frameStart := pos; lastFrameType := None;
     calls := [] |}.

(** ** Utilities derived from the calibration *)

(** [flightLogVbatToMillivolts]: [(vbat * 330 * log->vbatscale) / 0xFFF] with
    [vbat] a [uint16_t], computed as an [int] and returned as an
    [unsigned int]. *)
Definition flightLogVbatToMillivolts (log : flightLog) (vbat : Z) : Z :=
  to_uint32 (Z.quot (to_int32 (to_uint16 vbat * 330 * vbatscale log)) 4095).

(** [flightLogEstimateNumCells]: the loop [for (i = 1; i < 8; i++)] with its
    [break], and the value of [i] after it. *)
Fixpoint flightLogEstimateNumCells_loop (log : flightLog) (refVoltage : Z)
  (fuel : nat) (i : Z) : Z :=
  match fuel with
  | O => i
  | S fuel' =>
      if i <? 8 then
        if refVoltage <? to_int32 (i * vbatmaxcellvoltage log) then i
        else flightLogEstimateNumCells_loop log refVoltage fuel' (i + 1)
      else i
  end.

Definition flightLogEstimateNumCells (log : flightLog) : Z :=
  let refVoltage :=
    to_int32 (flightLogVbatToMillivolts log (vbatref log) / 100) in
  flightLogEstimateNumCells_loop log refVoltage 8 1.

(** ** The encoder side and concrete instances *)

(** The encoding that the round-trip property speaks of, in the words of the
    specification (the writer of the log is the flight controller, not this
    repository): a base-128 varint carries seven bits of the number per
    byte, least significant group first, and sets the top bit of every byte
    but the last. *)
Fixpoint encodeUnsignedVB_loop (fuel : nat) (n : Z) : list Z :=
  match fuel with
  | O => [n]
  | S fuel' =>
      if n <? 128 then [n]
      else Z.lor (Z.land n 127) 128 :: encodeUnsignedVB_loop fuel' (Z.shiftr n 7)
  end.

Definition encodeUnsignedVB (n : Z) : list Z :=
  encodeUnsignedVB_loop (Z.to_nat (Z.log2 n)) n.

Definition bytesOf (l : list Z) : list byte := map byte_of_Z l.

(** The enumerator values of the Blackbox log format, with the frame
    interval members of either type; used to run the parser on concrete
    logs. *)
Definition blackboxHeaders (unsignedIntervals : bool) : Headers :=
  {| FLIGHT_LOG_MAX_FRAME_LENGTH := 256;
     FLIGHT_LOG_FIELD_PREDICTOR_0 := 0;
     FLIGHT_LOG_FIELD_PREDICTOR_PREVIOUS := 1;
     FLIGHT_LOG_FIELD_PREDICTOR_STRAIGHT_LINE := 2;
     FLIGHT_LOG_FIELD_PREDICTOR_AVERAGE_2 := 3;
     FLIGHT_LOG_FIELD_PREDICTOR_MINTHROTTLE := 4;
     FLIGHT_LOG_FIELD_PREDICTOR_MOTOR_0 := 5;
     FLIGHT_LOG_FIELD_PREDICTOR_INC := 6;
     FLIGHT_LOG_FIELD_PREDICTOR_HOME_COORD := 7;
     FLIGHT_LOG_FIELD_PREDICTOR_1500 := 8;
     FLIGHT_LOG_FIELD_PREDICTOR_VBATREF := 9;
     FLIGHT_LOG_FIELD_PREDICTOR_HOME_COORD_1 := 256;
     FLIGHT_LOG_FIELD_ENCODING_SIGNED_VB := 0;
     FLIGHT_LOG_FIELD_ENCODING_UNSIGNED_VB := 1;
     FLIGHT_LOG_FIELD_ENCODING_NEG_14BIT := 3;
     FLIGHT_LOG_FIELD_ENCODING_TAG8_8SVB := 6;
     FLIGHT_LOG_FIELD_ENCODING_TAG2_3S32 := 7;
     FLIGHT_LOG_FIELD_ENCODING_TAG8_4S16 := 8;
     FLIGHT_LOG_FIELD_ENCODING_NULL := 9;
     FLIGHT_LOG_EVENT_SYNC_BEEP := 0;
     FLIGHT_LOG_EVENT_AUTOTUNE_CYCLE_START := 10;
     FLIGHT_LOG_EVENT_AUTOTUNE_CYCLE_RESULT := 11;
     frameIntervalUnsigned := unsignedIntervals |}.

(** The log as [flightLogParse] sets it up before the first header line:
    the calibration defaults, no fields, no named field resolved.  The log
    occupies the whole of [bytes]. *)
Definition defaultLog (bytes : list Z) : flightLog :=
  {| logData := bytesOf bytes;
     logStart := 0;
     logEnd := Z.of_nat (length bytes);
     mainFieldCount := 0; gpsFieldCount := 0; gpsHomeFieldCount := 0;
     mainFieldSigned := [];
     frameDefs := fun _ => {| predictor := []; encoding := [] |};
     dataVersion := 0;
     motor0Index := -1; home0Index := -1; home1Index := -1;
     minthrottle := 1150; maxthrottle := 1850;
     vbatref := 4095; vbatscale := 110;
     vbatmincellvoltage := 33; vbatwarningcellvoltage := 35;
     vbatmaxcellvoltage := 43;
     frameIntervalI := 32; frameIntervalPNum := 1; frameIntervalPDenom := 1;
     onFrameReady := true; onEvent := true |}.

Definition zeroMemory : memory :=
  {| blackboxHistoryRing := repeat (repeat 0 128%nat) 3;
     gpsHomeHistory := repeat (repeat 0 128%nat) 2;
     lastGPS := repeat 0 128%nat |}.

Definition start : cursor := {| logPos := 0; eof := false |}.

(** A log whose header names two main fields (iteration and time, both
    unsigned varints in I frames; the iteration incremented and the time
    predicted on a straight line in P frames) and gives the P interval
    [pNum/pDenom]. *)
Definition mainLog (h : Headers) (bytes : list Z) (pNum pDenom : Z) : flightLog :=
  {| logData := bytesOf bytes;
     logStart := 0;
     logEnd := Z.of_nat (length bytes);
     mainFieldCount := 2; gpsFieldCount := 0; gpsHomeFieldCount := 0;
     mainFieldSigned := [0; 0];
     frameDefs := fun m =>
       if m =? marker IntraFrame then
         {| predictor := [FLIGHT_LOG_FIELD_PREDICTOR_0 h; FLIGHT_LOG_FIELD_PREDICTOR_0 h];
            encoding := [FLIGHT_LOG_FIELD_ENCODING_UNSIGNED_VB h;
                         FLIGHT_LOG_FIELD_ENCODING_UNSIGNED_VB h] |}
       else if m =? marker InterFrame then
         {| predictor := [FLIGHT_LOG_FIELD_PREDICTOR_INC h;
                          FLIGHT_LOG_FIELD_PREDICTOR_STRAIGHT_LINE h];
            encoding := [FLIGHT_LOG_FIELD_ENCODING_NULL h;
                         FLIGHT_LOG_FIELD_ENCODING_SIGNED_VB h] |}
       else {| predictor := []; encoding := [] |};
     dataVersion := 0;
     motor0Index := -1; home0Index := -1; home1Index := -1;
     minthrottle := 1150; maxthrottle := 1850;
     vbatref := 4095; vbatscale := 110;
     vbatmincellvoltage := 33; vbatwarningcellvoltage := 35;
     vbatmaxcellvoltage := 43;
     frameIntervalI := 32;
     frameIntervalPNum := fst (headerPInterval h pNum pDenom);
     frameIntervalPDenom := snd (headerPInterval h pNum pDenom);
     onFrameReady := true; onEvent := true |}.

(** A log whose header names two GPS fields predicted from the home
    coordinates (the second predictor already rewritten to [HOME_COORD_1]),
    with [GPS_home[0]] and [GPS_home[1]] found at the given positions of the
    [Field H name] line. *)
Definition gpsLog (h : Headers) (bytes : list Z) (home0 home1 : Z) : flightLog :=
  {| logData := bytesOf bytes;
     logStart := 0;
     logEnd := Z.of_nat (length bytes);
     mainFieldCount := 2; gpsFieldCount := 2; gpsHomeFieldCount := 2;
     mainFieldSigned := [0; 0];
     frameDefs := fun m =>
       if m =? marker GPSFrame then
         {| predictor := [FLIGHT_LOG_FIELD_PREDICTOR_HOME_COORD h;
                          FLIGHT_LOG_FIELD_PREDICTOR_HOME_COORD_1 h];
            encoding := [FLIGHT_LOG_FIELD_ENCODING_SIGNED_VB h;
                         FLIGHT_LOG_FIELD_ENCODING_SIGNED_VB h] |}
       else if m =? marker GPSHomeFrame then
         {| predictor := [FLIGHT_LOG_FIELD_PREDICTOR_0 h; FLIGHT_LOG_FIELD_PREDICTOR_0 h];
            encoding := [FLIGHT_LOG_FIELD_ENCODING_SIGNED_VB h;
                         FLIGHT_LOG_FIELD_ENCODING_SIGNED_VB h] |}
       else {| predictor := []; encoding := [] |};
     dataVersion := 0;
     motor0Index := -1; home0Index := home0; home1Index := home1;
     minthrottle := 1150; maxthrottle := 1850;
     vbatref := 4095; vbatscale := 110;
     vbatmincellvoltage := 33; vbatwarningcellvoltage := 35;
     vbatmaxcellvoltage := 43;
     frameIntervalI := 32; frameIntervalPNum := 1; frameIntervalPDenom := 1;
     onFrameReady := true; onEvent := true |}.

(** ** Vocabulary of the statements *)

(** The bytes [l] lie in the log at [pos], before [logEnd]. *)
Fixpoint bytesAt (log : flightLog) (pos : Z) (l : list Z) : bool :=
  match l with
  | [] => true
  | b :: t =>
      (0 <=? pos) && (pos <? logEnd log) && (byteAt log pos =? b)
      && bytesAt log (pos + 1) t
  end.


(** The members of the frame-interval type hold their own value. *)
Definition intervalsInRange (h : Headers) (log : flightLog) : Prop :=
  intervalValue h (frameIntervalI log) = frameIntervalI log
  /\ intervalValue h (frameIntervalPNum log) = frameIntervalPNum log
  /\ intervalValue h (frameIntervalPDenom log) = frameIntervalPDenom log.

(** The reference voltage [flightLogEstimateNumCells] compares with. *)
Definition refVoltageOf (log : flightLog) : Z :=
  flightLogVbatToMillivolts log (vbatref log) / 100.

(** A handler call that delivers a frame of type [t] as valid. *)
Definition deliversValid (t : flightLogFrameType_t) (c : callback) : bool :=
  match c with
  | FrameReady true _ frameType _ _ _ => frameType =? marker t
  | _ => false
  end.

(** No P frame is delivered as valid before an I frame is. *)
Fixpoint noDeltaBeforeKeyframe (l : list callback) : bool :=
  match l with
  | [] => true
  | c :: rest =>
      if deliversValid IntraFrame c then true
      else negb (deliversValid InterFrame c) && noDeltaBeforeKeyframe rest
  end.

(** What the loop sees when it reads the byte after the frame in progress:
    the length of that frame, whether the byte is the marker of a frame
    type, and whether it is an end of input that no read inside the frame
    had met before. *)
Definition lastFrameSizeAt (log : flightLog) (s : parser) : Z :=
  to_uint32 (logPos (snd (readChar log (cur s))) - frameStart s).

Definition nextIsMarker (log : flightLog) (s : parser) : bool :=
  let command := fst (readChar log (cur s)) in
  negb (command =? EOF) && isSome (getFrameType (to_uint8 command)).

Definition cleanEndOfInput (log : flightLog) (s : parser) : bool :=
  let command := fst (readChar log (cur s)) in
  (command =? EOF) && negb (prematureEof s).

(** Two states agree on everything but the cursor, the frame buffers, the
    event slot and the statistics. *)
Definition sameControl (s s' : parser) : Prop :=
  mainStreamIsValid s' = mainStreamIsValid s
  /\ gpsHomeIsValid s' = gpsHomeIsValid s
  /\ mainHistory0 s' = mainHistory0 s
  /\ mainHistory1 s' = mainHistory1 s
  /\ mainHistory2 s' = mainHistory2 s
  /\ prematureEof s' = prematureEof s
  /\ frameStart s' = frameStart s
  /\ lastFrameType s' = lastFrameType s
  /\ calls s' = calls s.

(** A call hands over the event record with the kind that marks an unknown
    event. *)
Definition deliversUnknownEvent (c : callback) : bool :=
  match c with
  | EventReady e => event e =? -1
  | _ => false
  end.

(** The invariant of the data loop after the calls [base] made before the
    stream was found invalid: among the calls made since, no P frame was
    delivered as valid before an I frame was, and while the main stream is
    valid and there is a frame-ready handler, an I frame was. *)
Definition streamInvariant (log : flightLog) (base : list callback) (s : parser)
  : Prop :=
  exists new,
    calls s = base ++ new
    /\ noDeltaBeforeKeyframe new = true
    /\ (mainStreamIsValid s = true -> onFrameReady log = true ->
        existsb (deliversValid IntraFrame) new = true).

(** The state in which the examples enter the data phase, and the state
    after [n] passes through the loop. *)
Definition entry : parser := dataPhaseEntry 0 zeroMemory (syncBeep 0).

Definition afterPasses (h : Headers) (log : flightLog) (raw : bool) (n : nat)
  : parser :=
  stateOf (dataLoop h log 64 raw n entry).

(** The cursor [c'] is not before [c]. *)
Definition advanced (c c' : cursor) : Prop := logPos c <= logPos c'.

(** A frame parsed from [c] on: if the parse returns, the cursor has not
    moved back, and the parse does not run out of fuel. *)
Definition wellParsed {A : Type} (pos : A -> cursor) (c : cursor) (r : result A)
  : Prop :=
  (forall a, r = Ok a -> advanced c (pos a)) /\ r <> OutOfFuel.

(** A keyframe interval and a delta-frame fraction of positive numbers of
    the range of [int]. *)
Definition positiveIntervals (log : flightLog) : Prop :=
  0 < frameIntervalI log <= INT_MAX
  /\ 0 < frameIntervalPNum log <= INT_MAX
  /\ 0 < frameIntervalPDenom log <= INT_MAX.

(** The run came to an end: [flightLogParse] returned, or the program
    stopped in [exit(-1)] or in undefined behaviour. *)
Definition terminated (o : outcome) : Prop :=
  match o with
  | Done _ => True
  | Stop StopExit _ => True
  | Stop StopUndefined _ => True
  | Stop StopOutOfBounds _ => True
  | Stop StopOutOfFuel _ => False
  | Continue _ => False
  end.

(** What decreases with every pass through the loop: twice the room after
    [frameStart], and one more while a frame is in progress. *)
Definition passMeasure (log : flightLog) (s : parser) : Z :=
  2 * (logEnd log - frameStart s)
  + match lastFrameType s with Some _ => 1 | None => 0 end.

(** The frame in progress starts inside the log and not after the cursor. *)
Definition frameStartInside (log : flightLog) (s : parser) : Prop :=
  frameStart s <= logPos (cur s) /\ frameStart s <= logEnd log.

(** More passes and more turns of the counting loops than any run needs. *)
Definition enoughFuel (log : flightLog) (s : parser) : nat :=
  Z.to_nat (Z.max (2 ^ 32 + 1) (passMeasure log s + 1)).

(** A log of two keyframes whose header has the line [P interval:0/1]. *)
Definition zeroFractionLog (h : Headers) : flightLog :=
  mainLog h [73; 0; 10; 73; 32; 50] 0 1.

(** ** Vocabulary of the further properties *)

(** Reading from [c] to [c'] stayed inside the log: the cursor did not move
    back, it did not pass [logEnd] unless it was past it before, and [eof]
    stays set once it is. *)
Definition readWithin (log : flightLog) (c c' : cursor) : Prop :=
  logPos c <= logPos c'
  /\ (logPos c <= logEnd log -> logPos c' <= logEnd log)
  /\ (eof c = true -> eof c' = true).

(** The inverse of [zigzagDecode], the map [(n << 1) ^ (n >> 31)] on signed
    32-bit numbers, and the bytes of the unsigned varint of its value: what
    a writer has to put into the log for [readSignedVB] to return [n]. *)
Definition zigzagEncode (n : Z) : Z :=
  to_uint32 (Z.lxor (Z.shiftl n 1) (Z.shiftr n 31)).

Definition encodeSignedVB (n : Z) : list Z := encodeUnsignedVB (zigzagEncode n).

(** From [m] to [m'] only the buffer [frame] was written, from index [i]
    on, and it kept its length. *)
Definition wroteFrom (frame : framePtr) (i : Z) (m m' : memory) : Prop :=
  (forall q, q <> frame -> frameAt m' q = frameAt m q)
  /\ (forall j, j < i -> aget (frameAt m' frame) j = aget (frameAt m frame) j)
  /\ length (frameAt m' frame) = length (frameAt m frame).

(** The buffer that the [parse] member of the frame type [t] decodes into;
    an event frame is decoded into [lastEvent], not into a frame buffer. *)
Definition parseTarget (t : flightLogFrameType_t) (s : parser) : option framePtr :=
  match t with
  | IntraFrame => Some (mainHistory0 s)
  | InterFrame => Some (mainHistory0 s)
  | GPSFrame => Some LastGPS
  | GPSHomeFrame => Some (GpsHomeRow 0)
  | EventFrame => None
  end.

(** The number of fields that the [parse] member of the frame type [t]
    hands to [parseFrame]. *)
Definition parseFieldCount (t : flightLogFrameType_t) (log : flightLog) : Z :=
  match t with
  | IntraFrame => mainFieldCount log
  | InterFrame => mainFieldCount log
  | GPSFrame => gpsFieldCount log
  | GPSHomeFrame => gpsHomeFieldCount log
  | EventFrame => 0
  end.

(** The buffer [frame] has room for a frame of [fieldCount] fields whose
    last field begins a group.  The loops of [parseFrame] that store the
    values of a group count the values, up to eight, and do not compare the
    index with [fieldCount]: a group that begins at the last field is
    stored up to seven entries after it. *)
Definition roomFor (m : memory) (frame : framePtr) (fieldCount : Z) : Prop :=
  fieldCount + 7 <= Z.of_nat (length (frameAt m frame)).

(** The file offsets that the calls of the frame-ready handler report, in
    the order of the calls. *)
Definition frameOffsets (l : list callback) : list Z :=
  flat_map (fun c => match c with
                     | FrameReady _ _ _ _ frameOffset _ => [frameOffset]
                     | EventReady _ => []
                     end) l.

Fixpoint increasing (l : list Z) : bool :=
  match l with
  | [] => true
  | x :: t =>
      match t with
      | [] => true
      | y :: _ => (x <? y) && increasing t
      end
  end.

(** The bytes that a call of the frame-ready handler reports, [frameSize]
    of them from [frameOffset] on, lie in the log between [lo] and
    [logEnd]. *)
Definition reportsInside (log : flightLog) (lo : Z) (c : callback) : bool :=
  match c with
  | FrameReady _ _ _ _ frameOffset frameSize =>
      (lo <=? frameOffset) && (0 <=? frameSize)
      && (frameOffset + frameSize <=? logEnd log)
  | EventReady _ => true
  end.

(** What holds of the calls [new] made since the state in which
    [frameStart] was [lo], whenever the loop goes round. *)
Definition traceInvariant (log : flightLog) (lo : Z) (s : parser)
  (new : list callback) : Prop :=
  lo <= frameStart s
  /\ frameStart s <= logPos (cur s) <= logEnd log
  /\ increasing (frameOffsets new) = true
  /\ (forall off, In off (frameOffsets new) ->
        off <= frameStart s /\ (lastFrameType s <> None -> off < frameStart s))
  /\ forallb (reportsInside log lo) new = true.

(** What holds of the calls [new] and of the state [stateOf o] whenever a
    pass through the loop is over, and more when the loop goes round or the
    function returns. *)
Definition traceResult (log : flightLog) (lo : Z) (o : outcome)
  (new : list callback) : Prop :=
  increasing (frameOffsets new) = true
  /\ forallb (reportsInside log lo) new = true
  /\ (forall s', o = Continue s' -> traceInvariant log lo s' new)
  /\ (forall s', o = Done s' ->
        logPos (cur s') = logEnd log /\ eof (cur s') = true
        /\ totalBytes (stats s') = to_uint32 (logEnd log - logStart log)).

(** No G frame is delivered as valid before an H frame is. *)
Fixpoint noPositionBeforeHome (l : list callback) : bool :=
  match l with
  | [] => true
  | c :: rest =>
      if deliversValid GPSHomeFrame c then true
      else negb (deliversValid GPSFrame c) && noPositionBeforeHome rest
  end.

(** The invariant of the data loop for the GPS frames, after the calls
    [base] made while no home position was known: among the calls made
    since, no G frame was delivered as valid before an H frame was, and
    while the home position counts as known and there is a frame-ready
    handler, an H frame was. *)
Definition homeInvariant (log : flightLog) (base : list callback) (s : parser)
  : Prop :=
  exists new,
    calls s = base ++ new
    /\ noPositionBeforeHome new = true
    /\ (gpsHomeIsValid s = true -> onFrameReady log = true ->
        existsb (deliversValid GPSHomeFrame) new = true).

(** A call that hands over the fields of a G frame but marks them as not
    valid. *)
Definition withholdsPosition (c : callback) : bool :=
  match c with
  | FrameReady false (Some _) frameType _ _ _ => frameType =? marker GPSFrame
  | _ => false
  end.

(** The home position is known and, among the calls made after [base], no
    decoded G frame was marked as not valid. *)
Definition homeKnown (base : list callback) (s : parser) : Prop :=
  gpsHomeIsValid s = true
  /\ exists new,
       calls s = base ++ new
       /\ existsb withholdsPosition new = false.

(** A pointer into [blackboxHistoryRing]. *)
Definition inRing (p : framePtr) : bool :=
  match p with
  | RingRow k => (k <? 3)%nat
  | _ => false
  end.

(** The shape of [mainHistory]: the frame being decoded is a row of the
    ring; the two previous frames are both NULL, and then the main stream
    is not valid, or both there, the first in the row before the one being
    decoded, the second the same (after a keyframe) or in the row before
    that. *)
Definition ringInvariant (s : parser) : Prop :=
  inRing (mainHistory0 s) = true
  /\ match mainHistory1 s, mainHistory2 s with
     | None, None => mainStreamIsValid s = false
     | Some p1, Some p2 =>
         mainHistory0 s = nextRingRow p1
         /\ inRing p1 = true /\ inRing p2 = true
         /\ (p2 = p1 \/ p1 = nextRingRow p2)
     | _, _ => False
     end.

(** No field of a keyframe is predicted from two earlier frames (or the
    log is read raw, without predictions). *)
Definition keyframesSelfContained (h : Headers) (log : flightLog) (raw : bool)
  : Prop :=
  raw = true
  \/ forall i,
       aget (predictor (frameDefs log (marker IntraFrame))) i
       <> FLIGHT_LOG_FIELD_PREDICTOR_STRAIGHT_LINE h
       /\ aget (predictor (frameDefs log (marker IntraFrame))) i
          <> FLIGHT_LOG_FIELD_PREDICTOR_AVERAGE_2 h.

(** The value of field [i] of a frame as the statistics compare it:
    unsigned unless [mainFieldSigned[i]] is set. *)
Definition statValue (log : flightLog) (fields : list Z) (i : Z) : Z :=
  if aget (mainFieldSigned log) i =? 0 then to_uint32 (aget fields i)
  else aget fields i.

(** A call that reports a corrupt frame: not valid, and without fields. *)
Definition reportsCorrupt (c : callback) : bool :=
  match c with
  | FrameReady false None _ _ _ _ => true
  | _ => false
  end.

(** A call of the frame-ready handler that has no fields to hand over. *)
Definition withoutFields (c : callback) : bool :=
  match c with
  | FrameReady _ None _ _ _ _ => true
  | _ => false
  end.

(** Among the calls made after [base], the reports without fields are the
    reports of corrupt frames, and [stats.totalCorruptFrames] has counted
    them from [count0] on. *)
Definition corruptCounted (base : list callback) (count0 : Z) (s : parser)
  : Prop :=
  exists new,
    calls s = base ++ new
    /\ filter withoutFields new = filter reportsCorrupt new
    /\ totalCorruptFrames (stats s)
       = to_uint32 (count0 + Z.of_nat (length (filter reportsCorrupt new))).

(** ** The header phase of [flightLogParse] *)

(** The loop that [flightLogParse] runs over the predictors of the G frames
    when it meets the first frame:
    [for (int i = 1; i < log->gpsFieldCount; i++)
       if (predictor[i - 1] == FLIGHT_LOG_FIELD_PREDICTOR_HOME_COORD
           && predictor[i] == FLIGHT_LOG_FIELD_PREDICTOR_HOME_COORD)
         predictor[i] = FLIGHT_LOG_FIELD_PREDICTOR_HOME_COORD_1;] *)
Fixpoint rewriteHomeCoordPairs_loop (h : Headers) (fuel : nat)
  (gpsFieldCount i : Z) (predictors : list Z) : list Z :=
  match fuel with
  | O => predictors
  | S fuel' =>
      if i <? gpsFieldCount then
        let predictors' :=
          if (aget predictors (i - 1) =? FLIGHT_LOG_FIELD_PREDICTOR_HOME_COORD h)
             && (aget predictors i =? FLIGHT_LOG_FIELD_PREDICTOR_HOME_COORD h)
          then aset predictors i (FLIGHT_LOG_FIELD_PREDICTOR_HOME_COORD_1 h)
          else predictors in
        rewriteHomeCoordPairs_loop h fuel' gpsFieldCount (i + 1) predictors'
      else predictors
  end.

Definition rewriteHomeCoordPairs (h : Headers) (gpsFieldCount : Z)
  (predictors : list Z) : list Z :=
  rewriteHomeCoordPairs_loop h (Z.to_nat gpsFieldCount) gpsFieldCount 1 predictors.

(** Field [j] and the field before it are both predicted from the home
    coordinate with the same tag. *)
Definition homeCoordPairAt (h : Headers) (predictors : list Z) (j : Z) : Prop :=
  aget predictors (j - 1) = FLIGHT_LOG_FIELD_PREDICTOR_HOME_COORD h
  /\ aget predictors j = FLIGHT_LOG_FIELD_PREDICTOR_HOME_COORD h.

(** ** [flightLogCreate]: the logs of a file *)

(** [LOG_START_MARKER]:
    "H Product:Blackbox flight data recorder by Nicholas Sherlock\n" *)
Definition LOG_START_MARKER : list Z :=
  [72; 32; 80; 114; 111; 100; 117; 99; 116; 58; 66; 108;
   97; 99; 107; 98; 111; 120; 32; 102; 108; 105; 103; 104;
   116; 32; 100; 97; 116; 97; 32; 114; 101; 99; 111; 114;
   100; 101; 114; 32; 98; 121; 32; 78; 105; 99; 104; 111;
   108; 97; 115; 32; 83; 104; 101; 114; 108; 111; 99; 107;
   10].

(** [strlen] of a string kept without its terminator. *)
Definition strlen (s : list Z) : Z := Z.of_nat (length s).

(** The bytes [needle] lie at the head of [data]. *)
Fixpoint liesAt (needle : list Z) (data : list byte) : bool :=
  match needle, data with
  | [], _ => true
  | n :: needle', d :: data' => (n =? Z_of_byte d) && liesAt needle' data'
  | _ :: _, [] => false
  end.

(** [memmem] of <string.h>, on the bytes [data] that start at offset [pos]
    of the file: the offset of the first place where [needle] lies, or
    NULL. *)
Fixpoint memmem_from (data : list byte) (needle : list Z) (pos : Z) : option Z :=
  if liesAt needle data then Some pos
  else
    match data with
    | [] => None
    | _ :: data' => memmem_from data' needle (pos + 1)
    end.

Definition memmem (file : list byte) (start : Z) (needle : list Z) : option Z :=
  memmem_from (skipn (Z.to_nat start) file) needle start.

(** The members [logCount] and [logBegin] of [flightLog_t], the latter as
    offsets into the file, NULL where nothing was stored. *)
Record logTable : Type := {
  logCount : Z;
  logBegin : Z -> option Z
}.

(** The loop of [flightLogCreate] that looks for the logs of the file:
    [for (logIndex = 0; logIndex < FLIGHT_LOG_MAX_LOGS_IN_FILE
          && logSearchStart < data + size; logIndex++)]; it returns
    [logIndex] and the array as the loop leaves them.  The bound
    [maxLogs] stands for [FLIGHT_LOG_MAX_LOGS_IN_FILE] of [parser.h]. *)
Fixpoint flightLogCreate_loop (maxLogs : Z) (file : list byte) (fuel : nat)
  (logIndex logSearchStart : Z) (begins : Z -> option Z)
  : Z * (Z -> option Z) :=
  match fuel with
  | O => (logIndex, begins)
  | S fuel' =>
      if (logIndex <? maxLogs) && (logSearchStart <? Z.of_nat (length file)) then
        let found := memmem file logSearchStart LOG_START_MARKER in
        let begins' := upd begins logIndex found in
        match found with
        | None => (logIndex, begins')
        | Some b =>
            flightLogCreate_loop maxLogs file fuel' (logIndex + 1)
              (b + strlen LOG_START_MARKER) begins'
        end
      else (logIndex, begins)
  end.

(** [flightLogCreate], from the bytes that [mmap_file] mapped: NULL for an
    empty file, else the table of the logs with the end of the file as the
    beginning of the log after the last. *)
Definition flightLogCreate (maxLogs : Z) (file : list byte) : option logTable :=
  if Z.of_nat (length file) =? 0 then None
  else
    let (count, begins) :=
      flightLogCreate_loop maxLogs file (Z.to_nat maxLogs) 0 0 (fun _ => None) in
    Some {| logCount := count;
            logBegin := upd begins count (Some (Z.of_nat (length file))) |}.

(** The range that [flightLogParse] sets up for the log [logIndex]:
    [logStart = logBegin[logIndex]] and [logEnd = logBegin[logIndex + 1]],
    or the return of [false] for an index that is not below [logCount]. *)
Definition selectLog (t : logTable) (logIndex : Z) : option (option Z * option Z) :=
  if (logIndex <? 0) || (logIndex >=? logCount t) then None
  else Some (logBegin t logIndex, logBegin t (logIndex + 1)).

(** The log [logIndex] of the file lies between the offsets [b] and [e]:
    inside the file, beginning with the start marker. *)
Definition logOccupies (file : list byte) (b e : Z) : Prop :=
  0 <= b
  /\ b + strlen LOG_START_MARKER <= e <= Z.of_nat (length file)
  /\ liesAt LOG_START_MARKER (skipn (Z.to_nat b) file) = true.

(** What the loop of [flightLogCreate] has found when [logIndex] is [n] and
    the search goes on at [start]: every entry below [n] is the offset of a
    start marker that lies in the file before [start] (the last of them
    ends at [start]), after the marker of the entry before it, with no
    start marker in between where the search for it began. *)
Definition logsFound (file : list byte) (begins : Z -> option Z) (n start : Z)
  : Prop :=
  forall i, 0 <= i < n ->
    exists b,
      begins i = Some b
      /\ 0 <= b
      /\ liesAt LOG_START_MARKER (skipn (Z.to_nat b) file) = true
      /\ b + strlen LOG_START_MARKER <= start
      /\ (i + 1 = n -> b + strlen LOG_START_MARKER = start)
      /\ (i + 1 < n ->
          exists e, begins (i + 1) = Some e
                    /\ b + strlen LOG_START_MARKER <= e
                    /\ forall k, b + strlen LOG_START_MARKER <= k < e ->
                         liesAt LOG_START_MARKER (skipn (Z.to_nat k) file) = false).

(** Every start marker that lies in the file before [start] is the
    beginning of one of the [n] logs found. *)
Definition allFound (file : list byte) (begins : Z -> option Z) (n start : Z)
  : Prop :=
  forall k, 0 <= k < start ->
    liesAt LOG_START_MARKER (skipn (Z.to_nat k) file) = true ->
    exists i, 0 <= i < n /\ begins i = Some k.

(** ** The lists of a header line *)

(** Strings are kept as the character codes before the terminator. *)

(** [isspace] and [isdigit] of <ctype.h> in the "C" locale. *)
Definition isspace (c : Z) : bool := (c =? 32) || ((9 <=? c) && (c <=? 13)).
Definition isdigit (c : Z) : bool := (48 <=? c) && (c <=? 57).

Fixpoint skipSpaces (s : list Z) : list Z :=
  match s with
  | [] => []
  | c :: s' => if isspace c then skipSpaces s' else s
  end.

Fixpoint digitsValue (acc : Z) (s : list Z) : Z :=
  match s with
  | [] => acc
  | c :: s' => if isdigit c then digitsValue (10 * acc + (c - 48)) s' else acc
  end.

(** [atoi] of <stdlib.h>: white space, an optional sign, decimal digits up
    to the first character that is none; the behaviour is undefined when
    the number is not one of the type [int]. *)
Definition atoi (s : list Z) : result Z :=
  let s1 := skipSpaces s in
  let (negative, s2) :=
    match s1 with
    | [] => (false, s1)
    | c :: t =>
        if c =? 45 then (true, t)           (* '-' *)
        else if c =? 43 then (false, t)     (* '+' *)
        else (false, s1)
    end in
  let v := digitsValue 0 s2 in
  let n := if negative then - v else v in
  if (INT_MIN <=? n) && (n <=? INT_MAX) then Ok n else Undefined.

(** The inner loops of [parseCommaSeparatedIntegers] and [parseFieldNames],
    the [while] that moves [end] on to the next comma or to the terminator:
    the characters passed over,
    and the string after the comma unless the terminator was met. *)
Fixpoint untilComma (s : list Z) : list Z * option (list Z) :=
  match s with
  | [] => ([], None)
  | c :: s' =>
      if c =? 44 then ([], Some s')
      else let (item, rest) := untilComma s' in (c :: item, rest)
  end.

(** [parseCommaSeparatedIntegers]: the loop
    [while (!done && *start && maxCount > 0)].  [end] starts at
    [start + 1], so the first character of an item is not looked at. *)
Fixpoint parseCommaSeparatedIntegers_loop (fuel : nat) (start : list Z)
  (target : list Z) (index maxCount : Z) : result (list Z) :=
  match fuel with
  | O => OutOfFuel
  | S fuel' =>
      match start with
      | [] => Ok target
      | first :: rest =>
          if maxCount >? 0 then
            let (item, next) := untilComma rest in
            let* value := atoi (first :: item) in
            let target' := aset target index value in
            match next with
            | None => Ok target'
            | Some start' =>
                parseCommaSeparatedIntegers_loop fuel' start' target'
                  (index + 1) (maxCount - 1)
            end
          else Ok target
      end
  end.

Definition parseCommaSeparatedIntegers (line : list Z) (target : list Z)
  (maxCount : Z) : result (list Z) :=
  parseCommaSeparatedIntegers_loop (S (length line)) line target 0 maxCount.

(** The decimal digits of a natural number, most significant first, and a
    number of the type [int] as a header line has it. *)
Fixpoint decimal_loop (fuel : nat) (n : Z) : list Z :=
  match fuel with
  | O => [48 + n]
  | S fuel' =>
      if n <? 10 then [48 + n]
      else decimal_loop fuel' (n / 10) ++ [48 + n mod 10]
  end.

Definition decimal (n : Z) : list Z :=
  if n <? 0 then 45 :: decimal_loop (Z.to_nat (Z.log2 (- n))) (- n)
  else decimal_loop (Z.to_nat (Z.log2 n)) n.

(** The items joined by commas. *)
Fixpoint commaSeparated (items : list (list Z)) : list Z :=
  match items with
  | [] => []
  | [item] => item
  | item :: rest => item ++ 44 :: commaSeparated rest
  end.

(** [parseFieldNames]: the loop [while (!done && *start)] over the copy of
    the line, with the names as the strings that the pointers stored in
    [fieldNames] point to once the commas have been overwritten.  [end]
    is moved on once before its character is first looked at.  The array
    has [maxNames] entries (its declaration is in [parser.h]); the loop
    does not check that bound, and a store after the last entry is
    undefined. *)
Fixpoint parseFieldNames_loop (maxNames : Z) (fuel : nat) (start : list Z)
  (fieldNames : list (list Z)) : result (list (list Z)) :=
  match fuel with
  | O => OutOfFuel
  | S fuel' =>
      match start with
      | [] => Ok fieldNames
      | first :: rest =>
          let (item, next) := untilComma rest in
          if Z.of_nat (length fieldNames) <? maxNames then
            let fieldNames' := fieldNames ++ [first :: item] in
            match next with
            | None => Ok fieldNames'
            | Some start' => parseFieldNames_loop maxNames fuel' start' fieldNames'
            end
          else Undefined
      end
  end.

(** The names stored; [*fieldCount] is their number. *)
Definition parseFieldNames (maxNames : Z) (line : list Z)
  : result (list (list Z)) :=
  parseFieldNames_loop maxNames (S (length line)) line [].

(** A name as a writer puts it between the commas of a header line: not
    empty, and without a comma. *)
Definition plainName (name : list Z) : bool :=
  match name with
  | [] => false
  | _ :: _ => forallb (fun c => negb (c =? 44)) name
  end.

(** ** [parseHeaderLine]: the line and its two parts *)

(** The bytes of the file from the offset [a] up to the offset [b]. *)
Definition bytesBetween (log : flightLog) (a b : Z) : list Z :=
  map (fun k => byteAt log (a + Z.of_nat k)) (seq 0 (Z.to_nat (b - a))).

(** The loop [for (i = 0; i < 1024; i++)] of [parseHeaderLine], [n] turns
    of it: the cursor after it, [separatorPos] (NULL until the first colon
    is read), and whether the function goes on to look at the line, after
    a newline or after the last turn, or returns at once, at the end of the
    input or at a NUL. *)
Fixpoint scanHeaderLine_loop (log : flightLog) (n : nat) (c : cursor)
  (separatorPos : option Z) : cursor * option Z * bool :=
  match n with
  | O => (c, separatorPos, true)
  | S n' =>
      let (ch, c1) := readChar log c in
      let separatorPos' :=
        if (ch =? 58) && negb (isSome separatorPos) then Some (logPos c1 - 1)
        else separatorPos in
      if ch =? 10 then (c1, separatorPos', true)
      else if (ch =? EOF) || (ch =? 0) then (c1, separatorPos', false)
      else scanHeaderLine_loop log n' c1 separatorPos'
  end.

(** [parseHeaderLine] up to the comparisons of [fieldName]: the cursor
    after it and, unless the function has returned, the strings [fieldName]
    and [fieldValue] that it has cut out of its copy of the line.  The
    byte at the cursor is read without a look at [logEnd], which is
    undefined after the end of the file.  [fieldValue] points after the
    end of [valueBuffer] when the first colon is the last of 1024
    characters without a newline; it is NULL here in that case. *)
Definition scanHeaderLine (log : flightLog) (c : cursor)
  : result (cursor * option (list Z * option (list Z))) :=
  if Z.of_nat (length (logData log)) <=? logPos c then Undefined
  else if negb (byteAt log (logPos c) =? 32) then Ok (c, None)
  else
    let c0 := {| logPos := logPos c + 1; eof := eof c |} in
    let lineStart := logPos c0 in
    let '(c1, separatorPos, complete) := scanHeaderLine_loop log 1024 c0 None in
    if complete then
      match separatorPos with
      | None => Ok (c1, None)
      | Some sep =>
          let lineEnd := logPos c1 in
          let fieldName := bytesBetween log lineStart sep in
          let fieldValue :=
            if sep + 1 <=? lineEnd - 1
            then Some (bytesBetween log (sep + 1) (lineEnd - 1))
            else None in
          Ok (c1, Some (fieldName, fieldValue))
      end
    else Ok (c1, None).

(** What the loop has read when the function goes on: the characters from
    [from] up to [to], none of them but the last a newline or a NUL, the
    last a newline unless all [n] turns were made. *)
Definition lineScanned (log : flightLog) (n : Z) (from to : Z) : Prop :=
  from <= to <= from + n
  /\ to <= Z.max from (logEnd log)
  /\ (forall k, from <= k < to - 1 -> byteAt log k <> 10 /\ byteAt log k <> 0)
  /\ (to = from + n \/ (from < to /\ byteAt log (to - 1) = 10)).

(** [separatorPos] after the loop that began at [from] with [before]: what
    it was if it was not NULL, else the place of the first colon read, or
    NULL if none was. *)
Definition firstColon (log : flightLog) (from to : Z) (before after : option Z)
  : Prop :=
  match before with
  | Some _ => after = before
  | None =>
      match after with
      | Some sep =>
          from <= sep < to /\ byteAt log sep = 58
          /\ forall k, from <= k < sep -> byteAt log k <> 58
      | None => forall k, from <= k < to -> byteAt log k <> 58
      end
  end.

(** The encodings that [parseFrame] knows. *)
Definition encodingTags (h : Headers) : list Z :=
  [ FLIGHT_LOG_FIELD_ENCODING_SIGNED_VB h; FLIGHT_LOG_FIELD_ENCODING_UNSIGNED_VB h;
    FLIGHT_LOG_FIELD_ENCODING_NEG_14BIT h; FLIGHT_LOG_FIELD_ENCODING_TAG8_4S16 h;
    FLIGHT_LOG_FIELD_ENCODING_TAG2_3S32 h; FLIGHT_LOG_FIELD_ENCODING_TAG8_8SVB h;
    FLIGHT_LOG_FIELD_ENCODING_NULL h ].

(** The log of [mainLog] with a header that predicts the first field of
    the I frames on a straight line. *)
Definition straightLineLog (h : Headers) (bytes : list Z) : flightLog :=
  {| logData := bytesOf bytes;
     logStart := 0;
     logEnd := Z.of_nat (length bytes);
     mainFieldCount := 2; gpsFieldCount := 0; gpsHomeFieldCount := 0;
     mainFieldSigned := [0; 0];
     frameDefs := fun m =>
       if m =? marker IntraFrame then
         {| predictor := [FLIGHT_LOG_FIELD_PREDICTOR_STRAIGHT_LINE h;
                          FLIGHT_LOG_FIELD_PREDICTOR_0 h];
            encoding := [FLIGHT_LOG_FIELD_ENCODING_UNSIGNED_VB h;
                         FLIGHT_LOG_FIELD_ENCODING_UNSIGNED_VB h] |}
       else {| predictor := []; encoding := [] |};
     dataVersion := 0;
     motor0Index := -1; home0Index := -1; home1Index := -1;
     minthrottle := 1150; maxthrottle := 1850;
     vbatref := 4095; vbatscale := 110;
     vbatmincellvoltage := 33; vbatwarningcellvoltage := 35;
     vbatmaxcellvoltage := 43;
     frameIntervalI := 32; frameIntervalPNum := 1; frameIntervalPDenom := 1;
     onFrameReady := true; onEvent := true |}.

(** A call that hands over the fields of a frame reports a size between 0
    and [FLIGHT_LOG_MAX_FRAME_LENGTH]. *)
Definition sizeBounded (h : Headers) (c : callback) : bool :=
  match c with
  | FrameReady _ (Some _) _ _ _ frameSize =>
      (0 <=? frameSize) && (frameSize <=? FLIGHT_LOG_MAX_FRAME_LENGTH h)
  | _ => true
  end.

(** A log whose I frames have [fields] fields, all of them without bytes
    (the encoding [NULL]) but the last, which has the encoding [TAG2_3S32]
    and so begins a group of three. *)
Definition groupLog (h : Headers) (fields : nat) (bytes : list Z) : flightLog :=
  {| logData := bytesOf bytes;
     logStart := 0;
     logEnd := Z.of_nat (length bytes);
     mainFieldCount := Z.of_nat fields; gpsFieldCount := 0; gpsHomeFieldCount := 0;
     mainFieldSigned := [];
     frameDefs := fun m =>
       if m =? marker IntraFrame then
         {| predictor := repeat (FLIGHT_LOG_FIELD_PREDICTOR_0 h) fields;
            encoding := repeat (FLIGHT_LOG_FIELD_ENCODING_NULL h) (fields - 1)
                        ++ [FLIGHT_LOG_FIELD_ENCODING_TAG2_3S32 h] |}
       else {| predictor := []; encoding := [] |};
     dataVersion := 0;
     motor0Index := -1; home0Index := -1; home1Index := -1;
     minthrottle := 1150; maxthrottle := 1850;
     vbatref := 4095; vbatscale := 110;
     vbatmincellvoltage := 33; vbatwarningcellvoltage := 35;
     vbatmaxcellvoltage := 43;
     frameIntervalI := 32; frameIntervalPNum := 1; frameIntervalPDenom := 1;
     onFrameReady := true; onEvent := true |}.
(** * Properties *)

(** ** Machine integers and the cursor *)

Lemma to_int32_small (z : Z) : INT_MIN <= z <= INT_MAX -> to_int32 z = z.
Proof.
  unfold to_int32, INT_MIN, INT_MAX. intros H.
  rewrite Z.mod_small; lia.
Qed.

Lemma to_uint32_small (z : Z) : 0 <= z < 2 ^ 32 -> to_uint32 z = z.
Proof. unfold to_uint32. intros H. now apply Z.mod_small. Qed.

Lemma to_uint32_range (z : Z) : 0 <= to_uint32 z < 2 ^ 32.
Proof. unfold to_uint32. apply Z.mod_pos_bound. lia. Qed.

Lemma to_int32_range (z : Z) : INT_MIN <= to_int32 z <= INT_MAX.
Proof.
  unfold to_int32, INT_MIN, INT_MAX.
  pose proof (Z.mod_pos_bound (z + 2 ^ 31) (2 ^ 32)). lia.
Qed.

Lemma Z_of_byte_range (b : byte) : 0 <= Z_of_byte b < 256.
Proof.
  unfold Z_of_byte. pose proof (Byte.to_N_bounded b). lia.
Qed.

Lemma Z_of_byte_of_Z (z : Z) : 0 <= z < 256 -> Z_of_byte (byte_of_Z z) = z.
Proof.
  intros H. unfold Z_of_byte, byte_of_Z.
  destruct (Byte.of_N (Z.to_N z)) as [b|] eqn:E.
  - apply Byte.to_of_N in E. rewrite E. lia.
  - apply Byte.of_N_None_iff in E. lia.
Qed.

Lemma byteAt_range (log : flightLog) (pos : Z) : 0 <= byteAt log pos < 256.
Proof. apply Z_of_byte_range. Qed.

Lemma readChar_inside (log : flightLog) (c : cursor) :
  logPos c < logEnd log ->
  readChar log c = (byteAt log (logPos c), {| logPos := logPos c + 1; eof := eof c |}).
Proof.
  intros H. unfold readChar.
  destruct (Z.ltb_spec (logPos c) (logEnd log)); [reflexivity | lia].
Qed.

Lemma readChar_outside (log : flightLog) (c : cursor) :
  logEnd log <= logPos c ->
  readChar log c = (EOF, {| logPos := logPos c; eof := true |}).
Proof.
  intros H. unfold readChar.
  destruct (Z.ltb_spec (logPos c) (logEnd log)); [lia | reflexivity].
Qed.

Lemma bytesAt_cons (log : flightLog) (pos b : Z) (t : list Z) :
  bytesAt log pos (b :: t) = true ->
  0 <= pos /\ pos < logEnd log /\ byteAt log pos = b /\ bytesAt log (pos + 1) t = true.
Proof.
  simpl. rewrite !andb_true_iff. intros [[[H1 H2] H3] H4].
  repeat split; try lia; assumption.
Qed.

Lemma readChar_bytesAt (log : flightLog) (c : cursor) (b : Z) (t : list Z) :
  bytesAt log (logPos c) (b :: t) = true ->
  readChar log c = (b, {| logPos := logPos c + 1; eof := eof c |}).
Proof.
  intros H. apply bytesAt_cons in H. destruct H as (_ & H & E & _).
  rewrite readChar_inside by assumption. now rewrite E.
Qed.

(** ** TAG2_3S32 with the lead byte 0x15 *)

(** C6, as the code has it: a TAG2_3S32 group whose lead byte is 0x15 (top
    two bits 00, three 2-bit signed lanes 01, 01, 01) decodes to the three
    values [1, 1, 1] and takes that one byte. *)
Theorem readTag2_3S32_lead_0x15 (log : flightLog) (c : cursor) :
  bytesAt log (logPos c) [21] = true ->
  readTag2_3S32 log c = ([1; 1; 1], {| logPos := logPos c + 1; eof := eof c |}).
Proof.
  intros H. unfold readTag2_3S32, readByte.
  rewrite (readChar_bytesAt _ _ _ _ H). reflexivity.
Qed.

Lemma readTag2_3S32_lead_0x15_witness :
  bytesAt (defaultLog [21]) (logPos start) [21] = true
  /\ readTag2_3S32 (defaultLog [21]) start = ([1; 1; 1], {| logPos := 1; eof := false |}).
Proof.
  split; [reflexivity | exact (readTag2_3S32_lead_0x15 (defaultLog [21]) start eq_refl)].
Defined.

(** C6, as the claim words it, fails: the group that consists of the lead
    byte 0x15 does not decode to [0, 1, 1]. *)
Lemma readTag2_3S32_lead_0x15_not_011 :
  bytesAt (defaultLog [21]) (logPos start) [21] = true
  /\ fst (readTag2_3S32 (defaultLog [21]) start) <> [0; 1; 1].
Proof.
  split; [reflexivity | vm_compute; discriminate].
Qed.

(** ** The estimate of the number of cells *)

Lemma refVoltageOf_range (log : flightLog) : 0 <= refVoltageOf log <= INT_MAX.
Proof.
  unfold refVoltageOf, flightLogVbatToMillivolts, INT_MAX.
  pose proof (to_uint32_range
    (Z.quot (to_int32 (to_uint16 (vbatref log) * 330 * vbatscale log)) 4095)) as H.
  split.
  - apply Z.div_pos; lia.
  - assert (to_uint32 (Z.quot (to_int32 (to_uint16 (vbatref log) * 330 * vbatscale log)) 4095) / 100
            < 2 ^ 31); [|lia].
    apply Z.div_lt_upper_bound; lia.
Qed.

(** The loop returns the first [n] from [i] on that passes the test, or 8. *)
Lemma flightLogEstimateNumCells_loop_spec (log : flightLog) (ref : Z) :
  INT_MIN <= 7 * vbatmaxcellvoltage log <= INT_MAX ->
  forall (fuel : nat) (i : Z),
    1 <= i <= 8 -> 8 - i < Z.of_nat fuel ->
    let n := flightLogEstimateNumCells_loop log ref fuel i in
    i <= n <= 8
    /\ (n <= 7 -> ref < n * vbatmaxcellvoltage log)
    /\ (forall k, i <= k < n -> ~ ref < k * vbatmaxcellvoltage log).
Proof.
  intros Hmax. unfold INT_MIN, INT_MAX in Hmax.
  induction fuel as [|fuel IH]; intros i Hi Hfuel; [lia|].
  simpl. destruct (Z.ltb_spec i 8) as [Hlt|Hge].
  - rewrite to_int32_small by (unfold INT_MIN, INT_MAX; nia).
    destruct (Z.ltb_spec ref (i * vbatmaxcellvoltage log)) as [Hyes|Hno].
    + repeat split; intros; lia.
    + specialize (IH (i + 1) ltac:(lia) ltac:(lia)). simpl in IH.
      destruct IH as (IH1 & IH2 & IH3).
      repeat split; try lia; try assumption.
      intros k Hk. destruct (Z.eq_dec k i) as [->|Hne]; [lia|].
      apply IH3. lia.
  - repeat split; intros; lia.
Qed.

Lemma flightLogEstimateNumCells_spec (log : flightLog) :
  INT_MIN <= 7 * vbatmaxcellvoltage log <= INT_MAX ->
  let n := flightLogEstimateNumCells log in
  1 <= n <= 8
  /\ (n <= 7 -> refVoltageOf log < n * vbatmaxcellvoltage log)
  /\ (forall k, 1 <= k < n -> ~ refVoltageOf log < k * vbatmaxcellvoltage log).
Proof.
  intros Hmax. unfold flightLogEstimateNumCells.
  fold (refVoltageOf log).
  rewrite to_int32_small
    by (pose proof (refVoltageOf_range log); unfold INT_MIN, INT_MAX in *; lia).
  apply flightLogEstimateNumCells_loop_spec; [assumption | lia | simpl; lia].
Qed.

(** C9, as the code has it: when seven times the maximum cell voltage is
    within the range of an [int], [flightLogEstimateNumCells] returns the
    smallest n in [1,7] such that vbat_to_millivolts(vbatref)/100 is below
    n times [vbatmaxcellvoltage], and returns 8 when there is no such n. *)
Theorem flightLogEstimateNumCells_smallest_or_8 (log : flightLog) :
  INT_MIN <= 7 * vbatmaxcellvoltage log <= INT_MAX ->
  (forall n, 1 <= n <= 7 ->
     refVoltageOf log < n * vbatmaxcellvoltage log ->
     (forall k, 1 <= k < n -> ~ refVoltageOf log < k * vbatmaxcellvoltage log) ->
     flightLogEstimateNumCells log = n)
  /\ ((forall n, 1 <= n <= 7 -> ~ refVoltageOf log < n * vbatmaxcellvoltage log) ->
      flightLogEstimateNumCells log = 8).
Proof.
  intros Hmax.
  destruct (flightLogEstimateNumCells_spec log Hmax) as (Hr & Hlt & Hmin).
  split.
  - intros n Hn Hyes Hsmall.
    destruct (Z.lt_trichotomy (flightLogEstimateNumCells log) n) as [H|[H|H]].
    + exfalso. apply (Hsmall (flightLogEstimateNumCells log)); [lia|].
      apply Hlt. lia.
    + assumption.
    + exfalso. apply (Hmin n); [lia | assumption].
  - intros Hnone.
    destruct (Z.eq_dec (flightLogEstimateNumCells log) 8) as [H|H]; [assumption|].
    exfalso. apply (Hnone (flightLogEstimateNumCells log)); [lia|].
    apply Hlt. lia.
Qed.

Lemma flightLogEstimateNumCells_smallest_or_8_witness :
  (INT_MIN <= 7 * vbatmaxcellvoltage (defaultLog []) <= INT_MAX)
  /\ flightLogEstimateNumCells (defaultLog []) = 8.
Proof.
  assert (H : INT_MIN <= 7 * vbatmaxcellvoltage (defaultLog []) <= INT_MAX)
    by (vm_compute; split; discriminate).
  split; [exact H|].
  apply (proj2 (flightLogEstimateNumCells_smallest_or_8 (defaultLog []) H)).
  intros n Hn. change (refVoltageOf (defaultLog [])) with 363.
  change (vbatmaxcellvoltage (defaultLog [])) with 43. lia.
Defined.

(** C9, as the claim words it, fails: with the calibration defaults (vbatref
    4095, vbatscale 110, 4.3 V per cell) no n in [1,7] passes the test, and
    the function returns 8, not 7. *)
Lemma flightLogEstimateNumCells_default_not_7 :
  (forall n, 1 <= n <= 7 ->
     ~ refVoltageOf (defaultLog []) < n * vbatmaxcellvoltage (defaultLog []))
  /\ flightLogEstimateNumCells (defaultLog []) <> 7.
Proof.
  split.
  - intros n Hn. change (refVoltageOf (defaultLog [])) with 363.
    change (vbatmaxcellvoltage (defaultLog [])) with 43. lia.
  - vm_compute. discriminate.
Qed.

(** ** The iteration-rate filter *)

Lemma intervalValue_small (h : Headers) (z : Z) :
  0 <= z <= INT_MAX -> intervalValue h z = z.
Proof.
  intros H. unfold intervalValue. unfold INT_MAX in H.
  destruct (frameIntervalUnsigned h).
  - apply to_uint32_small. lia.
  - apply to_int32_small. unfold INT_MIN, INT_MAX. lia.
Qed.

Lemma intervalRem_nonneg (h : Headers) (a b : Z) :
  0 <= a -> 0 < b -> intervalRem h a b = Ok (a mod b).
Proof.
  intros Ha Hb. unfold intervalRem.
  destruct (Z.eqb_spec b 0); [lia|].
  destruct (Z.eqb_spec b (-1)); [lia|].
  rewrite andb_false_r. rewrite Z.rem_mod_nonneg by lia. reflexivity.
Qed.








(** ** Predictors that refer to a named field *)

Lemma tags_differ (l : list Z) (i j : nat) :
  NoDup l -> (i < length l)%nat -> (j < length l)%nat -> i <> j ->
  (nth i l 0 =? nth j l 0) = false.
Proof.
  intros Hnd Hi Hj Hne. apply Z.eqb_neq. intros E.
  apply Hne. exact (proj1 (NoDup_nth l 0) Hnd i j Hi Hj E).
Qed.

Ltac tag_differs h i j :=
  match goal with
  | Hnd : NoDup (predictorTags h) |- _ =>
      let E := fresh "E" in
      pose proof (tags_differ (predictorTags h) i j Hnd
                    ltac:(simpl; lia) ltac:(simpl; lia) ltac:(lia)) as E;
      simpl in E; rewrite E; clear E
  end.

(** [MOTOR_0] stops the program exactly when [motor0Index] is negative. *)
Lemma applyPrediction_MOTOR_0 (h : Headers) (log : flightLog) (m : memory)
  (fieldIndex value : Z) (current : framePtr) (previous previous2 : option framePtr) :
  NoDup (predictorTags h) ->
  applyPrediction h log m fieldIndex (FLIGHT_LOG_FIELD_PREDICTOR_MOTOR_0 h) value
    current previous previous2
  = if motor0Index log <? 0 then Exit
    else Ok (to_int32 (to_uint32 (to_uint32 value
                         + to_uint32 (load m current (motor0Index log))))).
Proof.
  intros Hnd. unfold applyPrediction.
  tag_differs h 3%nat 0%nat. tag_differs h 3%nat 1%nat. tag_differs h 3%nat 2%nat.
  rewrite Z.eqb_refl. destruct (motor0Index log <? 0); reflexivity.
Qed.

(** [HOME_COORD] stops the program exactly when [home0Index] is negative. *)
Lemma applyPrediction_HOME_COORD (h : Headers) (log : flightLog) (m : memory)
  (fieldIndex value : Z) (current : framePtr) (previous previous2 : option framePtr) :
  NoDup (predictorTags h) ->
  applyPrediction h log m fieldIndex (FLIGHT_LOG_FIELD_PREDICTOR_HOME_COORD h) value
    current previous previous2
  = if home0Index log <? 0 then Exit
    else Ok (to_int32 (to_uint32 (to_uint32 value
                         + load m (GpsHomeRow 1) (home0Index log)))).
Proof.
  intros Hnd. unfold applyPrediction.
  tag_differs h 8%nat 0%nat. tag_differs h 8%nat 1%nat. tag_differs h 8%nat 2%nat.
  tag_differs h 8%nat 3%nat. tag_differs h 8%nat 4%nat. tag_differs h 8%nat 5%nat.
  tag_differs h 8%nat 6%nat. tag_differs h 8%nat 7%nat.
  rewrite Z.eqb_refl. destruct (home0Index log <? 0); reflexivity.
Qed.

(** [HOME_COORD_1] stops the program when [home1Index] is below 1: also
    when [GPS_home[1]] was found at position 0. *)
Lemma applyPrediction_HOME_COORD_1 (h : Headers) (log : flightLog) (m : memory)
  (fieldIndex value : Z) (current : framePtr) (previous previous2 : option framePtr) :
  NoDup (predictorTags h) ->
  applyPrediction h log m fieldIndex (FLIGHT_LOG_FIELD_PREDICTOR_HOME_COORD_1 h) value
    current previous previous2
  = if home1Index log <? 1 then Exit
    else Ok (to_int32 (to_uint32 (to_uint32 value
                         + load m (GpsHomeRow 1) (home1Index log)))).
Proof.
  intros Hnd. unfold applyPrediction.
  tag_differs h 9%nat 0%nat. tag_differs h 9%nat 1%nat. tag_differs h 9%nat 2%nat.
  tag_differs h 9%nat 3%nat. tag_differs h 9%nat 4%nat. tag_differs h 9%nat 5%nat.
  tag_differs h 9%nat 6%nat. tag_differs h 9%nat 7%nat. tag_differs h 9%nat 8%nat.
  rewrite Z.eqb_refl. destruct (home1Index log <? 1); reflexivity.
Qed.

(** C8, where the code departs from it: a header whose [Field H name] line
    lists [GPS_home[1]] first resolves [home1Index] to position 0.
    [HOME_COORD_1] then stops the program although the field is resolved,
    while [HOME_COORD] and [MOTOR_0] accept position 0; a log with one GPS
    frame ends in [exit(-1)]. *)
Theorem applyPrediction_HOME_COORD_1_position_0 :
  let h := blackboxHeaders true in
  let log := gpsLog h [71; 2; 4] 1 0 in
  home1Index log = 0
  /\ applyPrediction h log zeroMemory 1 (FLIGHT_LOG_FIELD_PREDICTOR_HOME_COORD_1 h) 7
       LastGPS None None = Exit
  /\ applyPrediction h (gpsLog h [71; 2; 4] 0 1) zeroMemory 0
       (FLIGHT_LOG_FIELD_PREDICTOR_HOME_COORD h) 7 LastGPS None None = Ok 7
  /\ (exists s, flightLogParseData h log false 5 (dataPhaseEntry 0 zeroMemory (syncBeep 0))
                = Stop StopExit s)
  /\ (exists s, flightLogParseData h (gpsLog h [71; 2; 4] 0 1) false 5
                  (dataPhaseEntry 0 zeroMemory (syncBeep 0))
                = Done s).
Proof.
  cbv zeta. repeat split; try reflexivity; eexists; vm_compute; reflexivity.
Qed.

(** ** The unsigned variable-byte codec *)

Lemma low7_and_rest (n : Z) :
  Z.lor (Z.land n 127) (Z.shiftl (Z.shiftr n 7) 7) = n.
Proof.
  apply Z.bits_inj'. intros i Hi.
  rewrite Z.lor_spec, Z.land_spec.
  change 127 with (Z.ones 7).
  destruct (Z.ltb_spec i 7) as [Hlt|Hge].
  - rewrite Z.ones_spec_low by lia.
    rewrite Z.shiftl_spec_low by lia.
    now rewrite andb_true_r, orb_false_r.
  - rewrite Z.ones_spec_high by lia.
    rewrite Z.shiftl_spec by lia. rewrite Z.shiftr_spec by lia.
    rewrite andb_false_r. simpl. f_equal. lia.
Qed.

Lemma shiftl_split (n shift : Z) :
  0 <= shift ->
  Z.lor (Z.shiftl (Z.land n 127) shift) (Z.shiftl (Z.shiftr n 7) (shift + 7))
  = Z.shiftl n shift.
Proof.
  intros Hs.
  rewrite (Z.add_comm shift 7), <- Z.shiftl_shiftl by lia.
  rewrite <- Z.shiftl_lor. now rewrite low7_and_rest.
Qed.

Lemma to_uint32_lor (a b : Z) :
  to_uint32 (Z.lor a b) = Z.lor (to_uint32 a) (to_uint32 b).
Proof.
  unfold to_uint32. rewrite <- !Z.land_ones by lia.
  apply Z.land_lor_distr_l.
Qed.

Lemma low7_range (n : Z) : 0 <= Z.land n 127 < 128.
Proof.
  change 127 with (Z.ones 7). rewrite Z.land_ones by lia.
  apply Z.mod_pos_bound. lia.
Qed.

Lemma testbit7_small (x : Z) : 0 <= x < 128 -> Z.testbit x 7 = false.
Proof.
  intros Hx. destruct (Z.eq_dec x 0) as [->|Hx0]; [apply Z.bits_0|].
  apply Z.bits_above_log2; [lia|]. apply Z.log2_lt_pow2; lia.
Qed.

Lemma continuation_byte (x : Z) :
  0 <= x < 128 -> Z.lor x 128 = x + 128.
Proof.
  intros Hx. pose proof (Z.add_lor_land x 128) as Hadd.
  assert (Hland : Z.land x 128 = 0); [|lia]. clear Hadd.
  apply Z.bits_inj'. intros i Hi.
  rewrite Z.land_spec, Z.bits_0.
  change 128 with (2 ^ 7). rewrite Z.pow2_bits_eqb by lia.
  destruct (Z.eqb_spec 7 i) as [<-|Hne]; [|now rewrite andb_false_r].
  rewrite andb_true_r. now apply testbit7_small.
Qed.

Lemma clear_continuation (x : Z) :
  0 <= x < 128 -> Z.land (x + 128) (Z.lnot 128) = x.
Proof.
  intros Hx. rewrite <- continuation_byte by assumption.
  apply Z.bits_inj'. intros i Hi.
  rewrite Z.land_spec, Z.lor_spec, Z.lnot_spec by lia.
  change 128 with (2 ^ 7). rewrite Z.pow2_bits_eqb by lia.
  destruct (Z.eqb_spec 7 i) as [<-|Hne].
  - cbn [negb]. rewrite andb_false_r. symmetry. now apply testbit7_small.
  - cbn [negb]. now rewrite orb_false_r, andb_true_r.
Qed.

Lemma final_byte (x : Z) : 0 <= x < 128 -> Z.land x (Z.lnot 128) = x.
Proof.
  intros Hx. apply Z.bits_inj'. intros i Hi.
  rewrite Z.land_spec, Z.lnot_spec by lia.
  change 128 with (2 ^ 7). rewrite Z.pow2_bits_eqb by lia.
  destruct (Z.eqb_spec 7 i) as [<-|Hne].
  - cbn [negb]. rewrite andb_false_r. symmetry. now apply testbit7_small.
  - cbn [negb]. now rewrite andb_true_r.
Qed.

(** The decoder on the encoding, for every state of its loop. *)
Lemma readUnsignedVB_loop_roundtrip (log : flightLog) :
  forall (r fuel : nat) (n shift result : Z) (c : cursor),
    0 <= n < 2 ^ (7 * Z.of_nat (S r)) ->
    Z.log2 n <= Z.of_nat fuel ->
    0 <= shift ->
    bytesAt log (logPos c) (encodeUnsignedVB_loop fuel n) = true ->
    readUnsignedVB_loop log (S r) shift result c
    = (Z.lor result (to_uint32 (Z.shiftl n shift)),
       {| logPos := logPos c + Z.of_nat (length (encodeUnsignedVB_loop fuel n));
          eof := eof c |}).
Proof.
  induction r as [|r IH]; intros fuel n shift result c Hn Hfuel Hshift Hbytes.
  - assert (Hsmall : n < 128) by (change (2 ^ (7 * Z.of_nat 1)) with 128 in Hn; lia).
    assert (Henc : encodeUnsignedVB_loop fuel n = [n]).
    { destruct fuel; simpl; [reflexivity|].
      destruct (Z.ltb_spec n 128); [reflexivity | lia]. }
    rewrite Henc in *. simpl.
    rewrite (readChar_bytesAt _ _ _ _ Hbytes).
    destruct (Z.eqb_spec n EOF) as [E|_]; [unfold EOF in E; lia|].
    rewrite final_byte by lia.
    destruct (Z.ltb_spec n 128); [reflexivity | lia].
  - destruct (Z.ltb_spec n 128) as [Hsmall|Hbig].
    + assert (Henc : encodeUnsignedVB_loop fuel n = [n]).
      { destruct fuel; simpl; [reflexivity|].
        destruct (Z.ltb_spec n 128); [reflexivity | lia]. }
      rewrite Henc in *.
      change (readUnsignedVB_loop log (S (S r)) shift result c)
        with (let (ch, c1) := readChar log c in
              if ch =? EOF then (0, c1)
              else
                let result' :=
                  Z.lor result (to_uint32 (Z.shiftl (Z.land ch (Z.lnot 128)) shift)) in
                if ch <? 128 then (result', c1)
                else readUnsignedVB_loop log (S r) (shift + 7) result' c1).
      rewrite (readChar_bytesAt _ _ _ _ Hbytes).
      destruct (Z.eqb_spec n EOF) as [E|_]; [unfold EOF in E; lia|].
      cbv zeta. rewrite final_byte by lia.
      destruct (Z.ltb_spec n 128); [reflexivity | lia].
    + destruct fuel as [|fuel].
      { exfalso. assert (7 <= Z.log2 n); [|simpl in Hfuel; lia].
        apply Z.log2_le_pow2; lia. }
      assert (Henc : encodeUnsignedVB_loop (S fuel) n
                     = Z.lor (Z.land n 127) 128
                         :: encodeUnsignedVB_loop fuel (Z.shiftr n 7)).
      { simpl. destruct (Z.ltb_spec n 128); [lia | reflexivity]. }
      rewrite Henc in *. clear Henc.
      pose proof (low7_range n) as Hlow.
      rewrite continuation_byte in * by assumption.
      change (readUnsignedVB_loop log (S (S r)) shift result c)
        with (let (ch, c1) := readChar log c in
              if ch =? EOF then (0, c1)
              else
                let result' :=
                  Z.lor result (to_uint32 (Z.shiftl (Z.land ch (Z.lnot 128)) shift)) in
                if ch <? 128 then (result', c1)
                else readUnsignedVB_loop log (S r) (shift + 7) result' c1).
      rewrite (readChar_bytesAt _ _ _ _ Hbytes).
      destruct (Z.eqb_spec (Z.land n 127 + 128) EOF) as [E|_]; [unfold EOF in E; lia|].
      cbv zeta. rewrite clear_continuation by assumption.
      destruct (Z.ltb_spec (Z.land n 127 + 128) 128); [lia|].
      apply bytesAt_cons in Hbytes. destruct Hbytes as (_ & _ & _ & Hrest).
      rewrite (IH fuel (Z.shiftr n 7) (shift + 7) _
                 {| logPos := logPos c + 1; eof := eof c |}).
      * rewrite <- Z.lor_assoc, <- to_uint32_lor, shiftl_split by assumption.
        simpl logPos. simpl eof. simpl length. f_equal. f_equal. lia.
      * rewrite Z.shiftr_div_pow2 by lia. split.
        -- apply Z.div_pos; lia.
        -- apply Z.div_lt_upper_bound; [lia|].
           replace (2 ^ 7 * 2 ^ (7 * Z.of_nat (S r))) with (2 ^ (7 * Z.of_nat (S (S r))));
             [lia|].
           rewrite <- Z.pow_add_r by lia. f_equal. lia.
      * rewrite Z.log2_shiftr by lia.
        assert (7 <= Z.log2 n) by (apply Z.log2_le_pow2; lia). lia.
      * lia.
      * exact Hrest.
Qed.

(** Bytes that all carry the continuation bit use up the loop. *)
Lemma readUnsignedVB_loop_overlong (log : flightLog) :
  forall (bs : list Z) (shift result : Z) (c : cursor),
    Forall (fun b => 128 <= b) bs ->
    bytesAt log (logPos c) bs = true ->
    readUnsignedVB_loop log (length bs) shift result c
    = (0, {| logPos := logPos c + Z.of_nat (length bs); eof := eof c |}).
Proof.
  induction bs as [|b bs IH]; intros shift result c Hall Hbytes.
  - simpl. destruct c as [p e]. simpl. f_equal. f_equal. lia.
  - inversion Hall as [|? ? Hb Hrest]; subst.
    cbn [length readUnsignedVB_loop].
    rewrite (readChar_bytesAt _ _ _ _ Hbytes).
    destruct (Z.eqb_spec b EOF) as [E|_]; [unfold EOF in E; lia|].
    cbv zeta. destruct (Z.ltb_spec b 128); [lia|].
    apply bytesAt_cons in Hbytes. destruct Hbytes as (_ & _ & _ & Hbytes).
    rewrite (IH _ _ {| logPos := logPos c + 1; eof := eof c |} Hrest Hbytes).
    cbn [logPos eof]. f_equal. f_equal. lia.
Qed.

(** C5: for every n in [0, 2^32), the UNSIGNED_VB decoder reads the
    base-128 varint encoding of n back as n and stops right after it; and a
    varint whose first five bytes all carry the continuation bit decodes
    to 0. *)
Theorem readUnsignedVB_roundtrip (log : flightLog) (c : cursor) :
  (forall n, 0 <= n < 2 ^ 32 ->
     bytesAt log (logPos c) (encodeUnsignedVB n) = true ->
     readUnsignedVB log c
     = (n, {| logPos := logPos c + Z.of_nat (length (encodeUnsignedVB n));
              eof := eof c |}))
  /\ (forall bs, length bs = 5%nat ->
        Forall (fun b => 128 <= b) bs ->
        bytesAt log (logPos c) bs = true ->
        readUnsignedVB log c = (0, {| logPos := logPos c + 5; eof := eof c |})).
Proof.
  split.
  - intros n Hn Hbytes. unfold readUnsignedVB, encodeUnsignedVB in *.
    rewrite (readUnsignedVB_loop_roundtrip log 4 (Z.to_nat (Z.log2 n)) n 0 0 c).
    + rewrite Z.shiftl_0_r, Z.lor_0_l, to_uint32_small by assumption. reflexivity.
    + change (2 ^ (7 * Z.of_nat 5)) with (2 ^ 35). lia.
    + rewrite Z2Nat.id by apply Z.log2_nonneg. lia.
    + lia.
    + assumption.
  - intros bs Hlen Hall Hbytes. unfold readUnsignedVB.
    rewrite <- Hlen. rewrite (readUnsignedVB_loop_overlong log bs 0 0 c Hall Hbytes).
    rewrite Hlen. reflexivity.
Qed.

Lemma readUnsignedVB_roundtrip_witness :
  readUnsignedVB (defaultLog [172; 2; 73]) start = (300, {| logPos := 2; eof := false |})
  /\ readUnsignedVB (defaultLog [255; 255; 255; 255; 255; 1]) start
     = (0, {| logPos := 5; eof := false |}).
Proof.
  split.
  - exact (proj1 (readUnsignedVB_roundtrip (defaultLog [172; 2; 73]) start) 300
             ltac:(lia) eq_refl).
  - apply (proj2 (readUnsignedVB_roundtrip (defaultLog [255; 255; 255; 255; 255; 1]) start)
             [255; 255; 255; 255; 255] eq_refl).
    + repeat constructor; lia.
    + reflexivity.
Defined.

(** ** Corrupt frames *)

Lemma upd_same {A : Type} (f : Z -> A) (k : Z) (v : A) : upd f k v k = v.
Proof. unfold upd. now rewrite Z.eqb_refl. Qed.

Lemma upd_other {A : Type} (f : Z -> A) (k k' : Z) (v : A) :
  k' <> k -> upd f k v k' = f k'.
Proof. intros H. unfold upd. destruct (Z.eqb_spec k' k); [contradiction | reflexivity]. Qed.

(** C1: in the data phase, when the frame in progress turns out longer than
    [FLIGHT_LOG_MAX_FRAME_LENGTH], or the byte after it is neither the
    marker of a frame type nor a clean end of input, the pass through the loop
    counts the frame as corrupt for its type and in total, marks the main
    stream invalid, calls the frame-ready handler (when there is one) with
    validity false and the NULL pointer, puts the cursor back on
    [frameStart], the start of the frame as the decoder records it (the
    position after the marker byte), clears [eof], [prematureEof] and
    [lastFrameType], and goes round again. *)
Theorem dataIteration_corrupt (h : Headers) (log : flightLog) (fuel : nat)
  (raw : bool) (s : parser) (lastType : flightLogFrameType_t) :
  lastFrameType s = Some lastType ->
  FLIGHT_LOG_MAX_FRAME_LENGTH h < lastFrameSizeAt log s
  \/ (nextIsMarker log s = false /\ cleanEndOfInput log s = false) ->
  exists s',
    dataIteration h log fuel raw s = Continue s'
    /\ corruptCount (frame (stats s') (marker lastType))
       = to_uint32 (corruptCount (frame (stats s) (marker lastType)) + 1)
    /\ totalCorruptFrames (stats s') = to_uint32 (totalCorruptFrames (stats s) + 1)
    /\ mainStreamIsValid s' = false
    /\ calls s'
       = (if onFrameReady log
          then calls s ++ [FrameReady false None (marker lastType) 0 (frameStart s)
                             (lastFrameSizeAt log s)]
          else calls s)
    /\ cur s' = {| logPos := frameStart s; eof := false |}
    /\ lastFrameType s' = None
    /\ prematureEof s' = false.
Proof.
  intros Hlast Hcorrupt.
  unfold dataIteration, lastFrameSizeAt, nextIsMarker, cleanEndOfInput in *.
  destruct (readChar log (cur s)) as [command c1]. cbn [fst snd] in Hcorrupt.
  cbn [lastFrameType set_cur frameStart prematureEof]. rewrite Hlast.
  assert (Hif : (to_uint32 (logPos c1 - frameStart s) <=? FLIGHT_LOG_MAX_FRAME_LENGTH h)
                && (isSome (if command =? EOF then None
                            else getFrameType (to_uint8 command))
                    || negb (prematureEof s) && (command =? EOF)) = false).
  { destruct Hcorrupt as [Hlong|[Hmark Hclean]].
    - destruct (Z.leb_spec (to_uint32 (logPos c1 - frameStart s))
                  (FLIGHT_LOG_MAX_FRAME_LENGTH h)); [lia | reflexivity].
    - apply andb_false_iff. right.
      destruct (command =? EOF), (prematureEof s),
        (isSome (getFrameType (to_uint8 command))); cbn in *; congruence. }
  rewrite Hif. eexists. split; [reflexivity|].
  unfold corruptFrame, countCorrupt.
  cbn [stats frame set_stats set_frame set_mainStreamIsValid set_cur set_locals
       corruptCount totalCorruptFrames totalBytes mainStreamIsValid cur
       lastFrameType prematureEof frameStart calls].
  destruct (onFrameReady log);
    cbn [stats frame set_stats set_frame set_mainStreamIsValid set_cur set_locals
         corruptCount totalCorruptFrames totalBytes mainStreamIsValid cur call
         lastFrameType prematureEof frameStart calls];
    rewrite upd_same; cbn [corruptCount]; repeat split; reflexivity.
Qed.

Lemma dataIteration_corrupt_witness :
  let h := blackboxHeaders true in
  let log := mainLog h [73; 0; 10; 80; 4; 99] 1 1 in
  let s := afterPasses h log false 2 in
  exists s',
    dataIteration h log 64 false s = Continue s'
    /\ cur s' = {| logPos := 4; eof := false |}
    /\ totalCorruptFrames (stats s') = 1.
Proof.
  cbv zeta.
  destruct (dataIteration_corrupt (blackboxHeaders true)
              (mainLog (blackboxHeaders true) [73; 0; 10; 80; 4; 99] 1 1) 64 false
              (afterPasses (blackboxHeaders true)
                 (mainLog (blackboxHeaders true) [73; 0; 10; 80; 4; 99] 1 1) false 2)
              InterFrame eq_refl (or_intror (conj eq_refl eq_refl)))
    as (s' & Hrun & _ & Htotal & _ & _ & Hcur & _).
  exists s'. split; [exact Hrun|]. split; [exact Hcur | exact Htotal].
Defined.

(** ** What parsing a frame leaves alone *)

Lemma sameControl_refl (s : parser) : sameControl s s.
Proof. unfold sameControl. repeat split. Qed.

Lemma storeParsed_sameControl (s : parser) (r : cursor * memory) :
  sameControl s (storeParsed s r).
Proof. unfold sameControl. repeat split. Qed.

Lemma parseIntraframe_sameControl (h : Headers) (log : flightLog) (fuel : nat)
  (raw : bool) (s s' : parser) :
  parseIntraframe h log fuel raw s = Ok s' -> sameControl s s'.
Proof.
  unfold parseIntraframe. intros H.
  destruct (mainHistory1 s) as [p|].
  - destruct (countSkippedFrames h log fuel to_int32 _ 0) as [n| | | |];
      try discriminate H. cbn [bind] in H.
    destruct (parseFrame h log _ _ _ _ _ _ _ _ _) as [r| | | |]; try discriminate H.
    cbn [bind] in H. inversion H. unfold sameControl. repeat split.
  - cbn [bind] in H.
    destruct (parseFrame h log _ _ _ _ _ _ _ _ _) as [r| | | |]; try discriminate H.
    cbn [bind] in H. inversion H. unfold sameControl. repeat split.
Qed.

Lemma parseInterframe_sameControl (h : Headers) (log : flightLog) (fuel : nat)
  (raw : bool) (s s' : parser) :
  parseInterframe h log fuel raw s = Ok s' -> sameControl s s'.
Proof.
  unfold parseInterframe. intros H.
  destruct (match mainHistory1 s with
            | Some p => countSkippedFrames h log fuel to_uint32 _ 0
            | None => Ok 0
            end) as [n| | | |]; try discriminate H.
  cbn [bind] in H.
  destruct (parseFrame h log _ _ _ _ _ _ _ _ _) as [r| | | |]; try discriminate H.
  cbn [bind] in H. inversion H. unfold sameControl. repeat split.
Qed.

Lemma parseGPSFrame_sameControl (h : Headers) (log : flightLog) (raw : bool)
  (s s' : parser) :
  parseGPSFrame h log raw s = Ok s' -> sameControl s s'.
Proof.
  unfold parseGPSFrame. intros H.
  destruct (parseFrame h log _ _ _ _ _ _ _ _ _) as [r| | | |]; try discriminate H.
  cbn [bind] in H. inversion H. unfold sameControl. repeat split.
Qed.

Lemma parseGPSHomeFrame_sameControl (h : Headers) (log : flightLog) (raw : bool)
  (s s' : parser) :
  parseGPSHomeFrame h log raw s = Ok s' -> sameControl s s'.
Proof.
  unfold parseGPSHomeFrame. intros H.
  destruct (parseFrame h log _ _ _ _ _ _ _ _ _) as [r| | | |]; try discriminate H.
  cbn [bind] in H. inversion H. unfold sameControl. repeat split.
Qed.

Lemma parseEventFrame_sameControl (h : Headers) (log : flightLog) (s : parser) :
  sameControl s (parseEventFrame h log s).
Proof.
  unfold parseEventFrame.
  destruct (readByte log (cur s)) as [eventType c0].
  destruct (eventType =? FLIGHT_LOG_EVENT_SYNC_BEEP h).
  { destruct (readUnsignedVB log c0). unfold sameControl. repeat split. }
  destruct (eventType =? FLIGHT_LOG_EVENT_AUTOTUNE_CYCLE_START h).
  { repeat match goal with
           | |- context [readByte log ?c] => destruct (readByte log c)
           end.
    unfold sameControl. repeat split. }
  destruct (eventType =? FLIGHT_LOG_EVENT_AUTOTUNE_CYCLE_RESULT h).
  { repeat match goal with
           | |- context [readByte log ?c] => destruct (readByte log c)
           end.
    unfold sameControl. repeat split. }
  unfold sameControl. repeat split.
Qed.

Lemma parse_sameControl (t : flightLogFrameType_t) (h : Headers) (log : flightLog)
  (fuel : nat) (raw : bool) (s s' : parser) :
  parse t h log fuel raw s = Ok s' -> sameControl s s'.
Proof.
  destruct t; cbn [parse]; intros H.
  - eapply parseIntraframe_sameControl; eassumption.
  - eapply parseInterframe_sameControl; eassumption.
  - eapply parseGPSFrame_sameControl; eassumption.
  - eapply parseGPSHomeFrame_sameControl; eassumption.
  - inversion H. apply parseEventFrame_sameControl.
Qed.

(** The second half of a pass makes no handler call, and can only clear
    the validity of the main stream. *)
Lemma beginFrame_calls (h : Headers) (log : flightLog) (fuel : nat) (raw : bool)
  (command : Z) (s : parser) :
  calls (stateOf (beginFrame h log fuel raw command s)) = calls s
  /\ (mainStreamIsValid (stateOf (beginFrame h log fuel raw command s)) = true ->
      mainStreamIsValid s = true).
Proof.
  unfold beginFrame. destruct (command =? EOF); [split; auto|].
  destruct (getFrameType (to_uint8 command)) as [t|].
  - destruct (parse t h log fuel raw _) as [s2| | | |] eqn:E; try (split; auto; fail).
    apply parse_sameControl in E.
    destruct E as (Hv & _ & _ & _ & _ & _ & _ & _ & Hc).
    cbn [stateOf calls set_locals mainStreamIsValid]. rewrite Hv, Hc. split; auto.
  - cbn [stateOf calls set_locals set_mainStreamIsValid mainStreamIsValid].
    split; [reflexivity | discriminate].
Qed.

(** ** Event frames of an unknown kind *)

Lemma to_uint8_byte (z : Z) : 0 <= z < 256 -> to_uint8 z = z.
Proof. intros H. unfold to_uint8. apply Z.mod_small. lia. Qed.

Lemma parseEventFrame_unknown (h : Headers) (log : flightLog) (s : parser) (k : Z) :
  bytesAt log (logPos (cur s)) [k] = true ->
  ~ In k (eventTags h) ->
  parseEventFrame h log s
  = set_lastEvent (set_cur s {| logPos := logPos (cur s) + 1; eof := eof (cur s) |})
      {| event := -1; data := data (lastEvent s) |}.
Proof.
  intros Hbytes Hk. unfold parseEventFrame, readByte.
  rewrite (readChar_bytesAt _ _ _ _ Hbytes).
  apply bytesAt_cons in Hbytes. destruct Hbytes as (_ & _ & Hb & _).
  rewrite to_uint8_byte by (rewrite <- Hb; apply byteAt_range).
  cbn [eventTags In] in Hk.
  destruct (Z.eqb_spec k (FLIGHT_LOG_EVENT_SYNC_BEEP h)); [exfalso; auto|].
  destruct (Z.eqb_spec k (FLIGHT_LOG_EVENT_AUTOTUNE_CYCLE_START h)); [exfalso; auto|].
  destruct (Z.eqb_spec k (FLIGHT_LOG_EVENT_AUTOTUNE_CYCLE_RESULT h)); [exfalso; auto 6|].
  reflexivity.
Qed.

(** C4, where the code departs from it.  The comment of [parseEventFrame]
    has an event of an unknown kind fail to parse, and the claim has no event
    handler called for it; but the function returns nothing, and
    [completeEventFrame] does not look at the kind.  When the loop, looking
    for a marker, meets an event frame whose kind byte is none of the known
    event kinds, the pass stores the sentinel -1 as the event kind, leaves
    the event data alone, calls no handler and goes round again after the
    kind byte; when the frame is then completed (the next byte is a marker
    or a clean end of input) the event handler, if there is one, is called
    with the event record that carries the sentinel. *)
Theorem unknown_event_is_delivered (h : Headers) (log : flightLog) (fuel : nat)
  (raw : bool) (s : parser) (k : Z) :
  lastFrameType s = None ->
  bytesAt log (logPos (cur s)) [marker EventFrame; k] = true ->
  ~ In k (eventTags h) ->
  2 <= FLIGHT_LOG_MAX_FRAME_LENGTH h ->
  exists s1,
    dataIteration h log fuel raw s = Continue s1
    /\ lastEvent s1 = {| event := -1; data := data (lastEvent s) |}
    /\ logPos (cur s1) = logPos (cur s) + 2
    /\ lastFrameType s1 = Some EventFrame
    /\ calls s1 = calls s
    /\ (nextIsMarker log s1 = true \/ cleanEndOfInput log s1 = true ->
        calls (stateOf (dataIteration h log fuel raw s1))
        = if onEvent log
          then calls s ++ [EventReady {| event := -1; data := data (lastEvent s) |}]
          else calls s).
Proof.
  intros Hlast Hbytes Hk Hmax.
  pose proof (bytesAt_cons _ _ _ _ Hbytes) as (Hpos & Hend & _ & Hrest).
  pose proof (bytesAt_cons _ _ _ _ Hrest) as (_ & Hend2 & _ & _).
  assert (Hfirst : dataIteration h log fuel raw s
                   = Continue
                       (set_locals
                          (set_lastEvent
                             (set_cur s {| logPos := logPos (cur s) + 1 + 1;
                                           eof := eof (cur s) |})
                             {| event := -1; data := data (lastEvent s) |})
                          (if eof (cur s) then true else prematureEof s)
                          (logPos (cur s) + 1) (Some EventFrame))).
  { unfold dataIteration. rewrite (readChar_bytesAt _ _ _ _ Hbytes).
    cbn [lastFrameType set_cur]. rewrite Hlast.
    unfold beginFrame.
    change (marker EventFrame =? EOF) with false.
    change (getFrameType (to_uint8 (marker EventFrame))) with (Some EventFrame).
    cbn [parse]. rewrite (parseEventFrame_unknown h log _ k); [reflexivity | | exact Hk].
    exact Hrest. }
  eexists. split; [exact Hfirst|].
  cbn [lastEvent set_locals set_lastEvent set_cur cur logPos lastFrameType calls].
  repeat split; try reflexivity; try lia.
  set (s1 := set_locals _ _ _ _).
  intros Hnext.
  unfold dataIteration.
  unfold nextIsMarker, cleanEndOfInput in Hnext.
  assert (Hcur : logPos (cur s1) = logPos (cur s) + 2) by (subst s1; cbn; lia).
  assert (Hsize : forall c1, logPos (cur s1) <= logPos c1 <= logPos (cur s1) + 1 ->
                    (to_uint32 (logPos c1 - frameStart s1)
                       <=? FLIGHT_LOG_MAX_FRAME_LENGTH h) = true).
  { intros c1 Hc1. apply Z.leb_le.
    assert (Hfs : frameStart s1 = logPos (cur s) + 1) by reflexivity.
    rewrite to_uint32_small; lia. }
  assert (Hpos1 : logPos (cur s1) <= logPos (snd (readChar log (cur s1)))
                  <= logPos (cur s1) + 1).
  { unfold readChar. destruct (logPos (cur s1) <? logEnd log); cbn; lia. }
  destruct (readChar log (cur s1)) as [command c1] eqn:Hread.
  cbn [fst snd] in Hnext, Hpos1.
  change (lastFrameType (set_cur s1 c1)) with (Some EventFrame).
  change (frameStart (set_cur s1 c1)) with (frameStart s1).
  change (prematureEof (set_cur s1 c1)) with (prematureEof s1).
  rewrite (Hsize c1 Hpos1). cbn [andb].
  assert (Hlooks : (isSome (if command =? EOF then None
                            else getFrameType (to_uint8 command))
                    || negb (prematureEof s1) && (command =? EOF)) = true).
  { destruct (command =? EOF), (prematureEof s1),
      (isSome (getFrameType (to_uint8 command))); cbn in *;
      destruct Hnext; congruence. }
  rewrite Hlooks.
  destruct (beginFrame_calls h log fuel raw command
              (complete EventFrame log (marker EventFrame) (frameStart s1) (logPos c1) raw
                 (countValid (set_cur s1 c1) (marker EventFrame)
                    (to_uint32 (logPos c1 - frameStart s1))))) as [Hcalls _].
  rewrite Hcalls. cbn [complete]. unfold completeEventFrame.
  destruct (onEvent log); reflexivity.
Qed.

Lemma unknown_event_is_delivered_witness :
  let h := blackboxHeaders true in
  let log := mainLog h [69; 99; 73; 5; 10] 1 1 in
  exists s1,
    dataIteration h log 8 false entry = Continue s1
    /\ lastEvent s1 = {| event := -1; data := syncBeep 0 |}
    /\ calls (stateOf (dataIteration h log 8 false s1))
       = [EventReady {| event := -1; data := syncBeep 0 |}].
Proof.
  cbv zeta.
  destruct (unknown_event_is_delivered (blackboxHeaders true)
              (mainLog (blackboxHeaders true) [69; 99; 73; 5; 10] 1 1) 8
              false entry 99 eq_refl eq_refl
              ltac:(cbn; intros [H|[H|[H|H]]]; try discriminate H; exact H)
              ltac:(cbn; lia))
    as (s1 & Hrun & Hevent & _ & _ & _ & Hnext).
  exists s1. split; [exact Hrun|]. split; [exact Hevent|].
  apply Hnext. left.
  vm_compute in Hrun. inversion Hrun. reflexivity.
Defined.

(** The run that shows it: a log with two main fields whose data is one
    event frame of the kind 99, which is no known event kind, and one I
    frame.  The event handler is called, with the sentinel as the kind of
    the event, before the I frame is handed over. *)
Lemma unknown_event_handler_called :
  let h := blackboxHeaders true in
  let log := mainLog h [69; 99; 73; 5; 10] 1 1 in
  mainFieldCount log = 2
  /\ ~ In 99 (eventTags h)
  /\ exists s,
       flightLogParseData h log false 8 entry = Done s
       /\ calls s = [EventReady {| event := -1; data := syncBeep 0 |};
                     FrameReady true (Some [5; 10]) 73 2 3 2].
Proof.
  cbv zeta. split; [reflexivity|]. split.
  - cbn. intros [H|[H|[H|H]]]; try discriminate H; exact H.
  - eexists. split; vm_compute; reflexivity.
Qed.

(** ** No valid P frame on an invalid stream *)

Lemma noDeltaBeforeKeyframe_app_other (new : list callback) (c : callback) :
  noDeltaBeforeKeyframe new = true ->
  deliversValid InterFrame c = false ->
  noDeltaBeforeKeyframe (new ++ [c]) = true.
Proof.
  intros Hnew Hc. induction new as [|x new IH]; cbn in *.
  - rewrite Hc. now destruct (deliversValid IntraFrame c).
  - destruct (deliversValid IntraFrame x); [reflexivity|].
    apply andb_true_iff in Hnew. destruct Hnew as [Hx Hnew].
    rewrite Hx. cbn. auto.
Qed.

Lemma noDeltaBeforeKeyframe_app_after (new : list callback) (c : callback) :
  noDeltaBeforeKeyframe new = true ->
  existsb (deliversValid IntraFrame) new = true ->
  noDeltaBeforeKeyframe (new ++ [c]) = true.
Proof.
  intros Hnew Hkey. induction new as [|x new IH]; cbn in *; [discriminate|].
  destruct (deliversValid IntraFrame x); [reflexivity|].
  apply andb_true_iff in Hnew. destruct Hnew as [Hx Hnew].
  rewrite Hx. cbn in *. auto.
Qed.

Lemma existsb_app_last (new : list callback) (c : callback) :
  deliversValid IntraFrame c = true ->
  existsb (deliversValid IntraFrame) (new ++ [c]) = true.
Proof.
  intros Hc. rewrite existsb_app. cbn. rewrite Hc. now rewrite orb_true_r.
Qed.

Lemma existsb_app_keep (new : list callback) (c : callback) :
  existsb (deliversValid IntraFrame) new = true ->
  existsb (deliversValid IntraFrame) (new ++ [c]) = true.
Proof. intros H. rewrite existsb_app, H. reflexivity. Qed.

(** A state that differs in the statistics, the buffers or the cursor only
    satisfies the invariant as well. *)
Lemma streamInvariant_same (log : flightLog) (base : list callback) (s s' : parser) :
  calls s' = calls s -> mainStreamIsValid s' = mainStreamIsValid s ->
  streamInvariant log base s -> streamInvariant log base s'.
Proof.
  intros Hc Hv (new & Hcalls & Hnd & Hkey).
  exists new. rewrite Hc, Hv. auto.
Qed.

(** Clearing the validity keeps the invariant. *)
Lemma streamInvariant_invalid (log : flightLog) (base : list callback) (s s' : parser) :
  calls s' = calls s -> mainStreamIsValid s' = false ->
  streamInvariant log base s -> streamInvariant log base s'.
Proof.
  intros Hc Hv (new & Hcalls & Hnd & Hkey).
  exists new. rewrite Hc, Hv. repeat split; auto. discriminate.
Qed.

(** A call that does not deliver a valid main frame keeps the invariant. *)
Lemma streamInvariant_call_other (log : flightLog) (base : list callback)
  (s : parser) (c : callback) :
  deliversValid InterFrame c = false ->
  streamInvariant log base s -> streamInvariant log base (call s c).
Proof.
  intros Hc (new & Hcalls & Hnd & Hkey).
  exists (new ++ [c]). cbn [calls call mainStreamIsValid].
  rewrite Hcalls, app_assoc. repeat split.
  - now apply noDeltaBeforeKeyframe_app_other.
  - intros Hv Hf. apply existsb_app_keep. auto.
Qed.

Lemma completeIntraframe_invariant (log : flightLog) (frameStart frameEnd : Z)
  (raw : bool) (base : list callback) (s : parser) :
  streamInvariant log base s ->
  streamInvariant log base
    (completeIntraframe log (marker IntraFrame) frameStart frameEnd raw s).
Proof.
  intros (new & Hcalls & Hnd & Hkey). unfold completeIntraframe.
  destruct (raw || _).
  - unfold mainFrameReady. destruct (onFrameReady log) eqn:Hf.
    + cbn [mainStreamIsValid set_stats set_mainStreamIsValid call].
      eexists (new ++ [_]).
      cbn [calls call set_mainHistory set_stats set_mainStreamIsValid mainStreamIsValid].
      rewrite Hcalls, app_assoc. repeat split.
      * apply noDeltaBeforeKeyframe_app_other; [assumption | reflexivity].
      * intros _ _. apply existsb_app_last. reflexivity.
    + cbn [mainStreamIsValid set_stats set_mainStreamIsValid].
      exists new.
      cbn [calls set_mainHistory set_stats set_mainStreamIsValid mainStreamIsValid].
      repeat split; auto. intros _ Hf'. congruence.
  - unfold mainFrameReady, flightLoginvalidateStream.
    destruct (onFrameReady log).
    + cbn [mainStreamIsValid set_mainHistory set_mainStreamIsValid call].
      eexists (new ++ [_]).
      cbn [calls call set_mainHistory set_mainStreamIsValid mainStreamIsValid].
      rewrite Hcalls, app_assoc. repeat split.
      * apply noDeltaBeforeKeyframe_app_other; [assumption | reflexivity].
      * discriminate.
    + cbn [mainStreamIsValid set_mainHistory set_mainStreamIsValid].
      exists new.
      cbn [calls set_mainHistory set_mainStreamIsValid mainStreamIsValid].
      repeat split; auto. discriminate.
Qed.

(** [completeInterframe] leaves the validity of the main stream as it is. *)
Lemma completeInterframe_validity (log : flightLog) (frameType frameStart frameEnd : Z)
  (raw : bool) (s : parser) :
  mainStreamIsValid (completeInterframe log frameType frameStart frameEnd raw s)
  = mainStreamIsValid s.
Proof.
  unfold completeInterframe, mainFrameReady, countDesync.
  destruct (mainStreamIsValid s) eqn:Hv; destruct (onFrameReady log);
    cbn [mainStreamIsValid set_stats call set_mainHistory]; rewrite ?Hv;
    cbn [mainStreamIsValid set_stats call set_mainHistory]; assumption.
Qed.

Lemma completeInterframe_invariant (log : flightLog) (frameStart frameEnd : Z)
  (raw : bool) (base : list callback) (s : parser) :
  streamInvariant log base s ->
  streamInvariant log base
    (completeInterframe log (marker InterFrame) frameStart frameEnd raw s).
Proof.
  intros (new & Hcalls & Hnd & Hkey). unfold completeInterframe, mainFrameReady.
  destruct (mainStreamIsValid s) eqn:Hv.
  - destruct (onFrameReady log) eqn:Hf.
    + cbn [mainStreamIsValid set_stats call]. rewrite Hv.
      eexists (new ++ [_]).
      cbn [calls call set_mainHistory set_stats mainStreamIsValid].
      rewrite Hcalls, app_assoc. repeat split.
      * apply noDeltaBeforeKeyframe_app_after; auto.
      * intros _ _. apply existsb_app_keep. auto.
    + cbn [mainStreamIsValid set_stats]. rewrite Hv.
      exists new. cbn [calls set_mainHistory set_stats mainStreamIsValid].
      repeat split; auto. intros _ Hf'. congruence.
  - unfold countDesync. destruct (onFrameReady log).
    + cbn [mainStreamIsValid set_stats call]. rewrite Hv.
      eexists (new ++ [_]). cbn [calls call set_stats mainStreamIsValid].
      rewrite Hcalls, app_assoc. repeat split.
      * apply noDeltaBeforeKeyframe_app_other; [assumption|].
        cbn [deliversValid]. rewrite ?Hv. reflexivity.
      * rewrite ?Hv. discriminate.
    + cbn [mainStreamIsValid set_stats]. rewrite Hv.
      exists new. cbn [calls set_stats mainStreamIsValid].
      repeat split; auto. rewrite ?Hv. discriminate.
Qed.

Lemma complete_invariant (t : flightLogFrameType_t) (log : flightLog)
  (frameStart frameEnd : Z) (raw : bool) (base : list callback) (s : parser) :
  streamInvariant log base s ->
  streamInvariant log base (complete t log (marker t) frameStart frameEnd raw s).
Proof.
  intros Hinv. destruct t; cbn [complete].
  - now apply completeIntraframe_invariant.
  - now apply completeInterframe_invariant.
  - unfold completeGPSFrame. destruct (onFrameReady log); [|assumption].
    apply streamInvariant_call_other; [|assumption].
    cbn. now destruct (gpsHomeIsValid s).
  - unfold completeGPSHomeFrame.
    assert (Hinv' : streamInvariant log base
                      (set_gpsHomeIsValid
                         (set_mem s (setFrame (mem s) (GpsHomeRow 1)
                                       (frameAt (mem s) (GpsHomeRow 0)))) true))
      by (eapply streamInvariant_same; [| |exact Hinv]; reflexivity).
    destruct (onFrameReady log); [|assumption].
    apply streamInvariant_call_other; [reflexivity | assumption].
  - unfold completeEventFrame. destruct (onEvent log); [|assumption].
    apply streamInvariant_call_other; [reflexivity | assumption].
Qed.

Lemma corruptFrame_invariant (log : flightLog) (t : flightLogFrameType_t)
  (lastFrameSize : Z) (base : list callback) (s : parser) :
  streamInvariant log base s ->
  streamInvariant log base (corruptFrame log t lastFrameSize s).
Proof.
  intros (new & Hcalls & Hnd & Hkey). unfold corruptFrame, countCorrupt.
  destruct (onFrameReady log).
  - eexists (new ++ [_]).
    cbn [calls call set_locals set_cur set_stats set_mainStreamIsValid
         mainStreamIsValid].
    rewrite Hcalls, app_assoc. repeat split.
    + apply noDeltaBeforeKeyframe_app_other; [assumption | reflexivity].
    + discriminate.
  - exists new.
    cbn [calls set_locals set_cur set_stats set_mainStreamIsValid mainStreamIsValid].
    repeat split; auto. discriminate.
Qed.

Lemma beginFrame_invariant (h : Headers) (log : flightLog) (fuel : nat) (raw : bool)
  (command : Z) (base : list callback) (s : parser) :
  streamInvariant log base s ->
  streamInvariant log base (stateOf (beginFrame h log fuel raw command s)).
Proof.
  intros (new & Hcalls & Hnd & Hkey).
  destruct (beginFrame_calls h log fuel raw command s) as [Hc Hv].
  exists new. rewrite Hc. repeat split; auto.
Qed.

Lemma dataIteration_invariant (h : Headers) (log : flightLog) (fuel : nat)
  (raw : bool) (base : list callback) (s : parser) :
  streamInvariant log base s ->
  streamInvariant log base (stateOf (dataIteration h log fuel raw s)).
Proof.
  intros Hinv. unfold dataIteration.
  destruct (readChar log (cur s)) as [command c1].
  assert (Hinv1 : streamInvariant log base (set_cur s c1))
    by (eapply streamInvariant_same; [| |exact Hinv]; reflexivity).
  cbn [lastFrameType set_cur]. destruct (lastFrameType s) as [lastType|].
  - destruct (_ && _).
    + apply beginFrame_invariant. apply complete_invariant.
      eapply streamInvariant_same; [| |exact Hinv1]; reflexivity.
    + cbn [stateOf]. now apply corruptFrame_invariant.
  - now apply beginFrame_invariant.
Qed.

Lemma dataLoop_invariant (h : Headers) (log : flightLog) (fuel : nat) (raw : bool)
  (base : list callback) :
  forall (n : nat) (s : parser),
    streamInvariant log base s ->
    streamInvariant log base (stateOf (dataLoop h log fuel raw n s)).
Proof.
  induction n as [|n IH]; intros s Hinv; cbn [dataLoop]; [exact Hinv|].
  pose proof (dataIteration_invariant h log fuel raw base s Hinv) as Hstep.
  destruct (dataIteration h log fuel raw s) as [s'|s'|why s'];
    cbn [stateOf] in *; auto.
Qed.

(** A byte that is no frame marker, met while no frame is in progress,
    clears the validity of the main stream. *)
Lemma dataIteration_unknown_marker (h : Headers) (log : flightLog) (fuel : nat)
  (raw : bool) (s : parser) :
  lastFrameType s = None ->
  logPos (cur s) < logEnd log ->
  getFrameType (byteAt log (logPos (cur s))) = None ->
  exists s',
    dataIteration h log fuel raw s = Continue s'
    /\ mainStreamIsValid s' = false
    /\ lastFrameType s' = None
    /\ calls s' = calls s.
Proof.
  intros Hlast Hin Hnone. unfold dataIteration.
  rewrite readChar_inside by assumption.
  cbn [lastFrameType set_cur]. rewrite Hlast. unfold beginFrame.
  pose proof (byteAt_range log (logPos (cur s))) as Hb.
  destruct (Z.eqb_spec (byteAt log (logPos (cur s))) EOF) as [E|_];
    [unfold EOF in E; lia|].
  rewrite to_uint8_byte by assumption. rewrite Hnone.
  eexists. split; [reflexivity|]. cbn. auto.
Qed.

(** C2: from a state in which the main stream is invalid, however the run of
    the data phase goes on and wherever it stops, the frame-ready handler
    receives no P frame with validity true before it has received an I frame
    with validity true, which it does when a keyframe is accepted; and
    [completeInterframe] returns with the validity flag it found. *)
Theorem no_valid_delta_before_keyframe (h : Headers) (log : flightLog)
  (raw : bool) (fuel : nat) (s : parser) :
  mainStreamIsValid s = false ->
  (exists new,
     calls (stateOf (flightLogParseData h log raw fuel s)) = calls s ++ new
     /\ noDeltaBeforeKeyframe new = true)
  /\ (forall frameType frameStart frameEnd s0,
        mainStreamIsValid (completeInterframe log frameType frameStart frameEnd raw s0)
        = mainStreamIsValid s0).
Proof.
  intros Hinvalid. split.
  - assert (Hinv : streamInvariant log (calls s) s).
    { exists []. rewrite app_nil_r. repeat split. rewrite Hinvalid. discriminate. }
    destruct (dataLoop_invariant h log fuel raw (calls s) fuel s Hinv)
      as (new & Hcalls & Hnd & _).
    exists new. split; assumption.
  - intros. apply completeInterframe_validity.
Qed.

Lemma no_valid_delta_before_keyframe_witness :
  let h := blackboxHeaders true in
  let log := mainLog h [80; 4; 80; 4; 73; 0; 10; 80; 4] 1 1 in
  mainStreamIsValid entry = false
  /\ exists new,
       calls (stateOf (flightLogParseData h log false 16 entry)) = calls entry ++ new
       /\ noDeltaBeforeKeyframe new = true.
Proof.
  cbv zeta. split; [reflexivity|].
  exact (proj1 (no_valid_delta_before_keyframe (blackboxHeaders true)
                  (mainLog (blackboxHeaders true) [80; 4; 80; 4; 73; 0; 10; 80; 4] 1 1)
                  false 16 entry eq_refl)).
Defined.

(** ** A P interval that no iteration passes *)

Lemma intervalRem_positive (h : Headers) (a b : Z) :
  0 < b -> intervalRem h a b = Ok (Z.rem a b).
Proof.
  intros Hb. unfold intervalRem.
  destruct (Z.eqb_spec b 0); [lia|].
  destruct (Z.eqb_spec b (-1)); [lia|].
  now rewrite andb_false_r.
Qed.

(** With [P_num = 0] and [P_denom = 1] the filter passes no index. *)
Lemma shouldHaveFrame_never (h : Headers) (log : flightLog) (idx : Z) :
  0 < frameIntervalI log <= INT_MAX ->
  frameIntervalPNum log = 0 -> frameIntervalPDenom log = 1 ->
  shouldHaveFrame h log idx = Ok false.
Proof.
  intros HI HN HD. unfold shouldHaveFrame. rewrite HN, HD.
  rewrite (intervalValue_small h (frameIntervalI log)) by lia.
  rewrite (intervalValue_small h 0) by (unfold INT_MAX; lia).
  rewrite (intervalValue_small h 1) by (unfold INT_MAX; lia).
  rewrite intervalRem_positive by lia. cbn [bind].
  rewrite intervalRem_positive by lia. cbn [bind].
  rewrite Z.rem_1_r. reflexivity.
Qed.

(** The counting loop then never leaves, whatever bound the model gives it. *)
Lemma countSkippedFrames_never (h : Headers) (log : flightLog) (wrap : Z -> Z) :
  (forall idx, shouldHaveFrame h log idx = Ok false) ->
  forall (fuel : nat) (frameIndex skippedFrames : Z),
    countSkippedFrames h log fuel wrap frameIndex skippedFrames = OutOfFuel.
Proof.
  intros Hnever. induction fuel as [|fuel IH]; intros frameIndex skippedFrames.
  - reflexivity.
  - cbn [countSkippedFrames]. rewrite Hnever. cbn [bind]. apply IH.
Qed.

Lemma parseIntraframe_never (h : Headers) (log : flightLog) (fuel : nat)
  (raw : bool) (s : parser) (p : framePtr) :
  (forall idx, shouldHaveFrame h log idx = Ok false) ->
  mainHistory1 s = Some p ->
  parseIntraframe h log fuel raw s = OutOfFuel.
Proof.
  intros Hnever Hprev. unfold parseIntraframe. rewrite Hprev.
  rewrite countSkippedFrames_never by assumption. reflexivity.
Qed.

Lemma parseInterframe_never (h : Headers) (log : flightLog) (fuel : nat)
  (raw : bool) (s : parser) (p : framePtr) :
  (forall idx, shouldHaveFrame h log idx = Ok false) ->
  mainHistory1 s = Some p ->
  parseInterframe h log fuel raw s = OutOfFuel.
Proof.
  intros Hnever Hprev. unfold parseInterframe. rewrite Hprev.
  rewrite countSkippedFrames_never by assumption. reflexivity.
Qed.

(** A main frame that begins while a previous frame is on record is never
    parsed to its end. *)
Lemma beginFrame_never (h : Headers) (log : flightLog) (fuel : nat) (raw : bool)
  (command : Z) (s : parser) (p : framePtr) :
  (forall idx, shouldHaveFrame h log idx = Ok false) ->
  mainHistory1 s = Some p ->
  command = marker IntraFrame \/ command = marker InterFrame ->
  beginFrame h log fuel raw command s
  = Stop StopOutOfFuel (set_locals s (prematureEof s) (logPos (cur s)) (lastFrameType s)).
Proof.
  intros Hnever Hprev [->| ->]; unfold beginFrame.
  - change (marker IntraFrame =? EOF) with false.
    change (getFrameType (to_uint8 (marker IntraFrame))) with (Some IntraFrame).
    cbn [parse]. now rewrite (parseIntraframe_never h log fuel raw _ p).
  - change (marker InterFrame =? EOF) with false.
    change (getFrameType (to_uint8 (marker InterFrame))) with (Some InterFrame).
    cbn [parse]. now rewrite (parseInterframe_never h log fuel raw _ p).
Qed.

(** A pass that finds the frame in progress complete hands it to its
    [complete] function and begins the next frame. *)
Lemma dataIteration_complete (h : Headers) (log : flightLog) (fuel : nat)
  (raw : bool) (s : parser) (command : Z) (c1 : cursor)
  (lastType : flightLogFrameType_t) :
  readChar log (cur s) = (command, c1) ->
  lastFrameType s = Some lastType ->
  (to_uint32 (logPos c1 - frameStart s) <=? FLIGHT_LOG_MAX_FRAME_LENGTH h) = true ->
  (isSome (if command =? EOF then None else getFrameType (to_uint8 command))
   || negb (prematureEof s) && (command =? EOF)) = true ->
  dataIteration h log fuel raw s
  = beginFrame h log fuel raw command
      (complete lastType log (marker lastType) (frameStart s) (logPos c1) raw
         (countValid (set_cur s c1) (marker lastType)
            (to_uint32 (logPos c1 - frameStart s)))).
Proof.
  intros Hread Hlast Hsize Hlooks. unfold dataIteration. rewrite Hread.
  cbn [lastFrameType set_cur frameStart prematureEof]. rewrite Hlast, Hsize, Hlooks.
  reflexivity.
Qed.

Lemma zeroFractionLog_never (u : bool) (idx : Z) :
  shouldHaveFrame (blackboxHeaders u) (zeroFractionLog (blackboxHeaders u)) idx
  = Ok false.
Proof.
  apply shouldHaveFrame_never.
  - change (0 < 32 <= INT_MAX). unfold INT_MAX. lia.
  - destruct u; reflexivity.
  - destruct u; reflexivity.
Qed.

Lemma zeroFractionLog_first_pass (u : bool) (fuel : nat) :
  dataIteration (blackboxHeaders u) (zeroFractionLog (blackboxHeaders u)) fuel false entry
  = Continue (afterPasses (blackboxHeaders u) (zeroFractionLog (blackboxHeaders u))
                false 1).
Proof. destruct u; vm_compute; reflexivity. Qed.

Lemma zeroFractionLog_second_pass (u : bool) (fuel : nat) :
  exists s,
    dataIteration (blackboxHeaders u) (zeroFractionLog (blackboxHeaders u)) fuel false
      (afterPasses (blackboxHeaders u) (zeroFractionLog (blackboxHeaders u)) false 1)
    = Stop StopOutOfFuel s.
Proof.
  rewrite (dataIteration_complete (blackboxHeaders u)
             (zeroFractionLog (blackboxHeaders u)) fuel false
             (afterPasses (blackboxHeaders u) (zeroFractionLog (blackboxHeaders u)) false 1)
             (marker IntraFrame) {| logPos := 4; eof := false |} IntraFrame).
  - rewrite (beginFrame_never _ _ _ _ _ _ (RingRow 0) (zeroFractionLog_never u)).
    + eexists. reflexivity.
    + destruct u; vm_compute; reflexivity.
    + left. reflexivity.
  - destruct u; vm_compute; reflexivity.
  - destruct u; vm_compute; reflexivity.
  - destruct u; vm_compute; reflexivity.
  - destruct u; vm_compute; reflexivity.
Qed.

(** C10, where the code departs from it: the header line [P interval:0/1]
    stores [P_num = 0] and [P_denom = 1] unchecked (the I interval is
    clamped to 1 at least, the P interval is not), [shouldHaveFrame] is then
    false for every index, and the loop that counts the skipped iterations
    before the second main frame never leaves: on such a log of two
    keyframes the data phase is still running when the model's bounds are
    used up, whatever the bounds [n] and [fuel], with the interval members
    of either type; with the default fraction 1/1 the same bytes are parsed
    to the end. *)
Theorem P_interval_0_1_never_returns (u : bool) (fuel n : nat) :
  let h := blackboxHeaders u in
  (frameIntervalPNum (zeroFractionLog h), frameIntervalPDenom (zeroFractionLog h))
  = headerPInterval h 0 1
  /\ headerPInterval h 0 1 = (0, 1)
  /\ headerIInterval h 0 = 1
  /\ (forall idx, shouldHaveFrame h (zeroFractionLog h) idx = Ok false)
  /\ (exists s, dataLoop h (zeroFractionLog h) fuel false n entry = Stop StopOutOfFuel s)
  /\ (exists s, flightLogParseData h (mainLog h [73; 0; 10; 73; 32; 50] 1 1) false 8 entry
                = Done s).
Proof.
  cbv zeta. split; [destruct u; reflexivity|].
  split; [destruct u; reflexivity|].
  split; [destruct u; reflexivity|].
  split; [apply zeroFractionLog_never|]. split.
  - destruct n as [|[|n]].
    + eexists. reflexivity.
    + cbn [dataLoop]. rewrite zeroFractionLog_first_pass. eexists. reflexivity.
    + cbn [dataLoop]. rewrite zeroFractionLog_first_pass.
      destruct (zeroFractionLog_second_pass u fuel) as (s & Hpass).
      rewrite Hpass. eexists. reflexivity.
  - destruct u; eexists; vm_compute; reflexivity.
Qed.

(** ** Termination of the data phase *)

(** *** Reading only moves the cursor forward *)

Lemma advanced_refl (c : cursor) : advanced c c.
Proof. unfold advanced. lia. Qed.

Lemma advanced_trans (c1 c2 c3 : cursor) :
  advanced c1 c2 -> advanced c2 c3 -> advanced c1 c3.
Proof. unfold advanced. lia. Qed.

Lemma readChar_advanced (log : flightLog) (c : cursor) :
  advanced c (snd (readChar log c)).
Proof.
  unfold advanced, readChar. destruct (logPos c <? logEnd log); cbn; lia.
Qed.

Lemma readByte_advanced (log : flightLog) (c : cursor) :
  advanced c (snd (readByte log c)).
Proof.
  unfold readByte. pose proof (readChar_advanced log c) as H.
  destruct (readChar log c). exact H.
Qed.

(** Names the result of the next read in the goal and records that the
    cursor moved forward. *)
Ltac next_read :=
  match goal with
  | |- context [readByte ?log ?c] =>
      let H := fresh "Hadv" in
      pose proof (readByte_advanced log c) as H;
      destruct (readByte log c); cbn [snd] in H
  | |- context [readChar ?log ?c] =>
      let H := fresh "Hadv" in
      pose proof (readChar_advanced log c) as H;
      destruct (readChar log c); cbn [snd] in H
  end.

Ltac advanced_chain :=
  cbn [fst snd]; unfold advanced in *; lia.

Lemma readUnsignedVB_loop_advanced (log : flightLog) :
  forall (n : nat) (shift result : Z) (c : cursor),
    advanced c (snd (readUnsignedVB_loop log n shift result c)).
Proof.
  induction n as [|n IH]; intros shift result c; cbn [readUnsignedVB_loop].
  - apply advanced_refl.
  - next_read. destruct (_ =? EOF); [exact Hadv|].
    cbv zeta. destruct (_ <? 128); [exact Hadv|].
    eapply advanced_trans; [exact Hadv | apply IH].
Qed.

Lemma readUnsignedVB_advanced (log : flightLog) (c : cursor) :
  advanced c (snd (readUnsignedVB log c)).
Proof. apply readUnsignedVB_loop_advanced. Qed.

Lemma readSignedVB_advanced (log : flightLog) (c : cursor) :
  advanced c (snd (readSignedVB log c)).
Proof.
  unfold readSignedVB. pose proof (readUnsignedVB_advanced log c) as H.
  destruct (readUnsignedVB log c). exact H.
Qed.

Lemma readTag2_3S32_wide_advanced (log : flightLog) :
  forall (n : nat) (leadByte : Z) (c : cursor),
    advanced c (snd (readTag2_3S32_wide log n leadByte c))
    /\ length (fst (readTag2_3S32_wide log n leadByte c)) = n.
Proof.
  induction n as [|n IH]; intros leadByte c; cbn [readTag2_3S32_wide].
  - split; [apply advanced_refl | reflexivity].
  - destruct (Z.land leadByte 3) as [|[?|[?|?|]|]|?]; repeat next_read;
      match goal with
      | |- context [readTag2_3S32_wide log n ?l ?c'] =>
          destruct (IH l c') as [IH1 IH2];
          destruct (readTag2_3S32_wide log n l c')
      end; cbn [fst snd length] in *; split; try congruence; advanced_chain.
Qed.

Lemma readTag2_3S32_advanced (log : flightLog) (c : cursor) :
  advanced c (snd (readTag2_3S32 log c))
  /\ length (fst (readTag2_3S32 log c)) = 3%nat.
Proof.
  unfold readTag2_3S32. next_read.
  destruct (Z.shiftr _ 6) as [|[?|[?|?|]|]|?]; repeat next_read;
    try (split; [advanced_chain | reflexivity]);
    match goal with
    | |- context [readTag2_3S32_wide log 3 ?l ?c'] =>
        destruct (readTag2_3S32_wide_advanced log 3 l c') as [H1 H2];
        split; [eapply advanced_trans; [|exact H1]; assumption | exact H2]
    end.
Qed.

Lemma aset_length (a : list Z) (i v : Z) : length (aset a i v) = length a.
Proof.
  unfold aset. destruct (i <? 0); [reflexivity|].
  generalize (Z.to_nat i). clear i. induction a as [|x a IH]; intros [|n]; cbn; auto.
Qed.

Lemma readTag8_4S16_v1_loop_advanced (log : flightLog) :
  forall (fuel : nat) (i selector : Z) (values : list Z) (c : cursor),
    advanced c (snd (readTag8_4S16_v1_loop log fuel i selector values c))
    /\ length (fst (readTag8_4S16_v1_loop log fuel i selector values c))
       = length values.
Proof.
  induction fuel as [|fuel IH]; intros i selector values c;
    cbn [readTag8_4S16_v1_loop].
  - split; [apply advanced_refl | reflexivity].
  - destruct (i <? 4); [|split; [apply advanced_refl | reflexivity]].
    destruct (Z.land selector 3) as [|[?|[?|?|]|]|?]; repeat next_read; cbv zeta;
      match goal with
      | |- context [readTag8_4S16_v1_loop log fuel ?i' ?sel ?vals ?c'] =>
          destruct (IH i' sel vals c') as [IH1 IH2];
          destruct (readTag8_4S16_v1_loop log fuel i' sel vals c')
      end; cbn [fst snd] in *; rewrite ?aset_length in IH2;
      (split; [advanced_chain | exact IH2]).
Qed.

Lemma readTag8_4S16_v1_advanced (log : flightLog) (c : cursor) :
  advanced c (snd (readTag8_4S16_v1 log c))
  /\ length (fst (readTag8_4S16_v1 log c)) = 8%nat.
Proof.
  unfold readTag8_4S16_v1. next_read.
  match goal with
  | |- context [readTag8_4S16_v1_loop log 4 0 ?sel ?vals ?c'] =>
      destruct (readTag8_4S16_v1_loop_advanced log 4 0 sel vals c') as [H1 H2]
  end.
  split; [eapply advanced_trans; eassumption | exact H2].
Qed.

Lemma readTag8_4S16_v2_loop_advanced (log : flightLog) :
  forall (n : nat) (selector buffer nibbleIndex : Z) (c : cursor),
    advanced c (snd (readTag8_4S16_v2_loop log n selector buffer nibbleIndex c))
    /\ length (fst (readTag8_4S16_v2_loop log n selector buffer nibbleIndex c)) = n.
Proof.
  induction n as [|n IH]; intros selector buffer nibbleIndex c;
    cbn [readTag8_4S16_v2_loop].
  - split; [apply advanced_refl | reflexivity].
  - destruct (Z.land selector 3) as [|[?|[?|?|]|]|?];
      try destruct (nibbleIndex =? 0); repeat next_read;
      match goal with
      | |- context [readTag8_4S16_v2_loop log n ?sel ?b ?ni ?c'] =>
          destruct (IH sel b ni c') as [IH1 IH2];
          destruct (readTag8_4S16_v2_loop log n sel b ni c')
      end; cbn [fst snd length] in *; (split; [advanced_chain | congruence]).
Qed.

Lemma readTag8_4S16_v2_advanced (log : flightLog) (c : cursor) :
  advanced c (snd (readTag8_4S16_v2 log c))
  /\ length (fst (readTag8_4S16_v2 log c)) = 4%nat.
Proof.
  unfold readTag8_4S16_v2. next_read.
  match goal with
  | |- context [readTag8_4S16_v2_loop log 4 ?sel 0 0 ?c'] =>
      destruct (readTag8_4S16_v2_loop_advanced log 4 sel 0 0 c') as [H1 H2]
  end.
  split; [eapply advanced_trans; eassumption | exact H2].
Qed.

Lemma readTag8_8SVB_loop_advanced (log : flightLog) :
  forall (n : nat) (header : Z) (c : cursor),
    advanced c (snd (readTag8_8SVB_loop log n header c))
    /\ length (fst (readTag8_8SVB_loop log n header c)) = n.
Proof.
  induction n as [|n IH]; intros header c; cbn [readTag8_8SVB_loop].
  - split; [apply advanced_refl | reflexivity].
  - assert (Hv : advanced c (snd (if Z.land header 1 =? 0 then (0, c)
                                  else readSignedVB log c))).
    { destruct (_ =? 0); [apply advanced_refl | apply readSignedVB_advanced]. }
    destruct (if Z.land header 1 =? 0 then (0, c) else readSignedVB log c)
      as [v c1]. cbn [snd] in Hv.
    destruct (IH (Z.shiftr header 1) c1) as [IH1 IH2].
    destruct (readTag8_8SVB_loop log n (Z.shiftr header 1) c1).
    cbn [fst snd length] in *. split; [advanced_chain | congruence].
Qed.

Lemma readTag8_8SVB_advanced (log : flightLog) (valueCount : Z) (c : cursor) :
  advanced c (snd (readTag8_8SVB log valueCount c))
  /\ length (fst (readTag8_8SVB log valueCount c))
     = if valueCount =? 1 then 1%nat else 8%nat.
Proof.
  unfold readTag8_8SVB. destruct (valueCount =? 1).
  - pose proof (readSignedVB_advanced log c) as H.
    destruct (readSignedVB log c). split; [exact H | reflexivity].
  - next_read.
    match goal with
    | |- context [readTag8_8SVB_loop log 8 ?hd ?c'] =>
        destruct (readTag8_8SVB_loop_advanced log 8 hd c') as [H1 H2]
    end.
    split; [eapply advanced_trans; eassumption | exact H2].
Qed.

(** *** Parsing a frame *)

(** A store is made inside the buffer, or it is out of bounds. *)
Lemma store_result (m : memory) (p : framePtr) (i v : Z) :
  (store m p i v = Ok (setFrame m p (aset (frameAt m p) i v))
   /\ 0 <= i < Z.of_nat (length (frameAt m p)))
  \/ store m p i v = OutOfBounds.
Proof.
  unfold store.
  destruct (Z.leb_spec 0 i); destruct (Z.ltb_spec i (Z.of_nat (length (frameAt m p))));
    cbn [andb]; [left; split; [reflexivity | lia] | right .. ]; reflexivity.
Qed.

Lemma applyPrediction_fuel (h : Headers) (log : flightLog) (m : memory)
  (fieldIndex predictor value : Z) (current : framePtr)
  (previous previous2 : option framePtr) :
  applyPrediction h log m fieldIndex predictor value current previous previous2
  <> OutOfFuel.
Proof.
  unfold applyPrediction.
  repeat match goal with
         | |- context [if ?b then _ else _] => destruct b
         | |- context [match ?o with Some _ => _ | None => _ end] => destruct o
         end; cbn [bind]; discriminate.
Qed.

Lemma applyGroup_index (h : Headers) (log : flightLog) (raw : bool)
  (predictors : list Z) (frame : framePtr) (previous previous2 : option framePtr) :
  forall (values : list Z) (i : Z) (m : memory),
    applyGroup h log raw predictors values i frame previous previous2 m <> OutOfFuel
    /\ forall i' m',
         applyGroup h log raw predictors values i frame previous previous2 m
         = Ok (i', m') ->
         i' = i + Z.of_nat (length values).
Proof.
  induction values as [|v values IH]; intros i m; cbn [applyGroup].
  - split; [discriminate|]. intros i' m' H. inversion H. cbn. lia.
  - pose proof (applyPrediction_fuel h log m i
                  (if raw then FLIGHT_LOG_FIELD_PREDICTOR_0 h else aget predictors i)
                  v frame previous previous2) as Hp.
    destruct (applyPrediction h log m i _ v frame previous previous2) as [r| | | |];
      cbn [bind]; try (split; [discriminate | intros ? ? H; discriminate H]).
    + destruct (store_result m frame i r) as [[Hst _]|Hst]; rewrite Hst; cbn [bind];
        [|split; [discriminate | intros ? ? H; discriminate H]].
      destruct (IH (i + 1) (setFrame m frame (aset (frameAt m frame) i r)))
        as [IH1 IH2].
      split; [exact IH1|]. intros i' m' H. apply IH2 in H.
      cbn [length]. lia.
    + contradiction.
Qed.

Lemma wellParsed_from {A : Type} (pos : A -> cursor) (c c1 : cursor) (r : result A) :
  advanced c c1 -> wellParsed pos c1 r -> wellParsed pos c r.
Proof.
  intros Hadv [H1 H2]. split; [|exact H2].
  intros a Ha. eapply advanced_trans; [exact Hadv | now apply H1].
Qed.

Lemma wellParsed_stop {A : Type} (pos : A -> cursor) (c : cursor) (r : result A) :
  r = Exit \/ r = Undefined \/ r = OutOfBounds -> wellParsed pos c r.
Proof.
  intros [-> | [-> | ->]]; split; intros; discriminate.
Qed.

Lemma groupEnd_ge (h : Headers) (log : flightLog) (encodings : list Z) :
  forall (fuel : nat) (i j : Z), j <= groupEnd h log encodings fuel i j.
Proof.
  induction fuel as [|fuel IH]; intros i j; cbn [groupEnd]; [lia|].
  destruct (_ && _); [|lia].
  destruct (_ =? _); [|lia].
  specialize (IH i (j + 1)). lia.
Qed.

Lemma parseFrame_loop_wellParsed (h : Headers) (log : flightLog) (frameType : Z)
  (frame : framePtr) (previous previous2 : option framePtr)
  (fieldCount skippedFrames : Z) (raw : bool) :
  forall (fuel : nat) (i : Z) (c : cursor) (m : memory),
    fieldCount - i <= Z.of_nat fuel ->
    wellParsed fst c
      (parseFrame_loop h log fuel frameType frame previous previous2 fieldCount
         skippedFrames raw i c m).
Proof.
  induction fuel as [|fuel IH]; intros i c m Hfuel; cbn [parseFrame_loop].
  - destruct (Z.ltb_spec i fieldCount); [lia|].
    split; [|discriminate]. intros a Ha. inversion Ha. apply advanced_refl.
  - destruct (Z.ltb_spec i fieldCount) as [Hlt|Hge].
    2:{ split; [|discriminate]. intros a Ha. inversion Ha. apply advanced_refl. }
    cbv zeta.
    assert (Hsingle : forall value c',
              advanced c c' ->
              wellParsed fst c
                (let* v := applyPrediction h log m i
                             (if raw then FLIGHT_LOG_FIELD_PREDICTOR_0 h
                              else aget (predictor (frameDefs log frameType)) i)
                             value frame previous previous2 in
                 let* m' := store m frame i v in
                 parseFrame_loop h log fuel frameType frame previous previous2
                   fieldCount skippedFrames raw (i + 1) c' m')).
    { intros value c' Hadv.
      pose proof (applyPrediction_fuel h log m i
                    (if raw then FLIGHT_LOG_FIELD_PREDICTOR_0 h
                     else aget (predictor (frameDefs log frameType)) i)
                    value frame previous previous2) as Hp.
      destruct (applyPrediction h log m i _ value frame previous previous2)
        as [r| | | |]; cbn [bind].
      - destruct (store_result m frame i r) as [[Hst _]|Hst]; rewrite Hst; cbn [bind].
        + eapply wellParsed_from; [exact Hadv|]. apply IH. lia.
        + apply wellParsed_stop. auto.
      - apply wellParsed_stop. auto.
      - apply wellParsed_stop. auto.
      - apply wellParsed_stop. auto.
      - contradiction. }
    assert (Hgroup : forall values c',
              advanced c c' -> (0 < length values)%nat ->
              wellParsed fst c
                (let* (i', m') := applyGroup h log raw
                                    (predictor (frameDefs log frameType)) values i
                                    frame previous previous2 m in
                 parseFrame_loop h log fuel frameType frame previous previous2
                   fieldCount skippedFrames raw i' c' m')).
    { intros values c' Hadv Hlen.
      destruct (applyGroup_index h log raw (predictor (frameDefs log frameType))
                  frame previous previous2 values i m) as [Hg1 Hg2].
      destruct (applyGroup h log raw _ values i frame previous previous2 m)
        as [[i' m']| | | |]; cbn [bind].
      - specialize (Hg2 i' m' eq_refl).
        eapply wellParsed_from; [exact Hadv|]. apply IH. lia.
      - apply wellParsed_stop. auto.
      - apply wellParsed_stop. auto.
      - apply wellParsed_stop. auto.
      - contradiction. }
    destruct (_ =? FLIGHT_LOG_FIELD_PREDICTOR_INC h).
    { destruct (store_result m frame i (to_int32 (skippedFrames + 1)))
        as [[Hst _]|Hst]; rewrite Hst; cbn [bind];
        [|apply wellParsed_stop; auto].
      set (m1 := setFrame m frame _).
      destruct previous as [p|]; cbn [bind]; [|apply IH; lia].
      destruct (store_result m1 frame i (to_int32 (load m1 frame i + load m1 p i)))
        as [[Hst2 _]|Hst2]; rewrite Hst2; cbn [bind];
        [apply IH; lia | apply wellParsed_stop; auto]. }
    destruct (_ =? FLIGHT_LOG_FIELD_ENCODING_SIGNED_VB h).
    { pose proof (readSignedVB_advanced log c) as Hr.
      destruct (readSignedVB log c) as [v c']. now apply Hsingle. }
    destruct (_ =? FLIGHT_LOG_FIELD_ENCODING_UNSIGNED_VB h).
    { pose proof (readUnsignedVB_advanced log c) as Hr.
      destruct (readUnsignedVB log c) as [v c']. now apply Hsingle. }
    destruct (_ =? FLIGHT_LOG_FIELD_ENCODING_NEG_14BIT h).
    { pose proof (readUnsignedVB_advanced log c) as Hr.
      destruct (readUnsignedVB log c) as [v c']. now apply Hsingle. }
    destruct (_ =? FLIGHT_LOG_FIELD_ENCODING_TAG8_4S16 h).
    { assert (Hr : advanced c (snd (if dataVersion log <? 2
                                    then readTag8_4S16_v1 log c
                                    else readTag8_4S16_v2 log c))
                   /\ (4 <= length (fst (if (dataVersion log <? 2)%Z
                                         then readTag8_4S16_v1 log c
                                         else readTag8_4S16_v2 log c)))%nat).
      { destruct (dataVersion log <? 2).
        - destruct (readTag8_4S16_v1_advanced log c) as [H1 H2]. rewrite H2.
          split; [exact H1 | lia].
        - destruct (readTag8_4S16_v2_advanced log c) as [H1 H2]. rewrite H2.
          split; [exact H1 | lia]. }
      destruct (if dataVersion log <? 2 then readTag8_4S16_v1 log c
                else readTag8_4S16_v2 log c) as [values c'].
      cbn [fst snd] in Hr. destruct Hr as [Hr1 Hr2].
      apply Hgroup; [exact Hr1|]. rewrite length_firstn. lia. }
    destruct (_ =? FLIGHT_LOG_FIELD_ENCODING_TAG2_3S32 h).
    { destruct (readTag2_3S32_advanced log c) as [Hr1 Hr2].
      destruct (readTag2_3S32 log c) as [values c']. cbn [fst snd] in *.
      apply Hgroup; [exact Hr1|]. rewrite length_firstn. lia. }
    destruct (_ =? FLIGHT_LOG_FIELD_ENCODING_TAG8_8SVB h).
    { pose proof (groupEnd_ge h log (encoding (frameDefs log frameType)) 8 i (i + 1))
        as Hcount.
      set (groupCount := groupEnd h log (encoding (frameDefs log frameType)) 8 i (i + 1) - i)
        in *.
      destruct (readTag8_8SVB_advanced log groupCount c) as [Hr1 Hr2].
      destruct (readTag8_8SVB log groupCount c) as [values c']. cbn [fst snd] in *.
      apply Hgroup; [exact Hr1|]. rewrite length_firstn, Hr2.
      destruct (Z.eqb_spec groupCount 1) as [->|Hne]; [cbn; lia|]. lia. }
    destruct (_ =? FLIGHT_LOG_FIELD_ENCODING_NULL h).
    { apply Hsingle. apply advanced_refl. }
    apply wellParsed_stop. auto.
Qed.

Lemma parseFrame_wellParsed (h : Headers) (log : flightLog) (frameType : Z)
  (frame : framePtr) (previous previous2 : option framePtr)
  (fieldCount skippedFrames : Z) (raw : bool) (c : cursor) (m : memory) :
  wellParsed fst c
    (parseFrame h log frameType frame previous previous2 fieldCount skippedFrames
       raw c m).
Proof.
  unfold parseFrame. apply parseFrame_loop_wellParsed. lia.
Qed.

(** *** The counting loops with a positive P interval *)

Lemma shouldHaveFrame_defined (h : Headers) (log : flightLog) (idx : Z) :
  positiveIntervals log -> exists b, shouldHaveFrame h log idx = Ok b.
Proof.
  intros (HI & HN & HD). unfold shouldHaveFrame.
  rewrite (intervalValue_small h (frameIntervalI log)) by lia.
  rewrite (intervalValue_small h (frameIntervalPDenom log)) by lia.
  rewrite intervalRem_positive by lia. cbn [bind].
  rewrite intervalRem_positive by lia. cbn [bind].
  eexists. reflexivity.
Qed.

Lemma shouldHaveFrame_zero (h : Headers) (log : flightLog) :
  positiveIntervals log -> shouldHaveFrame h log 0 = Ok true.
Proof.
  intros (HI & HN & HD). unfold shouldHaveFrame.
  change (to_int32 0) with 0.
  rewrite (intervalValue_small h 0) by (unfold INT_MAX; lia).
  rewrite (intervalValue_small h (frameIntervalI log)) by lia.
  rewrite (intervalValue_small h (frameIntervalPNum log)) by lia.
  rewrite (intervalValue_small h (frameIntervalPDenom log)) by lia.
  rewrite intervalRem_positive by lia. cbn [bind].
  rewrite Z.rem_0_l by lia. rewrite Z.add_0_l.
  rewrite (intervalValue_small h (frameIntervalPNum log)) by lia.
  rewrite (intervalValue_small h (frameIntervalPNum log - 1)) by lia.
  rewrite intervalRem_nonneg by lia. cbn [bind].
  pose proof (Z.mod_le (frameIntervalPNum log - 1) (frameIntervalPDenom log)
                ltac:(lia) ltac:(lia)).
  destruct (Z.ltb_spec ((frameIntervalPNum log - 1) mod frameIntervalPDenom log)
              (frameIntervalPNum log)); [reflexivity | lia].
Qed.

(** The frame index comes round to 0 after [d] increments at the latest, and
    0 passes the filter. *)
Lemma countSkippedFrames_exits (h : Headers) (log : flightLog) (wrap : Z -> Z) :
  positiveIntervals log ->
  forall (d fuel : nat) (frameIndex skippedFrames : Z),
    0 <= frameIndex < 2 ^ 32 ->
    Z.of_nat d = (2 ^ 32 - frameIndex) mod 2 ^ 32 ->
    (d < fuel)%nat ->
    exists n, countSkippedFrames h log fuel wrap frameIndex skippedFrames = Ok n.
Proof.
  intros Hpos. induction d as [|d IH]; intros fuel frameIndex skippedFrames Hf Hd Hfuel.
  - destruct fuel as [|fuel]; [lia|].
    assert (frameIndex = 0) as ->.
    { destruct (Z.eq_dec frameIndex 0) as [E|E]; [exact E|].
      rewrite Z.mod_small in Hd by lia. lia. }
    cbn [countSkippedFrames]. rewrite shouldHaveFrame_zero by assumption.
    cbn [bind]. eexists. reflexivity.
  - destruct fuel as [|fuel]; [lia|].
    cbn [countSkippedFrames].
    destruct (shouldHaveFrame_defined h log frameIndex Hpos) as [b Hb].
    rewrite Hb. cbn [bind]. destruct b; [eexists; reflexivity|].
    assert (Hne : frameIndex <> 0).
    { intros ->. rewrite Z.sub_0_r, Z.mod_same in Hd by lia. lia. }
    rewrite Z.mod_small in Hd by lia.
    apply IH; [apply to_uint32_range | | lia].
    unfold to_uint32.
    destruct (Z.eq_dec (frameIndex + 1) (2 ^ 32)) as [E|E].
    + assert (Hz : (frameIndex + 1) mod 2 ^ 32 = 0)
        by (rewrite E; apply Z.mod_same; lia).
      rewrite Hz. change ((2 ^ 32 - 0) mod 2 ^ 32) with 0. lia.
    + rewrite (Z.mod_small (frameIndex + 1)) by lia.
      rewrite Z.mod_small by lia. lia.
Qed.

Lemma countSkippedFrames_enough (h : Headers) (log : flightLog) (wrap : Z -> Z)
  (fuel : nat) (x skippedFrames : Z) :
  positiveIntervals log ->
  2 ^ 32 < Z.of_nat fuel ->
  exists n, countSkippedFrames h log fuel wrap (to_uint32 x) skippedFrames = Ok n.
Proof.
  intros Hpos Hfuel.
  pose proof (to_uint32_range x) as Hr.
  pose proof (Z.mod_pos_bound (2 ^ 32 - to_uint32 x) (2 ^ 32) ltac:(lia)) as Hm.
  apply (countSkippedFrames_exits h log wrap Hpos
           (Z.to_nat ((2 ^ 32 - to_uint32 x) mod 2 ^ 32))); [exact Hr | | ].
  - rewrite Z2Nat.id; lia.
  - apply Nat2Z.inj_lt. rewrite Z2Nat.id; lia.
Qed.

Lemma parseIntraframe_wellParsed (h : Headers) (log : flightLog) (fuel : nat)
  (raw : bool) (s : parser) :
  positiveIntervals log -> 2 ^ 32 < Z.of_nat fuel ->
  wellParsed cur (cur s) (parseIntraframe h log fuel raw s).
Proof.
  intros Hpos Hfuel. unfold parseIntraframe.
  assert (Hcount : exists n s1,
            match mainHistory1 s with
            | Some p =>
                let* n := countSkippedFrames h log fuel to_int32
                            (to_uint32 (to_int32
                               (load (mem s) p FLIGHT_LOG_FIELD_INDEX_ITERATION + 1)))
                            0 in
                Ok (n, addAbsentIterations s n)
            | None => Ok (0, s)
            end = Ok (n, s1) /\ cur s1 = cur s).
  { destruct (mainHistory1 s) as [p|].
    - destruct (countSkippedFrames_enough h log to_int32 fuel
                  (to_int32 (load (mem s) p FLIGHT_LOG_FIELD_INDEX_ITERATION + 1)) 0
                  Hpos Hfuel) as [n Hn].
      rewrite Hn. cbn [bind]. eexists. eexists. split; reflexivity.
    - eexists. eexists. split; reflexivity. }
  destruct Hcount as (n & s1 & Hcount & Hcur). rewrite Hcount. cbn [bind].
  destruct (parseFrame_wellParsed h log (marker IntraFrame) (mainHistory0 s)
              (mainHistory1 s) None (mainFieldCount log) n raw (cur s1) (mem s1))
    as [Hadv Hne].
  destruct (parseFrame h log (marker IntraFrame) (mainHistory0 s) (mainHistory1 s)
              None (mainFieldCount log) n raw (cur s1) (mem s1)) as [r| | | |];
    cbn [bind]; try (apply wellParsed_stop; auto; fail); [|contradiction].
  split; [|discriminate]. intros a Ha. inversion Ha.
  rewrite <- Hcur. cbn. now apply Hadv.
Qed.

Lemma parseInterframe_wellParsed (h : Headers) (log : flightLog) (fuel : nat)
  (raw : bool) (s : parser) :
  positiveIntervals log -> 2 ^ 32 < Z.of_nat fuel ->
  wellParsed cur (cur s) (parseInterframe h log fuel raw s).
Proof.
  intros Hpos Hfuel. unfold parseInterframe.
  assert (Hcount : exists n,
            match mainHistory1 s with
            | Some p =>
                countSkippedFrames h log fuel to_uint32
                  (to_uint32 (to_int32
                     (load (mem s) p FLIGHT_LOG_FIELD_INDEX_ITERATION + 1)))
                  0
            | None => Ok 0
            end = Ok n).
  { destruct (mainHistory1 s) as [p|].
    - apply countSkippedFrames_enough; assumption.
    - eexists. reflexivity. }
  destruct Hcount as (n & Hcount). rewrite Hcount. cbn [bind].
  destruct (parseFrame_wellParsed h log (marker InterFrame) (mainHistory0 s)
              (mainHistory1 s) (mainHistory2 s) (mainFieldCount log) (to_int32 n) raw
              (cur (addAbsentIterations s n)) (mem (addAbsentIterations s n)))
    as [Hadv Hne].
  destruct (parseFrame h log (marker InterFrame) (mainHistory0 s) (mainHistory1 s)
              (mainHistory2 s) (mainFieldCount log) (to_int32 n) raw
              (cur (addAbsentIterations s n)) (mem (addAbsentIterations s n)))
    as [r| | | |];
    cbn [bind]; try (apply wellParsed_stop; auto; fail); [|contradiction].
  split; [|discriminate]. intros a Ha. inversion Ha. cbn. now apply Hadv.
Qed.

Lemma parseGPSFrame_wellParsed (h : Headers) (log : flightLog) (raw : bool)
  (s : parser) :
  wellParsed cur (cur s) (parseGPSFrame h log raw s).
Proof.
  unfold parseGPSFrame.
  destruct (parseFrame_wellParsed h log (marker GPSFrame) LastGPS None None
              (gpsFieldCount log) 0 raw (cur s) (mem s)) as [Hadv Hne].
  destruct (parseFrame h log (marker GPSFrame) LastGPS None None
              (gpsFieldCount log) 0 raw (cur s) (mem s)) as [r| | | |];
    cbn [bind]; try (apply wellParsed_stop; auto; fail); [|contradiction].
  split; [|discriminate]. intros a Ha. inversion Ha. cbn. now apply Hadv.
Qed.

Lemma parseGPSHomeFrame_wellParsed (h : Headers) (log : flightLog) (raw : bool)
  (s : parser) :
  wellParsed cur (cur s) (parseGPSHomeFrame h log raw s).
Proof.
  unfold parseGPSHomeFrame.
  destruct (parseFrame_wellParsed h log (marker GPSHomeFrame) (GpsHomeRow 0) None None
              (gpsHomeFieldCount log) 0 raw (cur s) (mem s)) as [Hadv Hne].
  destruct (parseFrame h log (marker GPSHomeFrame) (GpsHomeRow 0) None None
              (gpsHomeFieldCount log) 0 raw (cur s) (mem s)) as [r| | | |];
    cbn [bind]; try (apply wellParsed_stop; auto; fail); [|contradiction].
  split; [|discriminate]. intros a Ha. inversion Ha. cbn. now apply Hadv.
Qed.

Lemma parseEventFrame_advanced (h : Headers) (log : flightLog) (s : parser) :
  advanced (cur s) (cur (parseEventFrame h log s)).
Proof.
  unfold parseEventFrame. next_read.
  destruct (_ =? FLIGHT_LOG_EVENT_SYNC_BEEP h).
  { match goal with
    | |- context [readUnsignedVB log ?c] =>
        pose proof (readUnsignedVB_advanced log c) as Hvb;
        destruct (readUnsignedVB log c)
    end.
    cbn [cur set_lastEvent set_cur fst snd] in *. advanced_chain. }
  destruct (_ =? FLIGHT_LOG_EVENT_AUTOTUNE_CYCLE_START h).
  { repeat next_read. cbn [cur set_lastEvent set_cur fst snd] in *. advanced_chain. }
  destruct (_ =? FLIGHT_LOG_EVENT_AUTOTUNE_CYCLE_RESULT h).
  { repeat next_read. cbn [cur set_lastEvent set_cur fst snd] in *. advanced_chain. }
  cbn [cur set_lastEvent set_cur fst snd] in *. advanced_chain.
Qed.

Lemma parse_wellParsed (t : flightLogFrameType_t) (h : Headers) (log : flightLog)
  (fuel : nat) (raw : bool) (s : parser) :
  positiveIntervals log -> 2 ^ 32 < Z.of_nat fuel ->
  wellParsed cur (cur s) (parse t h log fuel raw s).
Proof.
  intros Hpos Hfuel. destruct t; cbn [parse].
  - now apply parseIntraframe_wellParsed.
  - now apply parseInterframe_wellParsed.
  - apply parseGPSFrame_wellParsed.
  - apply parseGPSHomeFrame_wellParsed.
  - split; [|discriminate]. intros a Ha. inversion Ha. apply parseEventFrame_advanced.
Qed.

(** *** Every pass makes progress *)

Lemma readChar_cases (log : flightLog) (c : cursor) :
  (fst (readChar log c) = EOF /\ logPos (snd (readChar log c)) = logPos c)
  \/ (fst (readChar log c) <> EOF
      /\ logPos (snd (readChar log c)) = logPos c + 1
      /\ logPos c < logEnd log).
Proof.
  unfold readChar. destruct (Z.ltb_spec (logPos c) (logEnd log)); cbn [fst snd logPos].
  - right. pose proof (byteAt_range log (logPos c)). unfold EOF.
    repeat split; lia.
  - left. split; reflexivity.
Qed.

Lemma complete_control (t : flightLogFrameType_t) (log : flightLog)
  (frameType frameStart0 frameEnd : Z) (raw : bool) (s : parser) :
  cur (complete t log frameType frameStart0 frameEnd raw s) = cur s
  /\ frameStart (complete t log frameType frameStart0 frameEnd raw s) = frameStart s
  /\ lastFrameType (complete t log frameType frameStart0 frameEnd raw s)
     = lastFrameType s.
Proof.
  destruct t; cbn [complete].
  - unfold completeIntraframe, mainFrameReady, flightLoginvalidateStream.
    destruct (raw || _); destruct (onFrameReady log); cbn; repeat split.
  - unfold completeInterframe, mainFrameReady, countDesync.
    destruct (mainStreamIsValid s) eqn:Hv; destruct (onFrameReady log);
      cbn [mainStreamIsValid set_stats call]; rewrite ?Hv; cbn; repeat split.
  - unfold completeGPSFrame. destruct (onFrameReady log); cbn; repeat split.
  - unfold completeGPSHomeFrame. destruct (onFrameReady log); cbn; repeat split.
  - unfold completeEventFrame. destruct (onEvent log); cbn; repeat split.
Qed.

Lemma beginFrame_progress (h : Headers) (log : flightLog) (fuel : nat) (raw : bool)
  (command : Z) (s : parser) :
  positiveIntervals log -> 2 ^ 32 < Z.of_nat fuel ->
  match beginFrame h log fuel raw command s with
  | Continue s' =>
      command <> EOF
      /\ frameStart s' = logPos (cur s)
      /\ logPos (cur s) <= logPos (cur s')
  | Done _ => True
  | Stop why _ => why <> StopOutOfFuel
  end.
Proof.
  intros Hpos Hfuel. unfold beginFrame.
  destruct (Z.eqb_spec command EOF) as [E|E]; [exact I|].
  destruct (getFrameType (to_uint8 command)) as [t|].
  - set (s1 := set_locals s (prematureEof s) (logPos (cur s)) (lastFrameType s)).
    destruct (parse_wellParsed t h log fuel raw s1 Hpos Hfuel) as [Hadv Hne].
    destruct (parse t h log fuel raw s1) as [s2| | | |] eqn:Hparse;
      try discriminate; [|contradiction].
    apply parse_sameControl in Hparse.
    destruct Hparse as (_ & _ & _ & _ & _ & _ & Hfs & _).
    specialize (Hadv s2 eq_refl). unfold advanced in Hadv.
    cbn [frameStart cur set_locals]. rewrite Hfs. subst s1.
    cbn [frameStart cur set_locals] in *. repeat split; auto.
  - cbn. repeat split; auto. lia.
Qed.

Lemma dataIteration_progress (h : Headers) (log : flightLog) (fuel : nat)
  (raw : bool) (s : parser) :
  positiveIntervals log -> 2 ^ 32 < Z.of_nat fuel ->
  frameStartInside log s ->
  match dataIteration h log fuel raw s with
  | Continue s' => frameStartInside log s' /\ passMeasure log s' < passMeasure log s
  | Done _ => True
  | Stop why _ => why <> StopOutOfFuel
  end.
Proof.
  intros Hpos Hfuel [Hbefore Hinside]. unfold dataIteration.
  pose proof (readChar_cases log (cur s)) as Hread.
  destruct (readChar log (cur s)) as [command c1]. cbn [fst snd] in Hread.
  cbn [lastFrameType set_cur frameStart prematureEof].
  assert (Hbegin : forall s0,
            cur s0 = c1 -> frameStart s0 = frameStart s ->
            match beginFrame h log fuel raw command s0 with
            | Continue s' =>
                frameStartInside log s'
                /\ 2 * (logEnd log - frameStart s')
                   + match lastFrameType s' with Some _ => 1 | None => 0 end
                   < 2 * (logEnd log - frameStart s)
            | Done _ => True
            | Stop why _ => why <> StopOutOfFuel
            end).
  { intros s0 Hcur Hfs.
    pose proof (beginFrame_progress h log fuel raw command s0 Hpos Hfuel) as Hb.
    destruct (beginFrame h log fuel raw command s0) as [s'|s'|why s']; auto.
    destruct Hb as (Hne & Hfs' & Hadv). rewrite Hcur in *.
    destruct Hread as [[E _]|(_ & Hpos1 & Hlt)]; [contradiction|].
    unfold frameStartInside. rewrite Hfs'.
    destruct (lastFrameType s'); repeat split; lia. }
  unfold passMeasure. destruct (lastFrameType s) as [lastType|].
  - destruct (_ && _).
    + destruct (complete_control lastType log (marker lastType) (frameStart s)
                  (logPos c1) raw
                  (countValid (set_cur s c1) (marker lastType)
                     (to_uint32 (logPos c1 - frameStart s)))) as (Hc & Hf & _).
      specialize (Hbegin _ Hc Hf).
      destruct (beginFrame h log fuel raw command _) as [s'|s'|why s']; auto.
      destruct Hbegin as [Hb1 Hb2]. split; [exact Hb1 | lia].
    + unfold corruptFrame, countCorrupt, frameStartInside.
      destruct (onFrameReady log); cbn; repeat split; lia.
  - specialize (Hbegin (set_cur s c1) eq_refl eq_refl).
    destruct (beginFrame h log fuel raw command (set_cur s c1)) as [s'|s'|why s'];
      auto.
    destruct Hbegin as [Hb1 Hb2]. split; [exact Hb1 | lia].
Qed.

(** A pass that begins a frame records as [frameStart] the position after
    the marker byte it has just read, and the frame type of that marker. *)
Lemma dataIteration_frameStart (h : Headers) (log : flightLog) (fuel : nat)
  (raw : bool) (s s' : parser) :
  lastFrameType s = None ->
  dataIteration h log fuel raw s = Continue s' ->
  logPos (cur s) < logEnd log
  /\ frameStart s' = logPos (cur s) + 1
  /\ lastFrameType s' = getFrameType (byteAt log (logPos (cur s))).
Proof.
  intros Hlast. unfold dataIteration, readChar.
  destruct (Z.ltb_spec (logPos (cur s)) (logEnd log)) as [Hin|Hout].
  - cbn [lastFrameType set_cur]. rewrite Hlast. unfold beginFrame.
    pose proof (byteAt_range log (logPos (cur s))) as Hb.
    destruct (Z.eqb_spec (byteAt log (logPos (cur s))) EOF) as [E|_];
      [unfold EOF in E; lia|].
    rewrite to_uint8_byte by assumption.
    destruct (getFrameType (byteAt log (logPos (cur s)))) as [t|].
    + destruct (parse t h log fuel raw _) as [s2| | | |] eqn:Hparse;
        try discriminate.
      apply parse_sameControl in Hparse.
      destruct Hparse as (_ & _ & _ & _ & _ & _ & Hfs & _).
      intros H. inversion H. cbn [frameStart lastFrameType set_locals].
      rewrite Hfs. cbn. auto.
    + intros H. inversion H. cbn. auto.
  - cbn [lastFrameType set_cur]. rewrite Hlast. unfold beginFrame.
    change (EOF =? EOF) with true. discriminate.
Qed.

Lemma dataLoop_terminated (h : Headers) (log : flightLog) (fuel : nat) (raw : bool) :
  positiveIntervals log -> 2 ^ 32 < Z.of_nat fuel ->
  forall (n : nat) (s : parser),
    frameStartInside log s ->
    passMeasure log s < Z.of_nat n ->
    terminated (dataLoop h log fuel raw n s).
Proof.
  intros Hpos Hfuel. induction n as [|n IH]; intros s Hinv Hmeasure.
  - exfalso. destruct Hinv as [_ Hinside]. unfold passMeasure in Hmeasure.
    destruct (lastFrameType s); lia.
  - cbn [dataLoop].
    pose proof (dataIteration_progress h log fuel raw s Hpos Hfuel Hinv) as Hpass.
    destruct (dataIteration h log fuel raw s) as [s'|s'|why s'].
    + destruct Hpass as [Hinv' Hless]. apply IH; [exact Hinv' | lia].
    + exact I.
    + destruct why; cbn; auto.
Qed.

(** The part of C10 that holds: with a keyframe interval and a P interval
    of positive numbers of the range of [int], and [frameStart] inside the
    log and not after the cursor (as when the data phase is entered), the
    data phase comes to an end: [flightLogParse] returns or the program
    stops.  Every pass either begins a frame at a [frameStart] strictly
    greater than the one before, or is the rewind of a corrupt frame, and
    the pass after a rewind is of the first kind. *)
Lemma flightLogParseData_terminated (h : Headers) (log : flightLog) (raw : bool)
  (s : parser) :
  positiveIntervals log ->
  frameStartInside log s ->
  terminated (flightLogParseData h log raw (enoughFuel log s) s).
Proof.
  intros Hpos Hinv. unfold flightLogParseData, enoughFuel.
  apply dataLoop_terminated; try assumption.
  - rewrite Z2Nat.id by lia. lia.
  - rewrite Z2Nat.id by lia. lia.
Qed.

(** * Further properties of the parser *)

(** ** Reading stays inside the log *)

Lemma readWithin_refl (log : flightLog) (c : cursor) : readWithin log c c.
Proof. unfold readWithin. repeat split; auto; lia. Qed.

Lemma readWithin_trans (log : flightLog) (c1 c2 c3 : cursor) :
  readWithin log c1 c2 -> readWithin log c2 c3 -> readWithin log c1 c3.
Proof.
  unfold readWithin. intros (H1 & H2 & H3) (H4 & H5 & H6).
  repeat split; auto; lia.
Qed.

Lemma readChar_within (log : flightLog) (c : cursor) :
  readWithin log c (snd (readChar log c)).
Proof.
  unfold readWithin, readChar.
  destruct (Z.ltb_spec (logPos c) (logEnd log)); cbn [snd logPos eof];
    repeat split; auto; lia.
Qed.

Lemma readByte_within (log : flightLog) (c : cursor) :
  readWithin log c (snd (readByte log c)).
Proof.
  unfold readByte. pose proof (readChar_within log c) as H.
  destruct (readChar log c). exact H.
Qed.

(** Names the result of the next read in the goal and records where the
    cursor went. *)
Ltac next_within :=
  match goal with
  | |- context [readByte ?log ?c] =>
      let H := fresh "Hin" in
      pose proof (readByte_within log c) as H;
      destruct (readByte log c); cbn [snd] in H
  | |- context [readChar ?log ?c] =>
      let H := fresh "Hin" in
      pose proof (readChar_within log c) as H;
      destruct (readChar log c); cbn [snd] in H
  end.

Ltac within_chain :=
  cbn [fst snd] in *;
  repeat (eapply readWithin_trans; [eassumption|]);
  apply readWithin_refl.

Lemma readUnsignedVB_loop_within (log : flightLog) :
  forall (n : nat) (shift result : Z) (c : cursor),
    readWithin log c (snd (readUnsignedVB_loop log n shift result c)).
Proof.
  induction n as [|n IH]; intros shift result c; cbn [readUnsignedVB_loop].
  - apply readWithin_refl.
  - next_within. destruct (_ =? EOF); [exact Hin|].
    cbv zeta. destruct (_ <? 128); [exact Hin|].
    eapply readWithin_trans; [exact Hin | apply IH].
Qed.

Lemma readUnsignedVB_within (log : flightLog) (c : cursor) :
  readWithin log c (snd (readUnsignedVB log c)).
Proof. apply readUnsignedVB_loop_within. Qed.

Lemma readSignedVB_within (log : flightLog) (c : cursor) :
  readWithin log c (snd (readSignedVB log c)).
Proof.
  unfold readSignedVB. pose proof (readUnsignedVB_within log c) as H.
  destruct (readUnsignedVB log c). exact H.
Qed.

Lemma readTag2_3S32_wide_within (log : flightLog) :
  forall (n : nat) (leadByte : Z) (c : cursor),
    readWithin log c (snd (readTag2_3S32_wide log n leadByte c)).
Proof.
  induction n as [|n IH]; intros leadByte c; cbn [readTag2_3S32_wide].
  - apply readWithin_refl.
  - destruct (Z.land leadByte 3) as [|[?|[?|?|]|]|?]; repeat next_within;
      match goal with
      | |- context [readTag2_3S32_wide log n ?l ?c'] =>
          pose proof (IH l c') as IH1;
          destruct (readTag2_3S32_wide log n l c')
      end; within_chain.
Qed.

Lemma readTag2_3S32_within (log : flightLog) (c : cursor) :
  readWithin log c (snd (readTag2_3S32 log c)).
Proof.
  unfold readTag2_3S32. next_within.
  destruct (Z.shiftr _ 6) as [|[?|[?|?|]|]|?]; repeat next_within;
    try within_chain;
    match goal with
    | |- context [readTag2_3S32_wide log 3 ?l ?c'] =>
        pose proof (readTag2_3S32_wide_within log 3 l c') as Hw
    end; eapply readWithin_trans; eassumption.
Qed.

Lemma readTag8_4S16_v1_loop_within (log : flightLog) :
  forall (fuel : nat) (i selector : Z) (values : list Z) (c : cursor),
    readWithin log c (snd (readTag8_4S16_v1_loop log fuel i selector values c)).
Proof.
  induction fuel as [|fuel IH]; intros i selector values c;
    cbn [readTag8_4S16_v1_loop].
  - apply readWithin_refl.
  - destruct (i <? 4); [|apply readWithin_refl].
    destruct (Z.land selector 3) as [|[?|[?|?|]|]|?]; repeat next_within; cbv zeta;
      match goal with
      | |- context [readTag8_4S16_v1_loop log fuel ?i' ?sel ?vals ?c'] =>
          pose proof (IH i' sel vals c') as IH1;
          destruct (readTag8_4S16_v1_loop log fuel i' sel vals c')
      end; within_chain.
Qed.

Lemma readTag8_4S16_v1_within (log : flightLog) (c : cursor) :
  readWithin log c (snd (readTag8_4S16_v1 log c)).
Proof.
  unfold readTag8_4S16_v1. next_within.
  eapply readWithin_trans; [eassumption | apply readTag8_4S16_v1_loop_within].
Qed.

Lemma readTag8_4S16_v2_loop_within (log : flightLog) :
  forall (n : nat) (selector buffer nibbleIndex : Z) (c : cursor),
    readWithin log c (snd (readTag8_4S16_v2_loop log n selector buffer nibbleIndex c)).
Proof.
  induction n as [|n IH]; intros selector buffer nibbleIndex c;
    cbn [readTag8_4S16_v2_loop].
  - apply readWithin_refl.
  - destruct (Z.land selector 3) as [|[?|[?|?|]|]|?];
      try destruct (nibbleIndex =? 0); repeat next_within;
      match goal with
      | |- context [readTag8_4S16_v2_loop log n ?sel ?b ?ni ?c'] =>
          pose proof (IH sel b ni c') as IH1;
          destruct (readTag8_4S16_v2_loop log n sel b ni c')
      end; within_chain.
Qed.

Lemma readTag8_4S16_v2_within (log : flightLog) (c : cursor) :
  readWithin log c (snd (readTag8_4S16_v2 log c)).
Proof.
  unfold readTag8_4S16_v2. next_within.
  eapply readWithin_trans; [eassumption | apply readTag8_4S16_v2_loop_within].
Qed.

Lemma readTag8_8SVB_loop_within (log : flightLog) :
  forall (n : nat) (header : Z) (c : cursor),
    readWithin log c (snd (readTag8_8SVB_loop log n header c)).
Proof.
  induction n as [|n IH]; intros header c; cbn [readTag8_8SVB_loop].
  - apply readWithin_refl.
  - assert (Hv : readWithin log c (snd (if Z.land header 1 =? 0 then (0, c)
                                        else readSignedVB log c))).
    { destruct (_ =? 0); [apply readWithin_refl | apply readSignedVB_within]. }
    destruct (if Z.land header 1 =? 0 then (0, c) else readSignedVB log c)
      as [v c1]. cbn [snd] in Hv.
    pose proof (IH (Z.shiftr header 1) c1) as IH1.
    destruct (readTag8_8SVB_loop log n (Z.shiftr header 1) c1).
    within_chain.
Qed.

Lemma readTag8_8SVB_within (log : flightLog) (valueCount : Z) (c : cursor) :
  readWithin log c (snd (readTag8_8SVB log valueCount c)).
Proof.
  unfold readTag8_8SVB. destruct (valueCount =? 1).
  - pose proof (readSignedVB_within log c) as H.
    destruct (readSignedVB log c). exact H.
  - next_within.
    eapply readWithin_trans; [eassumption | apply readTag8_8SVB_loop_within].
Qed.

(** ** What parsing a frame writes *)

Lemma setRow_nth_same (rows : list (list Z)) (k : nat) (r : list Z) :
  (k < length rows)%nat -> nth k (setRow rows k r) [] = r.
Proof.
  revert k. induction rows as [|x rows IH]; intros [|k] Hk; cbn in *; try lia; auto.
  apply IH. lia.
Qed.

Lemma setRow_nth_other (rows : list (list Z)) (k k' : nat) (r : list Z) :
  k <> k' -> nth k' (setRow rows k r) [] = nth k' rows [].
Proof.
  revert k k'. induction rows as [|x rows IH]; intros [|k] [|k'] Hne; cbn;
    try reflexivity; try contradiction.
  apply IH. congruence.
Qed.

Lemma setRow_outside (rows : list (list Z)) (k : nat) (r : list Z) :
  (length rows <= k)%nat -> setRow rows k r = rows.
Proof.
  revert k. induction rows as [|x rows IH]; intros [|k] Hk; cbn in *; try lia; auto.
  f_equal. apply IH. lia.
Qed.

Lemma frameAt_setFrame_other (m : memory) (p q : framePtr) (r : list Z) :
  q <> p -> frameAt (setFrame m p r) q = frameAt m q.
Proof.
  intros Hne. destruct p as [k|k|], q as [k'|k'|]; cbn; try reflexivity;
    try (apply setRow_nth_other; congruence); contradiction.
Qed.

Lemma aset_nat_nth_other (a : list Z) (i j : nat) (v : Z) :
  i <> j -> nth j (aset_nat a i v) 0 = nth j a 0.
Proof.
  revert i j. induction a as [|x a IH]; intros [|i] [|j] Hne; cbn;
    try reflexivity; try contradiction.
  apply IH. congruence.
Qed.

Lemma aset_nat_nth_same (a : list Z) (i : nat) (v : Z) :
  (i < length a)%nat -> nth i (aset_nat a i v) 0 = v.
Proof.
  revert i. induction a as [|x a IH]; intros [|i] Hi; cbn in *; try lia; auto.
  apply IH. lia.
Qed.

Lemma aget_aset_other (a : list Z) (i j v : Z) :
  j <> i -> aget (aset a i v) j = aget a j.
Proof.
  intros Hne. unfold aget, aset.
  destruct (Z.ltb_spec j 0); [reflexivity|].
  destruct (Z.ltb_spec i 0); [reflexivity|].
  apply aset_nat_nth_other. lia.
Qed.

Lemma aget_aset_same (a : list Z) (i v : Z) :
  0 <= i < Z.of_nat (length a) -> aget (aset a i v) i = v.
Proof.
  intros Hi. unfold aget, aset.
  destruct (Z.ltb_spec i 0); [lia|].
  apply aset_nat_nth_same. lia.
Qed.

Lemma frameAt_setFrame_same (m : memory) (p : framePtr) (i v : Z) :
  frameAt (setFrame m p (aset (frameAt m p) i v)) p = aset (frameAt m p) i v.
Proof.
  destruct p as [k|k|]; cbn [setFrame frameAt blackboxHistoryRing
    gpsHomeHistory lastGPS]; try reflexivity.
  - destruct (Nat.lt_ge_cases k (length (blackboxHistoryRing m))) as [H|H].
    + now apply setRow_nth_same.
    + rewrite setRow_outside by assumption.
      rewrite (nth_overflow _ _ H). unfold aset. now destruct (i <? 0), (Z.to_nat i).
  - destruct (Nat.lt_ge_cases k (length (gpsHomeHistory m))) as [H|H].
    + now apply setRow_nth_same.
    + rewrite setRow_outside by assumption.
      rewrite (nth_overflow _ _ H). unfold aset. now destruct (i <? 0), (Z.to_nat i).
Qed.

Lemma wroteFrom_refl (frame : framePtr) (i : Z) (m : memory) : wroteFrom frame i m m.
Proof. unfold wroteFrom. repeat split; auto. Qed.

Lemma wroteFrom_trans (frame : framePtr) (i i' : Z) (m1 m2 m3 : memory) :
  i <= i' -> wroteFrom frame i m1 m2 -> wroteFrom frame i' m2 m3 ->
  wroteFrom frame i m1 m3.
Proof.
  unfold wroteFrom. intros Hle (A1 & A2 & A3) (B1 & B2 & B3). repeat split.
  - intros q Hq. rewrite B1, A1; auto.
  - intros j Hj. rewrite B2, A2; auto. lia.
  - congruence.
Qed.

Lemma frameAt_store_same (m m' : memory) (p : framePtr) (i v : Z) :
  store m p i v = Ok m' -> frameAt m' p = aset (frameAt m p) i v.
Proof.
  intros H. destruct (store_result m p i v) as [[Hst _]|Hst]; rewrite Hst in H;
    [|discriminate].
  inversion H. apply frameAt_setFrame_same.
Qed.

Lemma wroteFrom_store (frame : framePtr) (i v : Z) (m m' : memory) :
  store m frame i v = Ok m' -> wroteFrom frame i m m'.
Proof.
  intros H. pose proof (frameAt_store_same _ _ _ _ _ H) as Hsame.
  unfold wroteFrom. repeat split.
  - intros q Hq. destruct (store_result m frame i v) as [[Hst _]|Hst];
      rewrite Hst in H; [|discriminate].
    inversion H. now apply frameAt_setFrame_other.
  - intros j Hj. rewrite Hsame. apply aget_aset_other. lia.
  - rewrite Hsame. apply aset_length.
Qed.

Lemma applyGroup_effect (h : Headers) (log : flightLog) (raw : bool)
  (predictors : list Z) (frame : framePtr) (previous previous2 : option framePtr) :
  forall (values : list Z) (i : Z) (m : memory) (i' : Z) (m' : memory),
    applyGroup h log raw predictors values i frame previous previous2 m = Ok (i', m') ->
    wroteFrom frame i m m'.
Proof.
  induction values as [|v values IH]; intros i m i' m'; cbn [applyGroup].
  - intros H. inversion H. apply wroteFrom_refl.
  - destruct (applyPrediction h log m i _ v frame previous previous2) as [r| | | |];
      cbn [bind]; try discriminate.
    destruct (store m frame i r) as [m1| | | |] eqn:Hst; cbn [bind]; try discriminate.
    intros H. apply IH in H.
    eapply wroteFrom_trans; [|exact (wroteFrom_store _ _ _ _ _ Hst)|exact H]. lia.
Qed.

(** [parseFrame]: where the cursor goes and what is written, from any turn
    of the loop. *)
Lemma parseFrame_loop_effect (h : Headers) (log : flightLog) (frameType : Z)
  (frame : framePtr) (previous previous2 : option framePtr)
  (fieldCount skippedFrames : Z) (raw : bool) :
  forall (fuel : nat) (i : Z) (c : cursor) (m : memory) (c' : cursor) (m' : memory),
    parseFrame_loop h log fuel frameType frame previous previous2 fieldCount
      skippedFrames raw i c m = Ok (c', m') ->
    readWithin log c c' /\ wroteFrom frame i m m'.
Proof.
  induction fuel as [|fuel IH]; intros i c m c' m'; cbn [parseFrame_loop].
  - destruct (i <? fieldCount); [discriminate|].
    intros H. inversion H. split; [apply readWithin_refl | apply wroteFrom_refl].
  - destruct (i <? fieldCount).
    2:{ intros H. inversion H. split; [apply readWithin_refl | apply wroteFrom_refl]. }
    cbv zeta.
    assert (Hsingle : forall value c1,
              readWithin log c c1 ->
              (let* v := applyPrediction h log m i
                           (if raw then FLIGHT_LOG_FIELD_PREDICTOR_0 h
                            else aget (predictor (frameDefs log frameType)) i)
                           value frame previous previous2 in
               let* m1 := store m frame i v in
               parseFrame_loop h log fuel frameType frame previous previous2
                 fieldCount skippedFrames raw (i + 1) c1 m1)
              = Ok (c', m') ->
              readWithin log c c' /\ wroteFrom frame i m m').
    { intros value c1 Hin.
      destruct (applyPrediction h log m i _ value frame previous previous2)
        as [r| | | |]; cbn [bind]; try discriminate.
      destruct (store m frame i r) as [m1| | | |] eqn:Hst; cbn [bind];
        try discriminate.
      intros H. apply IH in H. destruct H as [H1 H2]. split.
      - eapply readWithin_trans; eassumption.
      - eapply wroteFrom_trans; [|exact (wroteFrom_store _ _ _ _ _ Hst)|exact H2].
        lia. }
    assert (Hgroup : forall values c1,
              readWithin log c c1 ->
              (let* (i', m1) := applyGroup h log raw
                                  (predictor (frameDefs log frameType)) values i
                                  frame previous previous2 m in
               parseFrame_loop h log fuel frameType frame previous previous2
                 fieldCount skippedFrames raw i' c1 m1)
              = Ok (c', m') ->
              readWithin log c c' /\ wroteFrom frame i m m').
    { intros values c1 Hin.
      destruct (applyGroup_index h log raw (predictor (frameDefs log frameType))
                  frame previous previous2 values i m) as [_ Hidx].
      destruct (applyGroup h log raw _ values i frame previous previous2 m)
        as [[i1 m1]| | | |] eqn:Hg; cbn [bind]; try discriminate.
      specialize (Hidx i1 m1 eq_refl). apply applyGroup_effect in Hg.
      intros H. apply IH in H. destruct H as [H1 H2]. split.
      - eapply readWithin_trans; eassumption.
      - eapply wroteFrom_trans; [|exact Hg|exact H2]. lia. }
    destruct (_ =? FLIGHT_LOG_FIELD_PREDICTOR_INC h).
    { destruct (store m frame i (to_int32 (skippedFrames + 1))) as [m1| | | |] eqn:Hst1;
        cbn [bind]; try discriminate.
      assert (Hm2 : forall m2,
                match previous with
                | Some p => store m1 frame i (to_int32 (load m1 frame i + load m1 p i))
                | None => Ok m1
                end = Ok m2 -> wroteFrom frame i m m2).
      { intros m2 Hst2. destruct previous as [p|].
        - eapply wroteFrom_trans;
            [|exact (wroteFrom_store _ _ _ _ _ Hst1)
             |exact (wroteFrom_store _ _ _ _ _ Hst2)]. lia.
        - inversion Hst2. subst m2. exact (wroteFrom_store _ _ _ _ _ Hst1). }
      destruct (match previous with Some _ => _ | None => _ end) as [m2| | | |];
        cbn [bind]; try discriminate.
      intros H. apply IH in H. destruct H as [H1 H2]. split; [exact H1|].
      eapply wroteFrom_trans; [|exact (Hm2 m2 eq_refl)|exact H2]. lia. }
    destruct (_ =? FLIGHT_LOG_FIELD_ENCODING_SIGNED_VB h).
    { pose proof (readSignedVB_within log c) as Hr.
      destruct (readSignedVB log c) as [v c1]. now apply Hsingle. }
    destruct (_ =? FLIGHT_LOG_FIELD_ENCODING_UNSIGNED_VB h).
    { pose proof (readUnsignedVB_within log c) as Hr.
      destruct (readUnsignedVB log c) as [v c1]. now apply Hsingle. }
    destruct (_ =? FLIGHT_LOG_FIELD_ENCODING_NEG_14BIT h).
    { pose proof (readUnsignedVB_within log c) as Hr.
      destruct (readUnsignedVB log c) as [v c1]. now apply Hsingle. }
    destruct (_ =? FLIGHT_LOG_FIELD_ENCODING_TAG8_4S16 h).
    { assert (Hr : readWithin log c (snd (if dataVersion log <? 2
                                          then readTag8_4S16_v1 log c
                                          else readTag8_4S16_v2 log c))).
      { destruct (dataVersion log <? 2);
          [apply readTag8_4S16_v1_within | apply readTag8_4S16_v2_within]. }
      destruct (if dataVersion log <? 2 then readTag8_4S16_v1 log c
                else readTag8_4S16_v2 log c) as [values c1].
      now apply Hgroup. }
    destruct (_ =? FLIGHT_LOG_FIELD_ENCODING_TAG2_3S32 h).
    { pose proof (readTag2_3S32_within log c) as Hr.
      destruct (readTag2_3S32 log c) as [values c1]. now apply Hgroup. }
    destruct (_ =? FLIGHT_LOG_FIELD_ENCODING_TAG8_8SVB h).
    { pose proof (readTag8_8SVB_within log
                    (groupEnd h log (encoding (frameDefs log frameType)) 8 i (i + 1) - i)
                    c) as Hr.
      destruct (readTag8_8SVB log _ c) as [values c1]. now apply Hgroup. }
    destruct (_ =? FLIGHT_LOG_FIELD_ENCODING_NULL h).
    { apply Hsingle. apply readWithin_refl. }
    discriminate.
Qed.

Lemma parseFrame_effect (h : Headers) (log : flightLog) (frameType : Z)
  (frame : framePtr) (previous previous2 : option framePtr)
  (fieldCount skippedFrames : Z) (raw : bool) (c : cursor) (m : memory)
  (c' : cursor) (m' : memory) :
  parseFrame h log frameType frame previous previous2 fieldCount skippedFrames
    raw c m = Ok (c', m') ->
  readWithin log c c' /\ wroteFrom frame 0 m m'.
Proof. apply parseFrame_loop_effect. Qed.

Lemma parseEventFrame_within (h : Headers) (log : flightLog) (s : parser) :
  readWithin log (cur s) (cur (parseEventFrame h log s))
  /\ mem (parseEventFrame h log s) = mem s.
Proof.
  unfold parseEventFrame.
  next_within.
  destruct (_ =? FLIGHT_LOG_EVENT_SYNC_BEEP h).
  { match goal with
    | |- context [readUnsignedVB log ?c] =>
        pose proof (readUnsignedVB_within log c) as Hvb;
        destruct (readUnsignedVB log c)
    end.
    split; [|reflexivity]. cbn [cur set_lastEvent set_cur fst snd] in *. within_chain. }
  destruct (_ =? FLIGHT_LOG_EVENT_AUTOTUNE_CYCLE_START h).
  { repeat next_within.
    split; [|reflexivity]. cbn [cur set_lastEvent set_cur fst snd] in *. within_chain. }
  destruct (_ =? FLIGHT_LOG_EVENT_AUTOTUNE_CYCLE_RESULT h).
  { repeat next_within.
    split; [|reflexivity]. cbn [cur set_lastEvent set_cur fst snd] in *. within_chain. }
  split; [|reflexivity]. cbn [cur set_lastEvent set_cur fst snd] in *. within_chain.
Qed.

(** What the [parse] member of any frame type does to the cursor and to the
    frame buffers. *)
Lemma parse_effect (t : flightLogFrameType_t) (h : Headers) (log : flightLog)
  (fuel : nat) (raw : bool) (s s' : parser) :
  parse t h log fuel raw s = Ok s' ->
  readWithin log (cur s) (cur s')
  /\ match parseTarget t s with
     | Some frame => wroteFrom frame 0 (mem s) (mem s')
     | None => mem s' = mem s
     end.
Proof.
  destruct t; cbn [parse parseTarget].
  - unfold parseIntraframe.
    destruct (mainHistory1 s) as [p|].
    + destruct (countSkippedFrames h log fuel to_int32 _ 0) as [n| | | |];
        cbn [bind]; try discriminate.
      destruct (parseFrame h log _ _ _ _ _ _ _ _ _) as [[c' m']| | | |] eqn:Hp;
        cbn [bind]; try discriminate.
      intros H. inversion H. apply parseFrame_effect in Hp. exact Hp.
    + cbn [bind].
      destruct (parseFrame h log _ _ _ _ _ _ _ _ _) as [[c' m']| | | |] eqn:Hp;
        cbn [bind]; try discriminate.
      intros H. inversion H. apply parseFrame_effect in Hp. exact Hp.
  - unfold parseInterframe.
    destruct (match mainHistory1 s with Some _ => _ | None => _ end) as [n| | | |];
      cbn [bind]; try discriminate.
    destruct (parseFrame h log _ _ _ _ _ _ _ _ _) as [[c' m']| | | |] eqn:Hp;
      cbn [bind]; try discriminate.
    intros H. inversion H. apply parseFrame_effect in Hp. exact Hp.
  - unfold parseGPSFrame.
    destruct (parseFrame h log _ _ _ _ _ _ _ _ _) as [[c' m']| | | |] eqn:Hp;
      cbn [bind]; try discriminate.
    intros H. inversion H. apply parseFrame_effect in Hp. exact Hp.
  - unfold parseGPSHomeFrame.
    destruct (parseFrame h log _ _ _ _ _ _ _ _ _) as [[c' m']| | | |] eqn:Hp;
      cbn [bind]; try discriminate.
    intros H. inversion H. apply parseFrame_effect in Hp. exact Hp.
  - intros H. inversion H. apply parseEventFrame_within.
Qed.

(** Decoding a frame of any type reads forwards and never past the end of
    the log: started at or before [logEnd], the cursor ends between where it
    started and [logEnd], whatever the bytes are and however the frame is
    cut short. *)
Theorem parse_inside_log (t : flightLogFrameType_t) (h : Headers) (log : flightLog)
  (fuel : nat) (raw : bool) (s s' : parser) :
  parse t h log fuel raw s = Ok s' ->
  logPos (cur s) <= logEnd log ->
  logPos (cur s) <= logPos (cur s') <= logEnd log.
Proof.
  intros H Hin. apply parse_effect in H. destruct H as [(H1 & H2 & _) _].
  split; [exact H1 | exact (H2 Hin)].
Qed.

Lemma parse_inside_log_witness :
  let h := blackboxHeaders true in
  let log := mainLog h [73; 0; 200] 1 1 in
  let s := set_cur entry {| logPos := 1; eof := false |} in
  exists s', parse IntraFrame h log 64 false s = Ok s'
             /\ 1 <= logPos (cur s') <= 3.
Proof.
  cbv zeta. eexists. split; [vm_compute; reflexivity|].
  apply (parse_inside_log IntraFrame (blackboxHeaders true)
           (mainLog (blackboxHeaders true) [73; 0; 200] 1 1) 64 false
           (set_cur entry {| logPos := 1; eof := false |}));
    [vm_compute; reflexivity | vm_compute; discriminate].
Defined.

Lemma countSkippedFrames_in_bounds (h : Headers) (log : flightLog) (wrap : Z -> Z) :
  forall (fuel : nat) (frameIndex skippedFrames : Z),
    countSkippedFrames h log fuel wrap frameIndex skippedFrames <> OutOfBounds.
Proof.
  induction fuel as [|fuel IH]; intros frameIndex skippedFrames;
    cbn [countSkippedFrames]; [discriminate|].
  unfold shouldHaveFrame, intervalRem. cbv zeta.
  repeat match goal with
         | |- context [if ?b then _ else _] => destruct b; cbn [bind]
         end; try discriminate; apply IH.
Qed.

Lemma store_in_bounds (m : memory) (p : framePtr) (i v : Z) :
  0 <= i < Z.of_nat (length (frameAt m p)) ->
  store m p i v = Ok (setFrame m p (aset (frameAt m p) i v)).
Proof.
  intros H. destruct (store_result m p i v) as [[Hst _]|Hst]; [exact Hst|].
  unfold store in Hst.
  destruct (Z.leb_spec 0 i); [|lia].
  destruct (Z.ltb_spec i (Z.of_nat (length (frameAt m p)))); [|lia].
  discriminate.
Qed.

Lemma store_length (m m' : memory) (p : framePtr) (i v : Z) :
  store m p i v = Ok m' -> length (frameAt m' p) = length (frameAt m p).
Proof. intros H. now destruct (wroteFrom_store _ _ _ _ _ H) as (_ & _ & Hl). Qed.

Lemma bind_in_bounds {A B : Type} (r : result A) (f : A -> result B) :
  r <> OutOfBounds -> (forall a, r = Ok a -> f a <> OutOfBounds) ->
  bind r f <> OutOfBounds.
Proof. intros Hr Hf. destruct r; cbn [bind]; auto; discriminate. Qed.

Lemma applyPrediction_in_bounds (h : Headers) (log : flightLog) (m : memory)
  (fieldIndex predictor value : Z) (current : framePtr)
  (previous previous2 : option framePtr) :
  applyPrediction h log m fieldIndex predictor value current previous previous2
  <> OutOfBounds.
Proof.
  unfold applyPrediction.
  repeat match goal with
         | |- context [if ?b then _ else _] => destruct b
         | |- context [match ?o with Some _ => _ | None => _ end] => destruct o
         end; cbn [bind]; discriminate.
Qed.

Section FrameInBounds.

Variables (h : Headers) (log : flightLog) (frameType : Z) (frame : framePtr).
Variables (previous previous2 : option framePtr) (raw : bool).

Lemma applyGroup_in_bounds :
  forall (values : list Z) (i : Z) (m : memory),
    0 <= i ->
    i + Z.of_nat (length values) <= Z.of_nat (length (frameAt m frame)) ->
    applyGroup h log raw (predictor (frameDefs log frameType)) values i frame
      previous previous2 m <> OutOfBounds.
Proof.
  induction values as [|v values IH]; intros i m Hi Hroom; cbn [applyGroup];
    [discriminate|].
  cbn [length] in Hroom.
  apply bind_in_bounds; [apply applyPrediction_in_bounds|]. intros a _.
  rewrite store_in_bounds by lia. cbn [bind].
  apply IH; [lia|]. rewrite frameAt_setFrame_same, aset_length. lia.
Qed.

Lemma parseFrame_loop_in_bounds (fieldCount skippedFrames : Z) :
  forall (fuel : nat) (i : Z) (c : cursor) (m : memory),
    0 <= i -> roomFor m frame fieldCount ->
    parseFrame_loop h log fuel frameType frame previous previous2 fieldCount
      skippedFrames raw i c m <> OutOfBounds.
Proof.
  unfold roomFor.
  induction fuel as [|fuel IH]; intros i c m Hi Hroom; cbn [parseFrame_loop].
  - destruct (i <? fieldCount); discriminate.
  - destruct (Z.ltb_spec i fieldCount) as [Hlt|Hge]; [|discriminate]. cbv zeta.
    assert (Hnext : forall m1 c1 v,
              store m frame i v = Ok m1 ->
              parseFrame_loop h log fuel frameType frame previous previous2
                fieldCount skippedFrames raw (i + 1) c1 m1 <> OutOfBounds).
    { intros m1 c1 v Hst. apply IH; [lia|].
      rewrite (store_length _ _ _ _ _ Hst). exact Hroom. }
    assert (Hstore : forall m0 v,
              length (frameAt m0 frame) = length (frameAt m frame) ->
              store m0 frame i v <> OutOfBounds).
    { intros m0 v Hl. rewrite store_in_bounds by lia. discriminate. }
    assert (Hsingle : forall value c1,
              (let* v := applyPrediction h log m i
                           (if raw then FLIGHT_LOG_FIELD_PREDICTOR_0 h
                            else aget (predictor (frameDefs log frameType)) i)
                           value frame previous previous2 in
               let* m1 := store m frame i v in
               parseFrame_loop h log fuel frameType frame previous previous2
                 fieldCount skippedFrames raw (i + 1) c1 m1)
              <> OutOfBounds).
    { intros value c1.
      apply bind_in_bounds; [apply applyPrediction_in_bounds|]. intros a _.
      apply bind_in_bounds; [now apply Hstore|]. intros m1 Hst.
      exact (Hnext m1 c1 a Hst). }
    assert (Hgroup : forall values c1,
              (length values <= 8)%nat ->
              (let* (i', m1) := applyGroup h log raw
                                  (predictor (frameDefs log frameType)) values i
                                  frame previous previous2 m in
               parseFrame_loop h log fuel frameType frame previous previous2
                 fieldCount skippedFrames raw i' c1 m1)
              <> OutOfBounds).
    { intros values c1 Hlen.
      apply bind_in_bounds; [apply applyGroup_in_bounds; lia|].
      intros [i1 m1] Hg.
      destruct (applyGroup_index h log raw (predictor (frameDefs log frameType))
                  frame previous previous2 values i m) as [_ Hidx].
      specialize (Hidx i1 m1 Hg). apply applyGroup_effect in Hg.
      destruct Hg as (_ & _ & Hl).
      apply IH; [lia|]. rewrite Hl. exact Hroom. }
    destruct (_ =? FLIGHT_LOG_FIELD_PREDICTOR_INC h).
    { apply bind_in_bounds; [now apply Hstore|]. intros m1 Hst1.
      apply bind_in_bounds.
      - destruct previous; [|discriminate].
        apply Hstore. exact (store_length _ _ _ _ _ Hst1).
      - intros m2 Hst2. apply IH; [lia|].
        destruct previous as [p|].
        + rewrite (store_length _ _ _ _ _ Hst2), (store_length _ _ _ _ _ Hst1).
          exact Hroom.
        + inversion Hst2. subst m2. rewrite (store_length _ _ _ _ _ Hst1).
          exact Hroom. }
    destruct (_ =? FLIGHT_LOG_FIELD_ENCODING_SIGNED_VB h).
    { destruct (readSignedVB log c). apply Hsingle. }
    destruct (_ =? FLIGHT_LOG_FIELD_ENCODING_UNSIGNED_VB h).
    { destruct (readUnsignedVB log c). apply Hsingle. }
    destruct (_ =? FLIGHT_LOG_FIELD_ENCODING_NEG_14BIT h).
    { destruct (readUnsignedVB log c). apply Hsingle. }
    destruct (_ =? FLIGHT_LOG_FIELD_ENCODING_TAG8_4S16 h).
    { destruct (if dataVersion log <? 2 then _ else _) as [values c1].
      apply Hgroup. rewrite length_firstn. lia. }
    destruct (_ =? FLIGHT_LOG_FIELD_ENCODING_TAG2_3S32 h).
    { destruct (readTag2_3S32 log c) as [values c1].
      apply Hgroup. rewrite length_firstn. lia. }
    destruct (_ =? FLIGHT_LOG_FIELD_ENCODING_TAG8_8SVB h).
    { pose proof (proj2 (readTag8_8SVB_advanced log
                           (groupEnd h log (encoding (frameDefs log frameType)) 8 i
                              (i + 1) - i) c)) as Hl.
      destruct (readTag8_8SVB log _ c) as [values c1]. cbn [fst] in Hl.
      apply Hgroup. rewrite length_firstn, Hl.
      destruct (_ =? 1); lia. }
    destruct (_ =? FLIGHT_LOG_FIELD_ENCODING_NULL h); [apply Hsingle|].
    discriminate.
Qed.

End FrameInBounds.

(** Decoding a frame writes into one buffer only, the one of its type.  A
    store that [parseFrame] makes outside the buffer, into the row or the
    member next to it, is undefined behaviour; when the parse returns, no
    such store was made: the other rows of the history ring (the previous
    frames that predictions read), the published home position, the GPS
    buffer of another type all hold what they held, and the buffer written
    has the length it had.  And no such store is made, whatever the bytes
    of the frame are, when the buffer has seven entries more than the frame
    has fields. *)
Theorem parse_writes_only_target (t : flightLogFrameType_t) (h : Headers)
  (log : flightLog) (fuel : nat) (raw : bool) (s : parser) :
  (forall s' q,
     parse t h log fuel raw s = Ok s' ->
     (parseTarget t s <> Some q -> frameAt (mem s') q = frameAt (mem s) q)
     /\ length (frameAt (mem s') q) = length (frameAt (mem s) q))
  /\ ((forall frame, parseTarget t s = Some frame ->
                     roomFor (mem s) frame (parseFieldCount t log)) ->
      parse t h log fuel raw s <> OutOfBounds).
Proof.
  split.
  - intros s' q H. apply parse_effect in H. destruct H as [_ H].
    destruct (parseTarget t s) as [frame|].
    + destruct H as (Hother & _ & Hlen). split.
      * intros Hq. apply Hother. congruence.
      * destruct q as [k|k|], frame as [k'|k'|];
          try (rewrite Hother by discriminate; reflexivity);
          try exact Hlen.
        -- destruct (Nat.eq_dec k k') as [->|Hk]; [exact Hlen|].
           rewrite Hother by congruence. reflexivity.
        -- destruct (Nat.eq_dec k k') as [->|Hk]; [exact Hlen|].
           rewrite Hother by congruence. reflexivity.
    + rewrite H. split; reflexivity.
  - intros Hroom. destruct t; cbn [parse parseTarget parseFieldCount] in *.
    + specialize (Hroom _ eq_refl). unfold parseIntraframe. cbv zeta.
      apply bind_in_bounds.
      * destruct (mainHistory1 s); [|discriminate].
        apply bind_in_bounds; [apply countSkippedFrames_in_bounds | discriminate].
      * intros [n s1] Hs1. apply bind_in_bounds; [|discriminate].
        apply parseFrame_loop_in_bounds; [lia|].
        assert (Hmem : mem s1 = mem s).
        { destruct (mainHistory1 s); [|now inversion Hs1].
          destruct (countSkippedFrames h log fuel to_int32 _ 0); cbn [bind] in Hs1;
            try discriminate.
          now inversion Hs1. }
        rewrite Hmem. exact Hroom.
    + specialize (Hroom _ eq_refl). unfold parseInterframe. cbv zeta.
      apply bind_in_bounds.
      * destruct (mainHistory1 s); [|discriminate].
        apply countSkippedFrames_in_bounds.
      * intros n _. apply bind_in_bounds; [|discriminate].
        apply parseFrame_loop_in_bounds; [lia | exact Hroom].
    + specialize (Hroom _ eq_refl). unfold parseGPSFrame.
      apply bind_in_bounds; [|discriminate].
      apply parseFrame_loop_in_bounds; [lia | exact Hroom].
    + specialize (Hroom _ eq_refl). unfold parseGPSHomeFrame.
      apply bind_in_bounds; [|discriminate].
      apply parseFrame_loop_in_bounds; [lia | exact Hroom].
    + discriminate.
Qed.

Lemma parse_writes_only_target_witness :
  let h := blackboxHeaders true in
  let log := groupLog h 121 [73; 21] in
  let s := set_cur entry {| logPos := 1; eof := false |} in
  (exists s', parse IntraFrame h log 64 false s = Ok s'
              /\ frameAt (mem s') (RingRow 1) = frameAt (mem s) (RingRow 1)
              /\ length (frameAt (mem s') (RingRow 0)) = 128%nat)
  /\ parse IntraFrame h log 64 false s <> OutOfBounds.
Proof.
  cbv zeta.
  destruct (parse_writes_only_target IntraFrame (blackboxHeaders true)
              (groupLog (blackboxHeaders true) 121 [73; 21]) 64 false
              (set_cur entry {| logPos := 1; eof := false |})) as [Honly Hroom].
  split.
  - destruct (parse IntraFrame (blackboxHeaders true)
                (groupLog (blackboxHeaders true) 121 [73; 21]) 64 false
                (set_cur entry {| logPos := 1; eof := false |}))
      as [s'| | | |] eqn:Hparse; try (vm_compute in Hparse; discriminate).
    exists s'. split; [reflexivity|].
    split.
    + apply (proj1 (Honly s' (RingRow 1) eq_refl)). vm_compute. discriminate.
    + rewrite (proj2 (Honly s' (RingRow 0) eq_refl)). vm_compute. reflexivity.
  - apply Hroom. intros frame Hframe. inversion Hframe.
    unfold roomFor. vm_compute. discriminate.
Defined.

(** The store that the theorem excludes.  The frame buffers of the example
    state have 128 entries.  A keyframe of 128 fields whose last field
    begins a group of three is stored at the indices 127, 128 and 129, the
    last two outside the buffer; with 126 fields the group ends with the
    buffer. *)
Lemma parse_group_past_buffer :
  let h := blackboxHeaders true in
  let s := set_cur entry {| logPos := 1; eof := false |} in
  length (frameAt (mem s) (mainHistory0 s)) = 128%nat
  /\ parse IntraFrame h (groupLog h 128 [73; 21]) 64 false s = OutOfBounds
  /\ exists s', parse IntraFrame h (groupLog h 126 [73; 21]) 64 false s = Ok s'
                /\ skipn 125 (frameAt (mem s') (RingRow 0)) = [1; 1; 1].
Proof.
  cbv zeta. split; [reflexivity|]. split; [vm_compute; reflexivity|].
  eexists. split; vm_compute; reflexivity.
Qed.

(** ** The frames reported to the caller *)

Lemma complete_calls (t : flightLogFrameType_t) (log : flightLog)
  (frameType frameStart0 frameEnd : Z) (raw : bool) (s : parser) :
  exists l,
    calls (complete t log frameType frameStart0 frameEnd raw s) = calls s ++ l
    /\ (l = []
        \/ (exists valid fields n,
              l = [FrameReady valid fields frameType n frameStart0
                     (frameEnd - frameStart0)])
        \/ (exists e, l = [EventReady e])).
Proof.
  assert (Hring : forall (b : bool) (s2 : parser) (p0 : framePtr)
                         (p1 p2 : option framePtr),
             calls (if b then set_mainHistory s2 p0 p1 p2 else s2) = calls s2)
    by (intros [] ? ? ? ?; reflexivity).
  destruct t; cbn [complete].
  - unfold completeIntraframe. cbv zeta.
    set (s1 := if _ || _ then _ else _).
    assert (H1 : calls s1 = calls s) by (subst s1; destruct (_ || _); reflexivity).
    rewrite Hring. unfold mainFrameReady.
    destruct (onFrameReady log); cbn [calls call]; rewrite H1.
    + eexists. split; [reflexivity|]. eauto 6.
    + exists []. rewrite app_nil_r. auto.
  - unfold completeInterframe. cbv zeta.
    set (s1 := if mainStreamIsValid s then _ else _).
    assert (H1 : calls s1 = calls s)
      by (subst s1; destruct (mainStreamIsValid s); reflexivity).
    rewrite Hring. unfold mainFrameReady.
    destruct (onFrameReady log); cbn [calls call]; rewrite H1.
    + eexists. split; [reflexivity|]. eauto 6.
    + exists []. rewrite app_nil_r. auto.
  - unfold completeGPSFrame.
    destruct (onFrameReady log); [eexists [_] | exists []];
      (split; [cbn [calls call]; rewrite ?app_nil_r; reflexivity|]); eauto 6.
  - unfold completeGPSHomeFrame. cbv zeta.
    destruct (onFrameReady log); [eexists [_] | exists []];
      (split; [cbn [calls call set_gpsHomeIsValid set_mem];
               rewrite ?app_nil_r; reflexivity|]); eauto 6.
  - unfold completeEventFrame.
    destruct (onEvent log); [eexists [_] | exists []];
      (split; [cbn [calls call]; rewrite ?app_nil_r; reflexivity|]); eauto 6.
Qed.

Lemma beginFrame_frame (h : Headers) (log : flightLog) (fuel : nat) (raw : bool)
  (command : Z) (s : parser) :
  logPos (cur s) <= logEnd log ->
  calls (stateOf (beginFrame h log fuel raw command s)) = calls s
  /\ logPos (cur s) <= logPos (cur (stateOf (beginFrame h log fuel raw command s)))
     <= logEnd log
  /\ (command = EOF -> beginFrame h log fuel raw command s = Done (finish log s))
  /\ (command <> EOF ->
      frameStart (stateOf (beginFrame h log fuel raw command s)) = logPos (cur s)
      /\ forall s', beginFrame h log fuel raw command s <> Done s').
Proof.
  intros Hin. split; [apply beginFrame_calls|].
  unfold beginFrame. destruct (Z.eqb_spec command EOF) as [He|He].
  { cbn [stateOf finish cur set_stats]. repeat split; try lia; try contradiction. }
  split; [|split; [contradiction|intros _]].
  - destruct (getFrameType (to_uint8 command)) as [t|].
    + destruct (parse t h log fuel raw _) as [s2| | | |] eqn:E;
        cbn [stateOf cur set_locals]; try lia.
      apply parse_effect in E. destruct E as [(H1 & H2 & _) _].
      cbn [cur set_locals] in H1, H2. lia.
    + cbn [stateOf cur set_locals set_mainStreamIsValid]. lia.
  - destruct (getFrameType (to_uint8 command)) as [t|].
    + destruct (parse t h log fuel raw _) as [s2| | | |] eqn:E;
        cbn [stateOf frameStart set_locals]; try (split; [reflexivity|discriminate]).
      apply parse_sameControl in E.
      destruct E as (_ & _ & _ & _ & _ & _ & Hf & _).
      split; [exact Hf | discriminate].
    + cbn [stateOf frameStart set_locals set_mainStreamIsValid].
      split; [reflexivity | discriminate].
Qed.

Lemma frameOffsets_app (l1 l2 : list callback) :
  frameOffsets (l1 ++ l2) = frameOffsets l1 ++ frameOffsets l2.
Proof. apply flat_map_app. Qed.

Lemma increasing_app_last (l : list Z) (x : Z) :
  increasing l = true -> (forall y, In y l -> y < x) ->
  increasing (l ++ [x]) = true.
Proof.
  induction l as [|a l IH]; intros Hl Hlt; [reflexivity|].
  destruct l as [|b l].
  - cbn. rewrite andb_true_r. apply Z.ltb_lt. apply Hlt. now left.
  - cbn [increasing app] in *. apply andb_true_iff in Hl. destruct Hl as [Hab Hl].
    rewrite Hab. cbn [andb]. apply IH; [exact Hl|].
    intros y Hy. apply Hlt. now right.
Qed.

Lemma beginFrame_trace (h : Headers) (log : flightLog) (fuel : nat) (raw : bool)
  (lo command : Z) (s : parser) (new : list callback) :
  lo <= logPos (cur s) <= logEnd log ->
  (command = EOF -> logPos (cur s) = logEnd log /\ eof (cur s) = true) ->
  (command <> EOF ->
   forall off, In off (frameOffsets new) -> off < logPos (cur s)) ->
  increasing (frameOffsets new) = true ->
  forallb (reportsInside log lo) new = true ->
  traceResult log lo (beginFrame h log fuel raw command s) new.
Proof.
  intros Hpos Heof Hoff Hinc Hin.
  destruct (beginFrame_frame h log fuel raw command s (proj2 Hpos))
    as (_ & Hcur & Hdone & Hcont).
  repeat split; try assumption.
  - destruct (Z.eq_dec command EOF) as [He|He].
    + rewrite (Hdone He) in H. discriminate.
    + destruct (Hcont He) as [Hf _]. rewrite H in Hf. cbn [stateOf] in Hf. lia.
  - destruct (Z.eq_dec command EOF) as [He|He].
    + rewrite (Hdone He) in H. discriminate.
    + destruct (Hcont He) as [Hf _]. rewrite H in Hf, Hcur. cbn [stateOf] in Hf, Hcur.
      lia.
  - rewrite H in Hcur. cbn [stateOf] in Hcur. lia.
  - destruct (Z.eq_dec command EOF) as [He|He].
    + rewrite (Hdone He) in H. discriminate.
    + destruct (Hcont He) as [Hf _]. rewrite H in Hf. cbn [stateOf] in Hf.
      specialize (Hoff He off H0). lia.
  - destruct (Z.eq_dec command EOF) as [He|He].
    + rewrite (Hdone He) in H. discriminate.
    + destruct (Hcont He) as [Hf _]. rewrite H in Hf. cbn [stateOf] in Hf.
      specialize (Hoff He off H0). lia.
  - destruct (Z.eq_dec command EOF) as [He|He].
    + rewrite (Hdone He) in H. inversion H. cbn [finish cur set_stats].
      apply (Heof He).
    + destruct (Hcont He) as [_ Hn]. exfalso. exact (Hn _ H).
  - destruct (Z.eq_dec command EOF) as [He|He].
    + rewrite (Hdone He) in H. inversion H. cbn [finish cur set_stats].
      apply (Heof He).
    + destruct (Hcont He) as [_ Hn]. exfalso. exact (Hn _ H).
  - destruct (Z.eq_dec command EOF) as [He|He].
    + rewrite (Hdone He) in H. inversion H. reflexivity.
    + destruct (Hcont He) as [_ Hn]. exfalso. exact (Hn _ H).
Qed.

Lemma forallb_app_last {A : Type} (f : A -> bool) (l : list A) (x : A) :
  forallb f l = true -> f x = true -> forallb f (l ++ [x]) = true.
Proof.
  intros Hl Hx. rewrite forallb_app, Hl. cbn. now rewrite Hx.
Qed.

(** One pass through the loop keeps the invariant of the reported frames. *)
Lemma dataIteration_trace (h : Headers) (log : flightLog) (fuel : nat) (raw : bool)
  (lo : Z) (base : list callback) (s : parser) (new : list callback) :
  calls s = base ++ new ->
  traceInvariant log lo s new ->
  exists new',
    calls (stateOf (dataIteration h log fuel raw s)) = base ++ new'
    /\ traceResult log lo (dataIteration h log fuel raw s) new'.
Proof.
  intros Hcalls (Hlo & Hpos & Hinc & Hoff & Hin).
  unfold dataIteration.
  assert (Hread : exists command c1,
             readChar log (cur s) = (command, c1)
             /\ logPos (cur s) <= logPos c1 <= logEnd log
             /\ (command = EOF -> logPos c1 = logEnd log /\ eof c1 = true)
             /\ (command <> EOF -> logPos (cur s) < logPos c1)).
  { unfold readChar. destruct (Z.ltb_spec (logPos (cur s)) (logEnd log)).
    - pose proof (byteAt_range log (logPos (cur s))). unfold EOF.
      do 2 eexists. split; [reflexivity|]. cbn [logPos eof].
      repeat split; try lia.
    - do 2 eexists. split; [reflexivity|]. cbn [logPos eof].
      repeat split; try lia. }
  destruct Hread as (command & c1 & -> & Hc1 & Heof & Hne).
  cbn [lastFrameType set_cur frameStart prematureEof].
  destruct (lastFrameType s) as [lastType|] eqn:Hlast.
  2:{ exists new. split.
      - rewrite (proj1 (beginFrame_calls _ _ _ _ _ _)). exact Hcalls.
      - apply beginFrame_trace; cbn [cur set_cur]; try assumption; try lia.
        intros He off Hoffin. specialize (Hne He).
        destruct (Hoff off Hoffin) as [Hle _]. lia. }
  destruct (_ && _).
  - set (s2 := countValid _ _ _).
    destruct (complete_calls lastType log (marker lastType) (frameStart s)
                (logPos c1) raw s2) as (l & Hl & Hshape).
    destruct (complete_control lastType log (marker lastType) (frameStart s)
                (logPos c1) raw s2) as (Hcur & _ & _).
    assert (Hs2 : calls s2 = base ++ new) by exact Hcalls.
    assert (Hcs2 : cur s2 = c1) by reflexivity.
    exists (new ++ l). split.
    { rewrite (proj1 (beginFrame_calls _ _ _ _ _ _)), Hl, Hs2.
      now rewrite app_assoc. }
    assert (Hstrict : forall off, In off (frameOffsets new) -> off < frameStart s).
    { intros off Hoffin. apply Hoff; [exact Hoffin | discriminate]. }
    apply beginFrame_trace; rewrite ?Hcur, ?Hcs2; try assumption; try lia.
    + intros He off Hoffin. specialize (Hne He).
      rewrite frameOffsets_app in Hoffin. apply in_app_or in Hoffin.
      destruct Hoffin as [Hold|Hnew].
      * specialize (Hstrict off Hold). lia.
      * destruct Hshape as [->|[(v & f & n & ->)|(e & ->)]]; cbn in Hnew;
          try contradiction.
        destruct Hnew as [<-|[]]. lia.
    + rewrite frameOffsets_app.
      destruct Hshape as [->|[(v & f & n & ->)|(e & ->)]]; cbn [frameOffsets flat_map app];
        rewrite ?app_nil_r; try assumption.
      now apply increasing_app_last.
    + destruct Hshape as [->|[(v & f & n & ->)|(e & ->)]]; rewrite ?app_nil_r;
        try assumption; apply forallb_app_last; try assumption; try reflexivity.
      cbn [reportsInside]. rewrite !andb_true_iff, !Z.leb_le. lia.
  - unfold corruptFrame, countCorrupt.
    set (size := to_uint32 (logPos c1 - frameStart s)).
    assert (Hsize : 0 <= size <= logPos c1 - frameStart s).
    { subst size. unfold to_uint32. split.
      - apply Z.mod_pos_bound. lia.
      - apply Z.mod_le; lia. }
    destruct (onFrameReady log).
    + eexists (new ++ [_]).
      cbn [stateOf calls call set_locals set_cur set_stats set_mainStreamIsValid].
      split; [rewrite Hcalls; now rewrite app_assoc|].
      assert (Hinc' : increasing (frameOffsets new ++ [frameStart s]) = true).
      { apply increasing_app_last; [assumption|].
        intros off Hoffin. apply Hoff; [exact Hoffin | discriminate]. }
      assert (Hin' : forallb (reportsInside log lo)
                       (new ++ [FrameReady false None (marker lastType) 0
                                  (frameStart s) size]) = true).
      { apply forallb_app_last; [assumption|].
        cbn [reportsInside]. rewrite !andb_true_iff, !Z.leb_le. lia. }
      unfold traceResult. rewrite frameOffsets_app. cbn [frameOffsets flat_map app].
      split; [exact Hinc'|]. split; [exact Hin'|]. split; [|discriminate].
      intros s' Hs'. inversion Hs'; subst s'; clear Hs'.
      unfold traceInvariant.
      cbn [frameStart cur lastFrameType set_locals set_cur logPos call set_stats
           set_mainStreamIsValid].
      rewrite frameOffsets_app. cbn [frameOffsets flat_map app].
      split; [exact Hlo|]. split; [lia|]. split; [exact Hinc'|].
      split; [|exact Hin'].
      intros off Hoffin. split; [|intros Hc; contradiction].
      apply in_app_or in Hoffin. destruct Hoffin as [Hold|[<-|[]]]; [|lia].
      now apply Hoff.
    + exists new.
      cbn [stateOf calls call set_locals set_cur set_stats set_mainStreamIsValid].
      split; [exact Hcalls|].
      unfold traceResult.
      split; [exact Hinc|]. split; [exact Hin|]. split; [|discriminate].
      intros s' Hs'. inversion Hs'; subst s'; clear Hs'.
      unfold traceInvariant.
      cbn [frameStart cur lastFrameType set_locals set_cur logPos call set_stats
           set_mainStreamIsValid].
      split; [exact Hlo|]. split; [lia|]. split; [exact Hinc|].
      split; [|exact Hin].
      intros off Hoffin. split; [|intros Hc; contradiction].
      now apply Hoff.
Qed.

Lemma traceInvariant_result (log : flightLog) (lo : Z) (why : stop) (s : parser)
  (new : list callback) :
  traceInvariant log lo s new -> traceResult log lo (Stop why s) new.
Proof.
  intros (_ & _ & Hinc & _ & Hin). repeat split; try assumption; discriminate.
Qed.

Lemma dataLoop_trace (h : Headers) (log : flightLog) (fuel : nat) (raw : bool)
  (lo : Z) (base : list callback) :
  forall (n : nat) (s : parser) (new : list callback),
    calls s = base ++ new ->
    traceInvariant log lo s new ->
    exists new',
      calls (stateOf (dataLoop h log fuel raw n s)) = base ++ new'
      /\ traceResult log lo (dataLoop h log fuel raw n s) new'.
Proof.
  induction n as [|n IH]; intros s new Hcalls Hinv; cbn [dataLoop].
  - exists new. split; [exact Hcalls|]. now apply traceInvariant_result.
  - destruct (dataIteration_trace h log fuel raw lo base s new Hcalls Hinv)
      as (new1 & Hcalls1 & Hres).
    destruct (dataIteration h log fuel raw s) as [s1|s1|why s1] eqn:Hit.
    + apply (IH s1 new1); [exact Hcalls1|].
      destruct Hres as (_ & _ & Hcont & _). now apply Hcont.
    + exists new1. split; assumption.
    + exists new1. split; assumption.
Qed.

Lemma traceInvariant_start (log : flightLog) (s : parser) :
  frameStart s <= logPos (cur s) <= logEnd log ->
  traceInvariant log (frameStart s) s [].
Proof.
  intros H. unfold traceInvariant. cbn [frameOffsets flat_map increasing forallb In].
  repeat split; try lia; contradiction.
Qed.

(** The frames come to the frame-ready handler in the order of the file:
    over a whole run of the data phase, from any state whose frame in
    progress starts at or before the cursor, the offsets reported by the
    calls are strictly increasing.  No frame is reported twice, neither as
    valid nor as corrupt, although the cursor moves back after every corrupt
    frame. *)
Theorem reported_offsets_increase (h : Headers) (log : flightLog) (raw : bool)
  (fuel : nat) (s : parser) :
  frameStart s <= logPos (cur s) <= logEnd log ->
  exists new,
    calls (stateOf (flightLogParseData h log raw fuel s)) = calls s ++ new
    /\ increasing (frameOffsets new) = true.
Proof.
  intros H.
  destruct (dataLoop_trace h log fuel raw (frameStart s) (calls s) fuel s []
              (eq_sym (app_nil_r _)) (traceInvariant_start log s H))
    as (new & Hcalls & Hinc & _).
  exists new. split; assumption.
Qed.

Lemma reported_offsets_increase_witness :
  let h := blackboxHeaders true in
  let log := mainLog h [73; 0; 10; 80; 4; 99; 73; 1; 20; 80; 2] 1 1 in
  exists new,
    calls (stateOf (flightLogParseData h log false 16 entry)) = calls entry ++ new
    /\ increasing (frameOffsets new) = true.
Proof.
  cbv zeta.
  apply (reported_offsets_increase (blackboxHeaders true)
           (mainLog (blackboxHeaders true) [73; 0; 10; 80; 4; 99; 73; 1; 20; 80; 2] 1 1)
           false 16 entry).
  split; vm_compute; discriminate.
Defined.

(** Every call of the frame-ready handler, for a valid and for a corrupt
    frame alike, reports bytes of the log: the offset is not before the
    place where the run started, the size is not negative, and offset plus
    size is not after [logEnd]. *)
Theorem reported_frames_inside_log (h : Headers) (log : flightLog) (raw : bool)
  (fuel : nat) (s : parser) :
  frameStart s <= logPos (cur s) <= logEnd log ->
  exists new,
    calls (stateOf (flightLogParseData h log raw fuel s)) = calls s ++ new
    /\ forallb (reportsInside log (frameStart s)) new = true.
Proof.
  intros H.
  destruct (dataLoop_trace h log fuel raw (frameStart s) (calls s) fuel s []
              (eq_sym (app_nil_r _)) (traceInvariant_start log s H))
    as (new & Hcalls & _ & Hin & _).
  exists new. split; assumption.
Qed.

Lemma reported_frames_inside_log_witness :
  let h := blackboxHeaders true in
  let log := mainLog h [73; 0; 10; 80; 4; 99; 73; 1; 20; 80; 2] 1 1 in
  exists new,
    calls (stateOf (flightLogParseData h log false 16 entry)) = calls entry ++ new
    /\ forallb (reportsInside log (frameStart entry)) new = true.
Proof.
  cbv zeta.
  apply (reported_frames_inside_log (blackboxHeaders true)
           (mainLog (blackboxHeaders true) [73; 0; 10; 80; 4; 99; 73; 1; 20; 80; 2] 1 1)
           false 16 entry).
  split; vm_compute; discriminate.
Defined.

(** When [flightLogParse] returns true from the data phase, the whole log
    was read: the cursor stands on [logEnd], the end of input was met, and
    [stats.totalBytes] is the length of the log (as an unsigned 32-bit
    number). *)
Theorem flightLogParseData_done_at_end (h : Headers) (log : flightLog) (raw : bool)
  (fuel : nat) (s s' : parser) :
  frameStart s <= logPos (cur s) <= logEnd log ->
  flightLogParseData h log raw fuel s = Done s' ->
  logPos (cur s') = logEnd log
  /\ eof (cur s') = true
  /\ totalBytes (stats s') = to_uint32 (logEnd log - logStart log).
Proof.
  intros H Hdone.
  destruct (dataLoop_trace h log fuel raw (frameStart s) (calls s) fuel s []
              (eq_sym (app_nil_r _)) (traceInvariant_start log s H))
    as (new & _ & _ & _ & _ & Hend).
  now apply Hend.
Qed.

Lemma flightLogParseData_done_at_end_witness :
  let h := blackboxHeaders true in
  let log := mainLog h [73; 0; 10; 80; 4; 99; 73; 1; 20; 80; 2] 1 1 in
  let s' := stateOf (flightLogParseData h log false 16 entry) in
  logPos (cur s') = logEnd log
  /\ eof (cur s') = true
  /\ totalBytes (stats s') = to_uint32 (logEnd log - logStart log).
Proof.
  cbv zeta.
  apply (flightLogParseData_done_at_end (blackboxHeaders true)
           (mainLog (blackboxHeaders true) [73; 0; 10; 80; 4; 99; 73; 1; 20; 80; 2] 1 1)
           false 16 entry).
  - split; vm_compute; discriminate.
  - vm_compute. reflexivity.
Defined.

(** ** Signed varints *)

Lemma land_1 (x : Z) : Z.land x 1 = x mod 2.
Proof. change 1 with (Z.ones 1). now rewrite Z.land_ones by lia. Qed.

Lemma zigzagDecode_even (k : Z) : 0 <= k < 2 ^ 31 -> zigzagDecode (2 * k) = k.
Proof.
  intros Hk. unfold zigzagDecode. rewrite land_1.
  replace ((2 * k) mod 2) with 0
    by (rewrite Z.mul_comm, Z.mod_mul; lia).
  rewrite Z.shiftr_div_pow2 by lia. change (2 ^ 1) with 2.
  rewrite Z.mul_comm, Z.div_mul by lia.
  change (to_uint32 (- 0)) with 0. rewrite Z.lxor_0_r.
  apply to_int32_small. unfold INT_MIN, INT_MAX. lia.
Qed.

Lemma high_bit_clear (k m : Z) : 0 <= k < 2 ^ 32 -> 32 <= m -> Z.testbit k m = false.
Proof.
  intros Hk Hm. destruct (Z.eq_dec k 0) as [->|Hne]; [apply Z.bits_0|].
  apply Z.bits_above_log2; [lia|].
  assert (Z.log2 k < 32) by (apply Z.log2_lt_pow2; lia). lia.
Qed.

Lemma lxor_all_ones (k : Z) :
  0 <= k < 2 ^ 32 -> Z.lxor k (2 ^ 32 - 1) = 2 ^ 32 - 1 - k.
Proof.
  intros Hk.
  change (2 ^ 32 - 1) with (Z.ones 32).
  rewrite (Z.sub_nocarry_ldiff (Z.ones 32) k).
  - apply Z.bits_inj'. intros m Hm.
    rewrite Z.lxor_spec, Z.ldiff_spec.
    destruct (Z.lt_ge_cases m 32).
    + rewrite Z.ones_spec_low by lia. now destruct (Z.testbit k m).
    + rewrite Z.ones_spec_high by lia. now rewrite high_bit_clear.
  - apply Z.bits_inj'. intros m Hm.
    rewrite Z.ldiff_spec, Z.bits_0.
    destruct (Z.lt_ge_cases m 32).
    + rewrite Z.ones_spec_low by lia. apply andb_false_r.
    + now rewrite high_bit_clear.
Qed.

Lemma zigzagDecode_odd (k : Z) :
  0 <= k < 2 ^ 31 -> zigzagDecode (2 * k + 1) = - k - 1.
Proof.
  intros Hk. unfold zigzagDecode. rewrite land_1.
  replace ((2 * k + 1) mod 2) with 1
    by (rewrite Z.add_comm, Z.mul_comm, Z.mod_add by lia; reflexivity).
  rewrite Z.shiftr_div_pow2 by lia. change (2 ^ 1) with 2.
  replace ((2 * k + 1) / 2) with k
    by (rewrite Z.add_comm, Z.mul_comm, Z.div_add by lia; reflexivity).
  change (to_uint32 (- (1))) with (2 ^ 32 - 1).
  rewrite lxor_all_ones by lia.
  unfold to_int32.
  replace (2 ^ 32 - 1 - k + 2 ^ 31) with (2 ^ 31 - 1 - k + 1 * 2 ^ 32) by lia.
  rewrite Z.mod_add by lia. rewrite Z.mod_small by lia. lia.
Qed.

Lemma zigzagEncode_nonneg (n : Z) : 0 <= n < 2 ^ 31 -> zigzagEncode n = 2 * n.
Proof.
  intros Hn. unfold zigzagEncode.
  rewrite Z.shiftl_mul_pow2 by lia. change (2 ^ 1) with 2.
  rewrite (Z.shiftr_div_pow2 n 31) by lia.
  rewrite Z.div_small by lia. rewrite Z.lxor_0_r.
  unfold to_uint32. rewrite Z.mod_small; lia.
Qed.

Lemma zigzagEncode_neg (n : Z) :
  - 2 ^ 31 <= n < 0 -> zigzagEncode n = 2 * (- n - 1) + 1.
Proof.
  intros Hn. unfold zigzagEncode.
  rewrite Z.shiftl_mul_pow2 by lia. change (2 ^ 1) with 2.
  rewrite (Z.shiftr_div_pow2 n 31) by lia.
  replace (n / 2 ^ 31) with (-1).
  2:{ apply Z.div_unique with (r := n + 2 ^ 31); lia. }
  rewrite Z.lxor_m1_r. unfold Z.lnot. rewrite <- Z.sub_1_r.
  unfold to_uint32. rewrite Z.mod_small; lia.
Qed.

Lemma zigzagEncode_decoded (n : Z) :
  INT_MIN <= n <= INT_MAX ->
  0 <= zigzagEncode n < 2 ^ 32 /\ zigzagDecode (zigzagEncode n) = n.
Proof.
  unfold INT_MIN, INT_MAX. intros Hn.
  destruct (Z.lt_ge_cases n 0) as [Hneg|Hpos].
  - rewrite zigzagEncode_neg by lia. split; [lia|].
    rewrite zigzagDecode_odd by lia. lia.
  - rewrite zigzagEncode_nonneg by lia. split; [lia|].
    apply zigzagDecode_even. lia.
Qed.

(** [readSignedVB] loses nothing: the ZigZag decoding it applies to the
    unsigned varint is a one-to-one map of the unsigned 32-bit numbers onto
    the signed ones, with [(n << 1) ^ (n >> 31)] as its inverse.  Small
    magnitudes of either sign come from small varints: [0, -1, 1, -2, ...]
    are the decodings of [0, 1, 2, 3, ...]. *)
Theorem zigzagDecode_bijection :
  (forall n, INT_MIN <= n <= INT_MAX ->
     0 <= zigzagEncode n < 2 ^ 32 /\ zigzagDecode (zigzagEncode n) = n)
  /\ (forall u, 0 <= u < 2 ^ 32 ->
        INT_MIN <= zigzagDecode u <= INT_MAX
        /\ zigzagEncode (zigzagDecode u) = u).
Proof.
  split; [exact zigzagEncode_decoded|].
  unfold INT_MIN, INT_MAX.
  - intros u Hu.
    pose proof (Z.div_mod u 2 ltac:(lia)) as Hdm.
    pose proof (Z.mod_pos_bound u 2 ltac:(lia)) as Hm.
    assert (Hk : 0 <= u / 2 < 2 ^ 31) by lia.
    destruct (Z.eq_dec (u mod 2) 0) as [H0|H1].
    + replace u with (2 * (u / 2)) at 1 2 3 by lia.
      rewrite zigzagDecode_even by lia.
      rewrite zigzagEncode_nonneg by lia. lia.
    + replace u with (2 * (u / 2) + 1) at 1 2 3 by lia.
      rewrite zigzagDecode_odd by lia.
      rewrite zigzagEncode_neg by lia. lia.
Qed.

Lemma zigzagDecode_bijection_witness :
  zigzagDecode (zigzagEncode (-3)) = -3 /\ zigzagEncode (zigzagDecode 5) = 5.
Proof.
  split.
  - apply (proj1 zigzagDecode_bijection (-3)). unfold INT_MIN, INT_MAX. lia.
  - apply (proj2 zigzagDecode_bijection 5). lia.
Defined.

(** Round trip of the signed varint: where the bytes of the unsigned varint
    of [(n << 1) ^ (n >> 31)] are in the log, [readSignedVB] returns [n], for
    every signed 32-bit [n], and leaves the cursor after them. *)
Theorem readSignedVB_roundtrip (log : flightLog) (c : cursor) (n : Z) :
  INT_MIN <= n <= INT_MAX ->
  bytesAt log (logPos c) (encodeSignedVB n) = true ->
  readSignedVB log c
  = (n, {| logPos := logPos c + Z.of_nat (length (encodeSignedVB n));
           eof := eof c |}).
Proof.
  intros Hn Hbytes.
  destruct (zigzagEncode_decoded n Hn) as [Hrange Hback].
  unfold readSignedVB, readUnsignedVB, encodeSignedVB, encodeUnsignedVB in *.
  rewrite (readUnsignedVB_loop_roundtrip log 4
             (Z.to_nat (Z.log2 (zigzagEncode n))) (zigzagEncode n) 0 0 c).
  - rewrite Z.shiftl_0_r, Z.lor_0_l, to_uint32_small by assumption.
    now rewrite Hback.
  - change (2 ^ (7 * Z.of_nat 5)) with (2 ^ 35). lia.
  - rewrite Z2Nat.id by apply Z.log2_nonneg. lia.
  - lia.
  - assumption.
Qed.

Lemma readSignedVB_roundtrip_witness :
  readSignedVB (defaultLog [171; 2; 73]) start
  = (-150, {| logPos := 2; eof := false |}).
Proof.
  apply (readSignedVB_roundtrip (defaultLog [171; 2; 73]) start (-150)).
  - unfold INT_MIN, INT_MAX. lia.
  - reflexivity.
Defined.

Lemma log2_below_32 (a : Z) : 0 <= a < 2 ^ 32 -> Z.log2 a < 32.
Proof.
  intros Ha. destruct (Z.eq_dec a 0) as [->|Hne]; [reflexivity|].
  apply Z.log2_lt_pow2; lia.
Qed.

Lemma lor_range (a b : Z) :
  0 <= a < 2 ^ 32 -> 0 <= b < 2 ^ 32 -> 0 <= Z.lor a b < 2 ^ 32.
Proof.
  intros Ha Hb.
  assert (Hnn : 0 <= Z.lor a b) by (apply Z.lor_nonneg; lia).
  split; [exact Hnn|].
  destruct (Z.eq_dec (Z.lor a b) 0) as [->|Hne]; [lia|].
  apply Z.log2_lt_pow2; [lia|].
  rewrite Z.log2_lor by lia.
  apply Z.max_lub_lt; now apply log2_below_32.
Qed.

Lemma readUnsignedVB_loop_bounds (log : flightLog) :
  forall (n : nat) (shift result : Z) (c : cursor),
    0 <= result < 2 ^ 32 ->
    0 <= fst (readUnsignedVB_loop log n shift result c) < 2 ^ 32
    /\ logPos c <= logPos (snd (readUnsignedVB_loop log n shift result c))
       <= logPos c + Z.of_nat n
    /\ (eof c = false ->
        eof (snd (readUnsignedVB_loop log n shift result c)) = true ->
        fst (readUnsignedVB_loop log n shift result c) = 0).
Proof.
  induction n as [|n IH]; intros shift result c Hres.
  - cbn [readUnsignedVB_loop fst snd]. repeat split; intros; first [lia | congruence].
  - cbn [readUnsignedVB_loop]. unfold readChar.
    destruct (Z.ltb_spec (logPos c) (logEnd log)).
    + pose proof (byteAt_range log (logPos c)) as Hb.
      destruct (Z.eqb_spec (byteAt log (logPos c)) EOF) as [He|_];
        [unfold EOF in He; lia|].
      set (result' := Z.lor result _).
      assert (Hres' : 0 <= result' < 2 ^ 32)
        by (apply lor_range; [exact Hres | apply to_uint32_range]).
      destruct (byteAt log (logPos c) <? 128).
      * cbn [fst snd logPos eof]. repeat split; intros; first [lia | congruence].
      * specialize (IH (shift + 7) result'
                      {| logPos := logPos c + 1; eof := eof c |} Hres').
        cbn [logPos eof] in IH. destruct IH as (H1 & H2 & H3).
        split; [lia|]. split; [lia|exact H3].
    + change (EOF =? EOF) with true. cbn [fst snd logPos]. repeat split; intros; lia.
Qed.

(** [readUnsignedVB] on any bytes: the value is an unsigned 32-bit number,
    at most five bytes are consumed, and a varint that the end of the log
    cuts short is read as 0 (with the [eof] flag set), never as the part
    that was there. *)
Theorem readUnsignedVB_bounds (log : flightLog) (c : cursor) :
  0 <= fst (readUnsignedVB log c) < 2 ^ 32
  /\ logPos c <= logPos (snd (readUnsignedVB log c)) <= logPos c + 5
  /\ (eof c = false -> eof (snd (readUnsignedVB log c)) = true ->
      fst (readUnsignedVB log c) = 0).
Proof.
  unfold readUnsignedVB.
  apply (readUnsignedVB_loop_bounds log 5 0 0 c). lia.
Qed.

Lemma readUnsignedVB_bounds_witness :
  fst (readUnsignedVB (defaultLog [255; 255]) start) = 0.
Proof.
  apply (readUnsignedVB_bounds (defaultLog [255; 255]) start); reflexivity.
Defined.

(** ** A rule for the invariants of the data loop *)

Section LoopInvariant.

Variables (h : Headers) (log : flightLog) (fuel : nat) (raw : bool).
Variable I : parser -> Prop.

Hypothesis I_cur : forall s c, I s -> I (set_cur s c).
Hypothesis I_locals : forall s pe fs lft, I s -> I (set_locals s pe fs lft).
Hypothesis I_countValid : forall s m n, I s -> I (countValid s m n).
Hypothesis I_complete :
  forall s t fs fe, I s -> I (complete t log (marker t) fs fe raw s).
Hypothesis I_corrupt : forall s t n, I s -> I (corruptFrame log t n s).
Hypothesis I_parse :
  forall s s' t, I s -> parse t h log fuel raw s = Ok s' -> I s'.
Hypothesis I_invalid : forall s, I s -> I (set_mainStreamIsValid s false).
Hypothesis I_finish : forall s, I s -> I (finish log s).

Lemma beginFrame_rule (command : Z) (s : parser) :
  I s -> I (stateOf (beginFrame h log fuel raw command s)).
Proof.
  intros Hs. unfold beginFrame.
  destruct (command =? EOF); [cbn [stateOf]; auto|].
  destruct (getFrameType (to_uint8 command)) as [t|].
  - destruct (parse t h log fuel raw _) as [s2| | | |] eqn:E; cbn [stateOf]; auto.
    apply I_locals. eapply I_parse; [|exact E]. auto.
  - cbn [stateOf]. auto.
Qed.

Lemma dataIteration_rule (s : parser) :
  I s -> I (stateOf (dataIteration h log fuel raw s)).
Proof.
  intros Hs. unfold dataIteration.
  destruct (readChar log (cur s)) as [command c1].
  cbn [lastFrameType set_cur].
  destruct (lastFrameType s) as [lastType|].
  - destruct (_ && _).
    + apply beginFrame_rule. auto.
    + cbn [stateOf]. auto.
  - apply beginFrame_rule. auto.
Qed.

Lemma dataLoop_rule :
  forall (n : nat) (s : parser),
    I s -> I (stateOf (dataLoop h log fuel raw n s)).
Proof.
  induction n as [|n IH]; intros s Hs; cbn [dataLoop]; [exact Hs|].
  pose proof (dataIteration_rule s Hs) as Hit.
  destruct (dataIteration h log fuel raw s) as [s1|s1|why s1];
    cbn [stateOf] in *; auto.
Qed.

End LoopInvariant.

(** ** GPS frames and the home position *)

Lemma noPositionBeforeHome_app_other (new : list callback) (c : callback) :
  noPositionBeforeHome new = true ->
  deliversValid GPSFrame c = false ->
  noPositionBeforeHome (new ++ [c]) = true.
Proof.
  intros Hnew Hc. induction new as [|x new IH]; cbn in *.
  - rewrite Hc. now destruct (deliversValid GPSHomeFrame c).
  - destruct (deliversValid GPSHomeFrame x); [reflexivity|].
    apply andb_true_iff in Hnew. destruct Hnew as [Hx Hnew].
    rewrite Hx. cbn. auto.
Qed.

Lemma noPositionBeforeHome_app_after (new : list callback) (c : callback) :
  noPositionBeforeHome new = true ->
  existsb (deliversValid GPSHomeFrame) new = true ->
  noPositionBeforeHome (new ++ [c]) = true.
Proof.
  intros Hnew Hkey. induction new as [|x new IH]; cbn in *; [discriminate|].
  destruct (deliversValid GPSHomeFrame x); [reflexivity|].
  apply andb_true_iff in Hnew. destruct Hnew as [Hx Hnew].
  rewrite Hx. cbn in *. auto.
Qed.

Lemma homeInvariant_same (log : flightLog) (base : list callback) (s s' : parser) :
  calls s' = calls s -> gpsHomeIsValid s' = gpsHomeIsValid s ->
  homeInvariant log base s -> homeInvariant log base s'.
Proof.
  intros Hc Hv (new & Hcalls & Hnd & Hkey).
  exists new. rewrite Hc, Hv. auto.
Qed.

Lemma homeInvariant_call_other (log : flightLog) (base : list callback)
  (s : parser) (c : callback) :
  deliversValid GPSFrame c = false ->
  homeInvariant log base s -> homeInvariant log base (call s c).
Proof.
  intros Hc (new & Hcalls & Hnd & Hkey).
  exists (new ++ [c]). cbn [calls call gpsHomeIsValid].
  rewrite Hcalls, app_assoc. repeat split.
  - now apply noPositionBeforeHome_app_other.
  - intros Hv Hf. rewrite existsb_app, (Hkey Hv Hf). reflexivity.
Qed.

Lemma complete_homeInvariant (t : flightLogFrameType_t) (log : flightLog)
  (frameStart0 frameEnd : Z) (raw : bool) (base : list callback) (s : parser) :
  homeInvariant log base s ->
  homeInvariant log base (complete t log (marker t) frameStart0 frameEnd raw s).
Proof.
  intros Hs.
  assert (Hring : forall (b : bool) (x : parser) (p0 : framePtr)
                         (p1 p2 : option framePtr),
             homeInvariant log base x ->
             homeInvariant log base (if b then set_mainHistory x p0 p1 p2 else x)).
  { intros [] x p0 p1 p2 Hx; [|exact Hx].
    eapply homeInvariant_same; [| |exact Hx]; reflexivity. }
  destruct t; cbn [complete].
  - unfold completeIntraframe. cbv zeta.
    set (s1 := if _ || _ then _ else _).
    assert (H1 : homeInvariant log base s1).
    { subst s1. destruct (_ || _);
        (eapply homeInvariant_same; [| |exact Hs]; reflexivity). }
    assert (H2 : homeInvariant log base
                   (mainFrameReady log (marker IntraFrame) frameStart0 frameEnd s1)).
    { unfold mainFrameReady. destruct (onFrameReady log); [|exact H1].
      apply homeInvariant_call_other; [|exact H1].
      cbn. now destruct (mainStreamIsValid s1). }
    apply Hring. exact H2.
  - unfold completeInterframe. cbv zeta.
    set (s1 := if mainStreamIsValid s then _ else _).
    assert (H1 : homeInvariant log base s1).
    { subst s1. destruct (mainStreamIsValid s);
        (eapply homeInvariant_same; [| |exact Hs]; reflexivity). }
    assert (H2 : homeInvariant log base
                   (mainFrameReady log (marker InterFrame) frameStart0 frameEnd s1)).
    { unfold mainFrameReady. destruct (onFrameReady log); [|exact H1].
      apply homeInvariant_call_other; [|exact H1].
      cbn. now destruct (mainStreamIsValid s1). }
    apply Hring. exact H2.
  - unfold completeGPSFrame.
    destruct (onFrameReady log) eqn:Hf; [|exact Hs].
    destruct (gpsHomeIsValid s) eqn:Hv.
    + destruct Hs as (new & Hcalls & Hnd & Hkey).
      eexists (new ++ [_]). cbn [calls call gpsHomeIsValid].
      rewrite Hcalls, app_assoc. split; [reflexivity|].
      specialize (Hkey Hv Hf). split.
      * now apply noPositionBeforeHome_app_after.
      * intros _ _. now rewrite existsb_app, Hkey.
    + apply homeInvariant_call_other; [reflexivity | exact Hs].
  - unfold completeGPSHomeFrame. cbv zeta.
    destruct Hs as (new & Hcalls & Hnd & Hkey).
    destruct (onFrameReady log) eqn:Hf.
    + eexists (new ++ [_]).
      cbn [calls call gpsHomeIsValid set_gpsHomeIsValid set_mem].
      rewrite Hcalls, app_assoc. split; [reflexivity|]. split.
      * apply noPositionBeforeHome_app_other; [assumption | reflexivity].
      * intros _ _. rewrite existsb_app. cbn. now rewrite orb_true_r.
    + exists new. cbn [calls gpsHomeIsValid set_gpsHomeIsValid set_mem].
      split; [exact Hcalls|]. split; [exact Hnd|]. intros _ Hf'. congruence.
  - unfold completeEventFrame. destruct (onEvent log); [|exact Hs].
    apply homeInvariant_call_other; [reflexivity | exact Hs].
Qed.

Lemma corruptFrame_homeInvariant (log : flightLog) (t : flightLogFrameType_t)
  (lastFrameSize : Z) (base : list callback) (s : parser) :
  homeInvariant log base s ->
  homeInvariant log base (corruptFrame log t lastFrameSize s).
Proof.
  intros Hs. unfold corruptFrame. cbv zeta.
  eapply homeInvariant_same with
    (s := if onFrameReady log
          then call (countCorrupt (set_mainStreamIsValid s false) (marker t))
                 (FrameReady false None (marker t) 0 (frameStart s) lastFrameSize)
          else countCorrupt (set_mainStreamIsValid s false) (marker t));
    [reflexivity | reflexivity |].
  destruct (onFrameReady log).
  - apply homeInvariant_call_other; [reflexivity|].
    eapply homeInvariant_same; [| |exact Hs]; reflexivity.
  - eapply homeInvariant_same; [| |exact Hs]; reflexivity.
Qed.

Lemma dataLoop_homeInvariant (h : Headers) (log : flightLog) (fuel : nat)
  (raw : bool) (base : list callback) (n : nat) (s : parser) :
  homeInvariant log base s ->
  homeInvariant log base (stateOf (dataLoop h log fuel raw n s)).
Proof.
  apply dataLoop_rule.
  - intros s0 c. apply homeInvariant_same; reflexivity.
  - intros s0 pe fs lft. apply homeInvariant_same; reflexivity.
  - intros s0 m k. apply homeInvariant_same; reflexivity.
  - intros s0 t fs fe. apply complete_homeInvariant.
  - intros s0 t k. apply corruptFrame_homeInvariant.
  - intros s0 s' t Hs0 Hp. apply parse_sameControl in Hp.
    destruct Hp as (_ & Hg & _ & _ & _ & _ & _ & _ & Hc).
    eapply homeInvariant_same; [exact Hc | exact Hg | exact Hs0].
  - intros s0. apply homeInvariant_same; reflexivity.
  - intros s0. apply homeInvariant_same; reflexivity.
Qed.

(** While no home position is known, no G frame is delivered as valid:
    over a whole run of the data phase from a state in which
    [gpsHomeIsValid] is false, as [flightLogParse] leaves it, every call that
    delivers a G frame as valid comes after one that delivers an H frame. *)
Theorem no_valid_position_before_home (h : Headers) (log : flightLog) (raw : bool)
  (fuel : nat) (s : parser) :
  gpsHomeIsValid s = false ->
  exists new,
    calls (stateOf (flightLogParseData h log raw fuel s)) = calls s ++ new
    /\ noPositionBeforeHome new = true.
Proof.
  intros Hv.
  destruct (dataLoop_homeInvariant h log fuel raw (calls s) fuel s)
    as (new & Hcalls & Hnd & _).
  - exists []. rewrite app_nil_r, Hv. repeat split. discriminate.
  - exists new. split; assumption.
Qed.

Lemma no_valid_position_before_home_witness :
  let h := blackboxHeaders true in
  let log := gpsLog h [71; 2; 4; 72; 6; 8; 71; 2; 4] 0 1 in
  exists new,
    calls (stateOf (flightLogParseData h log false 16 entry)) = calls entry ++ new
    /\ noPositionBeforeHome new = true.
Proof.
  cbv zeta.
  apply (no_valid_position_before_home (blackboxHeaders true)
           (gpsLog (blackboxHeaders true) [71; 2; 4; 72; 6; 8; 71; 2; 4] 0 1)
           false 16 entry).
  reflexivity.
Defined.

Lemma homeKnown_same (base : list callback) (s s' : parser) :
  calls s' = calls s -> gpsHomeIsValid s' = gpsHomeIsValid s ->
  homeKnown base s -> homeKnown base s'.
Proof.
  intros Hc Hv (Hg & new & Hcalls & Hnd).
  split; [congruence|]. exists new. rewrite Hc. auto.
Qed.

Lemma homeKnown_call (base : list callback) (s : parser) (c : callback) :
  withholdsPosition c = false ->
  homeKnown base s -> homeKnown base (call s c).
Proof.
  intros Hc (Hg & new & Hcalls & Hnd).
  split; [exact Hg|]. exists (new ++ [c]). cbn [calls call].
  rewrite Hcalls, app_assoc. split; [reflexivity|].
  rewrite existsb_app, Hnd. cbn. now rewrite Hc.
Qed.

Lemma complete_homeKnown (t : flightLogFrameType_t) (log : flightLog)
  (frameStart0 frameEnd : Z) (raw : bool) (base : list callback) (s : parser) :
  homeKnown base s ->
  homeKnown base (complete t log (marker t) frameStart0 frameEnd raw s).
Proof.
  intros Hs.
  assert (Hring : forall (b : bool) (x : parser) (p0 : framePtr)
                         (p1 p2 : option framePtr),
             homeKnown base x ->
             homeKnown base (if b then set_mainHistory x p0 p1 p2 else x)).
  { intros [] x p0 p1 p2 Hx; [|exact Hx].
    eapply homeKnown_same; [| |exact Hx]; reflexivity. }
  assert (Hmain : forall (m : Z) (x : parser),
             (m =? marker GPSFrame) = false ->
             homeKnown base x ->
             homeKnown base (mainFrameReady log m frameStart0 frameEnd x)).
  { intros m x Hm Hx. unfold mainFrameReady.
    destruct (onFrameReady log); [|exact Hx].
    apply homeKnown_call; [|exact Hx].
    cbn [withholdsPosition]. now destruct (mainStreamIsValid x). }
  destruct t; cbn [complete].
  - unfold completeIntraframe. cbv zeta. apply Hring. apply Hmain; [reflexivity|].
    destruct (_ || _); (eapply homeKnown_same; [| |exact Hs]; reflexivity).
  - unfold completeInterframe. cbv zeta. apply Hring. apply Hmain; [reflexivity|].
    destruct (mainStreamIsValid s);
      (eapply homeKnown_same; [| |exact Hs]; reflexivity).
  - unfold completeGPSFrame.
    destruct (onFrameReady log); [|exact Hs].
    apply homeKnown_call; [|exact Hs].
    destruct Hs as [Hg _]. rewrite Hg. reflexivity.
  - unfold completeGPSHomeFrame. cbv zeta.
    assert (H2 : homeKnown base
                   (set_gpsHomeIsValid
                      (set_mem s (setFrame (mem s) (GpsHomeRow 1)
                                    (frameAt (mem s) (GpsHomeRow 0)))) true)).
    { destruct Hs as (Hg & new & Hcalls & Hnd). split; [reflexivity|].
      exists new. auto. }
    destruct (onFrameReady log); [|exact H2].
    apply homeKnown_call; [reflexivity | exact H2].
  - unfold completeEventFrame. destruct (onEvent log); [|exact Hs].
    apply homeKnown_call; [reflexivity | exact Hs].
Qed.

Lemma corruptFrame_homeKnown (log : flightLog) (t : flightLogFrameType_t)
  (lastFrameSize : Z) (base : list callback) (s : parser) :
  homeKnown base s -> homeKnown base (corruptFrame log t lastFrameSize s).
Proof.
  intros Hs. unfold corruptFrame. cbv zeta.
  eapply homeKnown_same with
    (s := if onFrameReady log
          then call (countCorrupt (set_mainStreamIsValid s false) (marker t))
                 (FrameReady false None (marker t) 0 (frameStart s) lastFrameSize)
          else countCorrupt (set_mainStreamIsValid s false) (marker t));
    [reflexivity | reflexivity |].
  destruct (onFrameReady log).
  - apply homeKnown_call; [reflexivity|].
    eapply homeKnown_same; [| |exact Hs]; reflexivity.
  - eapply homeKnown_same; [| |exact Hs]; reflexivity.
Qed.

(** The home position is never forgotten in the data phase.  Once
    [gpsHomeIsValid] is set, no corrupt frame, unknown byte or rejected
    keyframe clears it (they invalidate the main stream only): it is still
    set after any number of passes through the loop, and every G frame
    decoded in between is delivered as valid. *)
Theorem home_stays_known (h : Headers) (log : flightLog) (raw : bool)
  (fuel n : nat) (s : parser) :
  gpsHomeIsValid s = true ->
  gpsHomeIsValid (stateOf (dataLoop h log fuel raw n s)) = true
  /\ exists new,
       calls (stateOf (dataLoop h log fuel raw n s)) = calls s ++ new
       /\ existsb withholdsPosition new = false.
Proof.
  intros Hv.
  apply (dataLoop_rule h log fuel raw (homeKnown (calls s))).
  - intros s0 c. apply homeKnown_same; reflexivity.
  - intros s0 pe fs lft. apply homeKnown_same; reflexivity.
  - intros s0 m k. apply homeKnown_same; reflexivity.
  - intros s0 t fs fe. apply complete_homeKnown.
  - intros s0 t k. apply corruptFrame_homeKnown.
  - intros s0 s' t Hs0 Hp. apply parse_sameControl in Hp.
    destruct Hp as (_ & Hg & _ & _ & _ & _ & _ & _ & Hc).
    eapply homeKnown_same; [exact Hc | exact Hg | exact Hs0].
  - intros s0. apply homeKnown_same; reflexivity.
  - intros s0. apply homeKnown_same; reflexivity.
  - split; [exact Hv|]. exists []. now rewrite app_nil_r.
Qed.

Lemma home_stays_known_witness :
  let h := blackboxHeaders true in
  let log := gpsLog h [72; 6; 8; 71; 2; 4; 99; 71; 2; 4] 0 1 in
  let s := afterPasses h log false 2 in
  gpsHomeIsValid (stateOf (dataLoop h log 64 false 8 s)) = true
  /\ exists new,
       calls (stateOf (dataLoop h log 64 false 8 s)) = calls s ++ new
       /\ existsb withholdsPosition new = false.
Proof.
  cbv zeta.
  apply (home_stays_known (blackboxHeaders true)
           (gpsLog (blackboxHeaders true) [72; 6; 8; 71; 2; 4; 99; 71; 2; 4] 0 1)
           false 64 8).
  vm_compute. reflexivity.
Defined.

(** ** The history ring *)

Lemma nextRingRow_inRing (p : framePtr) :
  inRing p = true -> inRing (nextRingRow p) = true.
Proof.
  destruct p as [k| |]; cbn; try discriminate.
  destruct k as [|[|[|k]]]; cbn; auto.
Qed.

Lemma nextRingRow_other (p : framePtr) :
  inRing p = true ->
  nextRingRow p <> p /\ nextRingRow (nextRingRow p) <> p.
Proof.
  destruct p as [k| |]; cbn; try discriminate.
  destruct k as [|[|[|k]]]; cbn; try discriminate; split; discriminate.
Qed.

Lemma ringInvariant_same (s s' : parser) :
  mainHistory0 s' = mainHistory0 s -> mainHistory1 s' = mainHistory1 s ->
  mainHistory2 s' = mainHistory2 s ->
  (mainStreamIsValid s' = true -> mainStreamIsValid s = true) ->
  ringInvariant s -> ringInvariant s'.
Proof.
  unfold ringInvariant. intros -> -> -> Hv [H0 H12]. split; [exact H0|].
  destruct (mainHistory1 s), (mainHistory2 s); auto.
  destruct (mainStreamIsValid s'); [|reflexivity].
  rewrite Hv in H12 by reflexivity. discriminate.
Qed.

Lemma ringInvariant_rotate (x : parser) (p0 : framePtr) (p2 : option framePtr) :
  inRing p0 = true ->
  p2 = Some p0
  \/ (exists p, p2 = Some p /\ inRing p = true /\ p0 = nextRingRow p) ->
  ringInvariant (set_mainHistory x (nextRingRow p0) (Some p0) p2).
Proof.
  intros H0 Hp2. unfold ringInvariant.
  cbn [mainHistory0 mainHistory1 mainHistory2 set_mainHistory].
  split; [now apply nextRingRow_inRing|].
  destruct Hp2 as [->|(p & -> & Hp & Hnext)]; repeat split; auto.
Qed.

Lemma complete_ringInvariant (t : flightLogFrameType_t) (log : flightLog)
  (frameType frameStart0 frameEnd : Z) (raw : bool) (s : parser) :
  ringInvariant s ->
  ringInvariant (complete t log frameType frameStart0 frameEnd raw s).
Proof.
  intros Hs. destruct t; cbn [complete].
  - unfold completeIntraframe. cbv zeta. destruct (_ || _).
    + unfold mainFrameReady.
      destruct (onFrameReady log);
        cbn [mainStreamIsValid call set_stats set_mainStreamIsValid];
        (apply ringInvariant_rotate; [exact (proj1 Hs) | now left]).
    + unfold mainFrameReady, flightLoginvalidateStream.
      destruct (onFrameReady log);
        cbn [mainStreamIsValid call set_mainHistory set_mainStreamIsValid];
        (split; [exact (proj1 Hs) | reflexivity]).
  - unfold completeInterframe. cbv zeta.
    destruct (mainStreamIsValid s) eqn:Hv.
    + assert (Hp : mainHistory1 s = Some (mainHistory0 s)
                   \/ exists p, mainHistory1 s = Some p /\ inRing p = true
                                /\ mainHistory0 s = nextRingRow p).
      { destruct Hs as [_ H12].
        destruct (mainHistory1 s) as [p1|], (mainHistory2 s) as [p2|];
          try contradiction; [|congruence].
        right. exists p1. tauto. }
      unfold mainFrameReady.
      destruct (onFrameReady log);
        cbn [mainStreamIsValid call set_stats mainHistory0 mainHistory1];
        rewrite Hv; (apply ringInvariant_rotate; [exact (proj1 Hs) | exact Hp]).
    + unfold mainFrameReady.
      destruct (onFrameReady log);
        cbn [mainStreamIsValid call countDesync set_stats]; rewrite Hv;
        (eapply ringInvariant_same; [| | | |exact Hs]; auto).
  - unfold completeGPSFrame. destruct (onFrameReady log); [|exact Hs].
    eapply ringInvariant_same; [| | | |exact Hs]; auto.
  - unfold completeGPSHomeFrame. cbv zeta.
    destruct (onFrameReady log);
      (eapply ringInvariant_same; [| | | |exact Hs]; auto).
  - unfold completeEventFrame. destruct (onEvent log); [|exact Hs].
    eapply ringInvariant_same; [| | | |exact Hs]; auto.
Qed.

Lemma corruptFrame_ringInvariant (log : flightLog) (t : flightLogFrameType_t)
  (lastFrameSize : Z) (s : parser) :
  ringInvariant s -> ringInvariant (corruptFrame log t lastFrameSize s).
Proof.
  intros Hs. unfold corruptFrame. cbv zeta.
  destruct (onFrameReady log);
    (eapply ringInvariant_same; [| | | |exact Hs]; auto; discriminate).
Qed.

Lemma dataLoop_ringInvariant (h : Headers) (log : flightLog) (fuel : nat)
  (raw : bool) (n : nat) (s : parser) :
  ringInvariant s -> ringInvariant (stateOf (dataLoop h log fuel raw n s)).
Proof.
  apply dataLoop_rule.
  - intros s0 c. apply ringInvariant_same; auto.
  - intros s0 pe fs lft. apply ringInvariant_same; auto.
  - intros s0 m k. apply ringInvariant_same; auto.
  - intros s0 t fs fe. apply complete_ringInvariant.
  - intros s0 t k. apply corruptFrame_ringInvariant.
  - intros s0 s' t Hs0 Hp. apply parse_sameControl in Hp.
    destruct Hp as (Hv & _ & H0 & H1 & H2 & _).
    eapply ringInvariant_same; [exact H0 | exact H1 | exact H2 | | exact Hs0].
    congruence.
  - intros s0. apply ringInvariant_same; auto. discriminate.
  - intros s0. apply ringInvariant_same; auto.
Qed.

(** The frame being decoded never shares its buffer with a frame that
    predictions read.  From the state in which [flightLogParse] enters the
    data phase, or any state of the same shape, after any number of passes
    through the loop: [mainHistory[0]] is a row of the ring and neither
    [mainHistory[1]] nor [mainHistory[2]] points to it; the two previous
    frames are NULL together or not at all; and while the main stream is
    valid they are not NULL. *)
Theorem history_ring_kept_apart (h : Headers) (log : flightLog) (raw : bool)
  (fuel n : nat) (s : parser) :
  ringInvariant s ->
  let s' := stateOf (dataLoop h log fuel raw n s) in
  inRing (mainHistory0 s') = true
  /\ mainHistory1 s' <> Some (mainHistory0 s')
  /\ mainHistory2 s' <> Some (mainHistory0 s')
  /\ (mainHistory1 s' = None <-> mainHistory2 s' = None)
  /\ (mainStreamIsValid s' = true -> mainHistory1 s' <> None).
Proof.
  intros Hs s'.
  pose proof (dataLoop_ringInvariant h log fuel raw n s Hs) as [H0 H12].
  fold s' in H0, H12. split; [exact H0|].
  destruct (mainHistory1 s') as [p1|], (mainHistory2 s') as [p2|];
    try contradiction.
  - destruct H12 as (Hnext & Hp1 & Hp2 & Hrel).
    destruct (nextRingRow_other p1 Hp1) as [Ha _].
    destruct (nextRingRow_other p2 Hp2) as [_ Hb].
    repeat split; try congruence.
    destruct Hrel as [-> | ->]; congruence.
  - repeat split; try congruence.
Qed.

Lemma history_ring_kept_apart_witness :
  let h := blackboxHeaders true in
  let log := mainLog h [73; 0; 10; 80; 4; 80; 4; 80; 4] 1 1 in
  let s' := stateOf (dataLoop h log 64 false 5 entry) in
  inRing (mainHistory0 s') = true
  /\ mainHistory1 s' <> Some (mainHistory0 s')
  /\ mainHistory2 s' <> Some (mainHistory0 s')
  /\ (mainHistory1 s' = None <-> mainHistory2 s' = None)
  /\ (mainStreamIsValid s' = true -> mainHistory1 s' <> None).
Proof.
  cbv zeta.
  apply (history_ring_kept_apart (blackboxHeaders true)
           (mainLog (blackboxHeaders true) [73; 0; 10; 80; 4; 80; 4; 80; 4] 1 1)
           false 64 5 entry).
  vm_compute. split; reflexivity.
Defined.

(** ** No NULL pointer is read, no division by zero is made *)

Lemma bind_defined {A B : Type} (r : result A) (f : A -> result B) :
  r <> Undefined -> (forall a, f a <> Undefined) -> bind r f <> Undefined.
Proof. intros Hr Hf. destruct r; cbn [bind]; auto; discriminate. Qed.

Lemma applyPrediction_defined (h : Headers) (log : flightLog) (m : memory)
  (fieldIndex predictor value : Z) (current : framePtr)
  (previous previous2 : option framePtr) :
  previous = None \/ previous2 <> None
  \/ predictor = FLIGHT_LOG_FIELD_PREDICTOR_0 h
  \/ (predictor <> FLIGHT_LOG_FIELD_PREDICTOR_STRAIGHT_LINE h
      /\ predictor <> FLIGHT_LOG_FIELD_PREDICTOR_AVERAGE_2 h) ->
  applyPrediction h log m fieldIndex predictor value current previous previous2
  <> Undefined.
Proof.
  intros Hsafe. unfold applyPrediction. cbv zeta.
  apply bind_defined; [|discriminate].
  destruct (Z.eqb_spec predictor (FLIGHT_LOG_FIELD_PREDICTOR_0 h)) as [|H0];
    [discriminate|].
  destruct (_ =? FLIGHT_LOG_FIELD_PREDICTOR_MINTHROTTLE h); [discriminate|].
  destruct (_ =? FLIGHT_LOG_FIELD_PREDICTOR_1500 h); [discriminate|].
  destruct (_ =? FLIGHT_LOG_FIELD_PREDICTOR_MOTOR_0 h);
    [destruct (motor0Index log <? 0); discriminate|].
  destruct (_ =? FLIGHT_LOG_FIELD_PREDICTOR_VBATREF h); [discriminate|].
  destruct (_ =? FLIGHT_LOG_FIELD_PREDICTOR_PREVIOUS h);
    [destruct previous; discriminate|].
  destruct (Z.eqb_spec predictor (FLIGHT_LOG_FIELD_PREDICTOR_STRAIGHT_LINE h))
    as [Hsl|Hsl].
  { destruct previous as [p|]; [|discriminate].
    destruct previous2 as [p2|]; [discriminate|].
    destruct Hsafe as [?|[?|[?|[? ?]]]]; congruence. }
  destruct (Z.eqb_spec predictor (FLIGHT_LOG_FIELD_PREDICTOR_AVERAGE_2 h))
    as [Hav|Hav].
  { destruct previous as [p|]; [|discriminate].
    destruct previous2 as [p2|].
    - destruct (aget (mainFieldSigned log) fieldIndex =? 0); discriminate.
    - destruct Hsafe as [?|[?|[?|[? ?]]]]; congruence. }
  destruct (_ =? FLIGHT_LOG_FIELD_PREDICTOR_HOME_COORD h);
    [destruct (home0Index log <? 0); discriminate|].
  destruct (_ =? FLIGHT_LOG_FIELD_PREDICTOR_HOME_COORD_1 h);
    [destruct (home1Index log <? 1); discriminate|].
  discriminate.
Qed.

Lemma store_defined (m : memory) (p : framePtr) (i v : Z) :
  store m p i v <> Undefined.
Proof. unfold store. destruct (_ && _); discriminate. Qed.

Section FrameDefined.

Variables (h : Headers) (log : flightLog) (frameType : Z) (frame : framePtr).
Variables (previous previous2 : option framePtr) (raw : bool).

Hypothesis safe :
  previous = None \/ previous2 <> None \/ raw = true
  \/ forall i,
       aget (predictor (frameDefs log frameType)) i
       <> FLIGHT_LOG_FIELD_PREDICTOR_STRAIGHT_LINE h
       /\ aget (predictor (frameDefs log frameType)) i
          <> FLIGHT_LOG_FIELD_PREDICTOR_AVERAGE_2 h.

Lemma safe_prediction (m : memory) (i value : Z) :
  applyPrediction h log m i
    (if raw then FLIGHT_LOG_FIELD_PREDICTOR_0 h
     else aget (predictor (frameDefs log frameType)) i)
    value frame previous previous2 <> Undefined.
Proof.
  apply applyPrediction_defined.
  destruct safe as [?|[?|[Hr|Hp]]]; auto.
  - rewrite Hr. auto.
  - destruct raw; auto.
Qed.

Lemma applyGroup_defined :
  forall (values : list Z) (i : Z) (m : memory),
    applyGroup h log raw (predictor (frameDefs log frameType)) values i frame
      previous previous2 m <> Undefined.
Proof.
  induction values as [|v values IH]; intros i m; cbn [applyGroup];
    [discriminate|].
  apply bind_defined; [apply safe_prediction|]. intros a.
  apply bind_defined; [apply store_defined|]. intros m1. apply IH.
Qed.

Lemma parseFrame_loop_defined (fieldCount skippedFrames : Z) :
  forall (fuel : nat) (i : Z) (c : cursor) (m : memory),
    parseFrame_loop h log fuel frameType frame previous previous2 fieldCount
      skippedFrames raw i c m <> Undefined.
Proof.
  induction fuel as [|fuel IH]; intros i c m; cbn [parseFrame_loop].
  - destruct (i <? fieldCount); discriminate.
  - destruct (i <? fieldCount); [|discriminate]. cbv zeta.
    assert (Hsingle : forall value c1,
              (let* v := applyPrediction h log m i
                           (if raw then FLIGHT_LOG_FIELD_PREDICTOR_0 h
                            else aget (predictor (frameDefs log frameType)) i)
                           value frame previous previous2 in
               let* m1 := store m frame i v in
               parseFrame_loop h log fuel frameType frame previous previous2
                 fieldCount skippedFrames raw (i + 1) c1 m1)
              <> Undefined).
    { intros value c1. apply bind_defined; [apply safe_prediction|].
      intros a. apply bind_defined; [apply store_defined|]. intros m1. apply IH. }
    assert (Hgroup : forall values c1,
              (let* (i', m1) := applyGroup h log raw
                                  (predictor (frameDefs log frameType)) values i
                                  frame previous previous2 m in
               parseFrame_loop h log fuel frameType frame previous previous2
                 fieldCount skippedFrames raw i' c1 m1)
              <> Undefined).
    { intros values c1. apply bind_defined; [apply applyGroup_defined|].
      intros [i1 m1]. apply IH. }
    destruct (_ =? FLIGHT_LOG_FIELD_PREDICTOR_INC h).
    { apply bind_defined; [apply store_defined|]. intros m1.
      apply bind_defined; [|intros m2; apply IH].
      destruct previous; [apply store_defined | discriminate]. }
    destruct (_ =? FLIGHT_LOG_FIELD_ENCODING_SIGNED_VB h).
    { destruct (readSignedVB log c). apply Hsingle. }
    destruct (_ =? FLIGHT_LOG_FIELD_ENCODING_UNSIGNED_VB h).
    { destruct (readUnsignedVB log c). apply Hsingle. }
    destruct (_ =? FLIGHT_LOG_FIELD_ENCODING_NEG_14BIT h).
    { destruct (readUnsignedVB log c). apply Hsingle. }
    destruct (_ =? FLIGHT_LOG_FIELD_ENCODING_TAG8_4S16 h).
    { destruct (if dataVersion log <? 2 then _ else _). apply Hgroup. }
    destruct (_ =? FLIGHT_LOG_FIELD_ENCODING_TAG2_3S32 h).
    { destruct (readTag2_3S32 log c). apply Hgroup. }
    destruct (_ =? FLIGHT_LOG_FIELD_ENCODING_TAG8_8SVB h).
    { destruct (readTag8_8SVB log _ c). apply Hgroup. }
    destruct (_ =? FLIGHT_LOG_FIELD_ENCODING_NULL h); [apply Hsingle|].
    discriminate.
Qed.

End FrameDefined.

Lemma countSkippedFrames_defined (h : Headers) (log : flightLog) (wrap : Z -> Z) :
  positiveIntervals log ->
  forall (fuel : nat) (frameIndex skippedFrames : Z),
    countSkippedFrames h log fuel wrap frameIndex skippedFrames <> Undefined.
Proof.
  intros Hpos. induction fuel as [|fuel IH]; intros frameIndex skippedFrames;
    cbn [countSkippedFrames]; [discriminate|].
  destruct (shouldHaveFrame_defined h log frameIndex Hpos) as [b ->].
  cbn [bind]. destruct b; [discriminate | apply IH].
Qed.

Lemma parse_defined (t : flightLogFrameType_t) (h : Headers) (log : flightLog)
  (fuel : nat) (raw : bool) (s : parser) :
  positiveIntervals log -> keyframesSelfContained h log raw -> ringInvariant s ->
  parse t h log fuel raw s <> Undefined.
Proof.
  intros Hpos Hkey [_ Hring]. destruct t; cbn [parse].
  - unfold parseIntraframe. cbv zeta.
    apply bind_defined.
    + destruct (mainHistory1 s); [|discriminate].
      apply bind_defined; [now apply countSkippedFrames_defined | discriminate].
    + intros [n s1]. apply bind_defined; [|discriminate].
      apply parseFrame_loop_defined. destruct Hkey; auto.
  - unfold parseInterframe. cbv zeta.
    apply bind_defined.
    + destruct (mainHistory1 s); [|discriminate].
      now apply countSkippedFrames_defined.
    + intros n. apply bind_defined; [|discriminate].
      apply parseFrame_loop_defined.
      destruct (mainHistory1 s), (mainHistory2 s); try contradiction; auto.
      right. left. discriminate.
  - unfold parseGPSFrame. apply bind_defined; [|discriminate].
    apply parseFrame_loop_defined. auto.
  - unfold parseGPSHomeFrame. apply bind_defined; [|discriminate].
    apply parseFrame_loop_defined. auto.
  - discriminate.
Qed.

Lemma beginFrame_defined (h : Headers) (log : flightLog) (fuel : nat) (raw : bool)
  (command : Z) (s s' : parser) :
  positiveIntervals log -> keyframesSelfContained h log raw -> ringInvariant s ->
  beginFrame h log fuel raw command s <> Stop StopUndefined s'.
Proof.
  intros Hpos Hkey Hs. unfold beginFrame.
  destruct (command =? EOF); [discriminate|].
  destruct (getFrameType (to_uint8 command)) as [t|]; [|discriminate].
  pose proof (parse_defined t h log fuel raw
                (set_locals s (prematureEof s) (logPos (cur s)) (lastFrameType s))
                Hpos Hkey) as Hp.
  destruct (parse t h log fuel raw _); try discriminate.
  exfalso. apply Hp; [|reflexivity].
  eapply ringInvariant_same; [| | | |exact Hs]; auto.
Qed.

Lemma dataIteration_defined (h : Headers) (log : flightLog) (fuel : nat)
  (raw : bool) (s s' : parser) :
  positiveIntervals log -> keyframesSelfContained h log raw -> ringInvariant s ->
  dataIteration h log fuel raw s <> Stop StopUndefined s'.
Proof.
  intros Hpos Hkey Hs. unfold dataIteration.
  destruct (readChar log (cur s)) as [command c1].
  cbn [lastFrameType set_cur].
  assert (H1 : ringInvariant (set_cur s c1))
    by (eapply ringInvariant_same; [| | | |exact Hs]; auto).
  destruct (lastFrameType s) as [lastType|].
  - destruct (_ && _); [|discriminate].
    apply beginFrame_defined; try assumption.
    apply complete_ringInvariant.
    eapply ringInvariant_same; [| | | |exact H1]; auto.
  - now apply beginFrame_defined.
Qed.

(** The data phase reads no NULL pointer and divides by no zero.  With a
    keyframe interval and a delta-frame fraction of positive numbers, and
    keyframes whose fields are not predicted from two earlier frames, no
    run from the state in which [flightLogParse] enters the data phase
    stops in one of those undefined behaviours, whatever the bytes of the
    log: a delta frame is never decoded with the frame before last missing
    while the last one is there. *)
Theorem data_phase_defined (h : Headers) (log : flightLog) (raw : bool)
  (fuel : nat) (s s' : parser) :
  positiveIntervals log -> keyframesSelfContained h log raw -> ringInvariant s ->
  flightLogParseData h log raw fuel s <> Stop StopUndefined s'.
Proof.
  intros Hpos Hkey. unfold flightLogParseData.
  generalize fuel at 2. intros n. revert s.
  induction n as [|n IH]; intros s Hs; cbn [dataLoop]; [discriminate|].
  pose proof (dataIteration_defined h log fuel raw s s' Hpos Hkey Hs) as Hd.
  pose proof (dataIteration_rule h log fuel raw ringInvariant) as Hrule.
  destruct (dataIteration h log fuel raw s) as [s1|s1|why s1] eqn:Hit;
    [|discriminate|exact Hd].
  apply IH. change s1 with (stateOf (Continue s1)). rewrite <- Hit.
  apply Hrule; try assumption.
  - intros s0 c. apply ringInvariant_same; auto.
  - intros s0 pe fs lft. apply ringInvariant_same; auto.
  - intros s0 m k. apply ringInvariant_same; auto.
  - intros s0 t fs fe. apply complete_ringInvariant.
  - intros s0 t k. apply corruptFrame_ringInvariant.
  - intros s0 s2 t Hs0 Hp. apply parse_sameControl in Hp.
    destruct Hp as (Hv & _ & H0 & H1 & H2 & _).
    eapply ringInvariant_same; [exact H0 | exact H1 | exact H2 | | exact Hs0].
    congruence.
  - intros s0. apply ringInvariant_same; auto. discriminate.
  - intros s0. apply ringInvariant_same; auto.
Qed.

Lemma data_phase_defined_witness :
  let h := blackboxHeaders true in
  let log := mainLog h [73; 0; 10; 80; 4; 80; 4; 80; 4] 1 1 in
  flightLogParseData h log false 16 entry <> Stop StopUndefined entry.
Proof.
  cbv zeta.
  apply (data_phase_defined (blackboxHeaders true)
           (mainLog (blackboxHeaders true) [73; 0; 10; 80; 4; 80; 4; 80; 4] 1 1)
           false 16 entry entry).
  - unfold positiveIntervals, INT_MAX. cbn. lia.
  - right. intros i. unfold aget. cbn.
    destruct (i <? 0); [split; discriminate|].
    destruct (Z.to_nat i) as [|[|[|k]]]; cbn; split; discriminate.
  - vm_compute. split; reflexivity.
Defined.

(** ** Termination, on an example *)

Lemma flightLogParseData_terminated_witness :
  let h := blackboxHeaders true in
  let log := mainLog h [73; 0; 10; 80; 4; 99; 73; 1; 20; 80; 2] 1 1 in
  terminated (flightLogParseData h log false (enoughFuel log entry) entry).
Proof.
  cbv zeta.
  apply (flightLogParseData_terminated (blackboxHeaders true)
           (mainLog (blackboxHeaders true) [73; 0; 10; 80; 4; 99; 73; 1; 20; 80; 2] 1 1)
           false entry).
  - unfold positiveIntervals, INT_MAX. cbn. lia.
  - unfold frameStartInside. cbn. lia.
Defined.

(** ** The battery voltage *)

(** [flightLogVbatToMillivolts] is exact while the product fits an [int]:
    the result is [vbat * 330 * vbatscale / 4095], rounded down, and a
    higher reading never gives a lower voltage.  With the default
    [vbatscale] of 110 that covers every reading of the 12-bit converter. *)
Theorem flightLogVbatToMillivolts_exact (log : flightLog) (vbat vbat' : Z) :
  0 <= vbatscale log ->
  0 <= vbat <= vbat' -> vbat' <= 65535 ->
  vbat' * 330 * vbatscale log <= INT_MAX ->
  flightLogVbatToMillivolts log vbat = vbat * 330 * vbatscale log / 4095
  /\ flightLogVbatToMillivolts log vbat <= flightLogVbatToMillivolts log vbat'.
Proof.
  intros Hscale Hv Hmax Hfit.
  assert (Hexact : forall v, 0 <= v <= vbat' ->
            flightLogVbatToMillivolts log v = v * 330 * vbatscale log / 4095).
  { intros v Hr. unfold flightLogVbatToMillivolts, to_uint16.
    rewrite (Z.mod_small v) by lia.
    assert (0 <= v * 330 * vbatscale log <= vbat' * 330 * vbatscale log) by nia.
    rewrite to_int32_small by (unfold INT_MIN, INT_MAX in *; lia).
    rewrite Z.quot_div_nonneg by lia.
    apply to_uint32_small. split; [apply Z.div_pos; lia|].
    apply Z.div_lt_upper_bound; unfold INT_MAX in *; lia. }
  rewrite !Hexact by lia. split; [reflexivity|].
  apply Z.div_le_mono; [lia | nia].
Qed.

Lemma flightLogVbatToMillivolts_exact_witness :
  flightLogVbatToMillivolts (defaultLog []) 1000 = 1000 * 330 * 110 / 4095
  /\ flightLogVbatToMillivolts (defaultLog []) 1000
     <= flightLogVbatToMillivolts (defaultLog []) 4095.
Proof.
  apply (flightLogVbatToMillivolts_exact (defaultLog []) 1000 4095);
    unfold INT_MAX; cbn; lia.
Defined.

(** ** Field statistics *)

Lemma updateFieldStatistic_at (log : flightLog) (first : bool) (fields : list Z)
  (f : Z -> flightLogFieldStatistics_t) (i : Z) :
  updateFieldStatistic log first fields f i i
  = if first then {| min := statValue log fields i; max := statValue log fields i |}
    else {| min := if statValue log fields i <? min (f i)
                   then statValue log fields i else min (f i);
            max := if statValue log fields i >? max (f i)
                   then statValue log fields i else max (f i) |}.
Proof.
  unfold updateFieldStatistic, statValue. cbv zeta.
  destruct first; apply upd_same.
Qed.

Lemma updateFieldStatistic_other (log : flightLog) (first : bool) (fields : list Z)
  (f : Z -> flightLogFieldStatistics_t) (i j : Z) :
  j <> i -> updateFieldStatistic log first fields f i j = f j.
Proof.
  intros Hne. unfold updateFieldStatistic. cbv zeta.
  destruct first; now apply upd_other.
Qed.

(** The loop over the fields: every index of the list is updated once, from
    the statistics the field had before the loop, the others are not
    touched. *)
Lemma fold_updateFieldStatistic (log : flightLog) (first : bool) (fields : list Z) :
  forall (l : list Z) (f : Z -> flightLogFieldStatistics_t) (i : Z),
    NoDup l ->
    (In i l ->
     fold_left (updateFieldStatistic log first fields) l f i
     = updateFieldStatistic log first fields f i i)
    /\ (~ In i l ->
        fold_left (updateFieldStatistic log first fields) l f i = f i).
Proof.
  induction l as [|a l IH]; intros f i Hnd; cbn [fold_left In].
  - split; [contradiction | reflexivity].
  - inversion Hnd as [|? ? Hna Hnd']; subst.
    destruct (IH (updateFieldStatistic log first fields f a) i Hnd') as [Hin Hout].
    split.
    + intros [->|Hil].
      * now rewrite Hout.
      * rewrite (Hin Hil).
        assert (Hne : i <> a) by (intros ->; contradiction).
        rewrite !updateFieldStatistic_at.
        now rewrite (updateFieldStatistic_other log first fields f a i Hne).
    + intros Hni. rewrite Hout by tauto.
      apply updateFieldStatistic_other. intros ->. tauto.
Qed.

Lemma NoDup_map_of_nat (l : list nat) : NoDup l -> NoDup (map Z.of_nat l).
Proof.
  induction 1 as [|x l Hx Hl IH]; cbn [map]; constructor; [|exact IH].
  rewrite in_map_iff. intros (k & Hk & Hin).
  apply Nat2Z.inj in Hk. subst k. contradiction.
Qed.

Lemma field_indices (n : Z) (i : Z) :
  NoDup (map Z.of_nat (seq 0 (Z.to_nat n)))
  /\ (In i (map Z.of_nat (seq 0 (Z.to_nat n))) <-> 0 <= i < n).
Proof.
  split.
  - apply NoDup_map_of_nat, seq_NoDup.
  - rewrite in_map_iff. split.
    + intros (k & <- & Hk). apply in_seq in Hk. lia.
    + intros Hi. exists (Z.to_nat i). split; [lia|]. apply in_seq. lia.
Qed.

(** [updateFieldStatistics] keeps every field of the frame between the
    minimum and the maximum of its statistics, compared as unsigned unless
    the field is signed: for each of the [mainFieldCount] fields the new
    minimum and maximum are either the value or what they were, with the
    value between them; the statistics of every other index are not
    touched. *)
Theorem updateFieldStatistics_bounds (log : flightLog) (st : flightLogStatistics_t)
  (fields : list Z) (i : Z) :
  (0 <= i < mainFieldCount log ->
   min (field (updateFieldStatistics log st fields) i) <= statValue log fields i
   /\ statValue log fields i <= max (field (updateFieldStatistics log st fields) i)
   /\ (min (field (updateFieldStatistics log st fields) i) = statValue log fields i
       \/ min (field (updateFieldStatistics log st fields) i) = min (field st i))
   /\ (max (field (updateFieldStatistics log st fields) i) = statValue log fields i
       \/ max (field (updateFieldStatistics log st fields) i) = max (field st i)))
  /\ (~ 0 <= i < mainFieldCount log ->
      field (updateFieldStatistics log st fields) i = field st i).
Proof.
  unfold updateFieldStatistics. cbv zeta. cbn [field set_field].
  set (first := _ <=? 1).
  destruct (field_indices (mainFieldCount log) i) as [Hnd Hin].
  destruct (fold_updateFieldStatistic log first fields _ (field st) i Hnd)
    as [Hupd Hkeep].
  split.
  - intros Hi. rewrite (Hupd (proj2 Hin Hi)), updateFieldStatistic_at.
    destruct first; cbn [min max]; [lia|].
    destruct (Z.ltb_spec (statValue log fields i) (min (field st i)));
      destruct (Z.gtb_spec (statValue log fields i) (max (field st i))); lia.
  - intros Hi. apply Hkeep. rewrite Hin. exact Hi.
Qed.

Lemma updateFieldStatistics_bounds_witness :
  let log := mainLog (blackboxHeaders true) [] 1 1 in
  min (field (updateFieldStatistics log zeroStatistics [7; 9]) 1) <= 9
  /\ 9 <= max (field (updateFieldStatistics log zeroStatistics [7; 9]) 1).
Proof.
  cbv zeta.
  destruct (proj1 (updateFieldStatistics_bounds
                     (mainLog (blackboxHeaders true) [] 1 1) zeroStatistics [7; 9] 1))
    as (H1 & H2 & _); [cbn; lia|].
  split; [exact H1 | exact H2].
Defined.

(** ** Completion of a keyframe *)

(** The test of [completeIntraframe], as a proposition. *)
Lemma completeIntraframe_test (raw : bool) (iteration time maxIteration maxTime : Z) :
  raw || ((iteration >=? maxIteration) && (time >=? maxTime)) = true
  <-> raw = true \/ (maxIteration <= iteration /\ maxTime <= time).
Proof.
  rewrite orb_true_iff, andb_true_iff, !Z.geb_le. reflexivity.
Qed.

(** C3: at the completion of an I frame the frame is accepted if and only
    if [raw] is set or the iteration counter and the timestamp of the frame,
    as unsigned 32-bit numbers, are at least the recorded maxima.
    - An accepted frame marks the main stream valid and updates the
      statistics of each of the [mainFieldCount] fields from the value of
      the field in the frame (as an unsigned number unless the field is
      signed): the minimum and the maximum are that value when at most one
      main frame was counted so far, and otherwise the smaller and the
      larger of the value and what they were; nothing else of the
      statistics changes.  The handler is called with the frame as valid;
      then the history is rotated: previous and previous-previous both point
      at the frame, and the current slot is the next row of the ring of
      three.
    - A frame that fails the test leaves the main stream invalid and clears
      the previous and previous-previous slots; the statistics and the
      current slot stay as they are, and the handler gets the frame as
      invalid.
    The frame buffers are not written. *)
Theorem completeIntraframe_accepts_iff (log : flightLog)
  (frameType frameStart frameEnd : Z) (raw : bool) (s : parser) :
  let current := mainHistory0 s in
  let fields := frameAt (mem s) current in
  let iteration := to_uint32 (load (mem s) current FLIGHT_LOG_FIELD_INDEX_ITERATION) in
  let time := to_uint32 (load (mem s) current FLIGHT_LOG_FIELD_INDEX_TIME) in
  let accepted :=
    raw = true
    \/ (max (field (stats s) FLIGHT_LOG_FIELD_INDEX_ITERATION) <= iteration
        /\ max (field (stats s) FLIGHT_LOG_FIELD_INDEX_TIME) <= time) in
  let first :=
    to_uint32 (validCount (frame (stats s) (marker IntraFrame))
               + validCount (frame (stats s) (marker InterFrame))) <= 1 in
  let report valid :=
    if onFrameReady log
    then calls s ++ [FrameReady valid
                       (Some (firstn (Z.to_nat (mainFieldCount log)) fields))
                       frameType (mainFieldCount log) frameStart
                       (frameEnd - frameStart)]
    else calls s in
  let s' := completeIntraframe log frameType frameStart frameEnd raw s in
  (mainStreamIsValid s' = true <-> accepted)
  /\ (accepted ->
      (forall i, 0 <= i < mainFieldCount log ->
         (first ->
          min (field (stats s') i) = statValue log fields i
          /\ max (field (stats s') i) = statValue log fields i)
         /\ (~ first ->
             min (field (stats s') i)
             = Z.min (statValue log fields i) (min (field (stats s) i))
             /\ max (field (stats s') i)
                = Z.max (statValue log fields i) (max (field (stats s) i))))
      /\ (forall i, ~ 0 <= i < mainFieldCount log ->
            field (stats s') i = field (stats s) i)
      /\ frame (stats s') = frame (stats s)
      /\ totalCorruptFrames (stats s') = totalCorruptFrames (stats s)
      /\ intentionallyAbsentIterations (stats s')
         = intentionallyAbsentIterations (stats s)
      /\ calls s' = report true
      /\ mainHistory1 s' = Some current
      /\ mainHistory2 s' = Some current
      /\ (forall k : nat, current = RingRow k -> (k < 3)%nat ->
            mainHistory0 s' = RingRow ((k + 1) mod 3)))
  /\ (~ accepted ->
      mainStreamIsValid s' = false
      /\ mainHistory1 s' = None
      /\ mainHistory2 s' = None
      /\ mainHistory0 s' = current
      /\ stats s' = stats s
      /\ calls s' = report false)
  /\ mem s' = mem s.
Proof.
  cbv zeta.
  pose proof (completeIntraframe_test raw
                (to_uint32 (load (mem s) (mainHistory0 s)
                              FLIGHT_LOG_FIELD_INDEX_ITERATION))
                (to_uint32 (load (mem s) (mainHistory0 s) FLIGHT_LOG_FIELD_INDEX_TIME))
                (max (field (stats s) FLIGHT_LOG_FIELD_INDEX_ITERATION))
                (max (field (stats s) FLIGHT_LOG_FIELD_INDEX_TIME))) as Htest.
  unfold completeIntraframe, mainFrameReady, flightLoginvalidateStream. cbv zeta.
  destruct (raw || _) eqn:Hb.
  - (* accepted *)
    assert (Hacc := proj1 Htest eq_refl). clear Htest.
    assert (Hstats :
              forall i,
                (0 <= i < mainFieldCount log ->
                 field (updateFieldStatistics log (stats s)
                          (frameAt (mem s) (mainHistory0 s))) i
                 = updateFieldStatistic log
                     (to_uint32 (validCount (frame (stats s) (marker IntraFrame))
                                 + validCount (frame (stats s) (marker InterFrame)))
                        <=? 1)
                     (frameAt (mem s) (mainHistory0 s)) (field (stats s)) i i)
                /\ (~ 0 <= i < mainFieldCount log ->
                    field (updateFieldStatistics log (stats s)
                             (frameAt (mem s) (mainHistory0 s))) i
                    = field (stats s) i)).
    { intros i. unfold updateFieldStatistics. cbv zeta. cbn [field set_field].
      destruct (field_indices (mainFieldCount log) i) as [Hnd Hin].
      destruct (fold_updateFieldStatistic log
                  (to_uint32 (validCount (frame (stats s) (marker IntraFrame))
                              + validCount (frame (stats s) (marker InterFrame)))
                     <=? 1)
                  (frameAt (mem s) (mainHistory0 s)) _ (field (stats s)) i Hnd)
        as [Hupd Hkeep].
      split; intros Hi; [apply Hupd | apply Hkeep]; rewrite Hin; exact Hi. }
    assert (Hrow : forall k : nat, (k < 3)%nat ->
              nextRingRow (RingRow k) = RingRow ((k + 1) mod 3)).
    { intros k Hk. destruct k as [|[|[|k]]]; [reflexivity .. | lia]. }
    destruct (onFrameReady log);
      cbn [mainStreamIsValid stats mem mainHistory0 mainHistory1 mainHistory2
           set_mainHistory set_mainStreamIsValid set_stats call calls];
      (split; [tauto|]); (split; [|split; [tauto | reflexivity]]); intros _;
      (split; [|split; [intros i Hi; exact (proj2 (Hstats i) Hi)|
                repeat (split; [reflexivity|]);
                intros k -> Hk; exact (Hrow k Hk)]]);
      intros i Hi; rewrite (proj1 (Hstats i) Hi), updateFieldStatistic_at;
      (split; [intros Hfirst; apply Z.leb_le in Hfirst; rewrite Hfirst;
               cbn [min max]; split; reflexivity|]);
      intros Hfirst; apply Z.leb_nle in Hfirst; rewrite Hfirst; cbn [min max];
      (split; [destruct (Z.ltb_spec (statValue log (frameAt (mem s) (mainHistory0 s)) i)
                           (min (field (stats s) i))); lia
              |destruct (Z.gtb_spec (statValue log (frameAt (mem s) (mainHistory0 s)) i)
                           (max (field (stats s) i))); lia]).
  - (* rejected *)
    assert (Hrej : ~ (raw = true
                      \/ max (field (stats s) FLIGHT_LOG_FIELD_INDEX_ITERATION)
                         <= to_uint32 (load (mem s) (mainHistory0 s)
                                         FLIGHT_LOG_FIELD_INDEX_ITERATION)
                         /\ max (field (stats s) FLIGHT_LOG_FIELD_INDEX_TIME)
                            <= to_uint32 (load (mem s) (mainHistory0 s)
                                            FLIGHT_LOG_FIELD_INDEX_TIME))).
    { intros H. apply Htest in H. discriminate. }
    clear Htest.
    destruct (onFrameReady log);
      cbn [mainStreamIsValid stats mem mainHistory0 mainHistory1 mainHistory2
           set_mainHistory set_mainStreamIsValid set_stats call calls];
      (split; [split; [discriminate | tauto]|]);
      (split; [tauto|]); (split; [|reflexivity]); intros _;
      repeat (split; [reflexivity|]); reflexivity.
Qed.

Lemma completeIntraframe_accepts_iff_witness :
  let h := blackboxHeaders true in
  let log := mainLog h [73; 5; 10] 1 1 in
  let s := afterPasses h log false 1 in
  let s' := completeIntraframe log 73 1 3 false s in
  mainStreamIsValid s' = true
  /\ min (field (stats s') 1) = 10
  /\ max (field (stats s') 1) = 10
  /\ mainHistory1 s' = Some (RingRow 0)
  /\ mainHistory0 s' = RingRow 1.
Proof.
  cbv zeta.
  set (log := mainLog (blackboxHeaders true) [73; 5; 10] 1 1).
  set (s := afterPasses (blackboxHeaders true) log false 1).
  pose proof (completeIntraframe_accepts_iff log 73 1 3 false s) as H.
  cbv zeta in H. destruct H as (Hiff & Hacc & _).
  assert (A : false = true
              \/ (max (field (stats s) FLIGHT_LOG_FIELD_INDEX_ITERATION)
                  <= to_uint32 (load (mem s) (mainHistory0 s)
                                  FLIGHT_LOG_FIELD_INDEX_ITERATION)
                  /\ max (field (stats s) FLIGHT_LOG_FIELD_INDEX_TIME)
                     <= to_uint32 (load (mem s) (mainHistory0 s)
                                     FLIGHT_LOG_FIELD_INDEX_TIME))).
  { right. vm_compute. split; discriminate. }
  destruct (Hacc A) as (Hfield & _ & _ & _ & _ & _ & H1 & _ & H0).
  assert (F : to_uint32 (validCount (frame (stats s) (marker IntraFrame))
                         + validCount (frame (stats s) (marker InterFrame))) <= 1)
    by (vm_compute; discriminate).
  destruct (proj1 (Hfield 1 ltac:(vm_compute; split; [discriminate | reflexivity])) F)
    as [Hmin Hmax].
  split; [exact (proj2 Hiff A)|].
  split; [etransitivity; [exact Hmin | vm_compute; reflexivity]|].
  split; [etransitivity; [exact Hmax | vm_compute; reflexivity]|].
  split; [etransitivity; [exact H1 | vm_compute; reflexivity]|].
  apply (H0 0%nat); [vm_compute; reflexivity | lia].
Defined.

(** ** The iteration number of a delta frame *)

Lemma mod32_to_int32 (a : Z) : (to_int32 a) mod 2 ^ 32 = a mod 2 ^ 32.
Proof.
  unfold to_int32. rewrite Zminus_mod_idemp_l.
  f_equal. lia.
Qed.

Lemma mod32_to_uint32 (a : Z) : (to_uint32 a) mod 2 ^ 32 = a mod 2 ^ 32.
Proof. unfold to_uint32. apply Z.mod_mod. lia. Qed.

Lemma mod32_add (a a' b b' : Z) :
  a mod 2 ^ 32 = a' mod 2 ^ 32 -> b mod 2 ^ 32 = b' mod 2 ^ 32 ->
  (a + b) mod 2 ^ 32 = (a' + b') mod 2 ^ 32.
Proof.
  intros Ha Hb. rewrite (Z.add_mod a b), (Z.add_mod a' b') by lia.
  now rewrite Ha, Hb.
Qed.

Lemma to_int32_eq (a b : Z) :
  a mod 2 ^ 32 = b mod 2 ^ 32 -> to_int32 a = to_int32 b.
Proof.
  intros H. unfold to_int32. f_equal. now apply mod32_add.
Qed.

Lemma to_uint32_eq (a b : Z) :
  a mod 2 ^ 32 = b mod 2 ^ 32 -> to_uint32 a = to_uint32 b.
Proof. intros H. exact H. Qed.

(** Reduces an equation between sums modulo [2 ^ 32] to its summands,
    dropping the conversions between the 32-bit types. *)
Ltac mod32 :=
  repeat first
    [ reflexivity
    | rewrite mod32_to_int32
    | rewrite mod32_to_uint32
    | apply mod32_add ].

Lemma shouldHaveFrame_congr (h : Headers) (log : flightLog) (x y : Z) :
  x mod 2 ^ 32 = y mod 2 ^ 32 -> shouldHaveFrame h log x = shouldHaveFrame h log y.
Proof.
  intros H. unfold shouldHaveFrame. now rewrite (to_int32_eq x y H).
Qed.

(** What the counting loop returns: the number [d] of turns it made, in the
    type of [skippedFrames]; the filter lets the index [d] after the first
    one pass and none before it. *)
Lemma countSkippedFrames_spec (h : Headers) (log : flightLog) (wrap : Z -> Z) :
  (forall x, (wrap x) mod 2 ^ 32 = x mod 2 ^ 32) ->
  forall (fuel : nat) (frameIndex skippedFrames n : Z),
    countSkippedFrames h log fuel wrap frameIndex skippedFrames = Ok n ->
    exists d : nat,
      n mod 2 ^ 32 = (skippedFrames + Z.of_nat d) mod 2 ^ 32
      /\ shouldHaveFrame h log (frameIndex + Z.of_nat d) = Ok true
      /\ forall j : nat, (j < d)%nat ->
           shouldHaveFrame h log (frameIndex + Z.of_nat j) = Ok false.
Proof.
  intros Hwrap. induction fuel as [|fuel IH]; intros frameIndex skippedFrames n;
    cbn [countSkippedFrames]; [discriminate|].
  destruct (shouldHaveFrame h log frameIndex) as [b| | | |] eqn:Hb; cbn [bind];
    try discriminate.
  destruct b.
  - intros Hn. inversion Hn. subst n. exists 0%nat.
    rewrite !Z.add_0_r. repeat split; auto. intros j Hj. lia.
  - intros Hn. apply IH in Hn. destruct Hn as (d & Hd & Htrue & Hfalse).
    exists (S d). repeat split.
    + rewrite Hd. rewrite Nat2Z.inj_succ.
      replace (skippedFrames + Z.succ (Z.of_nat d))
        with (skippedFrames + 1 + Z.of_nat d) by lia.
      apply mod32_add; [apply Hwrap | reflexivity].
    + rewrite <- Htrue. apply shouldHaveFrame_congr.
      rewrite Nat2Z.inj_succ.
      replace (frameIndex + Z.succ (Z.of_nat d))
        with (frameIndex + 1 + Z.of_nat d) by lia.
      symmetry. mod32.
    + intros [|j] Hj; [now rewrite Z.add_0_r|].
      rewrite <- (Hfalse j) by lia. apply shouldHaveFrame_congr.
      rewrite Nat2Z.inj_succ.
      replace (frameIndex + Z.succ (Z.of_nat j))
        with (frameIndex + 1 + Z.of_nat j) by lia.
      symmetry. mod32.
Qed.

(** The first field of a frame, when its predictor is [INC]: the number of
    skipped iterations plus one, added to the field of the previous frame if
    there is one.  The later fields do not change it. *)
Lemma parseFrame_INC_first (h : Headers) (log : flightLog) (frameType : Z)
  (frame : framePtr) (previous previous2 : option framePtr)
  (fieldCount skippedFrames : Z) (raw : bool) (c : cursor) (m : memory)
  (c' : cursor) (m' : memory) :
  0 < fieldCount ->
  aget (predictor (frameDefs log frameType)) 0 = FLIGHT_LOG_FIELD_PREDICTOR_INC h ->
  previous <> Some frame ->
  parseFrame h log frameType frame previous previous2 fieldCount skippedFrames
    raw c m = Ok (c', m') ->
  load m' frame 0
  = match previous with
    | Some p => to_int32 (to_int32 (skippedFrames + 1) + load m p 0)
    | None => to_int32 (skippedFrames + 1)
    end.
Proof.
  intros Hcount Hinc Hprev. unfold parseFrame.
  destruct (Z.to_nat fieldCount) as [|fuel] eqn:Hfuel; [lia|].
  cbn [parseFrame_loop].
  destruct (Z.ltb_spec 0 fieldCount); [|lia]. cbv zeta.
  rewrite Hinc, Z.eqb_refl.
  assert (Hfirst : forall m0 m1 v,
            store m0 frame 0 v = Ok m1 -> load m1 frame 0 = v).
  { intros m0 m1 v Hst. unfold load. rewrite (frameAt_store_same _ _ _ _ _ Hst).
    apply aget_aset_same.
    destruct (store_result m0 frame 0 v) as [[_ Hin]|E]; [exact Hin|congruence]. }
  destruct (store m frame 0 (to_int32 (skippedFrames + 1))) as [m1| | | |] eqn:Hst1;
    cbn [bind]; try discriminate.
  destruct previous as [p|].
  - destruct (store m1 frame 0 _) as [m2| | | |] eqn:Hst2; cbn [bind];
      try discriminate.
    intros Hp. apply parseFrame_loop_effect in Hp.
    destruct Hp as [_ (_ & Hkeep & _)].
    unfold load at 1. rewrite (Hkeep 0) by lia.
    change (aget (frameAt m2 frame) 0) with (load m2 frame 0).
    rewrite (Hfirst _ _ _ Hst2), (Hfirst _ _ _ Hst1).
    f_equal. f_equal. unfold load. f_equal.
    destruct (wroteFrom_store _ _ _ _ _ Hst1) as [Hother _].
    apply Hother. congruence.
  - cbn [bind]. intros Hp. apply parseFrame_loop_effect in Hp.
    destruct Hp as [_ (_ & Hkeep & _)].
    unfold load at 1. rewrite (Hkeep 0) by lia.
    exact (Hfirst _ _ _ Hst1).
Qed.

Lemma countSkippedFrames_range (h : Headers) (log : flightLog) :
  forall (fuel : nat) (frameIndex skippedFrames n : Z),
    0 <= skippedFrames < 2 ^ 32 ->
    countSkippedFrames h log fuel to_uint32 frameIndex skippedFrames = Ok n ->
    0 <= n < 2 ^ 32.
Proof.
  induction fuel as [|fuel IH]; intros frameIndex skippedFrames n Hr;
    cbn [countSkippedFrames]; [discriminate|].
  destruct (shouldHaveFrame h log frameIndex) as [b| | | |]; cbn [bind];
    try discriminate.
  destruct b.
  - intros H. inversion H. subst n. exact Hr.
  - apply IH. apply to_uint32_range.
Qed.

(** A delta frame gets the iteration number that the sampling schedule
    gives it.  With a keyframe interval and a delta-frame fraction of
    positive numbers, the loop of [parseInterframe] that counts the
    iterations left out on purpose returns: there is a first number [d] of
    steps after the iteration of the previous frame at which
    [shouldHaveFrame] lets the iteration pass, the loop returns [d] (as a
    32-bit number), and decoding the frame does not go on for ever.  When
    the first field of P frames has the predictor [INC] and the other
    fields of the frame decode, the iteration field of the frame is the
    number of that iteration, and [d] was added to
    [stats.intentionallyAbsentIterations]. *)
Theorem interframe_iteration_scheduled (h : Headers) (log : flightLog) (fuel : nat)
  (raw : bool) (s : parser) (p : framePtr) :
  let previous := load (mem s) p FLIGHT_LOG_FIELD_INDEX_ITERATION in
  mainHistory1 s = Some p ->
  p <> mainHistory0 s ->
  0 < mainFieldCount log ->
  aget (predictor (frameDefs log (marker InterFrame))) 0
  = FLIGHT_LOG_FIELD_PREDICTOR_INC h ->
  positiveIntervals log ->
  2 ^ 32 < Z.of_nat fuel ->
  exists d : nat,
    countSkippedFrames h log fuel to_uint32 (to_uint32 (to_int32 (previous + 1))) 0
    = Ok (to_uint32 (Z.of_nat d))
    /\ shouldHaveFrame h log (to_uint32 (previous + 1 + Z.of_nat d)) = Ok true
    /\ (forall j : nat, (j < d)%nat ->
          shouldHaveFrame h log (to_uint32 (previous + 1 + Z.of_nat j)) = Ok false)
    /\ parse InterFrame h log fuel raw s <> OutOfFuel
    /\ (forall s',
          parse InterFrame h log fuel raw s = Ok s' ->
          load (mem s') (mainHistory0 s) FLIGHT_LOG_FIELD_INDEX_ITERATION
          = to_int32 (previous + 1 + Z.of_nat d)
          /\ intentionallyAbsentIterations (stats s')
             = to_uint32 (intentionallyAbsentIterations (stats s) + Z.of_nat d)).
Proof.
  cbv zeta. intros Hprev Hne Hcount Hinc Hpos Hfuel.
  unfold FLIGHT_LOG_FIELD_INDEX_ITERATION.
  set (prev := load (mem s) p 0).
  destruct (countSkippedFrames_enough h log to_uint32 fuel (to_int32 (prev + 1)) 0
              Hpos Hfuel) as [n Hskip].
  pose proof (countSkippedFrames_range h log fuel _ 0 n ltac:(lia) Hskip) as Hn.
  pose proof (countSkippedFrames_spec h log to_uint32 mod32_to_uint32 fuel _ 0 n
                Hskip) as (d & Hd & Htrue & Hfalse).
  rewrite Z.add_0_l in Hd.
  assert (En : n = to_uint32 (Z.of_nat d)).
  { unfold to_uint32. rewrite <- Hd. symmetry. apply Z.mod_small. exact Hn. }
  exists d. split; [rewrite <- En; exact Hskip|].
  split.
  { rewrite <- Htrue. apply shouldHaveFrame_congr.
    rewrite mod32_to_uint32.
    replace (prev + 1 + Z.of_nat d) with (prev + 1 + Z.of_nat d + 0) by lia.
    replace (to_uint32 (to_int32 (prev + 1)) + Z.of_nat d)
      with (to_uint32 (to_int32 (prev + 1)) + Z.of_nat d + 0) by lia.
    apply mod32_add; [|reflexivity]. apply mod32_add; [|reflexivity].
    now rewrite mod32_to_uint32, mod32_to_int32. }
  split.
  { intros j Hj. rewrite <- (Hfalse j Hj). apply shouldHaveFrame_congr.
    rewrite mod32_to_uint32.
    apply mod32_add; [|reflexivity].
    now rewrite mod32_to_uint32, mod32_to_int32. }
  split.
  { exact (proj2 (parse_wellParsed InterFrame h log fuel raw s Hpos Hfuel)). }
  intros s'. cbn [parse]. unfold parseInterframe. cbv zeta. rewrite Hprev.
  unfold FLIGHT_LOG_FIELD_INDEX_ITERATION. fold prev. rewrite Hskip. cbn [bind].
  destruct (parseFrame h log _ _ _ _ _ _ _ _ _) as [[c' m']| | | |] eqn:Hp;
    cbn [bind]; try discriminate.
  intros Hs'. inversion Hs'. subst s'. clear Hs'.
  apply parseFrame_INC_first in Hp; try assumption; [|congruence].
  cbn [mem storeParsed set_mem set_cur snd addAbsentIterations set_stats] in *.
  cbn [stats storeParsed set_mem set_cur addAbsentIterations set_stats
       intentionallyAbsentIterations].
  fold prev in Hp. rewrite Hp. split.
  - apply to_int32_eq.
    replace (prev + 1 + Z.of_nat d) with (Z.of_nat d + 1 + prev) by lia.
    apply mod32_add; [|reflexivity]. rewrite mod32_to_int32.
    apply mod32_add; [|reflexivity]. rewrite mod32_to_int32. exact Hd.
  - apply to_uint32_eq. apply mod32_add; [reflexivity | exact Hd].
Qed.

Lemma interframe_iteration_scheduled_witness :
  let h := blackboxHeaders true in
  let log := mainLog h [73; 0; 10; 80; 4] 1 2 in
  let s := set_cur (afterPasses h log false 2) {| logPos := 4; eof := false |} in
  let previous := load (mem s) (RingRow 0) FLIGHT_LOG_FIELD_INDEX_ITERATION in
  exists d : nat,
    shouldHaveFrame h log (to_uint32 (previous + 1 + Z.of_nat d)) = Ok true
    /\ parse InterFrame h log (Z.to_nat (2 ^ 32 + 1)) false s <> OutOfFuel.
Proof.
  cbv zeta.
  set (h := blackboxHeaders true).
  set (log := mainLog h [73; 0; 10; 80; 4] 1 2).
  set (s := set_cur (afterPasses h log false 2) {| logPos := 4; eof := false |}).
  assert (H1 : mainHistory1 s = Some (RingRow 0)) by (vm_compute; reflexivity).
  assert (H2 : RingRow 0 <> mainHistory0 s) by (vm_compute; discriminate).
  assert (H3 : 0 < mainFieldCount log) by (vm_compute; reflexivity).
  assert (H4 : aget (predictor (frameDefs log (marker InterFrame))) 0
               = FLIGHT_LOG_FIELD_PREDICTOR_INC h) by (vm_compute; reflexivity).
  assert (H5 : positiveIntervals log)
    by (unfold positiveIntervals, INT_MAX; cbn; lia).
  assert (H6 : 2 ^ 32 < Z.of_nat (Z.to_nat (2 ^ 32 + 1)))
    by (rewrite Z2Nat.id; lia).
  destruct (interframe_iteration_scheduled h log (Z.to_nat (2 ^ 32 + 1)) false s
              (RingRow 0) H1 H2 H3 H4 H5 H6) as (d & _ & Hd & _ & Hfuel & _).
  exists d. split; [exact Hd | exact Hfuel].
Defined.

(** ** Corrupt frames are counted and reported once *)

Lemma corruptCounted_same (base : list callback) (count0 : Z) (s s' : parser) :
  calls s' = calls s ->
  totalCorruptFrames (stats s') = totalCorruptFrames (stats s) ->
  corruptCounted base count0 s -> corruptCounted base count0 s'.
Proof.
  intros Hc Ht (new & Hcalls & Hf & Hn). exists new. rewrite Hc, Ht. auto.
Qed.

Lemma corruptCounted_call (base : list callback) (count0 : Z) (s : parser)
  (c : callback) :
  withoutFields c = false ->
  corruptCounted base count0 s -> corruptCounted base count0 (call s c).
Proof.
  intros Hc (new & Hcalls & Hf & Hn).
  assert (Hr : reportsCorrupt c = false)
    by (destruct c as [[] [] ? ? ? ?|]; cbn in *; congruence).
  exists (new ++ [c]). cbn [calls call stats].
  rewrite Hcalls, app_assoc, !filter_app. cbn [filter].
  rewrite Hc, Hr, !app_nil_r. auto.
Qed.

Lemma parse_totalCorruptFrames (t : flightLogFrameType_t) (h : Headers)
  (log : flightLog) (fuel : nat) (raw : bool) (s s' : parser) :
  parse t h log fuel raw s = Ok s' ->
  totalCorruptFrames (stats s') = totalCorruptFrames (stats s).
Proof.
  destruct t; cbn [parse].
  - unfold parseIntraframe. cbv zeta.
    destruct (mainHistory1 s) as [p|].
    + destruct (countSkippedFrames h log fuel to_int32 _ 0) as [n| | | |];
        cbn [bind]; try discriminate.
      destruct (parseFrame h log _ _ _ _ _ _ _ _ _) as [r| | | |];
        cbn [bind]; try discriminate.
      intros H. inversion H. reflexivity.
    + cbn [bind].
      destruct (parseFrame h log _ _ _ _ _ _ _ _ _) as [r| | | |];
        cbn [bind]; try discriminate.
      intros H. inversion H. reflexivity.
  - unfold parseInterframe. cbv zeta.
    destruct (match mainHistory1 s with Some _ => _ | None => _ end) as [n| | | |];
      cbn [bind]; try discriminate.
    destruct (parseFrame h log _ _ _ _ _ _ _ _ _) as [r| | | |];
      cbn [bind]; try discriminate.
    intros H. inversion H. reflexivity.
  - unfold parseGPSFrame.
    destruct (parseFrame h log _ _ _ _ _ _ _ _ _) as [r| | | |];
      cbn [bind]; try discriminate.
    intros H. inversion H. reflexivity.
  - unfold parseGPSHomeFrame.
    destruct (parseFrame h log _ _ _ _ _ _ _ _ _) as [r| | | |];
      cbn [bind]; try discriminate.
    intros H. inversion H. reflexivity.
  - intros H. inversion H. unfold parseEventFrame.
    destruct (readByte log (cur s)) as [eventType c0].
    destruct (_ =? FLIGHT_LOG_EVENT_SYNC_BEEP h).
    { destruct (readUnsignedVB log c0). reflexivity. }
    destruct (_ =? FLIGHT_LOG_EVENT_AUTOTUNE_CYCLE_START h).
    { repeat match goal with
             | |- context [readByte log ?c] => destruct (readByte log c)
             end. reflexivity. }
    destruct (_ =? FLIGHT_LOG_EVENT_AUTOTUNE_CYCLE_RESULT h).
    { repeat match goal with
             | |- context [readByte log ?c] => destruct (readByte log c)
             end. reflexivity. }
    reflexivity.
Qed.

Lemma complete_corruptCounted (t : flightLogFrameType_t) (log : flightLog)
  (frameType frameStart0 frameEnd : Z) (raw : bool) (base : list callback)
  (count0 : Z) (s : parser) :
  corruptCounted base count0 s ->
  corruptCounted base count0 (complete t log frameType frameStart0 frameEnd raw s).
Proof.
  intros Hs.
  assert (Hring : forall (b : bool) (x : parser) (p0 : framePtr)
                         (p1 p2 : option framePtr),
             corruptCounted base count0 x ->
             corruptCounted base count0 (if b then set_mainHistory x p0 p1 p2 else x)).
  { intros [] x p0 p1 p2 Hx; [|exact Hx].
    eapply corruptCounted_same; [| |exact Hx]; reflexivity. }
  assert (Hmain : forall (x : parser),
             corruptCounted base count0 x ->
             corruptCounted base count0
               (mainFrameReady log frameType frameStart0 frameEnd x)).
  { intros x Hx. unfold mainFrameReady.
    destruct (onFrameReady log); [|exact Hx].
    apply corruptCounted_call; [reflexivity | exact Hx]. }
  destruct t; cbn [complete].
  - unfold completeIntraframe. cbv zeta. apply Hring. apply Hmain.
    destruct (_ || _); (eapply corruptCounted_same; [| |exact Hs]; reflexivity).
  - unfold completeInterframe. cbv zeta. apply Hring. apply Hmain.
    destruct (mainStreamIsValid s);
      (eapply corruptCounted_same; [| |exact Hs]; reflexivity).
  - unfold completeGPSFrame.
    destruct (onFrameReady log); [|exact Hs].
    apply corruptCounted_call; [reflexivity | exact Hs].
  - unfold completeGPSHomeFrame. cbv zeta.
    destruct (onFrameReady log).
    + apply corruptCounted_call; [reflexivity|].
      eapply corruptCounted_same; [| |exact Hs]; reflexivity.
    + eapply corruptCounted_same; [| |exact Hs]; reflexivity.
  - unfold completeEventFrame. destruct (onEvent log); [|exact Hs].
    apply corruptCounted_call; [reflexivity | exact Hs].
Qed.

Lemma corruptFrame_corruptCounted (log : flightLog) (t : flightLogFrameType_t)
  (lastFrameSize : Z) (base : list callback) (count0 : Z) (s : parser) :
  onFrameReady log = true ->
  corruptCounted base count0 s ->
  corruptCounted base count0 (corruptFrame log t lastFrameSize s).
Proof.
  intros Hf (new & Hcalls & Hfil & Hn). unfold corruptFrame. cbv zeta.
  rewrite Hf. eexists (new ++ [_]).
  cbn [calls call stats set_locals set_cur countCorrupt set_stats
       set_mainStreamIsValid totalCorruptFrames set_frame].
  rewrite Hcalls, app_assoc. split; [reflexivity|].
  rewrite !filter_app. cbn [filter withoutFields reportsCorrupt].
  rewrite Hfil. split; [reflexivity|].
  rewrite Hn, length_app. cbn [length].
  apply to_uint32_eq. rewrite Nat2Z.inj_add.
  replace (count0 + (Z.of_nat (length (filter reportsCorrupt new)) + Z.of_nat 1))
    with (count0 + Z.of_nat (length (filter reportsCorrupt new)) + 1) by lia.
  apply mod32_add; [apply mod32_to_uint32 | reflexivity].
Qed.

(** The count of corrupt frames and the reports agree.  With a frame-ready
    handler, over any number of passes through the data loop,
    [stats.totalCorruptFrames] grows (as an unsigned 32-bit number) by the
    number of calls that report a frame as not valid and without fields,
    and no other call comes without fields: a frame that was decoded is
    handed over with its fields even when it is marked as not valid. *)
Theorem corrupt_frames_counted (h : Headers) (log : flightLog) (raw : bool)
  (fuel n : nat) (s : parser) :
  onFrameReady log = true ->
  0 <= totalCorruptFrames (stats s) < 2 ^ 32 ->
  exists new,
    calls (stateOf (dataLoop h log fuel raw n s)) = calls s ++ new
    /\ filter withoutFields new = filter reportsCorrupt new
    /\ totalCorruptFrames (stats (stateOf (dataLoop h log fuel raw n s)))
       = to_uint32 (totalCorruptFrames (stats s)
                    + Z.of_nat (length (filter reportsCorrupt new))).
Proof.
  intros Hf Hrange.
  apply (dataLoop_rule h log fuel raw
           (corruptCounted (calls s) (totalCorruptFrames (stats s)))).
  - intros s0 c. apply corruptCounted_same; reflexivity.
  - intros s0 pe fs lft. apply corruptCounted_same; reflexivity.
  - intros s0 m k. apply corruptCounted_same; reflexivity.
  - intros s0 t fs fe. apply complete_corruptCounted.
  - intros s0 t k. now apply corruptFrame_corruptCounted.
  - intros s0 s' t Hs0 Hp.
    pose proof (parse_totalCorruptFrames _ _ _ _ _ _ _ Hp) as Ht.
    apply parse_sameControl in Hp.
    destruct Hp as (_ & _ & _ & _ & _ & _ & _ & _ & Hc).
    eapply corruptCounted_same; [exact Hc | exact Ht | exact Hs0].
  - intros s0. apply corruptCounted_same; reflexivity.
  - intros s0. apply corruptCounted_same; reflexivity.
  - exists []. rewrite app_nil_r. cbn [filter length].
    rewrite Z.add_0_r, to_uint32_small by exact Hrange. auto.
Qed.

Lemma corrupt_frames_counted_witness :
  let h := blackboxHeaders true in
  let log := mainLog h [73; 0; 10; 80; 4; 99; 73; 1; 20; 80; 2] 1 1 in
  exists new,
    calls (stateOf (dataLoop h log 64 false 12 entry)) = calls entry ++ new
    /\ filter withoutFields new = filter reportsCorrupt new
    /\ totalCorruptFrames (stats (stateOf (dataLoop h log 64 false 12 entry)))
       = to_uint32 (totalCorruptFrames (stats entry)
                    + Z.of_nat (length (filter reportsCorrupt new))).
Proof.
  cbv zeta.
  apply (corrupt_frames_counted (blackboxHeaders true)
           (mainLog (blackboxHeaders true) [73; 0; 10; 80; 4; 99; 73; 1; 20; 80; 2] 1 1)
           false 64 12 entry).
  - reflexivity.
  - cbn. lia.
Defined.

(** ** The pairs of home coordinates *)

Lemma rewriteHomeCoordPairs_loop_spec (h : Headers) (gpsFieldCount : Z) :
  FLIGHT_LOG_FIELD_PREDICTOR_HOME_COORD h
  <> FLIGHT_LOG_FIELD_PREDICTOR_HOME_COORD_1 h ->
  forall (fuel : nat) (i : Z) (p : list Z),
    1 <= i -> gpsFieldCount <= Z.of_nat (length p) ->
    gpsFieldCount - i <= Z.of_nat fuel ->
    length (rewriteHomeCoordPairs_loop h fuel gpsFieldCount i p) = length p
    /\ (forall j, i <= j < gpsFieldCount ->
          ~ homeCoordPairAt h (rewriteHomeCoordPairs_loop h fuel gpsFieldCount i p) j)
    /\ (forall j,
          aget (rewriteHomeCoordPairs_loop h fuel gpsFieldCount i p) j = aget p j
          \/ (i <= j < gpsFieldCount
              /\ aget p j = FLIGHT_LOG_FIELD_PREDICTOR_HOME_COORD h
              /\ aget (rewriteHomeCoordPairs_loop h fuel gpsFieldCount i p) j
                 = FLIGHT_LOG_FIELD_PREDICTOR_HOME_COORD_1 h
              /\ aget (rewriteHomeCoordPairs_loop h fuel gpsFieldCount i p) (j - 1)
                 = FLIGHT_LOG_FIELD_PREDICTOR_HOME_COORD h)).
Proof.
  intros Htags. induction fuel as [|fuel IH]; intros i p Hi Hlen Hfuel;
    cbn [rewriteHomeCoordPairs_loop].
  - repeat split; auto. intros j Hj. lia.
  - destruct (Z.ltb_spec i gpsFieldCount) as [Hlt|Hge].
    2:{ repeat split; auto. intros j Hj. lia. }
    cbv zeta.
    set (p' := if _ && _ then _ else p).
    assert (Hlen' : length p' = length p)
      by (subst p'; destruct (_ && _); [apply aset_length | reflexivity]).
    assert (Hother : forall j, j <> i -> aget p' j = aget p j).
    { intros j Hj. subst p'. destruct (_ && _); [|reflexivity].
      now apply aget_aset_other. }
    destruct (IH (i + 1) p') as (Hl & Hnone & Hkeep); try lia.
    assert (Hbelow : forall j, j < i + 1 ->
              aget (rewriteHomeCoordPairs_loop h fuel gpsFieldCount (i + 1) p') j
              = aget p' j).
    { intros j Hj. destruct (Hkeep j) as [He|(Hr & _)]; [exact He | lia]. }
    split; [congruence|]. split.
    + intros j Hj. destruct (Z.eq_dec j i) as [->|Hne]; [|apply Hnone; lia].
      unfold homeCoordPairAt. rewrite !Hbelow by lia.
      rewrite (Hother (i - 1)) by lia. intros [Ha Hb]. subst p'.
      rewrite Ha, Z.eqb_refl in Hb. cbn [andb] in Hb.
      destruct (Z.eqb_spec (aget p i) (FLIGHT_LOG_FIELD_PREDICTOR_HOME_COORD h))
        as [Hc|Hc]; [|contradiction].
      rewrite aget_aset_same in Hb by lia. congruence.
    + intros j. destruct (Z.eq_dec j i) as [->|Hne].
      * rewrite !Hbelow by lia. rewrite (Hother (i - 1)) by lia. subst p'.
        destruct (Z.eqb_spec (aget p (i - 1))
                    (FLIGHT_LOG_FIELD_PREDICTOR_HOME_COORD h)) as [Ha|Ha];
          cbn [andb]; [|now left].
        destruct (Z.eqb_spec (aget p i) (FLIGHT_LOG_FIELD_PREDICTOR_HOME_COORD h))
          as [Hb|Hb]; [|now left].
        right. rewrite aget_aset_same by lia. repeat split; auto; lia.
      * destruct (Hkeep j) as [He|(Hr & Hp & Hn & Hprev)].
        -- left. rewrite He. now apply Hother.
        -- right. rewrite <- (Hother j Hne). repeat split; auto; lia.
Qed.

(** A list in which no two neighbours are both [HOME_COORD] from [i] on is
    left as it is. *)
Lemma rewriteHomeCoordPairs_loop_fixed (h : Headers) (gpsFieldCount : Z) :
  forall (fuel : nat) (i : Z) (p : list Z),
    (forall j, i <= j < gpsFieldCount -> ~ homeCoordPairAt h p j) ->
    rewriteHomeCoordPairs_loop h fuel gpsFieldCount i p = p.
Proof.
  induction fuel as [|fuel IH]; intros i p Hnone; cbn [rewriteHomeCoordPairs_loop];
    [reflexivity|].
  destruct (Z.ltb_spec i gpsFieldCount) as [Hlt|Hge]; [|reflexivity]. cbv zeta.
  destruct (Z.eqb_spec (aget p (i - 1)) (FLIGHT_LOG_FIELD_PREDICTOR_HOME_COORD h))
    as [Ha|Ha]; cbn [andb].
  - destruct (Z.eqb_spec (aget p i) (FLIGHT_LOG_FIELD_PREDICTOR_HOME_COORD h))
      as [Hb|Hb].
    + exfalso. apply (Hnone i); [lia | split; assumption].
    + apply IH. intros j Hj. apply Hnone. lia.
  - apply IH. intros j Hj. apply Hnone. lia.
Qed.

(** The rewrite of the home-coordinate predictors gives every pair its two
    tags: when the two tags differ and the array holds the G fields,
    afterwards no G field and the one before it are both [HOME_COORD];
    the only entries changed are fields that were [HOME_COORD], are now
    [HOME_COORD_1] and come right after a [HOME_COORD]; and the array keeps
    its length. *)
Theorem home_coord_pairs_rewritten (h : Headers) (gpsFieldCount : Z)
  (predictors : list Z) :
  FLIGHT_LOG_FIELD_PREDICTOR_HOME_COORD h
  <> FLIGHT_LOG_FIELD_PREDICTOR_HOME_COORD_1 h ->
  gpsFieldCount <= Z.of_nat (length predictors) ->
  length (rewriteHomeCoordPairs h gpsFieldCount predictors) = length predictors
  /\ (forall j, 1 <= j < gpsFieldCount ->
        ~ homeCoordPairAt h (rewriteHomeCoordPairs h gpsFieldCount predictors) j)
  /\ (forall j,
        aget (rewriteHomeCoordPairs h gpsFieldCount predictors) j = aget predictors j
        \/ (1 <= j < gpsFieldCount
            /\ aget predictors j = FLIGHT_LOG_FIELD_PREDICTOR_HOME_COORD h
            /\ aget (rewriteHomeCoordPairs h gpsFieldCount predictors) j
               = FLIGHT_LOG_FIELD_PREDICTOR_HOME_COORD_1 h
            /\ aget (rewriteHomeCoordPairs h gpsFieldCount predictors) (j - 1)
               = FLIGHT_LOG_FIELD_PREDICTOR_HOME_COORD h)).
Proof.
  intros Htags Hlen. unfold rewriteHomeCoordPairs.
  apply rewriteHomeCoordPairs_loop_spec; try assumption; lia.
Qed.

Lemma home_coord_pairs_rewritten_witness :
  let h := blackboxHeaders true in
  rewriteHomeCoordPairs h 4 [7; 7; 7; 7; 0] = [7; 256; 7; 256; 0]
  /\ ~ homeCoordPairAt h (rewriteHomeCoordPairs h 4 [7; 7; 7; 7; 0]) 3.
Proof.
  cbv zeta. split; [reflexivity|].
  apply (home_coord_pairs_rewritten (blackboxHeaders true) 4 [7; 7; 7; 7; 0]);
    cbn; first [lia | discriminate].
Defined.

(** Parsing the same log again does not shift the pairs: the rewrite
    leaves an array that it has rewritten as it is. *)
Theorem home_coord_rewrite_idempotent (h : Headers) (gpsFieldCount : Z)
  (predictors : list Z) :
  FLIGHT_LOG_FIELD_PREDICTOR_HOME_COORD h
  <> FLIGHT_LOG_FIELD_PREDICTOR_HOME_COORD_1 h ->
  gpsFieldCount <= Z.of_nat (length predictors) ->
  rewriteHomeCoordPairs h gpsFieldCount
    (rewriteHomeCoordPairs h gpsFieldCount predictors)
  = rewriteHomeCoordPairs h gpsFieldCount predictors.
Proof.
  intros Htags Hlen.
  destruct (rewriteHomeCoordPairs_loop_spec h gpsFieldCount Htags
              (Z.to_nat gpsFieldCount) 1 predictors) as (_ & Hnone & _); try lia.
  unfold rewriteHomeCoordPairs at 1.
  now apply rewriteHomeCoordPairs_loop_fixed.
Qed.

Lemma home_coord_rewrite_idempotent_witness :
  let h := blackboxHeaders true in
  rewriteHomeCoordPairs h 3 (rewriteHomeCoordPairs h 3 [7; 7; 7])
  = rewriteHomeCoordPairs h 3 [7; 7; 7].
Proof.
  cbv zeta.
  apply (home_coord_rewrite_idempotent (blackboxHeaders true) 3 [7; 7; 7]);
    cbn; first [lia | discriminate].
Defined.

(** ** The logs of a file *)

Lemma liesAt_length (needle : list Z) :
  forall data : list byte,
    liesAt needle data = true -> (length needle <= length data)%nat.
Proof.
  induction needle as [|n needle IH]; intros [|d data]; cbn; try lia;
    try discriminate.
  intros H. apply andb_true_iff in H. destruct H as [_ H]. apply IH in H. lia.
Qed.

Lemma memmem_from_spec (needle : list Z) :
  forall (hay : list byte) (pos b : Z),
    memmem_from hay needle pos = Some b ->
    pos <= b
    /\ liesAt needle (skipn (Z.to_nat (b - pos)) hay) = true
    /\ forall k, pos <= k < b ->
         liesAt needle (skipn (Z.to_nat (k - pos)) hay) = false.
Proof.
  induction hay as [|d hay IH]; intros pos b; cbn [memmem_from].
  - destruct (liesAt needle []) eqn:Hl; [|discriminate].
    intros H. inversion H. subst b. rewrite Z.sub_diag. cbn [Z.to_nat skipn].
    repeat split; intros; auto; lia.
  - destruct (liesAt needle (d :: hay)) eqn:Hl.
    + intros H. inversion H. subst b. rewrite Z.sub_diag. cbn [Z.to_nat skipn].
      repeat split; intros; auto; lia.
    + intros H. apply IH in H. destruct H as (Hle & Hat & Hnone).
      split; [lia|]. split.
      * replace (Z.to_nat (b - pos)) with (S (Z.to_nat (b - (pos + 1)))) by lia.
        exact Hat.
      * intros k Hk. destruct (Z.eq_dec k pos) as [->|Hne].
        -- rewrite Z.sub_diag. exact Hl.
        -- replace (Z.to_nat (k - pos)) with (S (Z.to_nat (k - (pos + 1)))) by lia.
           apply Hnone. lia.
Qed.

Lemma memmem_spec (file : list byte) (needle : list Z) (start b : Z) :
  0 <= start -> (0 < length needle)%nat ->
  memmem file start needle = Some b ->
  start <= b
  /\ liesAt needle (skipn (Z.to_nat b) file) = true
  /\ b + strlen needle <= Z.of_nat (length file)
  /\ forall k, start <= k < b ->
       liesAt needle (skipn (Z.to_nat k) file) = false.
Proof.
  intros Hstart Hneedle H. unfold memmem in H. apply memmem_from_spec in H.
  destruct H as (Hle & Hat & Hnone).
  assert (Hskip : forall k, start <= k ->
            skipn (Z.to_nat (k - start)) (skipn (Z.to_nat start) file)
            = skipn (Z.to_nat k) file).
  { intros k Hk. rewrite skipn_skipn. f_equal. lia. }
  rewrite Hskip in Hat by lia.
  split; [exact Hle|]. split; [exact Hat|]. split.
  - apply liesAt_length in Hat. rewrite length_skipn in Hat. unfold strlen. lia.
  - intros k Hk. rewrite <- Hskip by lia. apply Hnone. lia.
Qed.

Lemma flightLogCreate_loop_spec (maxLogs : Z) (file : list byte) :
  forall (fuel : nat) (logIndex start : Z) (begins : Z -> option Z),
    0 <= logIndex -> 0 <= start <= Z.of_nat (length file) ->
    logsFound file begins logIndex start ->
    exists start',
      start' <= Z.of_nat (length file)
      /\ logIndex <= fst (flightLogCreate_loop maxLogs file fuel logIndex start begins)
      /\ (fst (flightLogCreate_loop maxLogs file fuel logIndex start begins)
          <= maxLogs
          \/ fst (flightLogCreate_loop maxLogs file fuel logIndex start begins)
             = logIndex)
      /\ logsFound file
           (snd (flightLogCreate_loop maxLogs file fuel logIndex start begins))
           (fst (flightLogCreate_loop maxLogs file fuel logIndex start begins))
           start'.
Proof.
  induction fuel as [|fuel IH]; intros logIndex start begins Hidx Hstart Hinv;
    cbn [flightLogCreate_loop].
  - exists start. cbn [fst snd]. repeat split; auto; lia.
  - destruct (_ && _) eqn:Hcond.
    2:{ exists start. cbn [fst snd]. repeat split; auto; lia. }
    apply andb_true_iff in Hcond. destruct Hcond as [Hmax Hsize].
    apply Z.ltb_lt in Hmax. cbv zeta.
    destruct (memmem file start LOG_START_MARKER) as [b|] eqn:Hfound.
    + apply memmem_spec in Hfound; [|lia|cbn; lia].
      destruct Hfound as (Hle & Hat & Hfit & Hnone).
      destruct (IH (logIndex + 1) (b + strlen LOG_START_MARKER)
                  (upd begins logIndex (Some b))) as (start' & Hs' & Hge & Hmx & Hres).
      * lia.
      * unfold strlen in *. lia.
      * intros i Hi. destruct (Z.eq_dec i logIndex) as [->|Hne].
        -- exists b. rewrite upd_same. repeat split; intros; auto; lia.
        -- destruct (Hinv i) as (bi & Hbi & Hpos & Hati & Hbefore & Hlast & Hnext);
             [lia|].
           exists bi. rewrite upd_other by exact Hne.
           split; [exact Hbi|]. split; [exact Hpos|]. split; [exact Hati|].
           split; [unfold strlen in *; lia|]. split; [intros Hc; lia|].
           intros Hn. destruct (Z.eq_dec (i + 1) logIndex) as [He|He].
           ++ exists b. rewrite He, upd_same. specialize (Hlast He).
              split; [reflexivity|]. split; [lia|].
              intros k Hk. apply Hnone. lia.
           ++ destruct Hnext as (e & Hbe & Hord & Hgap); [lia|].
              exists e. rewrite upd_other by exact He. repeat split; auto.
      * exists start'. repeat split; auto; lia.
    + exists start. cbn [fst snd]. repeat split; auto; try lia.
      intros i Hi.
      destruct (Hinv i Hi) as (bi & Hbi & Hpos & Hati & Hbefore & Hlast & Hnext).
      exists bi. rewrite upd_other by lia. repeat split; auto.
      intros Hn. destruct (Hnext Hn) as (e & Hbe & Hrest).
      exists e. rewrite upd_other by lia. auto.
Qed.

Lemma logsFound_start (file : list byte) : logsFound file (fun _ => None) 0 0.
Proof. intros i Hi. lia. Qed.

(** Every log that [flightLogParse] can be asked for lies in the file.  For
    a table made by [flightLogCreate] and an index that is not refused,
    [logStart] and [logEnd] are not NULL, [logStart] is the offset of a
    start marker, and the marker ends at or before [logEnd], which is not
    after the end of the file. *)
Theorem selected_log_inside_file (maxLogs : Z) (file : list byte) (t : logTable)
  (logIndex : Z) (lo hi : option Z) :
  flightLogCreate maxLogs file = Some t ->
  selectLog t logIndex = Some (lo, hi) ->
  exists b e, lo = Some b /\ hi = Some e /\ logOccupies file b e.
Proof.
  unfold flightLogCreate, selectLog.
  destruct (Z.of_nat (length file) =? 0); [discriminate|].
  destruct (flightLogCreate_loop_spec maxLogs file (Z.to_nat maxLogs) 0 0
              (fun _ => None)) as (start' & Hs' & Hge & _ & Hfound);
    [lia | lia | apply logsFound_start |].
  destruct (flightLogCreate_loop maxLogs file (Z.to_nat maxLogs) 0 0 _)
    as [count begins]. cbn [fst snd] in *.
  intros Ht. inversion Ht. subst t. clear Ht. cbn [logCount logBegin].
  destruct (Z.ltb_spec logIndex 0); [discriminate|].
  destruct (Z.geb_spec logIndex count); [discriminate|]. cbn [orb].
  intros Hsel. inversion Hsel. subst lo hi. clear Hsel.
  destruct (Hfound logIndex) as (b & Hb & Hpos & Hat & Hbefore & Hlast & Hnext);
    [lia|].
  rewrite upd_other by lia. rewrite Hb.
  destruct (Z.eq_dec (logIndex + 1) count) as [He|He].
  - exists b, (Z.of_nat (length file)). rewrite He, upd_same.
    repeat split; auto; lia.
  - destruct Hnext as (e & Hbe & Hord & _); [lia|].
    destruct (Hfound (logIndex + 1)) as (e' & He' & _ & _ & Hfit & _); [lia|].
    exists b, e. rewrite upd_other by exact He.
    rewrite Hbe in He'. inversion He'. subst e'.
    repeat split; auto; unfold strlen in *; lia.
Qed.

Lemma selected_log_inside_file_witness :
  let file := bytesOf ([1; 2] ++ LOG_START_MARKER ++ [73; 0]) in
  exists b e,
    Some 2 = Some b /\ Some 65 = Some e /\ logOccupies file b e.
Proof.
  cbv zeta.
  apply (selected_log_inside_file 31
           (bytesOf ([1; 2] ++ LOG_START_MARKER ++ [73; 0]))
           {| logCount := 1;
              logBegin := upd (upd (upd (fun _ => None) 0 (Some 2)) 1 None)
                            1 (Some 65) |} 0).
  - vm_compute. reflexivity.
  - reflexivity.
Defined.

Lemma liesAt_nth (needle : list Z) :
  forall (hay : list byte) (j : nat),
    liesAt needle hay = true -> (j < length needle)%nat ->
    Z_of_byte (nth j hay "000"%byte) = nth j needle 0.
Proof.
  induction needle as [|n needle IH]; intros [|d hay] j; cbn [liesAt length];
    try discriminate; try lia.
  intros H Hj. apply andb_true_iff in H. destruct H as [Hd H].
  apply Z.eqb_eq in Hd. destruct j as [|j]; cbn [nth]; [congruence|].
  apply IH; [exact H | lia].
Qed.

Lemma nth_skipn_byte (l : list byte) :
  forall (b j : nat) (d : byte), nth j (skipn b l) d = nth (b + j) l d.
Proof.
  induction l as [|x l IH]; intros [|b] j d; cbn [skipn nth Nat.add]; auto;
    now destruct j.
Qed.

(** The start marker has its ['H'] at the head only, so two start markers
    do not overlap. *)
Lemma marker_no_overlap (file : list byte) (b k : Z) :
  0 <= b < k -> k < b + strlen LOG_START_MARKER ->
  liesAt LOG_START_MARKER (skipn (Z.to_nat b) file) = true ->
  liesAt LOG_START_MARKER (skipn (Z.to_nat k) file) = true ->
  False.
Proof.
  intros Hb Hk Hatb Hatk.
  assert (Hlen : strlen LOG_START_MARKER = 61) by reflexivity.
  rewrite Hlen in Hk.
  pose proof (liesAt_nth _ _ (Z.to_nat (k - b)) Hatb) as H1.
  pose proof (liesAt_nth _ _ 0%nat Hatk) as H2.
  rewrite nth_skipn_byte in H1, H2.
  replace (Z.to_nat b + Z.to_nat (k - b))%nat with (Z.to_nat k) in H1 by lia.
  rewrite Nat.add_0_r in H2.
  assert (Hl : length LOG_START_MARKER = 61%nat) by reflexivity.
  rewrite Hl in H1, H2.
  specialize (H1 ltac:(lia)). specialize (H2 ltac:(lia)).
  change (nth 0 LOG_START_MARKER 0) with 72 in H2.
  rewrite H2 in H1.
  destruct (Z.to_nat (k - b)) as [|j] eqn:Hj; [lia|].
  change (nth (S j) LOG_START_MARKER 0) with (nth j (tl LOG_START_MARKER) 0) in H1.
  assert (Hall : forallb (fun x => negb (x =? 72)) (tl LOG_START_MARKER) = true)
    by reflexivity.
  rewrite forallb_forall in Hall.
  assert (Hin : In (nth j (tl LOG_START_MARKER) 0) (tl LOG_START_MARKER)).
  { apply nth_In. change (length (tl LOG_START_MARKER)) with 60%nat. lia. }
  apply Hall in Hin. rewrite <- H1 in Hin. discriminate.
Qed.

Lemma memmem_from_none (needle : list Z) :
  forall (hay : list byte) (pos : Z),
    memmem_from hay needle pos = None ->
    forall j : nat, liesAt needle (skipn j hay) = false.
Proof.
  induction hay as [|d hay IH]; intros pos; cbn [memmem_from].
  - destruct (liesAt needle []) eqn:Hl; [discriminate|].
    intros _ j. now destruct j.
  - destruct (liesAt needle (d :: hay)) eqn:Hl; [discriminate|].
    intros H [|j]; cbn [skipn]; [exact Hl|]. now apply (IH (pos + 1)).
Qed.

Lemma memmem_none (file : list byte) (needle : list Z) (start : Z) :
  0 <= start ->
  memmem file start needle = None ->
  forall k, start <= k -> liesAt needle (skipn (Z.to_nat k) file) = false.
Proof.
  intros Hstart H k Hk. unfold memmem in H.
  pose proof (memmem_from_none needle _ _ H (Z.to_nat (k - start))) as Hn.
  rewrite skipn_skipn in Hn.
  replace (Z.to_nat (k - start) + Z.to_nat start)%nat with (Z.to_nat k) in Hn by lia.
  exact Hn.
Qed.

Lemma flightLogCreate_loop_complete (maxLogs : Z) (file : list byte) :
  forall (fuel : nat) (logIndex start : Z) (begins : Z -> option Z),
    0 <= logIndex -> 0 <= start ->
    maxLogs - logIndex <= Z.of_nat fuel ->
    allFound file begins logIndex start ->
    exists start',
      allFound file
        (snd (flightLogCreate_loop maxLogs file fuel logIndex start begins))
        (fst (flightLogCreate_loop maxLogs file fuel logIndex start begins))
        start'
      /\ (fst (flightLogCreate_loop maxLogs file fuel logIndex start begins)
          < maxLogs ->
          forall k, start' <= k ->
            liesAt LOG_START_MARKER (skipn (Z.to_nat k) file) = false).
Proof.
  induction fuel as [|fuel IH]; intros logIndex start begins Hidx Hstart Hfuel Hinv;
    cbn [flightLogCreate_loop].
  - exists start. cbn [fst snd]. split; [exact Hinv|]. intros Hc. lia.
  - destruct (Z.ltb_spec logIndex maxLogs) as [Hmax|Hmax]; cbn [andb].
    2:{ exists start. cbn [fst snd]. split; [exact Hinv|]. intros Hc. lia. }
    destruct (Z.ltb_spec start (Z.of_nat (length file))) as [Hsize|Hsize].
    2:{ exists start. cbn [fst snd]. split; [exact Hinv|]. intros _ k Hk.
        rewrite skipn_all2 by lia. reflexivity. }
    cbv zeta.
    destruct (memmem file start LOG_START_MARKER) as [b|] eqn:Hfound.
    + apply memmem_spec in Hfound; [|lia|cbn; lia].
      destruct Hfound as (Hle & Hat & Hfit & Hnone).
      apply IH; [lia | unfold strlen; lia | lia |].
      intros k Hk Hatk.
      destruct (Z.lt_ge_cases k start) as [Hold|Hnew].
      * destruct (Hinv k) as (i & Hi & Hbi); [lia | exact Hatk|].
        exists i. rewrite upd_other by lia. split; [lia | exact Hbi].
      * destruct (Z.lt_ge_cases k b) as [Hgap|Hgeb].
        { rewrite Hnone in Hatk by lia. discriminate. }
        destruct (Z.eq_dec k b) as [->|Hne].
        { exists logIndex. rewrite upd_same. split; [lia | reflexivity]. }
        exfalso. apply (marker_no_overlap file b k); auto; lia.
    + exists start. cbn [fst snd]. split.
      * intros k Hk Hatk. destruct (Hinv k Hk Hatk) as (i & Hi & Hbi).
        exists i. rewrite upd_other by lia. auto.
      * intros _. apply memmem_none; [lia | exact Hfound].
Qed.

(** No log of the file is missed or made up.  While there are fewer logs
    than the table has room for, the places where the start marker lies in
    the file are exactly the beginnings of the logs of the table made by
    [flightLogCreate]. *)
Theorem every_marker_begins_a_log (maxLogs : Z) (file : list byte) (t : logTable)
  (k : Z) :
  flightLogCreate maxLogs file = Some t ->
  logCount t < maxLogs ->
  0 <= k ->
  liesAt LOG_START_MARKER (skipn (Z.to_nat k) file) = true
  <-> exists i, 0 <= i < logCount t /\ logBegin t i = Some k.
Proof.
  unfold flightLogCreate.
  destruct (Z.of_nat (length file) =? 0); [discriminate|].
  destruct (flightLogCreate_loop_spec maxLogs file (Z.to_nat maxLogs) 0 0
              (fun _ => None)) as (start1 & _ & _ & _ & Hfound);
    [lia | lia | apply logsFound_start |].
  destruct (flightLogCreate_loop_complete maxLogs file (Z.to_nat maxLogs) 0 0
              (fun _ => None)) as (start2 & Hall & Hrest); [lia | lia | lia | |].
  { intros j Hj. lia. }
  destruct (flightLogCreate_loop maxLogs file (Z.to_nat maxLogs) 0 0 _)
    as [count begins]. cbn [fst snd] in *.
  intros Ht. inversion Ht. subst t. clear Ht. cbn [logCount logBegin].
  intros Hroom Hk. split.
  - intros Hat. destruct (Z.lt_ge_cases k start2) as [Hlt|Hge].
    + destruct (Hall k) as (i & Hi & Hbi); [lia | exact Hat|].
      exists i. rewrite upd_other by lia. auto.
    + rewrite (Hrest Hroom k Hge) in Hat. discriminate.
  - intros (i & Hi & Hbi). rewrite upd_other in Hbi by lia.
    destruct (Hfound i Hi) as (b & Hb & _ & Hat & _).
    rewrite Hb in Hbi. inversion Hbi. subst b. exact Hat.
Qed.

Lemma every_marker_begins_a_log_witness :
  let file := bytesOf ([1; 2] ++ LOG_START_MARKER ++ [73; 0]) in
  let t := {| logCount := 1;
              logBegin := upd (upd (upd (fun _ => None) 0 (Some 2)) 1 None)
                            1 (Some 65) |} in
  liesAt LOG_START_MARKER (skipn (Z.to_nat 2) file) = true
  <-> exists i, 0 <= i < logCount t /\ logBegin t i = Some 2.
Proof.
  cbv zeta.
  apply (every_marker_begins_a_log 31
           (bytesOf ([1; 2] ++ LOG_START_MARKER ++ [73; 0]))).
  - vm_compute. reflexivity.
  - cbn. lia.
  - lia.
Defined.

(** ** The numbers of a header line *)

Lemma digitsValue_app (l1 l2 : list Z) :
  forallb isdigit l1 = true ->
  forall acc, digitsValue acc (l1 ++ l2) = digitsValue (digitsValue acc l1) l2.
Proof.
  induction l1 as [|c l1 IH]; intros Hall acc; cbn [app digitsValue forallb] in *;
    [reflexivity|].
  apply andb_true_iff in Hall. destruct Hall as [Hc Hl]. rewrite Hc. now apply IH.
Qed.

Lemma isdigit_digit (d : Z) : 0 <= d < 10 -> isdigit (48 + d) = true.
Proof. intros H. unfold isdigit. apply andb_true_iff. lia. Qed.

Lemma log2_tenth (n : Z) : 10 <= n -> Z.log2 (n / 10) < Z.log2 n.
Proof.
  intros Hn.
  assert (H2 : Z.log2 (n / 2) = Z.max 0 (Z.log2 n - 1)).
  { change 2 with (2 ^ 1) at 1. rewrite <- Z.shiftr_div_pow2 by lia.
    apply Z.log2_shiftr. lia. }
  assert (H8 : 3 <= Z.log2 n).
  { pose proof (Z.log2_le_mono 8 n ltac:(lia)) as Hm.
    change (Z.log2 8) with 3 in Hm. exact Hm. }
  assert (Hle : Z.log2 (n / 10) <= Z.log2 (n / 2)).
  { apply Z.log2_le_mono. apply Z.div_le_compat_l; lia. }
  lia.
Qed.

Lemma decimal_loop_spec :
  forall (fuel : nat) (n : Z),
    0 <= n -> Z.log2 n <= Z.of_nat fuel ->
    forallb isdigit (decimal_loop fuel n) = true
    /\ digitsValue 0 (decimal_loop fuel n) = n
    /\ exists c rest, decimal_loop fuel n = c :: rest /\ isdigit c = true.
Proof.
  assert (Hone : forall n, 0 <= n < 10 ->
            forallb isdigit [48 + n] = true
            /\ digitsValue 0 [48 + n] = n
            /\ exists c rest, [48 + n] = c :: rest /\ isdigit c = true).
  { intros n Hn. pose proof (isdigit_digit n Hn) as Hd.
    cbn [forallb digitsValue]. rewrite Hd. repeat split; try lia; eauto. }
  induction fuel as [|fuel IH]; intros n Hn Hlog; cbn [decimal_loop].
  - apply Hone. destruct (Z.lt_ge_cases n 2) as [|H2]; [lia|].
    pose proof (Z.log2_le_mono 2 n ltac:(lia)) as Hm.
    change (Z.log2 2) with 1 in Hm. lia.
  - destruct (Z.ltb_spec n 10) as [Hsmall|Hbig]; [apply Hone; lia|].
    pose proof (log2_tenth n Hbig) as Hless.
    destruct (IH (n / 10)) as (Hall & Hval & c & rest & Hhead & Hc);
      [apply Z.div_pos; lia | lia |].
    pose proof (Z.mod_pos_bound n 10 ltac:(lia)) as Hm.
    pose proof (isdigit_digit (n mod 10) Hm) as Hd.
    split; [|split].
    + rewrite forallb_app, Hall. cbn [forallb]. now rewrite Hd.
    + rewrite digitsValue_app by exact Hall. rewrite Hval.
      cbn [digitsValue]. rewrite Hd.
      pose proof (Z.div_mod n 10 ltac:(lia)). lia.
    + exists c, (rest ++ [48 + n mod 10]). rewrite Hhead. split; [reflexivity|exact Hc].
Qed.

Lemma digit_is_plain (c : Z) :
  isdigit c = true ->
  isspace c = false /\ (c =? 45) = false /\ (c =? 43) = false /\ (c =? 44) = false.
Proof.
  unfold isdigit, isspace. intros H. apply andb_true_iff in H.
  destruct H as [H1 H2]. apply Z.leb_le in H1, H2.
  repeat split; try (apply Z.eqb_neq; lia).
  apply orb_false_iff. split; [apply Z.eqb_neq; lia|].
  apply andb_false_iff. right. apply Z.leb_gt. lia.
Qed.

(** [atoi] reads back the decimal digits of every number of the type
    [int], whatever follows them that is not a digit. *)
Lemma atoi_decimal (n : Z) (rest : list Z) :
  INT_MIN <= n <= INT_MAX ->
  match rest with [] => true | c :: _ => negb (isdigit c) end = true ->
  atoi (decimal n ++ rest) = Ok n.
Proof.
  intros Hn Hrest.
  assert (Hstop : forall acc, digitsValue acc rest = acc).
  { intros acc. destruct rest as [|c rest]; [reflexivity|].
    cbn [digitsValue]. apply negb_true_iff in Hrest. now rewrite Hrest. }
  assert (Hrange : (INT_MIN <=? n) && (n <=? INT_MAX) = true)
    by (apply andb_true_iff; split; apply Z.leb_le; lia).
  unfold atoi, decimal. destruct (Z.ltb_spec n 0) as [Hneg|Hpos].
  - destruct (decimal_loop_spec (Z.to_nat (Z.log2 (- n))) (- n)) as (Hall & Hval & _);
      [lia | rewrite Z2Nat.id by apply Z.log2_nonneg; lia |].
    cbn [app skipSpaces]. change (isspace 45) with false. cbv iota.
    change (45 =? 45) with true. cbv iota zeta.
    rewrite digitsValue_app, Hval, Hstop by exact Hall.
    rewrite Z.opp_involutive, Hrange. reflexivity.
  - destruct (decimal_loop_spec (Z.to_nat (Z.log2 n)) n)
      as (Hall & Hval & c & tail & Hhead & Hc);
      [lia | rewrite Z2Nat.id by apply Z.log2_nonneg; lia |].
    destruct (digit_is_plain c Hc) as (Hs & Hminus & Hplus & _).
    rewrite Hhead. cbn [app skipSpaces]. rewrite Hs. cbv iota.
    rewrite Hminus, Hplus. cbv iota zeta.
    change (c :: tail ++ rest) with ((c :: tail) ++ rest). rewrite <- Hhead.
    rewrite digitsValue_app, Hval, Hstop by exact Hall.
    rewrite Hrange. reflexivity.
Qed.

Lemma untilComma_length (s : list Z) :
  forall item rest, untilComma s = (item, Some rest) ->
                    (length rest < length s)%nat.
Proof.
  induction s as [|c s IH]; intros item rest; cbn [untilComma]; [discriminate|].
  destruct (c =? 44).
  - intros H. inversion H. cbn. lia.
  - destruct (untilComma s) as [item' rest'] eqn:Hs. intros H. inversion H. subst.
    specialize (IH _ _ eq_refl). cbn. lia.
Qed.

Lemma untilComma_item (item : list Z) :
  forallb (fun c => negb (c =? 44)) item = true ->
  untilComma item = (item, None)
  /\ forall rest, untilComma (item ++ 44 :: rest) = (item, Some rest).
Proof.
  induction item as [|c item IH]; cbn [forallb untilComma app]; intros Hall.
  - split; [reflexivity|]. intros rest. reflexivity.
  - apply andb_true_iff in Hall. destruct Hall as [Hc Hall].
    apply negb_true_iff in Hc. rewrite Hc.
    destruct (IH Hall) as [H1 H2]. rewrite H1. split; [reflexivity|].
    intros rest. now rewrite H2.
Qed.

(** However the line reads, [parseCommaSeparatedIntegers] stores into the
    first [maxCount] entries of the array only, and it ends. *)
Lemma parseCommaSeparatedIntegers_loop_frame :
  forall (fuel : nat) (start target : list Z) (index maxCount : Z),
    (length start < fuel)%nat -> 0 <= index ->
    parseCommaSeparatedIntegers_loop fuel start target index maxCount <> OutOfFuel
    /\ forall result,
         parseCommaSeparatedIntegers_loop fuel start target index maxCount
         = Ok result ->
         length result = length target
         /\ forall j, j < index \/ index + maxCount <= j ->
                      aget result j = aget target j.
Proof.
  induction fuel as [|fuel IH]; intros start target index maxCount Hfuel Hidx;
    [lia|]. cbn [parseCommaSeparatedIntegers_loop].
  destruct start as [|first rest]; [split; [discriminate|]|].
  { intros result H. inversion H. auto. }
  destruct (Z.gtb_spec maxCount 0) as [Hmax|Hmax].
  2:{ split; [discriminate|]. intros result H. inversion H. auto. }
  destruct (untilComma rest) as [item next] eqn:Hscan.
  destruct (atoi (first :: item)) as [value| | | |] eqn:Hvalue; cbn [bind].
  2-4: split; [discriminate | intros result H; discriminate].
  2:{ exfalso. unfold atoi in Hvalue.
      destruct (match skipSpaces (first :: item) with [] => _ | _ :: _ => _ end)
        as [negative s2].
      destruct (_ && _); discriminate. }
  assert (Hset : length (aset target index value) = length target
                 /\ forall j, j <> index ->
                      aget (aset target index value) j = aget target j).
  { split; [apply aset_length|]. intros j Hj. now apply aget_aset_other. }
  destruct Hset as [Hlen Hother].
  destruct next as [start'|].
  - apply untilComma_length in Hscan. cbn [length] in Hfuel.
    destruct (IH start' (aset target index value) (index + 1) (maxCount - 1))
      as [Hstop Hres]; [lia | lia |].
    split; [exact Hstop|]. intros result H. apply Hres in H.
    destruct H as [Hl Hkeep]. split; [congruence|].
    intros j Hj. rewrite Hkeep by lia. apply Hother. lia.
  - split; [discriminate|]. intros result H. inversion H. subst result.
    split; [exact Hlen|]. intros j Hj. apply Hother. lia.
Qed.

(** [parseCommaSeparatedIntegers] always returns (or stops in the undefined
    behaviour of [atoi] on a number that no [int] holds), keeps the length
    of the array, and writes to none of its entries from [maxCount] on:
    the array is not overrun however many items the line has. *)
Theorem parseCommaSeparatedIntegers_within_bound (line target : list Z)
  (maxCount : Z) :
  parseCommaSeparatedIntegers line target maxCount <> OutOfFuel
  /\ forall result,
       parseCommaSeparatedIntegers line target maxCount = Ok result ->
       length result = length target
       /\ forall j, maxCount <= j -> aget result j = aget target j.
Proof.
  unfold parseCommaSeparatedIntegers.
  destruct (parseCommaSeparatedIntegers_loop_frame (S (length line)) line target 0
              maxCount) as [Hstop Hres]; [lia | lia |].
  split; [exact Hstop|]. intros result H. apply Hres in H.
  destruct H as [Hl Hkeep]. split; [exact Hl|].
  intros j Hj. apply Hkeep. lia.
Qed.

Lemma parseCommaSeparatedIntegers_within_bound_witness :
  parseCommaSeparatedIntegers [49; 44; 50; 44; 51] [7; 7; 7; 7] 2 = Ok [1; 2; 7; 7]
  /\ aget [1; 2; 7; 7] 2 = aget [7; 7; 7; 7] 2.
Proof.
  split; [reflexivity|].
  apply (proj2 (parseCommaSeparatedIntegers_within_bound [49; 44; 50; 44; 51]
                  [7; 7; 7; 7] 2) [1; 2; 7; 7] eq_refl). lia.
Defined.

Lemma decimal_shape (n : Z) :
  exists first item,
    decimal n = first :: item
    /\ forallb (fun c => negb (c =? 44)) item = true.
Proof.
  assert (Hplain : forall l, forallb isdigit l = true ->
            forallb (fun c => negb (c =? 44)) l = true).
  { intros l Hl. rewrite forallb_forall in *. intros c Hc.
    destruct (digit_is_plain c (Hl c Hc)) as (_ & _ & _ & H). now rewrite H. }
  unfold decimal. destruct (Z.ltb_spec n 0) as [Hneg|Hpos].
  - destruct (decimal_loop_spec (Z.to_nat (Z.log2 (- n))) (- n)) as (Hall & _);
      [lia | rewrite Z2Nat.id by apply Z.log2_nonneg; lia |].
    eexists _, _. split; [reflexivity|]. now apply Hplain.
  - destruct (decimal_loop_spec (Z.to_nat (Z.log2 n)) n)
      as (Hall & _ & c & tail & Hhead & Hc);
      [lia | rewrite Z2Nat.id by apply Z.log2_nonneg; lia |].
    exists c, tail. split; [exact Hhead|].
    rewrite Hhead in Hall. cbn [forallb] in Hall.
    apply andb_true_iff in Hall. apply Hplain. tauto.
Qed.

Lemma parseCommaSeparatedIntegers_loop_numbers :
  forall (numbers : list Z) (fuel : nat) (target : list Z) (index maxCount : Z),
    Forall (fun n => INT_MIN <= n <= INT_MAX) numbers ->
    (length (commaSeparated (map decimal numbers)) < fuel)%nat ->
    0 <= index ->
    index + Z.of_nat (length numbers) <= Z.of_nat (length target) ->
    Z.of_nat (length numbers) <= maxCount ->
    exists result,
      parseCommaSeparatedIntegers_loop fuel (commaSeparated (map decimal numbers))
        target index maxCount = Ok result
      /\ length result = length target
      /\ forall j,
           aget result j
           = if (index <=? j) && (j <? index + Z.of_nat (length numbers))
             then nth (Z.to_nat (j - index)) numbers 0
             else aget target j.
Proof.
  induction numbers as [|n numbers IH];
    intros fuel target index maxCount Hrange Hfuel Hidx Hfit Hmax.
  - destruct fuel as [|fuel]; [cbn in Hfuel; lia|].
    exists target. cbn [map commaSeparated parseCommaSeparatedIntegers_loop length].
    repeat split. intros j.
    destruct (Z.leb_spec index j), (Z.ltb_spec j (index + Z.of_nat 0));
      cbn [andb]; try reflexivity; lia.
  - inversion Hrange as [|? ? Hn Hrest]; subst.
    destruct (decimal_shape n) as (first & item & Hdec & Hplain).
    destruct (untilComma_item item Hplain) as [Hlast Hmore].
    cbn [length] in Hfit, Hmax.
    destruct fuel as [|fuel]; [lia|].
    assert (Hvalue : atoi (first :: item) = Ok n).
    { rewrite <- Hdec, <- (app_nil_r (decimal n)). now apply atoi_decimal. }
    assert (Hhere : forall j,
              aget (aset target index n) j
              = if j =? index then n else aget target j).
    { intros j. destruct (Z.eqb_spec j index) as [->|Hne].
      - apply aget_aset_same. lia.
      - now apply aget_aset_other. }
    destruct numbers as [|n2 numbers].
    + cbn [map commaSeparated parseCommaSeparatedIntegers_loop].
      rewrite Hdec. destruct (Z.gtb_spec maxCount 0); [|lia].
      rewrite Hlast, Hvalue. cbn [bind].
      eexists. split; [reflexivity|]. split; [apply aset_length|].
      intros j. rewrite Hhere. cbn [length].
      destruct (Z.eqb_spec j index) as [->|Hne].
      * rewrite Z.leb_refl. destruct (Z.ltb_spec index (index + Z.of_nat 1)); [|lia].
        rewrite Z.sub_diag. reflexivity.
      * destruct (Z.leb_spec index j), (Z.ltb_spec j (index + Z.of_nat 1));
          cbn [andb]; try reflexivity; lia.
    + change (commaSeparated (map decimal (n :: n2 :: numbers)))
        with (decimal n ++ 44 :: commaSeparated (map decimal (n2 :: numbers))) in *.
      rewrite Hdec in *. cbn [app parseCommaSeparatedIntegers_loop].
      destruct (Z.gtb_spec maxCount 0); [|lia].
      rewrite Hmore, Hvalue. cbn [bind].
      cbn [app length] in Hfuel. rewrite length_app in Hfuel. cbn [length] in Hfuel.
      destruct (IH fuel (aset target index n) (index + 1) (maxCount - 1))
        as (result & Hrun & Hlen & Hat);
        [ exact Hrest
        | lia
        | lia
        | rewrite aset_length; cbn [length] in *; lia
        | cbn [length] in *; lia
        | ].
      exists result. split; [exact Hrun|]. split; [now rewrite Hlen, aset_length|].
      intros j. rewrite Hat, Hhere.
      remember (n2 :: numbers) as tail eqn:Htail.
      cbn [length]. rewrite Nat2Z.inj_succ.
      destruct (Z.eqb_spec j index) as [->|Hne].
      * rewrite Z.leb_refl. destruct (Z.leb_spec (index + 1) index); [lia|].
        destruct (Z.ltb_spec index (index + Z.succ (Z.of_nat (length tail))));
          [|lia].
        cbn [andb]. rewrite Z.sub_diag. reflexivity.
      * destruct (Z.leb_spec (index + 1) j), (Z.leb_spec index j),
          (Z.ltb_spec j (index + 1 + Z.of_nat (length tail))),
          (Z.ltb_spec j (index + Z.succ (Z.of_nat (length tail))));
          cbn [andb]; try reflexivity; try lia.
        replace (Z.to_nat (j - index)) with (S (Z.to_nat (j - (index + 1)))) by lia.
        reflexivity.
Qed.

(** The numbers of a header line are read back.  For a list of numbers of
    the type [int] written in decimal and joined by commas, no more of
    them than [maxCount] and than the array has entries,
    [parseCommaSeparatedIntegers] stores the numbers at the front of the
    array in their order and leaves the entries after them as they were:
    what an earlier, longer line stored there stays. *)
Theorem parseCommaSeparatedIntegers_roundtrip (numbers target : list Z)
  (maxCount : Z) :
  Forall (fun n => INT_MIN <= n <= INT_MAX) numbers ->
  (length numbers <= length target)%nat ->
  Z.of_nat (length numbers) <= maxCount ->
  exists result,
    parseCommaSeparatedIntegers (commaSeparated (map decimal numbers)) target
      maxCount = Ok result
    /\ length result = length target
    /\ (forall j, (j < length numbers)%nat ->
          aget result (Z.of_nat j) = nth j numbers 0)
    /\ (forall j, Z.of_nat (length numbers) <= j -> aget result j = aget target j).
Proof.
  intros Hrange Hfit Hmax. unfold parseCommaSeparatedIntegers.
  destruct (parseCommaSeparatedIntegers_loop_numbers numbers
              (S (length (commaSeparated (map decimal numbers)))) target 0 maxCount)
    as (result & Hrun & Hlen & Hat); try assumption; try lia.
  exists result. split; [exact Hrun|]. split; [exact Hlen|]. split.
  - intros j Hj. rewrite Hat.
    destruct (Z.leb_spec 0 (Z.of_nat j)); [|lia].
    destruct (Z.ltb_spec (Z.of_nat j) (0 + Z.of_nat (length numbers))); [|lia].
    cbn [andb]. f_equal. lia.
  - intros j Hj. rewrite Hat.
    destruct (Z.ltb_spec j (0 + Z.of_nat (length numbers))); [lia|].
    now rewrite andb_false_r.
Qed.

Lemma parseCommaSeparatedIntegers_roundtrip_witness :
  exists result,
    parseCommaSeparatedIntegers (commaSeparated (map decimal [0; -12; 345]))
      [9; 9; 9; 9] 4 = Ok result
    /\ length result = 4%nat.
Proof.
  destruct (parseCommaSeparatedIntegers_roundtrip [0; -12; 345] [9; 9; 9; 9] 4)
    as (result & Hrun & Hlen & _).
  - repeat constructor; unfold INT_MIN, INT_MAX; lia.
  - cbn. lia.
  - cbn. lia.
  - exists result. split; [exact Hrun | exact Hlen].
Defined.

(** ** The names of a header line *)

Lemma untilComma_split (s : list Z) :
  forall item next,
    untilComma s = (item, next) ->
    match next with
    | None => s = item
    | Some rest => s = item ++ 44 :: rest
    end.
Proof.
  induction s as [|c s IH]; intros item next; cbn [untilComma].
  - intros H. inversion H. reflexivity.
  - destruct (Z.eqb_spec c 44) as [->|Hc].
    + intros H. inversion H. reflexivity.
    + destruct (untilComma s) as [item' next'] eqn:Hs. intros H. inversion H. subst.
      specialize (IH _ _ eq_refl). destruct next; cbn [app]; now rewrite <- IH.
Qed.

Lemma parseFieldNames_loop_join (maxNames : Z) :
  forall (fuel : nat) (start : list Z) (fieldNames names : list (list Z)),
    parseFieldNames_loop maxNames fuel start fieldNames = Ok names ->
    exists new,
      names = fieldNames ++ new
      /\ Forall (fun name => name <> []) new
      /\ (new = [] <-> start = [])
      /\ (commaSeparated new = start \/ commaSeparated new ++ [44] = start).
Proof.
  induction fuel as [|fuel IH]; intros start fieldNames names;
    cbn [parseFieldNames_loop]; [discriminate|].
  destruct start as [|first rest].
  { intros H. inversion H. exists []. rewrite app_nil_r.
    split; [reflexivity|]. split; [constructor|]. split; [tauto|].
    left. reflexivity. }
  destruct (untilComma rest) as [item next] eqn:Hscan.
  apply untilComma_split in Hscan.
  destruct (_ <? maxNames); [|discriminate].
  destruct next as [start'|].
  - intros H. apply IH in H. destruct H as (new & Hnames & Hall & Hnil & Hjoin).
    exists ((first :: item) :: new). subst rest.
    split; [rewrite Hnames, <- app_assoc; reflexivity|].
    split; [constructor; [discriminate | exact Hall]|].
    split; [split; discriminate|].
    destruct new as [|name new].
    + right. destruct Hnil as [Hnil _]. rewrite (Hnil eq_refl). reflexivity.
    + change (commaSeparated ((first :: item) :: name :: new))
        with ((first :: item) ++ 44 :: commaSeparated (name :: new)).
      destruct Hjoin as [Hj|Hj]; [left | right]; rewrite <- Hj; cbn [app];
        rewrite <- ?app_assoc; reflexivity.
  - intros H. inversion H. exists [first :: item]. subst rest.
    split; [reflexivity|].
    split; [constructor; [discriminate | constructor]|].
    split; [split; discriminate|].
    left. reflexivity.
Qed.

(** [parseFieldNames] loses no character of the line.  When it returns,
    every name is a string that is not empty, and the names joined by
    commas are the line, but for a comma at the end of the line, which is
    dropped.  Between two commas there is no empty name: the second comma
    becomes the first character of the next name. *)
Theorem parseFieldNames_join (maxNames : Z) (line : list Z)
  (names : list (list Z)) :
  parseFieldNames maxNames line = Ok names ->
  Forall (fun name => name <> []) names
  /\ (commaSeparated names = line \/ commaSeparated names ++ [44] = line).
Proof.
  unfold parseFieldNames. intros H. apply parseFieldNames_loop_join in H.
  destruct H as (new & -> & Hall & _ & Hjoin). cbn [app]. split; assumption.
Qed.

Lemma parseFieldNames_join_witness :
  parseFieldNames 4 [97; 44; 44; 98; 44] = Ok [[97]; [44; 98]]
  /\ (commaSeparated [[97]; [44; 98]] = [97; 44; 44; 98; 44]
      \/ commaSeparated [[97]; [44; 98]] ++ [44] = [97; 44; 44; 98; 44]).
Proof.
  split; [reflexivity|].
  apply (parseFieldNames_join 4 [97; 44; 44; 98; 44] [[97]; [44; 98]] eq_refl).
Defined.

Lemma plainName_shape (name : list Z) :
  plainName name = true ->
  exists first item,
    name = first :: item /\ forallb (fun c => negb (c =? 44)) item = true.
Proof.
  destruct name as [|first item]; cbn [plainName forallb]; [discriminate|].
  intros H. apply andb_true_iff in H. exists first, item. tauto.
Qed.

Lemma parseFieldNames_loop_names (maxNames : Z) :
  forall (names : list (list Z)) (fuel : nat) (fieldNames : list (list Z)),
    forallb plainName names = true ->
    (length (commaSeparated names) < fuel)%nat ->
    Z.of_nat (length fieldNames) <= maxNames ->
    parseFieldNames_loop maxNames fuel (commaSeparated names) fieldNames
    = if Z.of_nat (length fieldNames) + Z.of_nat (length names) <=? maxNames
      then Ok (fieldNames ++ names) else Undefined.
Proof.
  induction names as [|name names IH]; intros fuel fieldNames Hplain Hfuel Hroom.
  - destruct fuel as [|fuel]; [cbn in Hfuel; lia|].
    cbn [commaSeparated parseFieldNames_loop length].
    destruct (Z.leb_spec (Z.of_nat (length fieldNames) + Z.of_nat 0) maxNames);
      [|lia].
    now rewrite app_nil_r.
  - cbn [forallb] in Hplain. apply andb_true_iff in Hplain.
    destruct Hplain as [Hname Hrest].
    destruct (plainName_shape name Hname) as (first & item & -> & Hitem).
    destruct (untilComma_item item Hitem) as [Hlast Hmore].
    destruct fuel as [|fuel]; [lia|].
    destruct names as [|name2 names].
    + cbn [commaSeparated parseFieldNames_loop]. rewrite Hlast. cbn [length].
      destruct (Z.ltb_spec (Z.of_nat (length fieldNames)) maxNames),
        (Z.leb_spec (Z.of_nat (length fieldNames) + Z.of_nat 1) maxNames);
        try reflexivity; lia.
    + change (commaSeparated ((first :: item) :: name2 :: names))
        with ((first :: item) ++ 44 :: commaSeparated (name2 :: names)) in *.
      cbn [app parseFieldNames_loop]. rewrite Hmore.
      cbn [app length] in Hfuel. rewrite length_app in Hfuel. cbn [length] in Hfuel.
      destruct (Z.ltb_spec (Z.of_nat (length fieldNames)) maxNames) as [Hlt|Hge].
      * rewrite IH; [|exact Hrest | lia | rewrite length_app; cbn [length]; lia].
        rewrite length_app, <- app_assoc. cbn [length app].
        destruct (Z.leb_spec
                    (Z.of_nat (length fieldNames + 1)
                     + Z.of_nat (S (length names))) maxNames),
          (Z.leb_spec
             (Z.of_nat (length fieldNames)
              + Z.of_nat (S (S (length names)))) maxNames);
          try reflexivity; lia.
      * cbn [length].
        destruct (Z.leb_spec
                    (Z.of_nat (length fieldNames)
                     + Z.of_nat (S (S (length names)))) maxNames);
          [lia | reflexivity].
Qed.

(** The names of a header line are read back, and too many of them
    overrun the array.  For names that are not empty and have no comma,
    joined by commas, [parseFieldNames] stores just these names, in their
    order, when the array has room for them; when there are more names
    than the array has entries nothing stops the loop from storing after
    the end of the array. *)
Theorem parseFieldNames_roundtrip (maxNames : Z) (names : list (list Z)) :
  0 <= maxNames ->
  forallb plainName names = true ->
  parseFieldNames maxNames (commaSeparated names)
  = if Z.of_nat (length names) <=? maxNames then Ok names else Undefined.
Proof.
  intros Hmax Hplain. unfold parseFieldNames.
  rewrite parseFieldNames_loop_names; [reflexivity | exact Hplain | lia |].
  cbn [length]. lia.
Qed.

Lemma parseFieldNames_roundtrip_witness :
  parseFieldNames 2 (commaSeparated [[97; 98]; [99]]) = Ok [[97; 98]; [99]]
  /\ parseFieldNames 1 (commaSeparated [[97; 98]; [99]]) = Undefined.
Proof.
  split.
  - apply (parseFieldNames_roundtrip 2 [[97; 98]; [99]]); [lia | reflexivity].
  - apply (parseFieldNames_roundtrip 1 [[97; 98]; [99]]); [lia | reflexivity].
Defined.

(** ** A byte that begins no frame *)

Lemma dataIteration_unknown_marker_witness :
  let h := blackboxHeaders true in
  let log := mainLog h [99; 73; 0; 10] 1 1 in
  exists s',
    dataIteration h log 64 false entry = Continue s'
    /\ mainStreamIsValid s' = false
    /\ lastFrameType s' = None
    /\ calls s' = calls entry.
Proof.
  cbv zeta.
  apply (dataIteration_unknown_marker (blackboxHeaders true)
           (mainLog (blackboxHeaders true) [99; 73; 0; 10] 1 1) 64 false entry).
  - reflexivity.
  - cbn. lia.
  - reflexivity.
Defined.

(** ** The lines of the header *)

Lemma scanHeaderLine_loop_spec (log : flightLog) :
  forall (n : nat) (c : cursor) (before : option Z),
    let '(c1, after, complete) := scanHeaderLine_loop log n c before in
    logPos c <= logPos c1
    /\ firstColon log (logPos c) (logPos c1) before after
    /\ (complete = true -> lineScanned log (Z.of_nat n) (logPos c) (logPos c1)).
Proof.
  induction n as [|n IH]; intros c before; cbn [scanHeaderLine_loop].
  - split; [lia|]. split.
    + unfold firstColon. destruct before; [reflexivity|]. intros k Hk. lia.
    + intros _. unfold lineScanned. repeat split; intros; lia.
  - unfold readChar. destruct (Z.ltb_spec (logPos c) (logEnd log)) as [Hin|Hout].
    2:{ change (EOF =? 58) with false. change (EOF =? 10) with false.
        change (EOF =? EOF) with true. cbn [andb orb logPos].
        split; [lia|]. split.
        - unfold firstColon. destruct before; [reflexivity|]. intros k Hk. lia.
        - discriminate. }
    pose proof (byteAt_range log (logPos c)) as Hbyte.
    set (ch := byteAt log (logPos c)) in *.
    set (c1 := {| logPos := logPos c + 1; eof := eof c |}).
    set (sep := if (ch =? 58) && negb (isSome before) then Some (logPos c1 - 1)
                else before).
    assert (Hsep : firstColon log (logPos c) (logPos c + 1) before sep).
    { subst sep. unfold firstColon. destruct before as [b|]; cbn [isSome negb].
      - now rewrite andb_false_r.
      - rewrite andb_true_r. destruct (Z.eqb_spec ch 58) as [H58|H58].
        + cbn [logPos c1]. replace (logPos c + 1 - 1) with (logPos c) by lia.
          split; [lia|]. split; [exact H58|]. intros k Hk. lia.
        + intros k Hk. replace k with (logPos c) by lia. exact H58. }
    destruct (Z.eqb_spec ch 10) as [H10|H10].
    { cbn [logPos c1]. split; [lia|]. split; [exact Hsep|].
      intros _. unfold lineScanned.
      split; [lia|]. split; [lia|]. split; [intros k Hk; lia|].
      right. split; [lia|]. replace (logPos c + 1 - 1) with (logPos c) by lia.
      exact H10. }
    destruct (Z.eqb_spec ch EOF) as [He|He]; [unfold EOF in He; lia|].
    destruct (Z.eqb_spec ch 0) as [H0|H0]; cbn [orb].
    { cbn [logPos c1]. split; [lia|]. split; [exact Hsep | discriminate]. }
    specialize (IH c1 sep).
    destruct (scanHeaderLine_loop log n c1 sep) as [[c2 after] complete].
    destruct IH as (Hmono & Hcolon & Hline). cbn [logPos c1] in Hmono, Hcolon, Hline.
    split; [lia|]. split.
    + unfold firstColon in *. destruct before as [b|].
      * subst sep. cbn [isSome negb] in *. rewrite andb_false_r in *. exact Hcolon.
      * subst sep. cbn [isSome negb] in *. rewrite andb_true_r in *.
        destruct (Z.eqb_spec ch 58) as [H58|H58].
        -- rewrite Hcolon. cbn [logPos c1].
           replace (logPos c + 1 - 1) with (logPos c) by lia.
           split; [lia|]. split; [exact H58|]. intros k Hk. lia.
        -- destruct after as [s|].
           ++ destruct Hcolon as (Hr & Hs & Hno).
              split; [lia|]. split; [exact Hs|].
              intros k Hk. destruct (Z.eq_dec k (logPos c)) as [->|Hne];
                [exact H58 | apply Hno; lia].
           ++ intros k Hk. destruct (Z.eq_dec k (logPos c)) as [->|Hne];
                [exact H58 | apply Hcolon; lia].
    + intros Hc. destruct (Hline Hc) as (Hr & Hend & Hplain & Hlast).
      unfold lineScanned. rewrite Nat2Z.inj_succ.
      split; [lia|]. split; [lia|]. split.
      * intros k Hk. destruct (Z.eq_dec k (logPos c)) as [->|Hne];
          [split; assumption | apply Hplain; lia].
      * destruct Hlast as [Hl|[Hl1 Hl2]]; [left; lia | right; split; [lia|exact Hl2]].
Qed.

Lemma In_bytesBetween (log : flightLog) (a b x : Z) :
  In x (bytesBetween log a b) -> exists k, a <= k < b /\ byteAt log k = x.
Proof.
  unfold bytesBetween. rewrite in_map_iff. intros (j & Hx & Hj).
  apply in_seq in Hj. exists (a + Z.of_nat j). split; [lia | exact Hx].
Qed.

(** What [parseHeaderLine] takes for the name and the value of a header
    line.  When it goes on to compare the name, the cursor stood on a
    space; the name is what lies between the space and the first colon,
    with no colon, newline or NUL in it; the value is what lies between
    that colon and the last character read, with no newline or NUL in it;
    the last character read is a newline, or the 1024th character of a
    line that has none by then: such a line is cut there, its last
    character read is dropped and the cursor stays in the middle of the
    line.  The cursor ends inside the log, at most 1025 bytes on. *)
Theorem scanHeaderLine_fields (log : flightLog) (c c' : cursor) (name : list Z)
  (value : option (list Z)) :
  0 <= logPos c ->
  scanHeaderLine log c = Ok (c', Some (name, value)) ->
  exists sep,
    byteAt log (logPos c) = 32
    /\ logPos c + 1 <= sep < logPos c'
    /\ logPos c' <= logEnd log
    /\ logPos c' <= logPos c + 1025
    /\ byteAt log sep = 58
    /\ name = bytesBetween log (logPos c + 1) sep
    /\ (forall x, In x name -> x <> 58 /\ x <> 10 /\ x <> 0)
    /\ (byteAt log (logPos c' - 1) = 10 \/ logPos c' = logPos c + 1025)
    /\ match value with
       | Some v =>
           v = bytesBetween log (sep + 1) (logPos c' - 1)
           /\ forall x, In x v -> x <> 10 /\ x <> 0
       | None => sep = logPos c' - 1 /\ logPos c' = logPos c + 1025
       end.
Proof.
  intros Hpos. unfold scanHeaderLine.
  destruct (Z.leb_spec (Z.of_nat (length (logData log))) (logPos c)) as [Hfile|Hfile];
    [discriminate|].
  destruct (Z.eqb_spec (byteAt log (logPos c)) 32) as [Hspace|Hspace];
    cbn [negb]; [|discriminate].
  cbv zeta.
  pose proof (scanHeaderLine_loop_spec log 1024
                {| logPos := logPos c + 1; eof := eof c |} None) as Hloop.
  destruct (scanHeaderLine_loop log 1024 _ None) as [[c1 after] complete].
  cbn [logPos] in *. destruct Hloop as (Hmono & Hcolon & Hline).
  destruct complete; [|discriminate].
  destruct after as [sep|]; [|discriminate].
  intros Hret. inversion Hret. subst c' name value. clear Hret.
  destruct (Hline eq_refl) as (Hr & Hend & Hplain & Hlast).
  unfold firstColon in Hcolon. destruct Hcolon as (Hsr & Hs58 & Hno).
  change (Z.of_nat 1024) with 1024 in *.
  assert (Hinside : logPos c1 <= logEnd log) by lia.
  exists sep.
  split; [exact Hspace|]. split; [lia|]. split; [exact Hinside|].
  split; [lia|]. split; [exact Hs58|]. split; [reflexivity|]. split.
  { intros x Hx. apply In_bytesBetween in Hx. destruct Hx as (k & Hk & <-).
    destruct (Hplain k) as [H10 H0]; [lia|]. split; [apply Hno; lia|]. tauto. }
  split.
  { destruct Hlast as [Hl|[_ Hl]]; [right; lia | left; exact Hl]. }
  destruct (Z.leb_spec (sep + 1) (logPos c1 - 1)) as [Hv|Hv].
  - split; [reflexivity|]. intros x Hx. apply In_bytesBetween in Hx.
    destruct Hx as (k & Hk & <-). apply Hplain. lia.
  - assert (Hsep : sep = logPos c1 - 1) by lia. split; [exact Hsep|].
    destruct Hlast as [Hl|[_ Hl]]; [lia|].
    rewrite <- Hsep in Hl. congruence.
Qed.

Lemma scanHeaderLine_fields_witness :
  let log := defaultLog [32; 80; 58; 49; 47; 52; 10; 73] in
  exists sep,
    byteAt log 0 = 32 /\ 1 <= sep < 7 /\ byteAt log sep = 58.
Proof.
  cbv zeta.
  destruct (scanHeaderLine_fields (defaultLog [32; 80; 58; 49; 47; 52; 10; 73])
              start {| logPos := 7; eof := false |} [80] (Some [49; 47; 52]))
    as (sep & H1 & H2 & _ & _ & H3 & _).
  - cbn. lia.
  - vm_compute. reflexivity.
  - exists sep. cbn [logPos start] in *. split; [exact H1|]. split; [lia | exact H3].
Defined.

(** ** A keyframe predicted from two frames *)

Lemma applyPrediction_STRAIGHT_LINE_null (h : Headers) (log : flightLog)
  (m : memory) (fieldIndex value : Z) (current p : framePtr) :
  NoDup (predictorTags h) ->
  applyPrediction h log m fieldIndex (FLIGHT_LOG_FIELD_PREDICTOR_STRAIGHT_LINE h)
    value current (Some p) None = Undefined.
Proof.
  intros Hnd. unfold applyPrediction.
  tag_differs h 6%nat 0%nat. tag_differs h 6%nat 1%nat. tag_differs h 6%nat 2%nat.
  tag_differs h 6%nat 3%nat. tag_differs h 6%nat 4%nat. tag_differs h 6%nat 5%nat.
  rewrite Z.eqb_refl. reflexivity.
Qed.

Lemma parseFrame_STRAIGHT_LINE_null (h : Headers) (log : flightLog)
  (frameType : Z) (frame p : framePtr) (fieldCount skippedFrames : Z)
  (c : cursor) (m : memory) :
  NoDup (predictorTags h) ->
  FLIGHT_LOG_FIELD_PREDICTOR_STRAIGHT_LINE h <> FLIGHT_LOG_FIELD_PREDICTOR_INC h ->
  0 < fieldCount ->
  aget (predictor (frameDefs log frameType)) 0
  = FLIGHT_LOG_FIELD_PREDICTOR_STRAIGHT_LINE h ->
  In (aget (encoding (frameDefs log frameType)) 0) (encodingTags h) ->
  parseFrame h log frameType frame (Some p) None fieldCount skippedFrames false c m
  = Undefined.
Proof.
  intros Hnd Hinc Hcount Hpred Henc. unfold parseFrame.
  destruct (Z.to_nat fieldCount) as [|fuel] eqn:Hfuel; [lia|].
  cbn [parseFrame_loop].
  destruct (Z.ltb_spec 0 fieldCount); [|lia]. cbv zeta.
  rewrite Hpred.
  destruct (Z.eqb_spec (FLIGHT_LOG_FIELD_PREDICTOR_STRAIGHT_LINE h)
              (FLIGHT_LOG_FIELD_PREDICTOR_INC h)); [contradiction|].
  assert (Hsingle : forall value,
            applyPrediction h log m 0 (FLIGHT_LOG_FIELD_PREDICTOR_STRAIGHT_LINE h)
              value frame (Some p) None = Undefined)
    by (intros value; now apply applyPrediction_STRAIGHT_LINE_null).
  assert (Hgroup : forall values,
            (0 < length values)%nat ->
            applyGroup h log false (predictor (frameDefs log frameType)) values 0
              frame (Some p) None m = Undefined).
  { intros [|v values] Hl; [cbn in Hl; lia|].
    cbn [applyGroup]. rewrite Hpred, Hsingle. reflexivity. }
  destruct (_ =? FLIGHT_LOG_FIELD_ENCODING_SIGNED_VB h) eqn:E1.
  { destruct (readSignedVB log c). now rewrite Hsingle. }
  destruct (_ =? FLIGHT_LOG_FIELD_ENCODING_UNSIGNED_VB h) eqn:E2.
  { destruct (readUnsignedVB log c). now rewrite Hsingle. }
  destruct (_ =? FLIGHT_LOG_FIELD_ENCODING_NEG_14BIT h) eqn:E3.
  { destruct (readUnsignedVB log c). now rewrite Hsingle. }
  destruct (_ =? FLIGHT_LOG_FIELD_ENCODING_TAG8_4S16 h) eqn:E4.
  { assert (Hl : (4 <= length (fst (if (dataVersion log <? 2)%Z
                                    then readTag8_4S16_v1 log c
                                    else readTag8_4S16_v2 log c)))%nat).
    { destruct (dataVersion log <? 2).
      - rewrite (proj2 (readTag8_4S16_v1_advanced log c)). lia.
      - rewrite (proj2 (readTag8_4S16_v2_advanced log c)). lia. }
    destruct (if dataVersion log <? 2 then _ else _) as [values c1].
    cbn [fst] in Hl. rewrite Hgroup; [reflexivity|].
    rewrite length_firstn. lia. }
  destruct (_ =? FLIGHT_LOG_FIELD_ENCODING_TAG2_3S32 h) eqn:E5.
  { pose proof (proj2 (readTag2_3S32_advanced log c)) as Hl.
    destruct (readTag2_3S32 log c) as [values c1]. cbn [fst] in Hl.
    rewrite Hgroup; [reflexivity|]. rewrite length_firstn. lia. }
  destruct (_ =? FLIGHT_LOG_FIELD_ENCODING_TAG8_8SVB h) eqn:E6.
  { pose proof (groupEnd_ge h log (encoding (frameDefs log frameType)) 8 0 (0 + 1))
      as Hge.
    pose proof (proj2 (readTag8_8SVB_advanced log
                         (groupEnd h log (encoding (frameDefs log frameType)) 8 0
                            (0 + 1) - 0) c)) as Hl.
    destruct (readTag8_8SVB log _ c) as [values c1]. cbn [fst] in Hl.
    rewrite Hgroup; [reflexivity|]. rewrite length_firstn, Hl.
    destruct (_ =? 1); lia. }
  destruct (_ =? FLIGHT_LOG_FIELD_ENCODING_NULL h) eqn:E7.
  { now rewrite Hsingle. }
  exfalso. cbn [encodingTags In] in Henc.
  apply Z.eqb_neq in E1, E2, E3, E4, E5, E6, E7.
  intuition congruence.
Qed.

Lemma countSkippedFrames_no_exit (h : Headers) (log : flightLog) (wrap : Z -> Z) :
  positiveIntervals log ->
  forall (fuel : nat) (frameIndex skippedFrames : Z),
    countSkippedFrames h log fuel wrap frameIndex skippedFrames <> Exit.
Proof.
  intros Hpos. induction fuel as [|fuel IH]; intros frameIndex skippedFrames;
    cbn [countSkippedFrames]; [discriminate|].
  destruct (shouldHaveFrame_defined h log frameIndex Hpos) as [b ->].
  cbn [bind]. destruct b; [discriminate | apply IH].
Qed.

(** A keyframe must not be predicted from two frames.  [parseIntraframe]
    hands the previous frame to [parseFrame] but NULL for the one before
    it; so when the definition of the I frames gives the first field the
    predictor [STRAIGHT_LINE] (and an encoding that [parseFrame] knows),
    every keyframe decoded after a previous frame reads through the NULL
    pointer, whatever its bytes are. *)
Theorem keyframe_straight_line_reads_null (h : Headers) (log : flightLog)
  (fuel : nat) (s : parser) (p : framePtr) :
  NoDup (predictorTags h) ->
  FLIGHT_LOG_FIELD_PREDICTOR_STRAIGHT_LINE h <> FLIGHT_LOG_FIELD_PREDICTOR_INC h ->
  positiveIntervals log ->
  mainHistory1 s = Some p ->
  0 < mainFieldCount log ->
  aget (predictor (frameDefs log (marker IntraFrame))) 0
  = FLIGHT_LOG_FIELD_PREDICTOR_STRAIGHT_LINE h ->
  In (aget (encoding (frameDefs log (marker IntraFrame))) 0) (encodingTags h) ->
  (parse IntraFrame h log fuel false s = Undefined
   \/ parse IntraFrame h log fuel false s = OutOfFuel)
  /\ (2 ^ 32 < Z.of_nat fuel -> parse IntraFrame h log fuel false s = Undefined).
Proof.
  intros Hnd Hinc Hpos Hprev Hcount Hpred Henc.
  cbn [parse]. unfold parseIntraframe. cbv zeta. rewrite Hprev.
  pose proof (countSkippedFrames_defined h log to_int32 Hpos fuel
                (to_uint32 (to_int32
                   (load (mem s) p FLIGHT_LOG_FIELD_INDEX_ITERATION + 1))) 0)
    as Hdef.
  pose proof (countSkippedFrames_no_exit h log to_int32 Hpos fuel
                (to_uint32 (to_int32
                   (load (mem s) p FLIGHT_LOG_FIELD_INDEX_ITERATION + 1))) 0)
    as Hexit.
  pose proof (countSkippedFrames_enough h log to_int32 fuel
                (to_int32 (load (mem s) p FLIGHT_LOG_FIELD_INDEX_ITERATION + 1)) 0
                Hpos) as Henough.
  pose proof (countSkippedFrames_in_bounds h log to_int32 fuel
                (to_uint32 (to_int32
                   (load (mem s) p FLIGHT_LOG_FIELD_INDEX_ITERATION + 1))) 0)
    as Hin.
  destruct (countSkippedFrames h log fuel to_int32 _ 0) as [n| | | |];
    cbn [bind]; try contradiction.
  - rewrite parseFrame_STRAIGHT_LINE_null by assumption. cbn [bind].
    split; [left; reflexivity | reflexivity].
  - split; [right; reflexivity|]. intros Hfuel.
    destruct (Henough Hfuel) as [n Hn]. discriminate.
Qed.

Lemma keyframe_straight_line_reads_null_witness :
  let h := blackboxHeaders true in
  let log := straightLineLog h [73; 0; 10; 73; 1; 20] in
  let s := set_cur (afterPasses h log false 2) {| logPos := 4; eof := false |} in
  parse IntraFrame h log 64 false s = Undefined
  \/ parse IntraFrame h log 64 false s = OutOfFuel.
Proof.
  cbv zeta.
  apply (keyframe_straight_line_reads_null (blackboxHeaders true)
           (straightLineLog (blackboxHeaders true) [73; 0; 10; 73; 1; 20]) 64
           (set_cur (afterPasses (blackboxHeaders true)
                       (straightLineLog (blackboxHeaders true) [73; 0; 10; 73; 1; 20])
                       false 2) {| logPos := 4; eof := false |})
           (RingRow 0)).
  - unfold predictorTags. cbn.
    repeat (constructor; [cbn; intros Hin; lia|]). constructor.
  - cbn. lia.
  - unfold positiveIntervals, INT_MAX. cbn. lia.
  - vm_compute. reflexivity.
  - cbn. lia.
  - reflexivity.
  - cbn. auto.
Defined.

(** ** The size of the frames handed over *)

Lemma dataIteration_sizes (h : Headers) (log : flightLog) (fuel : nat) (raw : bool)
  (lo : Z) (base : list callback) (s : parser) (new : list callback) :
  calls s = base ++ new ->
  traceInvariant log lo s new ->
  logEnd log - lo < 2 ^ 32 ->
  forallb (sizeBounded h) new = true ->
  exists new',
    calls (stateOf (dataIteration h log fuel raw s)) = base ++ new'
    /\ forallb (sizeBounded h) new' = true.
Proof.
  intros Hcalls (Hlo & Hpos & _) Hsmall Hsizes.
  unfold dataIteration.
  assert (Hread : logPos (cur s) <= logPos (snd (readChar log (cur s)))
                  <= logEnd log).
  { unfold readChar. destruct (Z.ltb_spec (logPos (cur s)) (logEnd log));
      cbn [snd logPos]; lia. }
  destruct (readChar log (cur s)) as [command c1]. cbn [snd] in Hread.
  cbn [lastFrameType set_cur frameStart prematureEof].
  destruct (lastFrameType s) as [lastType|].
  2:{ exists new. split; [|exact Hsizes].
      rewrite (proj1 (beginFrame_calls _ _ _ _ _ _)). exact Hcalls. }
  destruct (Z.leb_spec (to_uint32 (logPos c1 - frameStart s))
              (FLIGHT_LOG_MAX_FRAME_LENGTH h)) as [Hmax|Hmax]; cbn [andb].
  2:{ unfold corruptFrame, countCorrupt.
      destruct (onFrameReady log).
      - eexists (new ++ [_]).
        cbn [stateOf calls call set_locals set_cur set_stats set_mainStreamIsValid].
        split; [rewrite Hcalls; now rewrite app_assoc|].
        apply forallb_app_last; [exact Hsizes | reflexivity].
      - exists new.
        cbn [stateOf calls call set_locals set_cur set_stats set_mainStreamIsValid].
        split; [exact Hcalls | exact Hsizes]. }
  destruct (_ || _).
  - set (s2 := countValid _ _ _).
    destruct (complete_calls lastType log (marker lastType) (frameStart s)
                (logPos c1) raw s2) as (l & Hl & Hshape).
    exists (new ++ l). split.
    { rewrite (proj1 (beginFrame_calls _ _ _ _ _ _)), Hl.
      change (calls s2) with (calls s). rewrite Hcalls. now rewrite app_assoc. }
    destruct Hshape as [->|[(v & f & n & ->)|(e & ->)]]; rewrite ?app_nil_r;
      try exact Hsizes; apply forallb_app_last; try exact Hsizes;
      try reflexivity.
    rewrite to_uint32_small in Hmax by lia.
    destruct f as [fields|]; [|reflexivity]. cbn [sizeBounded].
    apply andb_true_iff. split; apply Z.leb_le; lia.
  - unfold corruptFrame, countCorrupt.
    destruct (onFrameReady log).
    + eexists (new ++ [_]).
      cbn [stateOf calls call set_locals set_cur set_stats set_mainStreamIsValid].
      split; [rewrite Hcalls; now rewrite app_assoc|].
      apply forallb_app_last; [exact Hsizes | reflexivity].
    + exists new.
      cbn [stateOf calls call set_locals set_cur set_stats set_mainStreamIsValid].
      split; [exact Hcalls | exact Hsizes].
Qed.

Lemma dataLoop_sizes (h : Headers) (log : flightLog) (fuel : nat) (raw : bool)
  (lo : Z) (base : list callback) :
  logEnd log - lo < 2 ^ 32 ->
  forall (n : nat) (s : parser) (new : list callback),
    calls s = base ++ new ->
    traceInvariant log lo s new ->
    forallb (sizeBounded h) new = true ->
    exists new',
      calls (stateOf (dataLoop h log fuel raw n s)) = base ++ new'
      /\ forallb (sizeBounded h) new' = true.
Proof.
  intros Hsmall. induction n as [|n IH]; intros s new Hcalls Hinv Hsizes;
    cbn [dataLoop].
  - exists new. split; assumption.
  - destruct (dataIteration_trace h log fuel raw lo base s new Hcalls Hinv)
      as (new1 & Hcalls1 & _ & _ & Hcont & _).
    destruct (dataIteration_sizes h log fuel raw lo base s new Hcalls Hinv Hsmall
                Hsizes) as (new2 & Hcalls2 & Hsizes2).
    assert (new2 = new1)
      by (rewrite Hcalls1 in Hcalls2; now apply app_inv_head in Hcalls2).
    subst new2.
    destruct (dataIteration h log fuel raw s) as [s1|s1|why s1] eqn:Hit.
    + apply (IH s1 new1); [exact Hcalls1 | now apply Hcont | exact Hsizes2].
    + exists new1. split; assumption.
    + exists new1. split; assumption.
Qed.

(** No frame longer than [FLIGHT_LOG_MAX_FRAME_LENGTH] is handed over with
    its fields.  Over any number of passes through the data loop, from a
    state whose frame in progress starts at or before the cursor in a log
    of less than [2 ^ 32] bytes, every call of the frame-ready handler that
    passes fields reports a size from 0 to [FLIGHT_LOG_MAX_FRAME_LENGTH]
    (the size counts the bytes from after the marker of the frame to after
    the marker of the next). *)
Theorem decoded_frames_bounded (h : Headers) (log : flightLog) (raw : bool)
  (fuel n : nat) (s : parser) :
  frameStart s <= logPos (cur s) <= logEnd log ->
  logEnd log - frameStart s < 2 ^ 32 ->
  exists new,
    calls (stateOf (dataLoop h log fuel raw n s)) = calls s ++ new
    /\ forallb (sizeBounded h) new = true.
Proof.
  intros Hpos Hsmall.
  apply (dataLoop_sizes h log fuel raw (frameStart s) (calls s) Hsmall n s []).
  - now rewrite app_nil_r.
  - now apply traceInvariant_start.
  - reflexivity.
Qed.

Lemma decoded_frames_bounded_witness :
  let h := blackboxHeaders true in
  let log := mainLog h [73; 0; 10; 80; 4; 99; 73; 1; 20; 80; 2] 1 1 in
  exists new,
    calls (stateOf (dataLoop h log 64 false 12 entry)) = calls entry ++ new
    /\ forallb (sizeBounded h) new = true.
Proof.
  cbv zeta.
  apply (decoded_frames_bounded (blackboxHeaders true)
           (mainLog (blackboxHeaders true) [73; 0; 10; 80; 4; 99; 73; 1; 20; 80; 2] 1 1)
           false 64 12 entry).
  - cbn. lia.
  - cbn. lia.
Defined.
